(** * Butler: repository-graph resolution and dataset location

    A shallow embedding of [python/lsst/daf/persistence/butler.py]
    (classes [RepoData], [RepoDataContainer] and [Butler]) together with the
    properties of its natural-language specification.

    Conventions.
    - Python objects that are shared and mutated ([RepoData]) live in an
      arena ([Heap]); a reference is an index into it, and object identity
      ([is], [id()]) is equality of indices.
    - A Python [dict] that is iterated is an association list in iteration
      order; a Python [set] is a [gset].
    - A call either returns, raises, or (for the recursive and looping
      functions, which are given fuel) runs out of fuel: type [outcome]. *)

From Stdlib Require Import Strings.String Strings.Ascii ZArith Bool Lia.
From stdpp Require Import base option list gmap strings.

Local Open Scope string_scope.
Local Open Scope list_scope.

#[local] Set Warnings "-clear-no-such-hyp".

(** ** Outcomes of a call *)

Inductive exn : Type :=
| RuntimeError (msg : string)
| NoResults (msg : string)
| NameError (name : string)
| KeyError (key : string)
| TypeError (msg : string)
| UnboundLocalError (name : string)
| AttributeError (msg : string)
| IndexError (msg : string).

Inductive outcome (A : Type) : Type :=
| Ret (a : A)
| Raise (e : exn)
| OutOfFuel.

Arguments Ret {A} a.
Arguments Raise {A} e.
Arguments OutOfFuel {A}.

Definition bind {A B : Type} (k : A -> outcome B) (m : outcome A) : outcome B :=
  match m with
  | Ret a => k a
  | Raise e => Raise e
  | OutOfFuel => OutOfFuel
  end.

#[global] Instance outcome_mbind : MBind outcome := @bind.
#[global] Instance outcome_mret : MRet outcome := @Ret.

(** A [for] loop whose body may raise: the state is threaded left to right
    and the first exception ends the loop. *)
Fixpoint foldM {A S : Type} (body : S -> A -> outcome S) (l : list A) (s : S)
  : outcome S :=
  match l with
  | [] => Ret s
  | x :: l' => s' ← body s x; foldM body l' s'
  end.

Definition raises {A : Type} (m : outcome A) : Prop :=
  exists e, m = Raise e.

(** ** Python string primitives used by the alias code *)

Definition at_sign : ascii := "@"%char.

(** [c in s] *)
Fixpoint contains (c : ascii) (s : string) : bool :=
  match s with
  | EmptyString => false
  | String a s' => if Ascii.eqb a c then true else contains c s'
  end.

(** [s.count(c)] for a one-character [c] *)
Fixpoint count (c : ascii) (s : string) : nat :=
  match s with
  | EmptyString => 0
  | String a s' => (if Ascii.eqb a c then 1 else 0) + count c s'
  end.

(** [s.find(c)]: index of the first occurrence, [-1] when there is none *)
Fixpoint find (c : ascii) (s : string) : Z :=
  match s with
  | EmptyString => (-1)%Z
  | String a s' =>
      if Ascii.eqb a c then 0%Z
      else let r := find c s' in if (r =? -1)%Z then (-1)%Z else (r + 1)%Z
  end.

(** [s.rfind(c)]: index of the last occurrence, [-1] when there is none *)
Fixpoint rfind (c : ascii) (s : string) : Z :=
  match s with
  | EmptyString => (-1)%Z
  | String a s' =>
      let r := rfind c s' in
      if (r =? -1)%Z then (if Ascii.eqb a c then 0%Z else (-1)%Z)
      else (r + 1)%Z
  end.

(** [s.startswith(p)] *)
Definition startswith (s p : string) : bool := String.prefix p s.

(** [s.replace(old, new)]: the occurrences of [old] are found left to right
    and do not overlap.  [skip] counts the characters of a match that are
    still to be dropped.  For an empty [old] Python puts [new] before every
    character and at the end. *)
Fixpoint replace_from (old new : string) (skip : nat) (s : string) : string :=
  match s with
  | EmptyString => EmptyString
  | String a s' =>
      match skip with
      | S k => replace_from old new k s'
      | O =>
          if String.prefix old s
          then (new ++ replace_from old new (String.length old - 1) s')%string
          else String a (replace_from old new 0 s')
      end
  end.

Fixpoint intersperse_before (new s : string) : string :=
  match s with
  | EmptyString => new
  | String a s' => (new ++ String a (intersperse_before new s'))%string
  end.

Definition replace (old new s : string) : string :=
  match old with
  | EmptyString => intersperse_before new s
  | String _ _ => replace_from old new 0 s
  end.

(** ** The alias table ([Butler.datasetTypeAliasDict]) *)

Definition AliasDict : Type := list (string * string).

Fixpoint dict_get (d : AliasDict) (k : string) : option string :=
  match d with
  | [] => None
  | (k', v) :: d' => if String.eqb k' k then Some v else dict_get d' k
  end.

(** [d[k] = v]: an existing key keeps its place, a new key goes last. *)
Fixpoint dict_set (d : AliasDict) (k v : string) : AliasDict :=
  match d with
  | [] => [(k, v)]
  | (k', v') :: d' =>
      if String.eqb k' k then (k', v) :: d' else (k', v') :: dict_set d' k v
  end.

Definition dict_keys (d : AliasDict) : list string := map fst d.

(** [Butler.defineAlias] *)
Definition overlaps (alias key : string) : bool :=
  startswith key alias || startswith alias key.

Definition defineAlias (d : AliasDict) (alias datasetType : string)
  : outcome AliasDict :=
  let atLoc := rfind at_sign alias in
  alias ← (if (atLoc =? -1)%Z then Ret ("@" ++ alias)%string
            else if (atLoc >? 0)%Z
                 then Raise (RuntimeError "Badly formatted alias string")
                 else Ret alias);
  if negb (Nat.eqb (count at_sign datasetType) 0)
  then Raise (RuntimeError "Badly formatted type string")
  else
    _ ← foldM (fun (_ : unit) key =>
                  if overlaps alias key
                  then Raise (RuntimeError "Alias overlaps with existing alias")
                  else Ret tt)
               (dict_keys d) tt;
    Ret (dict_set d alias datasetType).

(** [Butler._resolveDatasetTypeAlias]: the [for] loop over the table, with
    its [break], then the final check. *)
Fixpoint resolve_loop (d : AliasDict) (datasetType : string) : string :=
  match d with
  | [] => datasetType
  | (key, target) :: d' =>
      if (find at_sign datasetType =? -1)%Z then datasetType
      else resolve_loop d' (replace key target datasetType)
  end.

Definition _resolveDatasetTypeAlias (d : AliasDict) (datasetType : string)
  : outcome string :=
  let datasetType := resolve_loop d datasetType in
  if negb (find at_sign datasetType =? -1)%Z
  then Raise (RuntimeError "Unresolvable alias specifier in datasetType")
  else Ret datasetType.

(** ** Repository configurations and declarations *)

(** [RepositoryCfg]: the fields [butler.py] reads.  An entry of the parent
    list is a root/URI string or an embedded configuration record. *)
Inductive RepositoryCfg : Type :=
| mkCfg (root : string) (mapper : option string) (mapperArgs : option string)
        (parents : option (list ParentVal))
with ParentVal : Type :=
| PRoot (uri : string)
| PCfg (c : RepositoryCfg).

Definition cfg_root (c : RepositoryCfg) : string :=
  match c with mkCfg r _ _ _ => r end.
Definition cfg_mapper (c : RepositoryCfg) : option string :=
  match c with mkCfg _ m _ _ => m end.
Definition cfg_mapperArgs (c : RepositoryCfg) : option string :=
  match c with mkCfg _ _ a _ => a end.
Definition cfg_parents (c : RepositoryCfg) : option (list ParentVal) :=
  match c with mkCfg _ _ _ p => p end.

(** Python [==] on optional opaque values (mapper identities, mapper
    arguments, policies), encoded as strings. *)
Definition opt_eqb (a b : option string) : bool :=
  match a, b with
  | None, None => true
  | Some x, Some y => String.eqb x y
  | _, _ => false
  end.

(** Python [==] on configurations and on parent-list entries. *)
Fixpoint cfg_eqb (a b : RepositoryCfg) : bool :=
  match a, b with
  | mkCfg r m ma ps, mkCfg r' m' ma' ps' =>
      String.eqb r r' && opt_eqb m m' && opt_eqb ma ma' &&
      match ps, ps' with
      | None, None => true
      | Some l, Some l' =>
          (fix go (l l' : list ParentVal) : bool :=
             match l, l' with
             | [], [] => true
             | x :: xs, y :: ys => pv_eqb x y && go xs ys
             | _, _ => false
             end) l l'
      | _, _ => false
      end
  end
with pv_eqb (a b : ParentVal) : bool :=
  match a, b with
  | PRoot s, PRoot s' => String.eqb s s'
  | PCfg c, PCfg c' => cfg_eqb c c'
  | _, _ => false
  end.

Fixpoint pvs_eqb (l l' : list ParentVal) : bool :=
  match l, l' with
  | [], [] => true
  | x :: xs, y :: ys => pv_eqb x y && pvs_eqb xs ys
  | _, _ => false
  end.

(** [RepositoryArgs], after [_processInputArguments] has set the mode. *)
Record RepositoryArgs : Type := mkArgs {
  args_cfgRoot : string;
  args_mode : string;
  args_mapper : option string;
  args_mapperArgs : option string;
  args_policy : option string;
  args_tags : gset string
}.

Definition set_args_mapper (a : RepositoryArgs) (m : option string) : RepositoryArgs :=
  mkArgs (args_cfgRoot a) (args_mode a) m (args_mapperArgs a) (args_policy a) (args_tags a).

(** Modelled from the spec: [RepositoryCfg.makeFromArgs] (class
    [RepositoryCfg] is not among the sources).  "Synthesize a new
    configuration from the declaration": the declaration's root, mapper and
    mapper arguments, and no parents yet. *)
Definition makeFromArgs (a : RepositoryArgs) : RepositoryCfg :=
  mkCfg (args_cfgRoot a) (args_mapper a) (args_mapperArgs a) (Some []).

(** Modelled from the spec: [RepositoryCfg.addParents] (class
    [RepositoryCfg] is not among the sources).  "Store this as its
    configuration's parent list". *)
Definition addParents (c : RepositoryCfg) (ps : list ParentVal) : RepositoryCfg :=
  mkCfg (cfg_root c) (cfg_mapper c) (cfg_mapperArgs c) (Some ps).

(** ** [RepoData] and the arena *)

Inductive Origin : Type := new | existing | nested.

#[global] Instance Origin_eq_dec : EqDecision Origin.
Proof. solve_decision. Defined.

Record RepoData : Type := mkRepoData {
  cfg : option RepositoryCfg;
  cfgOrigin : option Origin;
  cfgRoot : option string;
  parentRepoDatas : list nat;
  tags : gset string
}.

(** [RepoData.__init__] *)
Definition RepoData_init : RepoData := mkRepoData None None None [] ∅.

Abbreviation Heap := (list RepoData).

(** [RepoData.setCfg].  The check that [origin] is one of ['new'],
    ['existing'], ['nested'] is the type [Origin]. *)
Definition setCfg (rd : RepoData) (c : RepositoryCfg) (origin : Origin)
    (root : option string) : RepoData :=
  mkRepoData (Some c) (Some origin) root (parentRepoDatas rd) (tags rd).

(** [RepoData.isNewRepository] *)
Definition isNewRepository (rd : RepoData) : bool :=
  bool_decide (cfgOrigin rd = Some new).

(** [RepoData.addTags] *)
Definition addTags (rd : RepoData) (ts : gset string) : RepoData :=
  mkRepoData (cfg rd) (cfgOrigin rd) (cfgRoot rd) (parentRepoDatas rd) (tags rd ∪ ts).

(** [RepoData.addParentRepoData] *)
Definition addParentRepoData (rd : RepoData) (parent : nat) : RepoData :=
  mkRepoData (cfg rd) (cfgOrigin rd) (cfgRoot rd) (parentRepoDatas rd ++ [parent]) (tags rd).

(** The parents of the object a reference points to. *)
Definition parents_of (h : Heap) (r : nat) : list nat :=
  match h !! r with
  | Some rd => parentRepoDatas rd
  | None => []
  end.

(** Apply a method that mutates the object behind a reference. *)
Definition update (h : Heap) (r : nat) (f : RepoData -> RepoData) : Heap :=
  match h !! r with
  | Some rd => <[r := f rd]> h
  | None => h
  end.

(** [ArgsAndData = namedtuple('ArgsAndData', ['repoArgs', 'repoData'])] *)
Record ArgsAndData : Type := mkArgsAndData {
  repoArgs : RepositoryArgs;
  repoData : nat
}.

(** ['r' in mode], ['w' in mode] *)
Definition readable (a : ArgsAndData) : bool := contains "r" (args_mode (repoArgs a)).
Definition writable (a : ArgsAndData) : bool := contains "w" (args_mode (repoArgs a)).

(** [RepoData.getParentRepoDatas]: parents, grandparents and so on, depth
    first, an ancestor once per path that leads to it. *)
Fixpoint getParentRepoDatas (fuel : nat) (h : Heap) (r : nat) : outcome (list nat) :=
  match fuel with
  | O => OutOfFuel
  | S f =>
      foldM (fun parents parent =>
               ps ← getParentRepoDatas f h parent;
               Ret ((parents ++ [parent]) ++ ps))
            (parents_of h r) []
  end.

(** ** [RepoDataContainer] *)

Record RepoDataContainer : Type := mkContainer {
  _inputs : option (list nat);
  _outputs : option (list nat);
  _all : gset nat
}.

(** [RepoDataContainer.__init__] *)
Definition RepoDataContainer_init : RepoDataContainer := mkContainer None None ∅.

(** [RepoDataContainer.add] *)
Definition add (c : RepoDataContainer) (r : nat) : RepoDataContainer :=
  mkContainer (_inputs c) (_outputs c) ({[r]} ∪ _all c).

(** [RepoDataContainer.inputs] *)
Definition inputs_of (c : RepoDataContainer) : outcome (list nat) :=
  match _inputs c with
  | None => Raise (RuntimeError "Inputs not yet initialized.")
  | Some l => Ret l
  end.

(** [RepoDataContainer.outputs] *)
Definition outputs_of (c : RepoDataContainer) : outcome (list nat) :=
  match _outputs c with
  | None => Raise (RuntimeError "Outputs not yet initialized.")
  | Some l => Ret l
  end.

(** The local function [addToList] of [_buildLookupLists]; its state is the
    list being built and the set [alreadyAdded] of [id()]s. *)
Fixpoint addToList (fuel : nat) (h : Heap) (st : list nat * gset nat) (r : nat)
  : outcome (list nat * gset nat) :=
  match fuel with
  | O => OutOfFuel
  | S f =>
      let '(lst, alreadyAdded) := st in
      if decide (r ∈ alreadyAdded) then Ret st
      else foldM (addToList f h) (parents_of h r) (lst ++ [r], {[r]} ∪ alreadyAdded)
  end.

(** [RepoDataContainer._buildLookupLists] *)
Definition _buildLookupLists (fuel : nat) (h : Heap) (c : RepoDataContainer)
    (inputs outputs : list ArgsAndData) : outcome RepoDataContainer :=
  if bool_decide (_inputs c <> None) || bool_decide (_outputs c <> None)
  then Raise (RuntimeError "Lookup lists are already built.")
  else
    st ← foldM (fun st argsAndData =>
                  if readable argsAndData
                  then addToList fuel h st (repoData argsAndData)
                  else Ret st)
               outputs ([], ∅);
    st ← foldM (fun st argsAndData => addToList fuel h st (repoData argsAndData))
               inputs st;
    Ret (mkContainer (Some (fst st)) (Some (map repoData outputs)) (_all c)).

(** ** Tag propagation *)

(** The local function [setTags] of [_setRepoDataTags]. *)
Fixpoint setTags (fuel : nat) (ts : gset string) (h : Heap) (r : nat) : outcome Heap :=
  match fuel with
  | O => OutOfFuel
  | S f =>
      let h := update h r (fun rd => addTags rd ts) in
      foldM (setTags f ts) (parents_of h r) h
  end.

(** [Butler._setRepoDataTags] *)
Definition _setRepoDataTags (fuel : nat) (h : Heap) (inputs outputs : list ArgsAndData)
  : outcome Heap :=
  foldM (fun h argsAndData =>
           setTags fuel (args_tags (repoArgs argsAndData)) h (repoData argsAndData))
        (outputs ++ inputs) h.

(** ** Graph construction: configurations and parent lists *)

(** Follow a reference.  A Python reference always points to an object; a
    reference outside the arena has no counterpart in the program. *)
Definition deref (h : Heap) (r : nat) : outcome RepoData :=
  match h !! r with
  | Some rd => Ret rd
  | None => Raise (RuntimeError "reference outside the arena")
  end.

Definition cfg_of (rd : RepoData) : outcome RepositoryCfg :=
  match cfg rd with
  | Some c => Ret c
  | None => Raise (AttributeError "'NoneType' object has no attribute")
  end.

(** [Butler._makeRepoDataForInputsAndOutputs]: a fresh [RepoData()] for
    every declaration. *)
Fixpoint makeRepoDatas (h : Heap) (l : list RepositoryArgs) : Heap * list ArgsAndData :=
  match l with
  | [] => (h, [])
  | args :: l' =>
      let '(h', rest) := makeRepoDatas (h ++ [RepoData_init]) l' in
      (h', mkArgsAndData args (length h) :: rest)
  end.

Definition _makeRepoDataForInputsAndOutputs (h : Heap)
    (inputs outputs : list RepositoryArgs)
  : Heap * (list ArgsAndData * list ArgsAndData) :=
  let '(h, inputs) := makeRepoDatas h inputs in
  let '(h, outputs) := makeRepoDatas h outputs in
  (h, (inputs, outputs)).

(** [Butler._getParentVal].  [setCfg] sets [cfg] and [cfgOrigin] together,
    so an origin without a configuration is answered like the missing
    configuration it is. *)
Definition _getParentVal (repoData : RepoData) : outcome ParentVal :=
  c ← cfg_of repoData;
  if decide (cfgOrigin repoData = Some nested) then Ret (PCfg c)
  else Ret (PRoot (cfg_root c)).

(** [Butler._getParents] *)
Definition _getParents (h : Heap) (ofRepoData : nat)
    (inputs outputs : list ArgsAndData) : outcome (list ParentVal) :=
  foldM (fun parents argsAndData =>
           if decide (repoData argsAndData = ofRepoData) then Ret parents
           else if negb (readable argsAndData) then Ret parents
           else
             rd ← deref h (repoData argsAndData);
             v ← _getParentVal rd;
             Ret (parents ++ [v]))
        (outputs ++ inputs) [].

Section Construction.

(** The repositories on storage, as the construction sees them:
    [Storage.getRepositoryCfg], [Storage.isPosix],
    [PosixStorage.v1RepoExists], [PosixStorage.getMapperClass] and
    [PosixStorage.getParentSymlinkPath]. *)
Variable getRepositoryCfg : string -> option RepositoryCfg.
Variable isPosix : string -> bool.
Variable v1RepoExists : string -> bool.
Variable getMapperClass : string -> option string.
Variable getParentSymlinkPath : string -> option string.

(** Python truth of an optional string: [None] and [''] are false. *)
Definition truthy (o : option string) : bool :=
  match o with
  | Some (String _ _) => true
  | _ => false
  end.

(** [Butler._getOldButlerRepositoryCfg].  It may write the mapper into the
    declaration it is given; the declaration is returned with the
    configuration. *)
Definition _getOldButlerRepositoryCfg (repositoryArgs : RepositoryArgs)
  : RepositoryArgs * option RepositoryCfg :=
  if negb (isPosix (args_cfgRoot repositoryArgs)) then (repositoryArgs, None)
  else if negb (v1RepoExists (args_cfgRoot repositoryArgs)) then (repositoryArgs, None)
  else
    let repositoryArgs :=
      if negb (truthy (args_mapper repositoryArgs))
      then set_args_mapper repositoryArgs (getMapperClass (args_cfgRoot repositoryArgs))
      else repositoryArgs in
    let c := makeFromArgs repositoryArgs in
    let parent := getParentSymlinkPath (args_cfgRoot repositoryArgs) in
    (repositoryArgs,
     Some (if truthy parent
           then addParents c (match parent with Some p => [PRoot p] | None => [] end)
           else c)).

(** The configuration found for a declaration: the persisted one, or else
    the one of an old-style repository at that root. *)
Definition lookup_cfg (args : RepositoryArgs) : RepositoryArgs * option RepositoryCfg :=
  match getRepositoryCfg (args_cfgRoot args) with
  | Some c => (args, Some c)
  | None => _getOldButlerRepositoryCfg args
  end.

Definition is_some {A : Type} (o : option A) : bool :=
  match o with Some _ => true | None => false end.

(** The flag [cfgMatchesArgs] of [_getCfgsForInputsAndOutputs]. *)
Definition cfgMatchesArgs (args : RepositoryArgs) (c : RepositoryCfg) : bool :=
  if (is_some (args_mapper args) && negb (opt_eqb (cfg_mapper c) (args_mapper args)))
     || (is_some (args_mapperArgs args)
         && negb (opt_eqb (cfg_mapperArgs c) (args_mapperArgs args)))
     || (is_some (args_policy args)
         && negb (opt_eqb (cfg_mapperArgs c) (args_policy args)))
  then false else true.

(** The body of the loop of [Butler._getCfgsForInputsAndOutputs]. *)
Definition getCfg_body (h : Heap) (argsAndData : ArgsAndData) : outcome Heap :=
  let repoData := repoData argsAndData in
  let '(args, found) := lookup_cfg (repoArgs argsAndData) in
  match found with
  | None =>
      if negb (contains "w" (args_mode args))
      then Raise (RuntimeError "No cfg found for read-only input repository")
      else Ret (update h repoData
                  (fun rd => setCfg rd (makeFromArgs args) new (Some (args_cfgRoot args))))
  | Some c =>
      if contains "w" (args_mode args)
      then
        if negb (cfgMatchesArgs args c)
        then Raise (RuntimeError "Args and Cfg must match for writable repositories")
        else Ret (update h repoData
                    (fun rd => setCfg rd c existing (Some (args_cfgRoot args))))
      else
        if cfgMatchesArgs args c
        then Ret (update h repoData
                    (fun rd => setCfg rd c existing (Some (args_cfgRoot args))))
        else Ret (update h repoData (fun rd => setCfg rd c nested None))
  end.

(** [Butler._getCfgsForInputsAndOutputs] *)
Definition _getCfgsForInputsAndOutputs (h : Heap) (inputs outputs : list ArgsAndData)
  : outcome Heap :=
  foldM getCfg_body (inputs ++ outputs) h.

(** [cfg.parents != parents] *)
Definition parents_differ (persisted : option (list ParentVal)) (parents : list ParentVal)
  : bool :=
  match persisted with
  | Some l => negb (pvs_eqb l parents)
  | None => true
  end.

Definition set_cfg (rd : RepoData) (c : RepositoryCfg) : RepoData :=
  mkRepoData (Some c) (cfgOrigin rd) (cfgRoot rd) (parentRepoDatas rd) (tags rd).

(** The body of the loop of [Butler._setAndVerifyParentsLists]. *)
Definition verify_body (inputs outputs : list ArgsAndData) (h : Heap)
    (argsAndData : ArgsAndData) : outcome Heap :=
  let forRepoData := repoData argsAndData in
  parents ← _getParents h forRepoData inputs outputs;
  rd ← deref h forRepoData;
  match cfgOrigin rd with
  | Some new =>
      c ← cfg_of rd;
      Ret (<[forRepoData := set_cfg rd (addParents c parents)]> h)
  | Some existing | Some nested =>
      c ← cfg_of rd;
      if parents_differ (cfg_parents c) parents
      then Raise (RuntimeError "Inputs of this Butler do not match existing cfg parents")
      else Ret h
  | None => Ret h
  end.

(** [Butler._setAndVerifyParentsLists] *)
Definition _setAndVerifyParentsLists (h : Heap) (inputs outputs : list ArgsAndData)
  : outcome Heap :=
  foldM (verify_body inputs outputs) outputs h.

(** An entry of the list [butlerParents] of [makePairedParents]: a parent
    value, or the one element [[None, ..., None]] appended to it. *)
Inductive PairedVal : Type :=
| PV (v : ParentVal)
| Pad (n : nat).

(** [pairedParents[ppIdx][0] != pairedParents[ppIdx][1]] *)
Definition paired_differ (repoParent : ParentVal) (butlerParent : PairedVal) : bool :=
  match butlerParent with
  | PV v => negb (pv_eqb repoParent v)
  | Pad _ => true
  end.

(** The local function [makePairedParents] of
    [_addMissingParentsOfOutputs]; [zip] gives a list, as in Python 2. *)
Definition makePairedParents (h : Heap) (repoData : nat)
    (inputs outputs : list ArgsAndData) : outcome (list (ParentVal * PairedVal)) :=
  rd ← deref h repoData;
  c ← cfg_of rd;
  repoParents ← match cfg_parents c with
                | Some l => Ret l
                | None => Raise (TypeError "object of type 'NoneType' has no len()")
                end;
  butlerParents ← _getParents h repoData inputs outputs;
  let padded :=
    map PV butlerParents ++
    (if (length butlerParents <? length repoParents)%nat
     then [Pad (length repoParents - length butlerParents)] else []) in
  Ret (zip repoParents padded).

(** [list.insert(i, x)] *)
Definition list_insert_at {A : Type} (i : nat) (x : A) (l : list A) : list A :=
  take i l ++ x :: drop i l.

(** The [while True] loop of [_addMissingParentsOfOutputs].
    [RepositoryArgs(root=parent, mode='r')] takes a root; a parent entry that
    is an embedded configuration is not one the storage can look up. *)
Fixpoint backfill (fuel : nat) (h : Heap) (output : ArgsAndData)
    (inputs outputs : list ArgsAndData) (ppIdx : nat)
    (pairedParents : list (ParentVal * PairedVal))
  : outcome (Heap * list ArgsAndData) :=
  match fuel with
  | O => OutOfFuel
  | S f =>
      if (length pairedParents <=? ppIdx)%nat then Ret (h, inputs)
      else
        match pairedParents !! ppIdx with
        | None => Ret (h, inputs)
        | Some (repoParent, butlerParent) =>
            if paired_differ repoParent butlerParent
            then
              match repoParent with
              | PCfg _ => Raise (TypeError "root of a repository must be a string")
              | PRoot root =>
                  let newInput := mkArgs root "r" None None None ∅ in
                  let '(h, (newInput, _)) :=
                    _makeRepoDataForInputsAndOutputs h [newInput] [] in
                  h ← _getCfgsForInputsAndOutputs h newInput [];
                  match newInput with
                  | [] => Raise (IndexError "list index out of range")
                  | newInput0 :: _ =>
                      let inputs := list_insert_at ppIdx newInput0 inputs in
                      pairedParents ←
                        makePairedParents h (repoData output) inputs outputs;
                      backfill f h output inputs outputs ppIdx pairedParents
                  end
              end
            else backfill f h output inputs outputs (S ppIdx) pairedParents
        end
  end.

(** [Butler._addMissingParentsOfOutputs]; the list [inputs] is changed in
    place, so it is returned. *)
Definition _addMissingParentsOfOutputs (fuel : nat) (h : Heap)
    (inputs outputs : list ArgsAndData) : outcome (Heap * list ArgsAndData) :=
  foldM (fun '(h, inputs) output =>
           if negb (readable output) then Ret (h, inputs)
           else
             rd ← deref h (repoData output);
             if isNewRepository rd then Ret (h, inputs)
             else
               c ← cfg_of rd;
               match cfg_parents c with
               | None => Ret (h, inputs)
               | Some _ =>
                   pairedParents ←
                     makePairedParents h (repoData output) inputs outputs;
                   backfill fuel h output inputs outputs 0 pairedParents
               end)
        outputs (h, inputs).

End Construction.

(** ** Dataset locations *)

(** [DataId]: the key/value pairs and the visibility tags. *)
Record DataId : Type := mkDataId {
  items : list (string * string);
  tag : gset string
}.

(** The descriptor of a component of a composite. *)
Record ComponentInfo : Type := mkComponentInfo {
  ci_datasetType : string;
  ci_subset : bool;
  ci_inputOnly : bool
}.

(** [isinstance(location, ButlerComposite)], and the [componentInfo] a
    composite has, in the order of [componentInfo.items()]. *)
Inductive LocationKind : Type :=
| ButlerLocation
| ButlerComposite (componentInfo : list (string * ComponentInfo)).

(** [s.split('.')] and ['.'.join(l)] *)
Fixpoint split_on (c : ascii) (s : string) : list string :=
  match s with
  | EmptyString => [EmptyString]
  | String a s' =>
      if Ascii.eqb a c then EmptyString :: split_on c s'
      else match split_on c s' with
           | x :: xs => String a x :: xs
           | [] => [String a EmptyString]
           end
  end.

Fixpoint join_with (sep : string) (l : list string) : string :=
  match l with
  | [] => EmptyString
  | [x] => x
  | x :: l' => (x ++ sep ++ join_with sep l')%string
  end.

Fixpoint assoc {A : Type} (k : string) (l : list (string * A)) : option A :=
  match l with
  | [] => None
  | (k', v) :: l' => if String.eqb k' k then Some v else assoc k l'
  end.

Section Locations.

(** The Python objects that are read, written and assembled. *)
Context {Obj : Type}.

(** A location: its class, the repository and mapper it came from, the
    [datasetType] that [_locate] writes into it, its [dataId], and the
    attribute [bypass], which is absent until [_locate] sets it. *)
Record Location : Type := mkLocation {
  kind : LocationKind;
  loc_repository : nat;
  loc_mapper : nat;
  loc_datasetType : string;
  loc_dataId : DataId;
  loc_bypass : option Obj
}.

Definition set_datasetType (l : Location) (dt : string) : Location :=
  mkLocation (kind l) (loc_repository l) (loc_mapper l) dt (loc_dataId l) (loc_bypass l).

Definition set_bypass (l : Location) (o : Obj) : Location :=
  mkLocation (kind l) (loc_repository l) (loc_mapper l) (loc_datasetType l)
             (loc_dataId l) (Some o).

Definition is_composite (l : Location) : bool :=
  match kind l with ButlerComposite _ => true | ButlerLocation => false end.

(** What [_locate] returns: [None], one location, or a list. *)
Inductive Located : Type :=
| LNone
| LOne (l : Location)
| LMany (ls : list Location).

(** What [get] returns: the object, or a [ReadProxy] around the callback. *)
Inductive Got : Type :=
| Now (o : Obj)
| ReadProxy (callback : unit -> outcome Obj).

(** The object of a component: one, or for a subset a list. *)
Inductive CompVal : Type :=
| COne (g : Got)
| CList (l : list Got).

(** The repositories and mappers, as the coordinator calls them:
    [repoData.repo.map] (it may raise [NoResults]),
    [hasattr(location.mapper, name)], the call of the bypass function made by
    [_getBypassFunc], [location.repository.exists], [repoData.repo.getKeys],
    [Butler._read] (the weak-reference object cache in front of
    [repository.read] is not modelled), [mapper.canStandardize],
    [mapper.standardize] and the assembler. *)
Variable repo_map : nat -> string -> DataId -> bool -> outcome (option Location).
Variable mapper_hasattr : nat -> string -> bool.
Variable bypass_call : Location -> DataId -> outcome Obj.
Variable repo_exists : Location -> bool.
Variable repo_getKeys : nat -> string -> string -> option (list (string * string)).
Variable _read : Location -> outcome Obj.
Variable canStandardize : nat -> string -> bool.
Variable standardize : nat -> string -> Obj -> DataId -> outcome Obj.
Variable assembler : Location -> list (string * CompVal) -> outcome Obj.

Definition tags_of (h : Heap) (r : nat) : gset string :=
  match h !! r with
  | Some rd => tags rd
  | None => ∅
  end.

(** [dataId.tag and len(dataId.tag.intersection(repoData.tags)) == 0] *)
Definition tag_excludes (h : Heap) (dataId : DataId) (r : nat) : bool :=
  bool_decide (tag dataId <> ∅) && bool_decide (tag dataId ∩ tags_of h r = ∅).

Definition has_bypass (l : Location) : bool :=
  mapper_hasattr (loc_mapper l) ("bypass_" ++ loc_datasetType l)%string.

(** What the loop of [_locate] does when it leaves without returning. *)
Definition locate_end (write : bool) (locations : list Location) : Located :=
  if write then LMany locations else LNone.

(** The end of the loop body of [_locate], from [if location:] on, for
    the location in hand; [continue] is the rest of the loop, given the list
    [locations].  A location object is true and cannot be iterated; a list is
    true when it is not empty. *)
Definition accept_location (continue : list Location -> outcome Located)
    (dataId : DataId) (write : bool) (locations : list Location)
    (location : Located) : outcome Located :=
  match location with
  | LNone => continue locations
  | LMany [] => continue locations
  | LMany ls =>
      if write then continue (locations ++ ls)
      else Raise (AttributeError "'list' object has no attribute 'mapper'")
  | LOne l =>
      if write then continue (locations ++ [l])
      else if has_bypass l
      then match bypass_call l dataId with
           | Ret o => Ret (LOne (set_bypass l o))
           | _ => continue locations
           end
      else if is_composite l || repo_exists l then Ret (LOne l)
      else continue locations
  end.

(** The loop of [_locate] over the repositories.  [rec] is the recursive
    call [self._locate(datasetType, dataId, write)]; [datasetType] is the
    variable of that name, which the loop body overwrites. *)
Fixpoint locate_loop (rec : string -> outcome Located) (h : Heap) (dataId : DataId)
    (write : bool) (repos : list nat) (datasetType : string)
    (locations : list Location) : outcome Located :=
  match repos with
  | [] => Ret (locate_end write locations)
  | repoData :: rest =>
      if negb write && tag_excludes h dataId repoData
      then locate_loop rec h dataId write rest datasetType locations
      else
        let components := split_on "." datasetType in
        let datasetType := hd EmptyString components in
        let components := tl components in
        match repo_map repoData datasetType dataId write with
        | Raise (NoResults _) =>
            locate_loop rec h dataId write rest datasetType locations
        | Raise e => Raise e
        | OutOfFuel => OutOfFuel
        | Ret None => locate_loop rec h dataId write rest datasetType locations
        | Ret (Some location) =>
            let location := set_datasetType location datasetType in
            match components with
            | [] =>
                accept_location
                  (locate_loop rec h dataId write rest datasetType)
                  dataId write locations (LOne location)
            | c0 :: cs =>
                match kind location with
                | ButlerLocation =>
                    Raise (RuntimeError
                             "The location for a dotted datasetType must be a composite.")
                | ButlerComposite componentInfo =>
                    match assoc c0 componentInfo with
                    | None => Raise (KeyError c0)
                    | Some ci =>
                        let datasetType := join_with "." (ci_datasetType ci :: cs) in
                        location ← rec datasetType;
                        match location with
                        | LNone => Ret (locate_end write locations)
                        | _ =>
                            accept_location
                              (locate_loop rec h dataId write rest datasetType)
                              dataId write locations location
                        end
                    end
                end
            end
        end
  end.

(** [Butler._locate] *)
Fixpoint _locate (fuel : nat) (h : Heap) (c : RepoDataContainer)
    (datasetType : string) (dataId : DataId) (write : bool) : outcome Located :=
  match fuel with
  | O => OutOfFuel
  | S f =>
      repos ← (if write then outputs_of c else inputs_of c);
      locate_loop (fun dt => _locate f h c dt dataId write)
                  h dataId write repos datasetType []
  end.

(** [Butler.getKeys], with [tag] already a set. *)
Fixpoint getKeys_loop (h : Heap) (repos : list nat) (datasetType level : string)
    (tg : gset string) : option (list (string * string)) :=
  match repos with
  | [] => None
  | repoData :: rest =>
      if bool_decide (tg = ∅) || negb (bool_decide (tg ∩ tags_of h repoData = ∅))
      then match repo_getKeys repoData datasetType level with
           | Some keys => Some keys
           | None => getKeys_loop h rest datasetType level tg
           end
      else getKeys_loop h rest datasetType level tg
  end.

Definition getKeys (d : AliasDict) (h : Heap) (c : RepoDataContainer)
    (datasetType level : string) (tg : gset string)
  : outcome (option (list (string * string))) :=
  datasetType ← _resolveDatasetTypeAlias d datasetType;
  repos ← inputs_of c;
  Ret (getKeys_loop h repos datasetType level tg).

(** [Butler.subset], that is [ButlerSubset.__init__]: after the keys are
    fetched it calls [butler.queryMetadata(datasetType, level, fmt, dataId)],
    one positional argument more than [queryMetadata] takes.  A subset is its
    dataset type and the identifiers of its references. *)
Definition subset (d : AliasDict) (h : Heap) (c : RepoDataContainer)
    (datasetType : string) (dataId : DataId) : outcome (string * list DataId) :=
  datasetType ← _resolveDatasetTypeAlias d datasetType;
  keys ← getKeys d h c datasetType "" ∅;
  match keys with
  | None => Raise (AttributeError "'NoneType' object has no attribute 'iterkeys'")
  | Some _ => Raise (TypeError "queryMetadata() takes at most 4 arguments (5 given)")
  end.

(** The callback that [get] builds for a location that is not a
    composite. *)
Definition read_callback (l : Location) (dataId : DataId) : unit -> outcome Obj :=
  let callback : unit -> outcome Obj :=
    match loc_bypass l with
    | Some o => fun _ => Ret o
    | None => fun _ => _read l
    end in
  if canStandardize (loc_mapper l) (loc_datasetType l)
  then fun _ => o ← callback tt;
                standardize (loc_mapper l) (loc_datasetType l) o dataId
  else callback.

(** [Butler.get] *)
Fixpoint get (fuel : nat) (d : AliasDict) (h : Heap) (c : RepoDataContainer)
    (datasetType : string) (dataId : DataId) (immediate : bool) : outcome Got :=
  match fuel with
  | O => OutOfFuel
  | S f =>
      datasetType ← _resolveDatasetTypeAlias d datasetType;
      location ← _locate (S f) h c datasetType dataId false;
      match location with
      | LNone => Raise (NoResults "No locations for get:")
      | LMany _ => Raise (AttributeError "'list' object has no attribute 'mapper'")
      | LOne l =>
          match kind l with
          | ButlerComposite componentInfo =>
              objs ← foldM (fun objs '(name, ci) =>
                              if ci_subset ci
                              then
                                refs ← subset d h c (ci_datasetType ci) (loc_dataId l);
                                os ← foldM (fun os ref =>
                                              o ← get f d h c (fst refs) ref true;
                                              Ret (os ++ [o]))
                                           (snd refs) [];
                                Ret (objs ++ [(name, CList os)])
                              else
                                o ← get f d h c (ci_datasetType ci) (loc_dataId l) true;
                                Ret (objs ++ [(name, COne o)]))
                           componentInfo [];
              match componentInfo with
              | [] => Raise (UnboundLocalError "assembler")
              | _ :: _ => o ← assembler l objs; Ret (Now o)
              end
          | ButlerLocation =>
              let callback := read_callback l dataId in
              if immediate then o ← callback tt; Ret (Now o)
              else Ret (ReadProxy callback)
          end
      end
  end.

(** *** [Butler.queryMetadata] *)

(** The argument [format]: a key, or a tuple of keys. *)
Inductive Format : Type :=
| FKey (k : string)
| FTuple (ks : list string).

(** Modelled from the spec: the helper [sequencify] (module [utils] is not
    among the sources): a sequence stays as it is, anything else becomes a
    one-element tuple. *)
Definition sequencify (f : Format) : list string :=
  match f with
  | FKey k => [k]
  | FTuple ks => ks
  end.

(** A row that a registry returns: a tuple, or a value that cannot be
    indexed. *)
Inductive Row : Type :=
| RTuple (vs : list string)
| RValue (v : string).

Variable repo_queryMetadata : nat -> string -> list string -> DataId -> list Row.

(** The loop over the input repositories; it returns the repositories it
    queried, in order, with the tuples. *)
Fixpoint query_loop (h : Heap) (repos : list nat) (datasetType : string)
    (format : list string) (dataId : DataId) : list nat * list Row :=
  match repos with
  | [] => ([], [])
  | repoData :: rest =>
      if bool_decide (tag dataId = ∅)
         || negb (bool_decide (tag dataId ∩ tags_of h repoData = ∅))
      then
        match repo_queryMetadata repoData datasetType format dataId with
        | [] => let '(q, t) := query_loop h rest datasetType format dataId in
                (repoData :: q, t)
        | tuples => ([repoData], tuples)
        end
      else query_loop h rest datasetType format dataId
  end.

(** [Butler.queryMetadata]; the first component lists the repositories
    that were queried.  With [format] left [None] the body evaluates the name
    [key], which is bound nowhere. *)
Definition queryMetadata (d : AliasDict) (h : Heap) (c : RepoDataContainer)
    (datasetType : string) (format : option Format) (dataId : DataId)
  : list nat * outcome (list Row) :=
  match _resolveDatasetTypeAlias d datasetType with
  | Raise e => ([], Raise e)
  | OutOfFuel => ([], OutOfFuel)
  | Ret datasetType =>
      match format with
      | None => ([], Raise (NameError "key"))
      | Some format =>
          let format := sequencify format in
          match inputs_of c with
          | Raise e => ([], Raise e)
          | OutOfFuel => ([], OutOfFuel)
          | Ret repos =>
              let '(queried, tuples) := query_loop h repos datasetType format dataId in
              match tuples with
              | [] => (queried, Ret [])
              | _ :: _ =>
                  if Nat.eqb (length format) 1
                  then
                    (queried,
                     foldM (fun ret x =>
                              match x with
                              | RTuple (v :: _) => Ret (ret ++ [RValue v])
                              | RTuple [] => Raise (IndexError "tuple index out of range")
                              | RValue v => Ret (ret ++ [RValue v])
                              end) tuples [])
                  else (queried, Ret tuples)
              end
          end
      end
  end.

(** A repository that has no mapping for the dataset type, or is skipped
    for its tags. *)
Definition finds_nothing (h : Heap) (dataId : DataId) (datasetType : string)
    (r : nat) : Prop :=
  tag_excludes h dataId r = true \/
  repo_map r datasetType dataId false = Ret None \/
  (exists msg, repo_map r datasetType dataId false = Raise (NoResults msg)).

(** A repository that gives the read path nothing for an undotted
    dataset type: it is skipped for its tags, or maps to nothing, or maps to a
    location that is no composite, has no bypass and does not exist. *)
Definition yields_nothing (h : Heap) (dataId : DataId) (datasetType : string)
    (r : nat) : Prop :=
  tag_excludes h dataId r = true \/
  repo_map r datasetType dataId false = Ret None \/
  (exists msg, repo_map r datasetType dataId false = Raise (NoResults msg)) \/
  (exists l, repo_map r datasetType dataId false = Ret (Some l) /\
             is_composite l = false /\
             has_bypass (set_datasetType l datasetType) = false /\
             repo_exists (set_datasetType l datasetType) = false).

End Locations.

(** ** A repository with a composite whose component is missing

    One input repository; its mapper knows the composite ["calexp"], made
    of the component ["image"] of dataset type ["raw_image"], and has nothing
    for ["raw_image"]. *)
Definition calexp_components : list (string * ComponentInfo) :=
  [("image", mkComponentInfo "raw_image" false false)].

Definition no_id : DataId := mkDataId [] ∅.

Definition calexp_location : @Location string :=
  mkLocation (ButlerComposite calexp_components) 0 0 "" no_id None.

Definition calexp_map (r : nat) (datasetType : string) (dataId : DataId) (write : bool)
  : outcome (option (@Location string)) :=
  if String.eqb datasetType "calexp" then Ret (Some calexp_location) else Ret None.

Definition calexp_heap : Heap := [mkRepoData None None None [] ∅].

Definition calexp_repos : RepoDataContainer := mkContainer (Some [0]) (Some []) {[0]}.

Definition no_attr (mapper : nat) (name : string) : bool := false.
Definition no_bypass (l : @Location string) (dataId : DataId) : outcome string :=
  Raise (AttributeError "bypass").
Definition nothing_exists (l : @Location string) : bool := false.
Definition no_keys (r : nat) (datasetType level : string)
  : option (list (string * string)) := None.
Definition read_path (l : @Location string) : outcome string := Ret (loc_datasetType l).
Definition never_standardize (mapper : nat) (datasetType : string) : bool := false.
Definition standardize_id (mapper : nat) (datasetType : string) (o : string)
    (dataId : DataId) : outcome string := Ret o.
Definition assemble_name (l : @Location string) (objs : list (string * @CompVal string))
  : outcome string := Ret (loc_datasetType l).
Definition no_rows (r : nat) (datasetType : string) (format : list string)
    (dataId : DataId) : list Row := [].

(** ** Vocabulary of the construction properties *)

(** The declaration names a mapper or mapper arguments that the
    configuration does not have. *)
Definition disagree (args : RepositoryArgs) (c : RepositoryCfg) : Prop :=
  (exists m, args_mapper args = Some m /\ cfg_mapper c <> Some m) \/
  (exists a, args_mapperArgs args = Some a /\ cfg_mapperArgs c <> Some a).

(** A repository on storage at root ["repo"], made with mapper ["MapperA"],
    and a read-only declaration of it that asks for ["MapperB"]. *)
Definition repo_on_disk : RepositoryCfg := mkCfg "repo" (Some "MapperA") None (Some []).

Definition disk (root : string) : option RepositoryCfg :=
  if String.eqb root "repo" then Some repo_on_disk else None.

Definition no_path (root : string) : bool := false.
Definition no_name (root : string) : option string := None.

Definition override_decl : ArgsAndData :=
  mkArgsAndData (mkArgs "repo" "r" (Some "MapperB") None None ∅) 0.

(** The value a configured node has in the parent lists of others: the
    configuration itself when its origin is [nested], else its root. *)
Definition parent_val (rd : RepoData) : option ParentVal :=
  match cfg rd with
  | Some c =>
      Some (if decide (cfgOrigin rd = Some nested) then PCfg c else PRoot (cfg_root c))
  | None => None
  end.

(** The effective parent set of the node [self]: the other declared
    repositories that are readable, outputs before inputs. *)
Definition effective_parents (h : Heap) (self : nat)
    (inputs outputs : list ArgsAndData) : list ParentVal :=
  omap (fun a => h !! repoData a ≫= parent_val)
       (List.filter (fun a => negb (Nat.eqb (repoData a) self) && readable a)
                    (outputs ++ inputs)).

(** Every declaration has its node, and the node its configuration (the
    state after [_getCfgsForInputsAndOutputs]). *)
Definition has_cfg (h : Heap) (a : ArgsAndData) : bool :=
  match h !! repoData a with
  | Some rd => match cfg rd with Some _ => true | None => false end
  | None => false
  end.

Definition configured (h : Heap) (decls : list ArgsAndData) : Prop :=
  forallb (has_cfg h) decls = true.

Definition all_configured (h : Heap) (decls : list ArgsAndData) : Prop :=
  forall a, a ∈ decls -> exists rd c, h !! repoData a = Some rd /\ cfg rd = Some c.

(** The output [a] is reopened ([existing] or [nested]) and its persisted
    parent list is not the effective parent set. *)
Definition lineage_mismatch (h : Heap) (inputs outputs : list ArgsAndData)
    (a : ArgsAndData) : Prop :=
  exists rd c,
    h !! repoData a = Some rd /\
    (cfgOrigin rd = Some existing \/ cfgOrigin rd = Some nested) /\
    cfg rd = Some c /\
    cfg_parents c <> Some (effective_parents h (repoData a) inputs outputs).

(** The node [n] is [new] in [h'] and the parent list of its configuration
    is the effective parent set computed in [h]. *)
Definition stored_at (h : Heap) (inputs outputs : list ArgsAndData) (h' : Heap)
    (n : nat) : Prop :=
  exists rd' c',
    h' !! n = Some rd' /\ cfgOrigin rd' = Some new /\ cfg rd' = Some c' /\
    cfg_parents c' = Some (effective_parents h n inputs outputs).

(** What the loop of [_setAndVerifyParentsLists] may change in a node: the
    parent list of the configuration of a [new] node. *)
Definition same_lineage (rd rd' : RepoData) : Prop :=
  cfgOrigin rd' = cfgOrigin rd /\
  (cfgOrigin rd <> Some new -> rd' = rd) /\
  (forall c, cfg rd = Some c -> exists c', cfg rd' = Some c' /\ cfg_root c' = cfg_root c).

Definition heap_same_lineage (h h' : Heap) : Prop :=
  length h' = length h /\
  forall n rd, h !! n = Some rd -> exists rd', h' !! n = Some rd' /\ same_lineage rd rd'.

(** An output reopened with the input that made it, and one reopened with
    another input. *)
Definition reopen_heap : Heap :=
  [ mkRepoData (Some (mkCfg "out" (Some "MapperA") None (Some [PRoot "in"])))
               (Some existing) (Some "out") [] ∅;
    mkRepoData (Some (mkCfg "in" (Some "MapperA") None (Some [])))
               (Some existing) (Some "in") [] ∅ ].

Definition reopen_output : ArgsAndData :=
  mkArgsAndData (mkArgs "out" "rw" None None None ∅) 0.

Definition reopen_input : ArgsAndData :=
  mkArgsAndData (mkArgs "in" "r" None None None ∅) 1.

(** *** Backfilling the parents of a reopened output *)

(** The parent value of the node of a declaration, for a configured node. *)
Definition pval (h : Heap) (a : ArgsAndData) : ParentVal :=
  default (PRoot "") (h !! repoData a ≫= parent_val).

(** A declared input: readable, a node of its own, configured. *)
Definition input_ok (h : Heap) (out : ArgsAndData) (a : ArgsAndData) : bool :=
  readable a && negb (Nat.eqb (repoData a) (repoData out)) && has_cfg h a.

(** Every persisted parent is a root at which storage holds a
    configuration that names that root. *)
Definition on_storage (getRepositoryCfg : string -> option RepositoryCfg)
    (p : ParentVal) : bool :=
  match p with
  | PRoot s =>
      match getRepositoryCfg s with
      | Some cs => String.eqb (cfg_root cs) s
      | None => false
      end
  | PCfg _ => false
  end.

(** The declaration [a] was made for a persisted parent: read-only, with
    nothing but the root, its node holding the stored configuration. *)
Definition synthesized (getRepositoryCfg : string -> option RepositoryCfg)
    (h' : Heap) (P : list ParentVal) (a : ArgsAndData) : Prop :=
  exists s cs,
    PRoot s ∈ P /\ repoArgs a = mkArgs s "r" None None None ∅ /\
    getRepositoryCfg s = Some cs /\
    h' !! repoData a = Some (mkRepoData (Some cs) (Some existing) (Some s) [] ∅).

(** The state of the loop of [_addMissingParentsOfOutputs] for the output
    [out] with persisted parents [P], at index [i]: the parent values of the
    inputs are the first [i] persisted parents followed by [rest]. *)
Definition backfill_inv (getRepositoryCfg : string -> option RepositoryCfg)
    (h0 : Heap) (inputs0 : list ArgsAndData) (out : ArgsAndData) (P : list ParentVal)
    (h : Heap) (inputs : list ArgsAndData) (i : nat) (rest : list ParentVal) : Prop :=
  h0 `prefix_of` h /\
  inputs0 `sublist_of` inputs /\
  Forall (fun a => input_ok h out a = true) inputs /\
  Forall (fun a => a ∈ inputs0 \/ synthesized getRepositoryCfg h P a) inputs /\
  map (pval h) inputs = take i P ++ rest /\
  rest `suffix_of` map (pval h0) inputs0 /\
  (map (pval h0) inputs0 `sublist_of` P -> rest `sublist_of` drop i P) /\
  i <= length P.

(** A reopened output with two persisted parents and no declared input,
    once opened ['rw'] and once opened ['w']. *)
Definition parents_disk (root : string) : option RepositoryCfg :=
  if String.eqb root "in1" then Some (mkCfg "in1" (Some "MapperA") None (Some []))
  else if String.eqb root "in2" then Some (mkCfg "in2" (Some "MapperA") None (Some []))
  else None.

Definition lone_output_heap : Heap :=
  [ mkRepoData (Some (mkCfg "out" (Some "MapperA") None (Some [PRoot "in1"; PRoot "in2"])))
               (Some existing) (Some "out") [] ∅ ].

Definition lone_output_rw : ArgsAndData :=
  mkArgsAndData (mkArgs "out" "rw" None None None ∅) 0.

Definition lone_output_w : ArgsAndData :=
  mkArgsAndData (mkArgs "out" "w" None None None ∅) 0.

(** ** Vocabulary of the alias properties *)

(** The key [defineAlias] stores an alias under: the alias itself when it
    carries an ['@'], otherwise the alias with ['@'] put in front. *)
Definition alias_token (alias : string) : string :=
  if contains at_sign alias then alias else ("@" ++ alias)%string.

(** The alias has an ['@'] somewhere after its first character. *)
Definition misplaced_at (alias : string) : Prop :=
  exists i, 0 < i /\ String.get i alias = Some at_sign.

(** The token is a prefix of a registered token, or the other way round. *)
Definition overlapping (d : AliasDict) (token : string) : Prop :=
  exists key, key ∈ dict_keys d /\
    (String.prefix token key = true \/ String.prefix key token = true).

Definition rejected (d : AliasDict) (alias datasetType : string) : Prop :=
  misplaced_at alias \/ contains at_sign datasetType = true \/
  overlapping d (alias_token alias).

(** A table as [defineAlias] builds it: every key is ['@'] followed by
    ['@']-free text, every target is ['@']-free, and no key is a prefix of
    another. *)
Definition wf_entry (e : string * string) : Prop :=
  (exists w, fst e = String at_sign w /\ contains at_sign w = false) /\
  contains at_sign (snd e) = false.

Fixpoint prefix_free (keys : list string) : Prop :=
  match keys with
  | [] => True
  | k :: ks => Forall (fun k' => overlaps k k' = false) ks /\ prefix_free ks
  end.

Definition wf_table (d : AliasDict) : Prop :=
  Forall wf_entry d /\ prefix_free (dict_keys d).

(** A dataset-type string cut into ['@']-free text and registered tokens. *)
Inductive piece : Type :=
| Lit (text : string)
| Tok (key target : string).

Definition piece_src (p : piece) : string :=
  match p with Lit s => s | Tok k _ => k end.

Definition piece_dst (p : piece) : string :=
  match p with Lit s => s | Tok _ v => v end.

Definition render (f : piece -> string) (ps : list piece) : string :=
  fold_right (fun p acc => (f p ++ acc)%string) EmptyString ps.

Definition wf_piece (d : AliasDict) (p : piece) : Prop :=
  match p with
  | Lit s => contains at_sign s = false
  | Tok k v => (k, v) ∈ d
  end.

(** ** Vocabulary of the graph properties *)

(** [reach h r n]: [n] is [r] or one of its parents, grandparents, ... *)
Inductive reach (h : Heap) : nat -> nat -> Prop :=
| reach_refl r : reach h r r
| reach_step r p n : p ∈ parents_of h r -> reach h p n -> reach h r n.

(** The lineage graph is acyclic: some rank decreases from every node to
    each of its parents. *)
Definition ranked (rank : nat -> nat) (h : Heap) : bool :=
  forallb (fun r => forallb (fun p => (rank p <? rank r)%nat) (parents_of h r))
          (seq 0 (length h)).

Definition acyclic (rank : nat -> nat) (h : Heap) : Prop :=
  forall r p, p ∈ parents_of h r -> rank p < rank r.

(** The depth-first traversal from a node, the node before its parents, a
    shared ancestor once for every path to it. *)
Fixpoint traversal (depth : nat) (h : Heap) (r : nat) : list nat :=
  match depth with
  | O => []
  | S d => r :: flat_map (traversal d h) (parents_of h r)
  end.

(** De-duplication that keeps the first occurrence of every element not
    seen before. *)
Fixpoint first_occurrences (seen : gset nat) (l : list nat) : list nat :=
  match l with
  | [] => []
  | x :: l' =>
      if decide (x ∈ seen) then first_occurrences seen l'
      else x :: first_occurrences ({[x]} ∪ seen) l'
  end.

(** Where the input order starts: the readable outputs, then the inputs,
    each in declaration order. *)
Definition lookup_roots (inputs outputs : list ArgsAndData) : list nat :=
  map repoData (List.filter readable outputs ++ inputs).

(** ** A small lineage graph with a shared ancestor

    An input [0] with parents [1] and [2], which share the parent [3]. *)
Definition diamond : Heap :=
  [ mkRepoData None None None [1; 2] ∅;
    mkRepoData None None None [3] ∅;
    mkRepoData None None None [3] ∅;
    mkRepoData None None None [] ∅ ].

Definition diamond_rank (r : nat) : nat := 4 - r.

Definition diamond_input : ArgsAndData :=
  mkArgsAndData (mkArgs "in" "r" None None None {["night1"]}) 0.

(** ** Vocabulary of the proofs *)

(** Every node of [V] that can be reached from [r] has all its ancestors in
    [V]: the part of the search below [r] that was entered is finished. *)
Definition settled (h : Heap) (V : gset nat) (r : nat) : Prop :=
  forall x, x ∈ V -> reach h r x -> forall y, reach h x y -> y ∈ V.

Definition addToList_ok (h : Heap) (fuel : nat) (r : nat) : Prop :=
  forall lst V, settled h V r ->
    addToList fuel h (lst, V) r
    = Ret (lst ++ first_occurrences V (traversal fuel h r),
           V ∪ list_to_set (traversal fuel h r)).

(** [heap_le h h']: the same objects with the same parents, and no tag
    lost. *)
Definition heap_le (h h' : Heap) : Prop :=
  length h' = length h /\
  forall n rd, h !! n = Some rd ->
    exists rd', h' !! n = Some rd' /\
                parentRepoDatas rd' = parentRepoDatas rd /\
                tags rd ⊆ tags rd'.

(** Every object reached from [r] carries the tags [ts]. *)
Definition tagged_from (ts : gset string) (h0 h' : Heap) (r : nat) : Prop :=
  forall n rd', reach h0 r n -> h' !! n = Some rd' -> ts ⊆ tags rd'.

Definition setTags_ok (rank : nat -> nat) (fuel : nat) (ts : gset string) (r : nat) : Prop :=
  forall h, acyclic rank h ->
    exists h', setTags fuel ts h r = Ret h' /\ heap_le h h' /\ tagged_from ts h h' r.

(** The list [butlerParents] of [makePairedParents] after the padding, and
    the pairs made of it, for the persisted parents [P]. *)
Definition padded (P : list ParentVal) (vals : list ParentVal) : list PairedVal :=
  map PV vals ++
  (if (length vals <? length P)%nat then [Pad (length P - length vals)] else []).

Definition paired_of (P : list ParentVal) (h : Heap) (inputs : list ArgsAndData)
  : list (ParentVal * PairedVal) :=
  zip P (padded P (map (pval h) inputs)).


(** [tags_within S h h']: the same objects with the same parents; a tag
    that an object [n] has in [h'] it had in [h], or [S] accounts for it. *)
Definition tags_within (S : string -> nat -> Prop) (h h' : Heap) : Prop :=
  length h' = length h /\
  forall n rd', h' !! n = Some rd' ->
    exists rd, h !! n = Some rd /\
               parentRepoDatas rd' = parentRepoDatas rd /\
               forall t, t ∈ tags rd' -> t ∈ tags rd \/ S t n.

(** The diamond after the tag ["night1"] of its input was propagated. *)
Definition diamond_tagged : Heap :=
  map (fun rd => addTags rd {["night1"]}) diamond.

(** ** The default mapper *)

(** [cfg.mapper = m] *)
Definition set_mapper (c : RepositoryCfg) (m : option string) : RepositoryCfg :=
  mkCfg (cfg_root c) m (cfg_mapperArgs c) (cfg_parents c).

(** The first loop of [Butler._setDefaultMapper], from the current value
    of [defaultMapper]; [break] leaves it with [None]. *)
Fixpoint default_of_inputs (h : Heap) (inputs : list ArgsAndData)
    (defaultMapper : option string) : outcome (option string) :=
  match inputs with
  | [] => Ret defaultMapper
  | argsAndData :: rest =>
      rd ← deref h (repoData argsAndData);
      c ← cfg_of rd;
      match defaultMapper with
      | None => default_of_inputs h rest (cfg_mapper c)
      | Some _ =>
          if negb (opt_eqb defaultMapper (cfg_mapper c)) then Ret None
          else default_of_inputs h rest defaultMapper
      end
  end.

(** The body of the second loop of [Butler._setDefaultMapper]. *)
Definition assign_body (defaultMapper : option string) (h : Heap)
    (argsAndData : ArgsAndData) : outcome Heap :=
  rd ← deref h (repoData argsAndData);
  if bool_decide (cfgOrigin rd = Some new)
  then
    c ← cfg_of rd;
    match cfg_mapper c with
    | Some _ => Ret h
    | None =>
        match defaultMapper with
        | None =>
            Raise (RuntimeError
                     "No default mapper could be established from inputs and no mapper specified for output")
        | Some _ =>
            Ret (<[repoData argsAndData := set_cfg rd (set_mapper c defaultMapper)]> h)
        end
    end
  else Ret h.

(** [Butler._setDefaultMapper] *)
Definition _setDefaultMapper (h : Heap) (inputs outputs : list ArgsAndData)
  : outcome Heap :=
  defaultMapper ← default_of_inputs h inputs None;
  foldM (assign_body defaultMapper) outputs h.

(** [Butler._getDefaultMapper].  [mapperClass] is what the loop makes of a
    configured mapper: [doImport] of a name, the class of an instance, a
    class itself. *)
Fixpoint getDefaultMapper_loop (mapperClass : string -> string) (h : Heap)
    (repos : list nat) (defaultMapper : option string) : outcome (option string) :=
  match repos with
  | [] => Ret defaultMapper
  | inputRepoData :: rest =>
      rd ← deref h inputRepoData;
      c ← cfg_of rd;
      let mapper := match cfg_mapper c with
                    | Some m => Some (mapperClass m)
                    | None => None
                    end in
      match defaultMapper with
      | None => getDefaultMapper_loop mapperClass h rest mapper
      | Some _ =>
          if opt_eqb mapper defaultMapper
          then getDefaultMapper_loop mapperClass h rest defaultMapper
          else match mapper with
               | Some _ => Ret None
               | None => getDefaultMapper_loop mapperClass h rest defaultMapper
               end
      end
  end.

Definition _getDefaultMapper (mapperClass : string -> string) (h : Heap)
    (c : RepoDataContainer) : outcome (option string) :=
  repos ← inputs_of c;
  getDefaultMapper_loop mapperClass h repos None.

(** [Butler._getParentRepoData].  [otherRepoData.cfg == parent] is asked of
    whatever [cfg] is, [otherRepoData.cfg.root] needs a configuration. *)
Fixpoint _getParentRepoData (h : Heap) (parent : ParentVal) (repoDataList : list nat)
  : outcome (option nat) :=
  match repoDataList with
  | [] => Ret None
  | otherRepoData :: rest =>
      rd ← deref h otherRepoData;
      match parent with
      | PCfg p =>
          if match cfg rd with Some c => cfg_eqb c p | None => false end
          then Ret (Some otherRepoData)
          else _getParentRepoData h parent rest
      | PRoot uri =>
          c ← cfg_of rd;
          if String.eqb (cfg_root c) uri then Ret (Some otherRepoData)
          else _getParentRepoData h parent rest
      end
  end.

(** The mappers that the configurations of the nodes name. *)
Definition mappers_of (h : Heap) (repos : list nat) : list (option string) :=
  map (fun r => match h !! r with
                | Some rd => match cfg rd with
                             | Some c => cfg_mapper c
                             | None => None
                             end
                | None => None
                end) repos.

(** A node that [_setDefaultMapper] gives the default mapper: [new], and
    its configuration without a mapper. *)
Definition lacks_mapper (rd : RepoData) : bool :=
  bool_decide (cfgOrigin rd = Some new) &&
  match cfg rd with
  | Some c => negb (is_some (cfg_mapper c))
  | None => false
  end.

Definition with_mapper (m : string) (rd : RepoData) : RepoData :=
  match cfg rd with
  | Some c => set_cfg rd (set_mapper c (Some m))
  | None => rd
  end.

(** Two inputs made with ["MapperA"] after one that names no mapper, and a
    new output that names none. *)
Definition mapper_heap : Heap :=
  [ mkRepoData (Some (mkCfg "in0" None None (Some []))) (Some existing) (Some "in0") [] ∅;
    mkRepoData (Some (mkCfg "in1" (Some "MapperA") None (Some []))) (Some existing)
               (Some "in1") [] ∅;
    mkRepoData (Some (mkCfg "in2" (Some "MapperA") None (Some []))) (Some existing)
               (Some "in2") [] ∅;
    mkRepoData (Some (mkCfg "out" None None (Some []))) (Some new) (Some "out") [] ∅ ].

Definition mapper_inputs : list ArgsAndData :=
  [ mkArgsAndData (mkArgs "in0" "r" None None None ∅) 0;
    mkArgsAndData (mkArgs "in1" "r" None None None ∅) 1;
    mkArgsAndData (mkArgs "in2" "r" None None None ∅) 2 ].

Definition mapper_outputs : list ArgsAndData :=
  [ mkArgsAndData (mkArgs "out" "w" None None None ∅) 3 ].

(** The configuration of the node behind a reference, if it has one. *)
Definition cfg_at (h : Heap) (r : nat) : option RepositoryCfg :=
  match h !! r with
  | Some rd => cfg rd
  | None => None
  end.

(** The configuration [c] is what the parent reference [v] asks for: the
    root for a URI, the configuration itself for an embedded one. *)
Definition answers (v : ParentVal) (c : RepositoryCfg) : Prop :=
  match v with
  | PRoot uri => cfg_root c = uri
  | PCfg p => c = p
  end.

(** ** Writing, and asking whether a dataset exists *)

Section Writing.

Context {Obj : Type}.

Variable repo_map : nat -> string -> DataId -> bool -> outcome (option (@Location Obj)).
Variable mapper_hasattr : nat -> string -> bool.
Variable bypass_call : @Location Obj -> DataId -> outcome Obj.
Variable repo_exists : @Location Obj -> bool.

(** [repoData.repo.map(datasetType, dataId)], the call of [datasetExists],
    which leaves [write] to the default of [map]. *)
Variable repo_map_default : nat -> string -> DataId -> outcome (option (@Location Obj)).

(** The disassembler of a composite, [location.disassembler] or else
    [genericDisassembler]: it may raise, and it leaves for every component
    name what [componentInfo[name].obj] then gives.
    [location.getRepository().backup] and [location.getRepository().write]. *)
Variable disassembler : @Location Obj -> Obj -> outcome (string -> outcome Obj).
Variable repo_backup : nat -> string -> DataId -> outcome unit.
Variable repo_write : @Location Obj -> Obj -> outcome unit.

(** The loop of [Butler.datasetExists]; a [NoResults] of [map] is not
    caught here. *)
Fixpoint exists_loop (h : Heap) (repos : list nat) (datasetType : string)
    (dataId : DataId) : outcome bool :=
  match repos with
  | [] => Ret false
  | repoData :: rest =>
      if bool_decide (tag dataId = ∅)
         || negb (bool_decide (tag dataId ∩ tags_of h repoData = ∅))
      then
        location ← repo_map_default repoData datasetType dataId;
        match location with
        | Some l =>
            if repo_exists l then Ret true
            else exists_loop h rest datasetType dataId
        | None => exists_loop h rest datasetType dataId
        end
      else exists_loop h rest datasetType dataId
  end.

(** [Butler.datasetExists] *)
Definition datasetExists (d : AliasDict) (h : Heap) (c : RepoDataContainer)
    (datasetType : string) (dataId : DataId) : outcome bool :=
  datasetType ← _resolveDatasetTypeAlias d datasetType;
  repos ← inputs_of c;
  exists_loop h repos datasetType dataId.

(** What [put] asks of the repositories, in the order of the calls. *)
Inductive Event : Type :=
| EvBackup (repository : nat) (datasetType : string) (dataId : DataId)
| EvWrite (location : @Location Obj) (obj : Obj).

(** A [for] loop whose body makes such calls and may raise. *)
Fixpoint foldT {A : Type} (f : A -> list Event -> list Event * outcome unit)
    (l : list A) (tr : list Event) : list Event * outcome unit :=
  match l with
  | [] => (tr, Ret tt)
  | x :: l' =>
      match f x tr with
      | (tr', Ret _) => foldT f l' tr'
      | r => r
      end
  end.

(** The branch of [put] for a location that is no composite. *)
Definition write_location (obj : Obj) (dataId : DataId) (doBackup : bool)
    (location : @Location Obj) (tr : list Event) : list Event * outcome unit :=
  let '(tr, backed) :=
    if doBackup
    then (tr ++ [EvBackup (loc_repository location) (loc_datasetType location) dataId],
          repo_backup (loc_repository location) (loc_datasetType location) dataId)
    else (tr, Ret tt) in
  match backed with
  | Ret _ => (tr ++ [EvWrite location obj], repo_write location obj)
  | Raise e => (tr, Raise e)
  | OutOfFuel => (tr, OutOfFuel)
  end.

(** [Butler.put]; [tr] lists the calls made so far.  [_locate] gives a
    list when it is asked for a write; anything else cannot be iterated. *)
Fixpoint put (fuel : nat) (d : AliasDict) (h : Heap) (c : RepoDataContainer)
    (obj : Obj) (datasetType : string) (dataId : DataId) (doBackup : bool)
    (tr : list Event) : list Event * outcome unit :=
  match fuel with
  | O => (tr, OutOfFuel)
  | S f =>
      match _resolveDatasetTypeAlias d datasetType with
      | Raise e => (tr, Raise e)
      | OutOfFuel => (tr, OutOfFuel)
      | Ret datasetType =>
          match _locate repo_map mapper_hasattr bypass_call repo_exists
                        (S f) h c datasetType dataId true with
          | Raise e => (tr, Raise e)
          | OutOfFuel => (tr, OutOfFuel)
          | Ret LNone => (tr, Raise (TypeError "'NoneType' object is not iterable"))
          | Ret (LOne _) => (tr, Raise (TypeError "object is not iterable"))
          | Ret (LMany locations) =>
              foldT (fun location tr =>
                       match kind location with
                       | ButlerComposite componentInfo =>
                           match disassembler location obj with
                           | Raise e => (tr, Raise e)
                           | OutOfFuel => (tr, OutOfFuel)
                           | Ret objs =>
                               foldT (fun '(name, info) tr =>
                                        if ci_inputOnly info then (tr, Ret tt)
                                        else
                                          match objs name with
                                          | Raise e => (tr, Raise e)
                                          | OutOfFuel => (tr, OutOfFuel)
                                          | Ret o =>
                                              put f d h c o (ci_datasetType info)
                                                  (loc_dataId location) doBackup tr
                                          end)
                                     componentInfo tr
                           end
                       | ButlerLocation => write_location obj dataId doBackup location tr
                       end)
                    locations tr
          end
      end
  end.

(** The locations the write path gathers for an undotted dataset type:
    what the output repositories map it to, in their order. *)
Definition write_targets (repos : list nat) (datasetType : string) (dataId : DataId)
  : list (@Location Obj) :=
  flat_map (fun r => match repo_map r datasetType dataId true with
                     | Ret (Some l) => [set_datasetType l datasetType]
                     | _ => []
                     end) repos.

(** The mapper answers (a location or [None]) or raises [NoResults]. *)
Definition maps_or_misses (datasetType : string) (dataId : DataId) (r : nat) : Prop :=
  (exists o, repo_map r datasetType dataId true = Ret o) \/
  (exists msg, repo_map r datasetType dataId true = Raise (NoResults msg)).

(** The calls that write [obj] to the locations, one after the other. *)
Definition write_events (obj : Obj) (dataId : DataId) (doBackup : bool)
    (ls : list (@Location Obj)) : list Event :=
  flat_map (fun l =>
              (if doBackup
               then [EvBackup (loc_repository l) (loc_datasetType l) dataId]
               else []) ++ [EvWrite l obj]) ls.

(** A repository that [datasetExists] passes without an answer: its tags
    exclude it, or it maps to nothing, or to a location that does not
    exist. *)
Definition passed_over (h : Heap) (dataId : DataId) (datasetType : string)
    (r : nat) : Prop :=
  tag_excludes h dataId r = true \/
  repo_map_default r datasetType dataId = Ret None \/
  (exists l, repo_map_default r datasetType dataId = Ret (Some l) /\
             repo_exists l = false).

End Writing.

(** Two output repositories, each with a plain location for every dataset
    type, and storage that takes every write. *)
Definition plain_location (r : nat) : @Location string :=
  mkLocation ButlerLocation r r "" no_id None.

Definition plain_map (r : nat) (datasetType : string) (dataId : DataId) (write : bool)
  : outcome (option (@Location string)) :=
  Ret (Some (plain_location r)).

Definition two_outputs : RepoDataContainer := mkContainer (Some []) (Some [0; 1]) {[0; 1]}.

Definition two_inputs : RepoDataContainer := mkContainer (Some [0; 1]) (Some []) {[0; 1]}.

Definition two_heap : Heap :=
  [mkRepoData None None None [] ∅; mkRepoData None None None [] ∅].

Definition no_parts (l : @Location string) (o : string) : outcome (string -> outcome string) :=
  Raise (RuntimeError "no disassembler").

Definition backup_ok (r : nat) (datasetType : string) (dataId : DataId) : outcome unit :=
  Ret tt.

Definition write_ok (l : @Location string) (o : string) : outcome unit := Ret tt.

(** The first repository has no mapping for the dataset type, the second
    has the dataset. *)
Definition second_map (r : nat) (datasetType : string) (dataId : DataId)
  : outcome (option (@Location string)) :=
  if Nat.eqb r 0 then Raise (NoResults "no mapping") else Ret (Some (plain_location r)).

Definition all_exists (l : @Location string) : bool := true.

(** ** The declarations as the caller gives them *)

(** A [RepositoryArgs] before [_processInputArguments] has seen it: the
    mode may be [None]. *)
Record RawArgs : Type := mkRawArgs {
  raw_cfgRoot : string;
  raw_mode : option string;
  raw_mapper : option string;
  raw_mapperArgs : option string;
  raw_policy : option string;
  raw_tags : gset string
}.

(** [args.mode = m] *)
Definition with_mode (a : RawArgs) (m : string) : RepositoryArgs :=
  mkArgs (raw_cfgRoot a) m (raw_mapper a) (raw_mapperArgs a) (raw_policy a) (raw_tags a).

(** An item of [inputs] or [outputs] is a URI string or a [RepositoryArgs];
    the argument itself is [None], one item, or a list of items. *)
Inductive Decl : Type :=
| DUri (uri : string)
| DArgs (a : RawArgs).

Inductive DeclArg : Type :=
| ANone
| AOne (d : Decl)
| AList (l : list Decl).

Section ProcessInputArguments.

(** What is not among the sources: [listify] of module [utils]; the
    constructor calls [RepositoryArgs(cfgRoot=uri)] and
    [RepositoryArgs(mode='rw', root=root, mapper=mapper, mapperArgs=mapperArgs)];
    and [mapper.root], for a mapper that has the attribute.  The mapper
    arguments [**mapperArgs] are a dictionary, [None] standing for the empty
    one. *)
Variable listify : DeclArg -> list Decl.
Variable RepositoryArgs_cfgRoot : string -> RawArgs.
Variable RepositoryArgs_rw : string -> option string -> option string -> RawArgs.
Variable mapper_root : option string -> option string.

(** [Butler._convertV1Args] *)
Definition _convertV1Args (root mapper mapperArgs : option string) : DeclArg * DeclArg :=
  let inputs := ANone in
  let root :=
    match root with
    | None => match mapper_root mapper with
              | Some r => r
              | None => "."
              end
    | Some r => r
    end in
  let outputs := AOne (DArgs (RepositoryArgs_rw root mapper mapperArgs)) in
  (inputs, outputs).

(** [RepositoryArgs(cfgRoot=args) if not isinstance(args, RepositoryArgs)
    else args] *)
Definition as_args (d : Decl) : RawArgs :=
  match d with
  | DUri uri => RepositoryArgs_cfgRoot uri
  | DArgs a => a
  end.

(** The bodies of the loops that set and check the modes. *)
Definition input_mode (args : RawArgs) : outcome RepositoryArgs :=
  match raw_mode args with
  | None => Ret (with_mode args "r")
  | Some m =>
      if String.eqb "rw" m then Ret (with_mode args "r")
      else if negb (String.eqb "r" m)
      then Raise (RuntimeError "The mode of an input should be readable.")
      else Ret (with_mode args m)
  end.

Definition output_mode (args : RawArgs) : outcome RepositoryArgs :=
  match raw_mode args with
  | None => Ret (with_mode args "w")
  | Some m =>
      if negb (contains "w" m)
      then Raise (RuntimeError "The mode of an output should be writable.")
      else Ret (with_mode args m)
  end.

Definition is_none (a : DeclArg) : bool :=
  match a with ANone => true | _ => false end.

(** [Butler._processInputArguments]; the last loop only logs a warning. *)
Definition _processInputArguments (root mapper mapperArgs : option string)
    (inputs outputs : DeclArg) : outcome (list RepositoryArgs * list RepositoryArgs) :=
  let isV1Args := is_none inputs && is_none outputs in
  io ← (if isV1Args then Ret (_convertV1Args root mapper mapperArgs)
        else if truthy root || truthy mapper || truthy mapperArgs
        then Raise (RuntimeError
                      "Butler version 1 API (root, mapper, **mapperArgs) may not be used with version 2 API (inputs, outputs)")
        else Ret (inputs, outputs));
  let inputs := map as_args (listify (fst io)) in
  let outputs := map as_args (listify (snd io)) in
  inputs ← foldM (fun done args => a ← input_mode args; Ret (done ++ [a])) inputs [];
  outputs ← foldM (fun done args => a ← output_mode args; Ret (done ++ [a])) outputs [];
  Ret (inputs, outputs).

End ProcessInputArguments.

(** Helpers that behave as their names say, for examples. *)
Definition to_list (a : DeclArg) : list Decl :=
  match a with
  | ANone => []
  | AOne d => [d]
  | AList l => l
  end.

Definition args_at (uri : string) : RawArgs := mkRawArgs uri None None None None ∅.

Definition args_rw (root : string) (mapper mapperArgs : option string) : RawArgs :=
  mkRawArgs root (Some "rw") mapper mapperArgs None ∅.

Definition no_root (mapper : option string) : option string := None.

(** A mapper with a bypass function for every dataset type, and a
    composite whose one component is a subset. *)
Definition bypass_attr (mapper : nat) (name : string) : bool := true.

Definition bypass_value (l : @Location string) (dataId : DataId) : outcome string :=
  Ret "bypassed".

Definition subset_components : list (string * ComponentInfo) :=
  [("parts", mkComponentInfo "raw_image" true false)].

Definition subset_location : @Location string :=
  mkLocation (ButlerComposite subset_components) 0 0 "" no_id None.

Definition subset_map (r : nat) (datasetType : string) (dataId : DataId) (write : bool)
  : outcome (option (@Location string)) :=
  if String.eqb datasetType "stack" then Ret (Some subset_location) else Ret None.

(** ** Linking the nodes to their parents *)

(** The dictionary [parents] of [_makeAndConnectParentRepoDatas], from a
    parent reference to the node made for it, in the order of insertion.
    Modelled from the spec: a key that is a configuration is found again by an
    equal configuration ("identical parent references (by URI/record equality)
    resolve to one shared node"); how a [RepositoryCfg] hashes is not in the
    sources. *)
Fixpoint parents_get (parents : list (ParentVal * nat)) (parent : ParentVal) : option nat :=
  match parents with
  | [] => None
  | (k, v) :: rest => if pv_eqb k parent then Some v else parents_get rest parent
  end.

(** [for parent in repoData.cfg.parents] needs a list. *)
Definition iter_parents (c : RepositoryCfg) : outcome (list ParentVal) :=
  match cfg_parents c with
  | Some l => Ret l
  | None => Raise (TypeError "'NoneType' object is not iterable")
  end.

Section Connect.

Variable getRepositoryCfg : string -> option RepositoryCfg.
Variable isPosix : string -> bool.
Variable v1RepoExists : string -> bool.
Variable getMapperClass : string -> option string.
Variable getParentSymlinkPath : string -> option string.

(** The configuration of a parent that has no node yet: the embedded one,
    or the one at the root, persisted or of an old-style repository. *)
Definition parent_cfg (parent : ParentVal) : outcome RepositoryCfg :=
  match parent with
  | PCfg c => Ret c
  | PRoot uri =>
      match getRepositoryCfg uri with
      | Some c => Ret c
      | None =>
          match snd (_getOldButlerRepositoryCfg isPosix v1RepoExists getMapperClass
                       getParentSymlinkPath (mkArgs uri "r" None None None ∅)) with
          | Some c => Ret c
          | None => Raise (RuntimeError "Could not locate parent repository")
          end
      end
  end.

(** The local function [addParents] of [_makeAndConnectParentRepoDatas];
    its state is the arena and the dictionary [parents].  A node made here
    gets its [cfg] alone. *)
Fixpoint connectParents (fuel : nat) (st : Heap * list (ParentVal * nat)) (repoData : nat)
  : outcome (Heap * list (ParentVal * nat)) :=
  match fuel with
  | O => OutOfFuel
  | S f =>
      rd ← deref (fst st) repoData;
      c ← cfg_of rd;
      ps ← iter_parents c;
      foldM (fun '(h, parents) parent =>
               match parents_get parents parent with
               | Some parentRepoData =>
                   Ret (update h repoData (fun rd => addParentRepoData rd parentRepoData),
                        parents)
               | None =>
                   cfg ← parent_cfg parent;
                   let parentRepoData := length h in
                   let h := h ++ [mkRepoData (Some cfg) None None [] ∅] in
                   let parents := parents ++ [(parent, parentRepoData)] in
                   let h := update h repoData
                                   (fun rd => addParentRepoData rd parentRepoData) in
                   connectParents f (h, parents) parentRepoData
               end)
            ps st
  end.

(** The search of the second loop for the declaration a parent of an
    output refers to.  For a parent that is a configuration the source reads
    [otherArgsAndData.repoData.repoData], an attribute a [RepoData] does not
    have. *)
Fixpoint find_declared (h : Heap) (parent : ParentVal) (decls : list ArgsAndData)
  : outcome (option nat) :=
  match decls with
  | [] => Ret None
  | otherArgsAndData :: rest =>
      match parent with
      | PCfg _ => Raise (AttributeError "'RepoData' object has no attribute 'repoData'")
      | PRoot uri =>
          rd ← deref h (repoData otherArgsAndData);
          c ← cfg_of rd;
          if String.eqb (cfg_root c) uri then Ret (Some (repoData otherArgsAndData))
          else find_declared h parent rest
      end
  end.

(** The body of the second loop, for one output. *)
Definition link_output (inputs outputs : list ArgsAndData) (h : Heap)
    (argsAndData : ArgsAndData) : outcome Heap :=
  rd ← deref h (repoData argsAndData);
  c ← cfg_of rd;
  ps ← iter_parents c;
  foldM (fun h parent =>
           parentToAdd ← find_declared h parent (inputs ++ outputs);
           match parentToAdd with
           | None => Raise (RuntimeError "TODO write a good message: could not find parent")
           | Some p =>
               Ret (update h (repoData argsAndData) (fun rd => addParentRepoData rd p))
           end)
        ps h.

(** [Butler._makeAndConnectParentRepoDatas]; [parents.values()] comes in no
    particular order. *)
Definition _makeAndConnectParentRepoDatas (fuel : nat) (h : Heap)
    (inputs outputs : list ArgsAndData) : outcome (Heap * gset nat) :=
  st ← foldM (fun st argsAndData => connectParents fuel st (repoData argsAndData))
             inputs (h, []);
  h ← foldM (link_output inputs outputs) outputs (fst st);
  Ret (h, list_to_set (map snd (snd st))).

(** The configuration that storage has for a root, if it has one. *)
Definition stored_cfg (uri : string) : option RepositoryCfg :=
  match parent_cfg (PRoot uri) with
  | Ret c => Some c
  | _ => None
  end.

End Connect.

(** *** Vocabulary of the linking properties *)

(** [rd] with the parents [ms] appended. *)
Definition add_parents (rd : RepoData) (ms : list nat) : RepoData :=
  mkRepoData (cfg rd) (cfgOrigin rd) (cfgRoot rd) (parentRepoDatas rd ++ ms) (tags rd).

(** The two nodes differ at most in their parents. *)
Definition same_but_parents (rd rd' : RepoData) : Prop :=
  cfg rd' = cfg rd /\ cfgOrigin rd' = cfgOrigin rd /\
  cfgRoot rd' = cfgRoot rd /\ tags rd' = tags rd.

(** The node of the first declaration whose configuration has the root
    [q]. *)
Definition has_root (h : Heap) (q : string) (d : ArgsAndData) : bool :=
  match cfg_at h (repoData d) with
  | Some c => String.eqb (cfg_root c) q
  | None => false
  end.

Definition declared_at (h : Heap) (decls : list ArgsAndData) (q : string) : option nat :=
  match List.find (has_root h q) decls with
  | Some d => Some (repoData d)
  | None => None
  end.

(** The parent reference is a root that some declaration has. *)
Definition declared_root (h : Heap) (decls : list ArgsAndData) (p : ParentVal) : Prop :=
  exists q m, p = PRoot q /\ declared_at h decls q = Some m.

(** A rank for the nodes, from a rank [rk] of the roots: above the rank of
    every root in the parent list of the node's configuration. *)
Definition lineage_rank (rk : string -> nat) (h : Heap) (n : nat) : nat :=
  match cfg_at h n with
  | Some c =>
      match cfg_parents c with
      | Some l =>
          list_max (map (fun p => match p with
                                  | PRoot q => S (rk q)
                                  | PCfg _ => 0
                                  end) l)
      | None => 0
      end
  | None => 0
  end.

(** Every parent reference of the list is a root of [universe] whose rank
    is below [bound]. *)
Definition roots_below (rk : string -> nat) (universe : list string) (bound : nat)
    (l : list ParentVal) : bool :=
  forallb (fun p => match p with
                    | PRoot q => (rk q <? bound)%nat && bool_decide (q ∈ universe)
                    | PCfg _ => false
                    end) l.

(** The repositories of [universe] are on storage, each with a parent list
    of roots of [universe], and [rk] decreases from a repository to its
    parents: the persisted lineage is closed and well founded. *)
Definition closed_lineage (stored : string -> option RepositoryCfg) (rk : string -> nat)
    (universe : list string) : bool :=
  forallb (fun uri => match stored uri with
                      | Some c =>
                          match cfg_parents c with
                          | Some l => roots_below rk universe (rk uri) l
                          | None => false
                          end
                      | None => false
                      end) universe.

(** The node of an input has a configuration whose parents are roots of
    [universe] ranked below its own root, and the fuel covers its rank. *)
Definition input_lineage (rk : string -> nat) (universe : list string) (fuel : nat)
    (h : Heap) (a : ArgsAndData) : bool :=
  match h !! repoData a with
  | Some rd =>
      match cfg rd with
      | Some c =>
          match cfg_parents c with
          | Some l =>
              roots_below rk universe (rk (cfg_root c)) l &&
              (rk (cfg_root c) <? fuel)%nat &&
              bool_decide (parentRepoDatas rd = [])
          | None => false
          end
      | None => false
      end
  | None => false
  end.

(** The node of an output has a configuration whose parents are roots of
    declarations, ranked below its own root. *)
Definition output_lineage (rk : string -> nat) (decls : list ArgsAndData)
    (h : Heap) (a : ArgsAndData) : bool :=
  match h !! repoData a with
  | Some rd =>
      match cfg rd with
      | Some c =>
          match cfg_parents c with
          | Some l =>
              forallb (fun p => match p with
                                | PRoot q =>
                                    (rk q <? rk (cfg_root c))%nat &&
                                    existsb (has_root h q) decls
                                | PCfg _ => false
                                end) l &&
              bool_decide (parentRepoDatas rd = [])
          | None => false
          end
      | None => false
      end
  | None => false
  end.

(** The parents of the node are the nodes that the dictionary has for the
    parent references of its configuration, in order. *)
Definition linked (h : Heap) (D : list (ParentVal * nat)) (n : nat) : Prop :=
  exists c l,
    cfg_at h n = Some c /\ cfg_parents c = Some l /\
    Forall2 (fun p m => (p, m) ∈ D) l (parents_of h n).

(** The state of [addParents]: the nodes of [h0] are there, changed at
    most in their parents; the nodes made since are the values of the
    dictionary, in order, one for each key, each with the configuration that
    storage has for its key; and every parent link goes to the node that the
    dictionary has for a parent reference of the configuration. *)
Definition connect_inv (stored : string -> option RepositoryCfg) (universe : list string)
    (h0 h : Heap) (D : list (ParentVal * nat)) : Prop :=
  length h0 <= length h /\
  (forall n rd0, h0 !! n = Some rd0 ->
     exists rd, h !! n = Some rd /\ same_but_parents rd0 rd) /\
  map snd D = seq (length h0) (length h - length h0) /\
  NoDup (map fst D) /\
  (forall k v, (k, v) ∈ D ->
     exists q c rd,
       k = PRoot q /\ q ∈ universe /\ stored q = Some c /\
       h !! v = Some rd /\ cfg rd = Some c /\ cfgOrigin rd = None /\
       cfgRoot rd = None /\ tags rd = ∅) /\
  (forall n m, m ∈ parents_of h n ->
     exists c l q,
       cfg_at h n = Some c /\ cfg_parents c = Some l /\
       PRoot q ∈ l /\ (PRoot q, m) ∈ D).

(** What a call of [addParents] for the node [n] leaves. *)
Definition connect_post (stored : string -> option RepositoryCfg) (universe : list string)
    (h0 : Heap) (n : nat) (h : Heap) (D : list (ParentVal * nat))
    (h' : Heap) (D' : list (ParentVal * nat)) : Prop :=
  connect_inv stored universe h0 h' D' /\
  D `prefix_of` D' /\
  length h <= length h' /\
  (forall m, m < length h -> m <> n -> h' !! m = h !! m) /\
  linked h' D' n /\
  (forall v, length h <= v < length h' -> linked h' D' v).

(** An input at ["in"] whose persisted parents are ["in1"] and ["in2"],
    which have none, and a new output at ["new"] made from that input. *)
Definition chain_disk (root : string) : option RepositoryCfg :=
  if String.eqb root "in"
  then Some (mkCfg "in" (Some "MapperA") None (Some [PRoot "in1"; PRoot "in2"]))
  else parents_disk root.

Definition chain_rank (root : string) : nat :=
  if String.eqb root "new" then 2
  else if String.eqb root "in" then 1 else 0.

Definition chain_heap : Heap :=
  [ mkRepoData (Some (mkCfg "in" (Some "MapperA") None (Some [PRoot "in1"; PRoot "in2"])))
               (Some existing) (Some "in") [] ∅;
    mkRepoData (Some (mkCfg "new" (Some "MapperA") None (Some [PRoot "in"])))
               (Some new) (Some "new") [] ∅ ].

Definition chain_input : ArgsAndData :=
  mkArgsAndData (mkArgs "in" "r" None None None ∅) 0.

Definition chain_output : ArgsAndData :=
  mkArgsAndData (mkArgs "new" "w" None None None ∅) 1.

(** What [_makeAndConnectParentRepoDatas] leaves: [h1] and the dictionary
    [D1] after the first loop, [h2] after the second. *)
Definition connect_result (stored : string -> option RepositoryCfg) (universe : list string)
    (h0 : Heap) (inputs outputs : list ArgsAndData)
    (h1 : Heap) (D1 : list (ParentVal * nat)) (h2 : Heap) : Prop :=
  connect_inv stored universe h0 h1 D1 /\
  (forall m, m < length h0 -> m ∉ map repoData inputs -> h1 !! m = h0 !! m) /\
  (forall a, a ∈ inputs -> linked h1 D1 (repoData a)) /\
  (forall v, length h0 <= v < length h1 -> linked h1 D1 v) /\
  length h2 = length h1 /\
  (forall m, m ∉ map repoData outputs -> h2 !! m = h1 !! m) /\
  (forall o, o ∈ outputs ->
     exists rd c l ms,
       h0 !! repoData o = Some rd /\ h1 !! repoData o = Some rd /\
       cfg rd = Some c /\ cfg_parents c = Some l /\ parentRepoDatas rd = [] /\
       Forall2 (fun p m => exists q, p = PRoot q /\
                                     declared_at h0 (inputs ++ outputs) q = Some m) l ms /\
       h2 !! repoData o = Some (add_parents rd ms)).

Section InitGraph.

Variable getRepositoryCfg : string -> option RepositoryCfg.
Variable isPosix : string -> bool.
Variable v1RepoExists : string -> bool.
Variable getMapperClass : string -> option string.
Variable getParentSymlinkPath : string -> option string.

(** [Butler.__init__], from the call of [_makeAndConnectParentRepoDatas]
    to the call of [_setRepoDataTags]: the nodes are linked, the container is
    filled with the declared nodes and the nodes made for parents, the lookup
    lists are built and the tags are set. *)
Definition Butler_init_graph (fuel : nat) (h : Heap) (inputs outputs : list ArgsAndData)
  : outcome (Heap * RepoDataContainer) :=
  linked ← _makeAndConnectParentRepoDatas getRepositoryCfg isPosix v1RepoExists
             getMapperClass getParentSymlinkPath fuel h inputs outputs;
  let h := fst linked in
  let parentRepoDatas := snd linked in
  let _repos := RepoDataContainer_init in
  let _repos := foldl (fun c argsAndData => add c (repoData argsAndData))
                      _repos (inputs ++ outputs) in
  let _repos := set_fold (fun repoData c => add c repoData) _repos parentRepoDatas in
  _repos ← _buildLookupLists fuel h _repos inputs outputs;
  h ← _setRepoDataTags fuel h inputs outputs;
  Ret (h, _repos).

End InitGraph.

(** ** A composite whose second component is missing

    One input repository; its mapper knows the composite ["exposure"], made
    of the components ["image"] (dataset type ["raw_image"], which the
    repository has) and ["mask"] (dataset type ["raw_mask"], for which it has
    nothing). *)
Definition exposure_components : list (string * ComponentInfo) :=
  [("image", mkComponentInfo "raw_image" false false);
   ("mask", mkComponentInfo "raw_mask" false false)].

Definition exposure_location : @Location string :=
  mkLocation (ButlerComposite exposure_components) 0 0 "" no_id None.

Definition exposure_map (r : nat) (datasetType : string) (dataId : DataId) (write : bool)
  : outcome (option (@Location string)) :=
  if String.eqb datasetType "exposure" then Ret (Some exposure_location)
  else if String.eqb datasetType "raw_image" then Ret (Some (plain_location r))
  else Ret None.

(** Storage that holds the datasets of repository 1 only. *)
Definition exists_in_second (l : @Location string) : bool :=
  Nat.eqb (loc_repository l) 1.

Example replace_ex1 : replace "@raw" "exposure.raw" "@raw.x@raw" = "exposure.raw.xexposure.raw".
Proof. reflexivity. Qed.

Example replace_ex2 : replace "aa" "b" "aaaaa" = "bba".
Proof. reflexivity. Qed.

Example replace_ex3 : replace "" "x" "abc" = "xaxbxcx".
Proof. reflexivity. Qed.

Example resolve_ex1 :
  _resolveDatasetTypeAlias [("@raw", "exposure.raw")] "@raw" = Ret "exposure.raw".
Proof. reflexivity. Qed.

(** * Properties *)

(** ** Strings *)

Section StringFacts.

Lemma contains_app c s t :
  contains c (s ++ t)%string = contains c s || contains c t.
Proof.
  induction s as [|a s IH]; simpl; [reflexivity|].
  destruct (Ascii.eqb a c); [reflexivity | exact IH].
Qed.

Lemma find_none c s : (find c s = -1)%Z <-> contains c s = false.
Proof.
  induction s as [|a s IH]; simpl; [tauto|].
  destruct (Ascii.eqb a c); [split; lia || discriminate|].
  assert (Hge : forall t, (-1 <= find c t)%Z).
  { clear. induction t as [|b t IHt]; simpl; [lia|].
    destruct (Ascii.eqb b c); [lia|].
    destruct (Z.eqb_spec (find c t) (-1)); lia. }
  specialize (Hge s).
  destruct (Z.eqb_spec (find c s) (-1)) as [E|E].
  - split; [intros _; apply IH, E | reflexivity].
  - split; [lia | intros H; apply IH in H; lia].
Qed.

Lemma find_eqb_contains c s : (find c s =? -1)%Z = negb (contains c s).
Proof.
  destruct (Z.eqb_spec (find c s) (-1)) as [E|E].
  - apply find_none in E. now rewrite E.
  - destruct (contains c s) eqn:Hc; [reflexivity|].
    apply find_none in Hc. contradiction.
Qed.

Lemma count_zero c s : count c s = 0 <-> contains c s = false.
Proof.
  induction s as [|a s IH]; simpl; [tauto|].
  destruct (Ascii.eqb a c); simpl; [split; discriminate | exact IH].
Qed.

Lemma rfind_ge c s : (-1 <= rfind c s)%Z.
Proof.
  induction s as [|a s IH]; simpl; [lia|].
  destruct (Z.eqb_spec (rfind c s) (-1)); [destruct (Ascii.eqb a c)|]; lia.
Qed.

Lemma rfind_none c s : (rfind c s = -1)%Z <-> contains c s = false.
Proof.
  induction s as [|a s IH]; simpl; [tauto|].
  pose proof (rfind_ge c s) as Hge.
  destruct (Z.eqb_spec (rfind c s) (-1)) as [E|E].
  - destruct (Ascii.eqb a c); [split; lia || discriminate|].
    split; [intros _; apply IH, E | reflexivity].
  - destruct (Ascii.eqb a c); [split; lia || discriminate|].
    split; [lia | intros H; apply IH in H; lia].
Qed.

(** The last occurrence is past the first character exactly when some
    later position holds the character. *)
Lemma rfind_pos c s :
  (rfind c s > 0)%Z <-> exists i, 0 < i /\ String.get i s = Some c.
Proof.
  destruct s as [|a s]; simpl.
  - split; [lia | intros (i & _ & H); destruct i; discriminate].
  - pose proof (rfind_ge c s) as Hge.
    assert (Hs : contains c s = true <-> exists j, String.get j s = Some c).
    { clear. induction s as [|b s IH]; simpl.
      - split; [discriminate | intros [[|j] H]; discriminate].
      - destruct (Ascii.eqb_spec b c) as [->|Hne].
        + split; [intros _; exists 0; reflexivity | reflexivity].
        + rewrite IH. split.
          * intros [j Hj]. exists (S j). exact Hj.
          * intros [[|j] Hj]; simpl in Hj; [congruence | eauto]. }
    destruct (Z.eqb_spec (rfind c s) (-1)) as [E|E].
    + apply rfind_none in E.
      split.
      * destruct (Ascii.eqb a c); lia.
      * intros ([|i] & Hi & Hg); [lia|]. simpl in Hg.
        assert (contains c s = true) by (apply Hs; eauto). congruence.
    + split; [intros _ | lia].
      assert (Hc : contains c s = true).
      { destruct (contains c s) eqn:Hc; [reflexivity|].
        apply rfind_none in Hc. contradiction. }
      apply Hs in Hc as [j Hj]. exists (S j). split; [lia | exact Hj].
Qed.

Lemma str_prefix_nil s : String.prefix "" s = true.
Proof. destruct s; reflexivity. Qed.

Lemma str_prefix_app_iff p s : String.prefix p s = true <-> exists t, s = (p ++ t)%string.
Proof.
  revert s. induction p as [|a p IH]; intros s; simpl.
  - split; [eauto | intros _; apply str_prefix_nil].
  - destruct s as [|b s]; simpl.
    + split; [discriminate | intros [t Ht]; discriminate].
    + destruct (ascii_dec a b) as [->|Hne].
      * rewrite IH. split; intros [t Ht]; exists t; [now rewrite Ht | now inversion Ht].
      * split; [discriminate | intros [t Ht]; inversion Ht; subst; contradiction].
Qed.

Lemma str_prefix_refl p : String.prefix p p = true.
Proof. induction p as [|a p IH]; simpl; [reflexivity|]. destruct (ascii_dec a a); [exact IH | contradiction]. Qed.

(** A prefix of a concatenation lies within the first part or covers it. *)
Lemma str_prefix_app_split k a t :
  String.prefix k (a ++ t)%string = true ->
  String.prefix k a = true \/ String.prefix a k = true.
Proof.
  revert a. induction k as [|c k IH]; intros a H; [left; apply str_prefix_nil|].
  destruct a as [|b a]; [right; reflexivity|].
  simpl in *. destruct (ascii_dec c b) as [->|]; [|discriminate].
  destruct (ascii_dec b b); [|contradiction]. apply IH, H.
Qed.

Lemma str_prefix_cons a p b s :
  String.prefix (String a p) (String b s)
  = if Ascii.eqb a b then String.prefix p s else false.
Proof.
  cbn [String.prefix].
  destruct (ascii_dec a b) as [E|E], (Ascii.eqb_spec a b); congruence.
Qed.

Lemma replace_from_cons old new a s :
  replace_from old new 0 (String a s)
  = if String.prefix old (String a s)
    then (new ++ replace_from old new (String.length old - 1) s)%string
    else String a (replace_from old new 0 s).
Proof. reflexivity. Qed.

Lemma replace_from_skip old new w t :
  replace_from old new (String.length w) (w ++ t)%string = replace_from old new 0 t.
Proof. induction w as [|a w IH]; simpl; [destruct t; reflexivity | exact IH]. Qed.

End StringFacts.

(** ** Alias registration *)

Section DefineAlias.

Lemma alias_token_rfind alias :
  (if (rfind at_sign alias =? -1)%Z then ("@" ++ alias)%string else alias)
  = alias_token alias.
Proof.
  unfold alias_token.
  destruct (Z.eqb_spec (rfind at_sign alias) (-1)) as [E|E].
  - apply rfind_none in E. now rewrite E.
  - destruct (contains at_sign alias) eqn:Hc; [reflexivity|].
    apply rfind_none in Hc. contradiction.
Qed.

Lemma overlap_check token keys :
  foldM (fun (_ : unit) key =>
           if overlaps token key
           then Raise (RuntimeError "Alias overlaps with existing alias")
           else Ret tt) keys tt
  = if existsb (overlaps token) keys
    then Raise (RuntimeError "Alias overlaps with existing alias")
    else Ret tt.
Proof.
  induction keys as [|k ks IH]; simpl; [reflexivity|].
  destruct (overlaps token k); simpl; [reflexivity | exact IH].
Qed.

Lemma existsb_overlaps d token :
  existsb (overlaps token) (dict_keys d) = true <-> overlapping d token.
Proof.
  unfold overlapping, overlaps, startswith. rewrite existsb_exists. split.
  - intros (k & Hin & Hk). exists k. split; [now apply list_elem_of_In|].
    apply orb_true_iff in Hk. exact Hk.
  - intros (k & Hin & Hk). exists k. split; [now apply list_elem_of_In|].
    apply orb_true_iff. exact Hk.
Qed.

Lemma dict_set_fresh d k v :
  existsb (overlaps k) (dict_keys d) = false -> dict_set d k v = d ++ [(k, v)].
Proof.
  induction d as [|[k' v'] d IH]; simpl; [reflexivity|].
  intros H. apply orb_false_iff in H as [Hk Hd].
  destruct (String.eqb_spec k' k) as [->|Hne].
  - unfold overlaps, startswith in Hk. now rewrite str_prefix_refl in Hk.
  - now rewrite IH.
Qed.

Lemma dict_get_app_fresh d k v k0 v0 :
  dict_get d k0 = Some v0 -> dict_get (d ++ [(k, v)]) k0 = Some v0.
Proof.
  induction d as [|[k' v'] d IH]; simpl; [discriminate|].
  destruct (String.eqb k' k0); [trivial | exact IH].
Qed.

(** What [defineAlias] computes, by cases. *)
Lemma defineAlias_cases d alias datasetType :
  defineAlias d alias datasetType =
    if (rfind at_sign alias >? 0)%Z
    then Raise (RuntimeError "Badly formatted alias string")
    else if contains at_sign datasetType
    then Raise (RuntimeError "Badly formatted type string")
    else if existsb (overlaps (alias_token alias)) (dict_keys d)
    then Raise (RuntimeError "Alias overlaps with existing alias")
    else Ret (d ++ [(alias_token alias, datasetType)]).
Proof.
  unfold defineAlias. rewrite <- alias_token_rfind.
  pose proof (rfind_ge at_sign alias) as Hge.
  assert (Hcnt : negb (Nat.eqb (count at_sign datasetType) 0) = contains at_sign datasetType).
  { destruct (Nat.eqb_spec (count at_sign datasetType) 0) as [E|E]; simpl.
    - apply count_zero in E. now rewrite E.
    - destruct (contains at_sign datasetType) eqn:Hc; [reflexivity|].
      apply count_zero in Hc. contradiction. }
  destruct (Z.eqb_spec (rfind at_sign alias) (-1)) as [E|E].
  - rewrite E. simpl. rewrite Hcnt.
    destruct (contains at_sign datasetType); [reflexivity|].
    unfold mbind, outcome_mbind. rewrite overlap_check.
    destruct (existsb _ _) eqn:Hov; simpl; [reflexivity|].
    now rewrite dict_set_fresh.
  - destruct (Z.gtb_spec (rfind at_sign alias) 0); simpl; [reflexivity|].
    rewrite Hcnt.
    destruct (contains at_sign datasetType); [reflexivity|].
    unfold mbind, outcome_mbind. rewrite overlap_check.
    destruct (existsb _ _) eqn:Hov; simpl; [reflexivity|].
    now rewrite dict_set_fresh.
Qed.

(** C7.  Registering an alias fails exactly when the alias has an ['@']
    after its first character, or the target dataset type contains ['@'],
    or the token (the alias with ['@'] in front when it had none) is a prefix
    of a registered token or has one as a prefix.  Otherwise the token is
    added to the table, after the existing entries, none of which
    changes. *)
Theorem defineAlias_spec (d : AliasDict) (alias datasetType : string) :
  (raises (defineAlias d alias datasetType) <-> rejected d alias datasetType) /\
  (forall d', defineAlias d alias datasetType = Ret d' <->
     ~ rejected d alias datasetType /\
     d' = d ++ [(alias_token alias, datasetType)]) /\
  (forall d' k v, defineAlias d alias datasetType = Ret d' ->
     dict_get d k = Some v -> dict_get d' k = Some v).
Proof.
  rewrite defineAlias_cases. unfold raises.
  pose proof (rfind_pos at_sign alias) as Hpos. fold (misplaced_at alias) in Hpos.
  pose proof (existsb_overlaps d (alias_token alias)) as Hov.
  assert (Hrej : forall msg, rejected d alias datasetType ->
            ((exists e, @Raise AliasDict (RuntimeError msg) = Raise e) <->
               rejected d alias datasetType) /\
            (forall d', Raise (RuntimeError msg) = Ret d' <->
               ~ rejected d alias datasetType /\
               d' = d ++ [(alias_token alias, datasetType)]) /\
            (forall d' k v, @Raise AliasDict (RuntimeError msg) = Ret d' ->
               dict_get d k = Some v -> dict_get d' k = Some v)).
  { intros msg HR. split; [|split].
    - split; [intros _; exact HR | intros _; eauto].
    - intros d'. split; [discriminate | intros [Hn _]; contradiction].
    - intros d' k v Hd. discriminate. }
  destruct (Z.gtb_spec (rfind at_sign alias) 0) as [Hgt|Hle].
  { apply Hrej. left. apply Hpos. lia. }
  assert (Hnm : ~ misplaced_at alias) by (intros Hm; apply Hpos in Hm; lia).
  destruct (contains at_sign datasetType) eqn:Hc.
  { apply Hrej. right. left. exact Hc. }
  destruct (existsb _ _) eqn:He.
  { apply Hrej. right. right. now apply Hov. }
  assert (Hno : ~ rejected d alias datasetType).
  { intros [Hm|[Hd|Ho]]; [contradiction | congruence |].
    apply Hov in Ho. congruence. }
  split; [|split].
  - split; [intros [e He']; discriminate | intros HR; contradiction].
  - intros d'. split.
    + intros [= <-]. split; [exact Hno | reflexivity].
    + intros [_ ->]. reflexivity.
  - intros d' k v [= <-] Hk. now apply dict_get_app_fresh.
Qed.

Lemma overlaps_sym a b : overlaps a b = overlaps b a.
Proof. unfold overlaps. apply orb_comm. Qed.

Lemma prefix_free_snoc ks k :
  prefix_free ks -> Forall (fun k' => overlaps k' k = false) ks ->
  prefix_free (ks ++ [k]).
Proof.
  induction ks as [|k0 ks IH]; simpl; intros Hpf Hall.
  - split; constructor.
  - destruct Hpf as [H0 Hpf]. inversion Hall; subst. split.
    + apply Forall_app. split; [exact H0 | constructor; [assumption | constructor]].
    + now apply IH.
Qed.

Lemma alias_token_shape alias :
  (rfind at_sign alias >? 0)%Z = false ->
  exists w, alias_token alias = String at_sign w /\ contains at_sign w = false.
Proof.
  unfold alias_token. intros Hr.
  destruct (contains at_sign alias) eqn:Hc; [|exists alias; split; [reflexivity | exact Hc]].
  destruct alias as [|a s]; [discriminate|].
  cbn [rfind contains] in *.
  pose proof (rfind_ge at_sign s) as Hge.
  destruct (Z.eqb_spec (rfind at_sign s) (-1)) as [E|E].
  - apply rfind_none in E. rewrite E in Hc.
    destruct (Ascii.eqb_spec a at_sign) as [->|]; [|discriminate].
    exists s. split; [reflexivity | exact E].
  - destruct (Z.gtb_spec (rfind at_sign s + 1) 0); [discriminate | lia].
Qed.

(** The tables [defineAlias] builds, starting from the empty one, are
    well formed. *)
Lemma wf_table_nil : wf_table [].
Proof. split; constructor. Qed.

Lemma defineAlias_wf d alias datasetType d' :
  wf_table d -> defineAlias d alias datasetType = Ret d' -> wf_table d'.
Proof.
  intros [Hents Hpf]. rewrite defineAlias_cases.
  destruct (rfind at_sign alias >? 0)%Z eqn:Hr; [discriminate|].
  destruct (contains at_sign datasetType) eqn:Hc; [discriminate|].
  destruct (existsb _ _) eqn:He; [discriminate|].
  intros [= <-]. split.
  - apply Forall_app. split; [exact Hents|]. constructor; [|constructor].
    split; [apply alias_token_shape, Hr | exact Hc].
  - unfold dict_keys. rewrite map_app. apply prefix_free_snoc; [exact Hpf|].
    apply Forall_forall. intros k Hk. rewrite overlaps_sym. cbn [fst].
    destruct (overlaps (alias_token alias) k) eqn:Ho; [|reflexivity].
    assert (existsb (overlaps (alias_token alias)) (dict_keys d) = true); [|congruence].
    apply existsb_exists. exists k. split; [now apply list_elem_of_In | exact Ho].
Qed.

End DefineAlias.

Lemma defineAlias_spec_witness : raises (defineAlias [] "r@w" "exposure.raw").
Proof.
  apply (proj1 (defineAlias_spec [] "r@w" "exposure.raw")).
  left. exists 1. split; [lia | reflexivity].
Defined.

(** ** Alias resolution *)

Section ResolveAlias.

Lemma replace_from_lit w v s t :
  contains at_sign s = false ->
  replace_from (String at_sign w) v 0 (s ++ t)%string
  = (s ++ replace_from (String at_sign w) v 0 t)%string.
Proof.
  induction s as [|a s IH]; [reflexivity|].
  change (String a s ++ t)%string with (String a (s ++ t)%string).
  cbn [contains].
  destruct (Ascii.eqb_spec a at_sign) as [->|Hne]; [discriminate|].
  intros Hs. rewrite replace_from_cons, str_prefix_cons.
  destruct (Ascii.eqb_spec at_sign a) as [<-|_]; [contradiction|].
  now rewrite IH by exact Hs.
Qed.

Lemma replace_from_self w v t :
  replace_from (String at_sign w) v 0 (String at_sign w ++ t)%string
  = (v ++ replace_from (String at_sign w) v 0 t)%string.
Proof.
  change (String at_sign w ++ t)%string with (String at_sign (w ++ t)%string).
  rewrite replace_from_cons.
  assert (Hp : String.prefix (String at_sign w) (String at_sign (w ++ t)) = true).
  { apply str_prefix_app_iff. exists t. reflexivity. }
  rewrite Hp. cbn [String.length]. rewrite Nat.sub_1_r. cbn [Nat.pred].
  now rewrite replace_from_skip.
Qed.

Lemma replace_from_other w v w' t :
  contains at_sign w' = false ->
  overlaps (String at_sign w) (String at_sign w') = false ->
  replace_from (String at_sign w) v 0 (String at_sign w' ++ t)%string
  = (String at_sign w' ++ replace_from (String at_sign w) v 0 t)%string.
Proof.
  intros Hw' Hov.
  change (String at_sign w' ++ t)%string with (String at_sign (w' ++ t)%string).
  rewrite replace_from_cons.
  destruct (String.prefix (String at_sign w) (String at_sign (w' ++ t))) eqn:Hp.
  - change (String at_sign (w' ++ t)%string) with (String at_sign w' ++ t)%string in Hp.
    apply str_prefix_app_split in Hp. unfold overlaps, startswith in Hov.
    apply orb_false_iff in Hov as [H1 H2]. destruct Hp; congruence.
  - rewrite replace_from_lit by exact Hw'. reflexivity.
Qed.

Lemma render_cons f p ps : render f (p :: ps) = (f p ++ render f ps)%string.
Proof. reflexivity. Qed.

Lemma replace_render w v ps :
  Forall (fun p => match p with
                   | Lit s => contains at_sign s = false
                   | Tok k' _ =>
                       k' = String at_sign w \/
                       exists w', k' = String at_sign w' /\
                                  contains at_sign w' = false /\
                                  overlaps (String at_sign w) k' = false
                   end) ps ->
  replace (String at_sign w) v (render piece_src ps)
  = render piece_src (map (fun p => match p with
                                    | Lit s => Lit s
                                    | Tok k' v' =>
                                        if String.eqb k' (String at_sign w)
                                        then Lit v else Tok k' v'
                                    end) ps).
Proof.
  unfold replace. induction 1 as [|p ps Hp _ IH]; [reflexivity|].
  rewrite map_cons, !render_cons.
  destruct p as [s|k' v']; simpl piece_src.
  - rewrite replace_from_lit by exact Hp. now rewrite IH.
  - destruct Hp as [->|(w' & -> & Hw' & Hov)].
    + rewrite String.eqb_refl. simpl piece_src.
      rewrite replace_from_self. now rewrite IH.
    + destruct (String.eqb_spec (String at_sign w') (String at_sign w)) as [E|_].
      * rewrite E in Hov. unfold overlaps, startswith in Hov.
        rewrite str_prefix_refl in Hov. discriminate.
      * simpl piece_src. rewrite replace_from_other by assumption. now rewrite IH.
Qed.

Lemma render_no_at ps :
  Forall (fun p => match p with
                   | Lit s => contains at_sign s = false
                   | Tok k' _ => exists w', k' = String at_sign w'
                   end) ps ->
  contains at_sign (render piece_src ps) = false ->
  render piece_src ps = render piece_dst ps.
Proof.
  induction 1 as [|p ps Hp _ IH]; [reflexivity|].
  rewrite !render_cons, contains_app. intros Hc.
  apply orb_false_iff in Hc as [H1 H2].
  destruct p as [s|k' v']; simpl in *.
  - now rewrite IH.
  - destruct Hp as [w' ->]. simpl in H1. discriminate.
Qed.

Lemma wf_table_cons k v d :
  wf_table ((k, v) :: d) ->
  wf_entry (k, v) /\ Forall (fun k' => overlaps k k' = false) (dict_keys d) /\ wf_table d.
Proof.
  intros [He Hp]. inversion He; subst. destruct Hp as [Hk Hp].
  split; [assumption|]. split; [exact Hk|]. split; assumption.
Qed.

Lemma elem_of_dict_keys (d : AliasDict) k v : (k, v) ∈ d -> k ∈ dict_keys d.
Proof.
  intros H. unfold dict_keys. apply list_elem_of_In, in_map_iff.
  exists (k, v). split; [reflexivity | now apply list_elem_of_In].
Qed.

(** The loop turns every registered token of a cut string into its target. *)
Lemma resolve_loop_render d ps :
  wf_table d -> Forall (wf_piece d) ps ->
  resolve_loop d (render piece_src ps) = render piece_dst ps.
Proof.
  revert ps. induction d as [|[k v] d IH]; intros ps Hwf Hps.
  - simpl. apply render_no_at.
    + eapply Forall_impl; [exact Hps|]. intros [s|k v]; simpl; [trivial|].
      intros H. apply elem_of_nil in H. contradiction.
    + clear -Hps. induction Hps as [|p ps Hp _ IH]; [reflexivity|].
      rewrite render_cons, contains_app.
      destruct p as [s|k v]; simpl in *; [now rewrite Hp|].
      apply elem_of_nil in Hp. contradiction.
  - apply wf_table_cons in Hwf as Hparts.
    destruct Hparts as (((w & Hk & Hw) & Hv) & Hfree & Hwf').
    simpl in Hk, Hv. subst k.
    assert (Hkeys : forall k' v', (k', v') ∈ (String at_sign w, v) :: d ->
                (k', v') = (String at_sign w, v) \/
                ((k', v') ∈ d /\ exists w', k' = String at_sign w' /\
                   contains at_sign w' = false /\
                   overlaps (String at_sign w) k' = false)).
    { intros k' v' Hin. apply elem_of_cons in Hin as [E|Hin]; [now left|].
      right. split; [exact Hin|].
      destruct Hwf' as [Hents _].
      rewrite Forall_forall in Hents. specialize (Hents _ Hin).
      destruct Hents as [(w' & Hk' & Hw') _]. simpl in Hk'. subst k'.
      exists w'. repeat split; [exact Hw'|].
      rewrite Forall_forall in Hfree. apply Hfree.
      eapply elem_of_dict_keys, Hin. }
    cbn [resolve_loop]. rewrite find_eqb_contains.
    destruct (contains at_sign (render piece_src ps)) eqn:Hc; cbn [negb].
    + rewrite replace_render.
      * rewrite IH; [| exact Hwf' |].
        -- clear -Hps Hkeys. induction Hps as [|p ps Hp _ IHps]; [reflexivity|].
           rewrite map_cons, !render_cons, IHps.
           destruct p as [s|k' v']; [reflexivity|]. simpl in Hp.
           destruct (Hkeys _ _ Hp) as [[= -> ->]|[_ (w' & -> & _ & Hov)]].
           ++ now rewrite String.eqb_refl.
           ++ destruct (String.eqb_spec (String at_sign w') (String at_sign w)) as [E|_];
                [|reflexivity].
              rewrite E in Hov. unfold overlaps, startswith in Hov.
              rewrite str_prefix_refl in Hov. discriminate.
        -- clear -Hps Hkeys Hv. induction Hps as [|p ps Hp _ IHps]; [constructor|].
           rewrite map_cons. constructor; [|exact IHps].
           destruct p as [s|k' v']; [exact Hp|]. simpl in Hp.
           destruct (Hkeys _ _ Hp) as [[= -> ->]|[Hin (w' & -> & _ & Hov)]].
           ++ rewrite String.eqb_refl. exact Hv.
           ++ destruct (String.eqb_spec (String at_sign w') (String at_sign w)) as [E|_];
                [|exact Hin].
              rewrite E in Hov. unfold overlaps, startswith in Hov.
              rewrite str_prefix_refl in Hov. discriminate.
      * eapply Forall_impl; [exact Hps|]. intros [s|k' v']; simpl; [trivial|].
        intros Hin. destruct (Hkeys _ _ Hin) as [[= -> ->]|[_ (w' & -> & ? & ?)]];
          [now left | right; eauto].
    + apply render_no_at; [|exact Hc].
      eapply Forall_impl; [exact Hps|]. intros [s|k' v']; simpl; [trivial|].
      intros Hin. destruct (Hkeys _ _ Hin) as [[= -> ->]|[_ (w' & -> & _)]]; eauto.
Qed.

Lemma resolve_loop_no_at d s :
  contains at_sign s = false -> resolve_loop d s = s.
Proof.
  intros H. destruct d as [|[k v] d]; simpl; [reflexivity|].
  now rewrite find_eqb_contains, H.
Qed.

Lemma resolve_cases d s :
  _resolveDatasetTypeAlias d s =
    if contains at_sign (resolve_loop d s)
    then Raise (RuntimeError "Unresolvable alias specifier in datasetType")
    else Ret (resolve_loop d s).
Proof.
  unfold _resolveDatasetTypeAlias. rewrite find_eqb_contains, negb_involutive.
  reflexivity.
Qed.

(** C6.  Alias resolution turns every registered token of a dataset-type
    string into its target (the string being cut into ['@']-free text and
    tokens of a table built by [defineAlias]); a string without ['@'] comes
    back unchanged, so resolving a resolved string changes nothing; and a
    string that still holds an ['@'] when the loop over the table ends
    raises the fatal error. *)
Theorem resolveDatasetTypeAlias_spec :
  (forall d ps, wf_table d -> Forall (wf_piece d) ps ->
     _resolveDatasetTypeAlias d (render piece_src ps) = Ret (render piece_dst ps)) /\
  (forall d s, contains at_sign s = false -> _resolveDatasetTypeAlias d s = Ret s) /\
  (forall d s s', _resolveDatasetTypeAlias d s = Ret s' ->
     contains at_sign s' = false /\ _resolveDatasetTypeAlias d s' = Ret s') /\
  (forall d s, contains at_sign (resolve_loop d s) = true ->
     _resolveDatasetTypeAlias d s =
       Raise (RuntimeError "Unresolvable alias specifier in datasetType")).
Proof.
  assert (Hfix : forall d s, contains at_sign s = false ->
                   _resolveDatasetTypeAlias d s = Ret s).
  { intros d s H. rewrite resolve_cases, resolve_loop_no_at by exact H.
    now rewrite H. }
  split; [|split; [exact Hfix | split]].
  - intros d ps Hwf Hps. rewrite resolve_cases, resolve_loop_render by assumption.
    assert (Hc : contains at_sign (render piece_dst ps) = false).
    { destruct Hwf as [Hents _]. clear -Hps Hents.
      induction Hps as [|p ps Hp _ IH]; [reflexivity|].
      rewrite render_cons, contains_app, IH, orb_false_r.
      destruct p as [s|k v]; simpl in *; [exact Hp|].
      rewrite Forall_forall in Hents. apply (Hents _ Hp). }
    now rewrite Hc.
  - intros d s s'. rewrite resolve_cases.
    destruct (contains at_sign (resolve_loop d s)) eqn:Hc; [discriminate|].
    intros [= <-]. split; [exact Hc | now apply Hfix].
  - intros d s H. now rewrite resolve_cases, H.
Qed.

End ResolveAlias.

Lemma resolveDatasetTypeAlias_spec_witness :
  _resolveDatasetTypeAlias [("@raw", "exposure.raw")]
    (render piece_src [Tok "@raw" "exposure.raw"; Lit ".wcs"])
  = Ret (render piece_dst [Tok "@raw" "exposure.raw"; Lit ".wcs"]).
Proof.
  apply (proj1 resolveDatasetTypeAlias_spec).
  - split.
    + constructor; [|constructor].
      split; [exists "raw"; split; reflexivity | reflexivity].
    + split; constructor.
  - constructor; [apply list_elem_of_here|].
    constructor; [reflexivity | constructor].
Defined.

(** ** The lineage graph *)

Section Lineage.

Variable h : Heap.
Variable rank : nat -> nat.

Lemma parents_of_ge r : length h <= r -> parents_of h r = [].
Proof.
  intros Hr. unfold parents_of. now rewrite lookup_ge_None_2.
Qed.

Lemma ranked_acyclic : ranked rank h = true -> acyclic rank h.
Proof.
  intros Hranked r p Hp. destruct (le_lt_dec (length h) r) as [Hge|Hlt].
  - rewrite parents_of_ge in Hp by exact Hge. apply elem_of_nil in Hp. contradiction.
  - unfold ranked in Hranked. rewrite forallb_forall in Hranked.
    specialize (Hranked r). rewrite in_seq in Hranked.
    assert (Hr : forallb (fun p => (rank p <? rank r)%nat) (parents_of h r) = true)
      by (apply Hranked; lia).
    rewrite forallb_forall in Hr. apply Nat.ltb_lt, Hr. now apply list_elem_of_In.
Qed.

Hypothesis Hacyc : acyclic rank h.

Lemma reach_rank r n : reach h r n -> rank n <= rank r.
Proof.
  induction 1 as [r|r p n Hp _ IH]; [lia|].
  apply Hacyc in Hp. lia.
Qed.

Lemma reach_trans a b c : reach h a b -> reach h b c -> reach h a c.
Proof.
  induction 1 as [r|r p n Hp _ IH]; [trivial|].
  intros Hc. eapply reach_step; [exact Hp | now apply IH].
Qed.

(** The traversal lists what can be reached, and with enough depth all of
    it. *)
Lemma traversal_reach depth r n : n ∈ traversal depth h r -> reach h r n.
Proof.
  revert r. induction depth as [|d IH]; intros r; simpl.
  - intros H. apply elem_of_nil in H. contradiction.
  - intros H. apply elem_of_cons in H as [->|H]; [constructor|].
    apply list_elem_of_In, in_flat_map in H as (p & Hp & Hn).
    eapply reach_step; [apply list_elem_of_In, Hp|].
    apply IH, list_elem_of_In, Hn.
Qed.

Lemma reach_traversal depth r n :
  reach h r n -> rank r < depth -> n ∈ traversal depth h r.
Proof.
  intros Hr. revert depth. induction Hr as [r|r p n Hp _ IH]; intros depth Hd.
  - destruct depth; [lia|]. simpl. apply elem_of_cons. now left.
  - destruct depth as [|d]; [lia|]. simpl. apply elem_of_cons. right.
    apply list_elem_of_In, in_flat_map. exists p.
    split; [now apply list_elem_of_In|].
    apply list_elem_of_In, IH. apply Hacyc in Hp. lia.
Qed.

End Lineage.

Section FirstOccurrences.

Lemma first_occurrences_app seen a b :
  first_occurrences seen (a ++ b)
  = first_occurrences seen a ++ first_occurrences (seen ∪ list_to_set a) b.
Proof.
  revert seen. induction a as [|x a IH]; intros seen; simpl.
  - f_equal. set_solver.
  - destruct (decide (x ∈ seen)) as [Hx|Hx].
    + rewrite IH. do 2 f_equal. set_solver.
    + simpl. rewrite IH. do 3 f_equal. set_solver.
Qed.

Lemma first_occurrences_seen seen l :
  (forall x, x ∈ l -> x ∈ seen) -> first_occurrences seen l = [].
Proof.
  induction l as [|x l IH]; simpl; intros H; [reflexivity|].
  destruct (decide (x ∈ seen)) as [Hx|Hx].
  - apply IH. intros y Hy. apply H. now apply elem_of_cons; right.
  - exfalso. apply Hx, H. now apply elem_of_cons; left.
Qed.

Lemma elem_of_first_occurrences seen l x :
  x ∈ first_occurrences seen l <-> x ∈ l /\ x ∉ seen.
Proof.
  revert seen. induction l as [|y l IH]; intros seen; simpl.
  - set_solver.
  - destruct (decide (y ∈ seen)) as [Hy|Hy].
    + rewrite IH. set_solver.
    + rewrite elem_of_cons, IH. destruct (decide (x = y)); set_solver.
Qed.

Lemma NoDup_first_occurrences seen l : NoDup (first_occurrences seen l).
Proof.
  revert seen. induction l as [|y l IH]; intros seen; simpl; [constructor|].
  destruct (decide (y ∈ seen)); [apply IH|].
  constructor; [|apply IH].
  rewrite elem_of_first_occurrences. set_solver.
Qed.

End FirstOccurrences.

(** ** The input order *)

Section InputOrder.

Variable h : Heap.
Variable rank : nat -> nat.
Hypothesis Hacyc : acyclic rank h.

Lemma addToList_fold fuel ps :
  (forall p, p ∈ ps -> rank p < fuel) ->
  (forall p, p ∈ ps -> addToList_ok h fuel p) ->
  forall lst V, (forall p, p ∈ ps -> settled h V p) ->
    foldM (addToList fuel h) ps (lst, V)
    = Ret (lst ++ first_occurrences V (flat_map (traversal fuel h) ps),
           V ∪ list_to_set (flat_map (traversal fuel h) ps)).
Proof.
  induction ps as [|p ps IH]; intros Hrk Hok lst V Hset; simpl.
  - rewrite app_nil_r. f_equal. f_equal. set_solver.
  - assert (Hp : p ∈ p :: ps) by (apply elem_of_cons; now left).
    rewrite (Hok p Hp lst V (Hset p Hp)).
    unfold mbind, outcome_mbind, bind.
    rewrite IH.
    + rewrite first_occurrences_app, app_assoc. f_equal. f_equal.
      rewrite list_to_set_app_L. set_solver.
    + intros q Hq. apply Hrk. apply elem_of_cons. now right.
    + intros q Hq. apply Hok. apply elem_of_cons. now right.
    + intros q Hq x Hx Hqx y Hxy.
      assert (Hq' : q ∈ p :: ps) by (apply elem_of_cons; now right).
      apply elem_of_union in Hx as [Hx|Hx]; apply elem_of_union.
      * left. exact (Hset q Hq' x Hx Hqx y Hxy).
      * right. apply elem_of_list_to_set. apply elem_of_list_to_set in Hx.
        apply traversal_reach in Hx.
        apply (reach_traversal h rank Hacyc); [|now apply Hrk].
        eapply reach_trans; eassumption.
Qed.

Lemma addToList_spec fuel r : rank r < fuel -> addToList_ok h fuel r.
Proof.
  revert r. induction fuel as [|f IH]; intros r Hr; [lia|].
  intros lst V HV. cbn [addToList traversal].
  destruct (decide (r ∈ V)) as [Hin|Hout].
  - assert (Hall : forall x, x ∈ r :: flat_map (traversal f h) (parents_of h r) -> x ∈ V).
    { intros x Hx. apply (HV r Hin (reach_refl h r)).
      apply (traversal_reach h (S f)). exact Hx. }
    f_equal. f_equal.
    + change (r :: flat_map (traversal f h) (parents_of h r)) with (traversal (S f) h r).
      rewrite first_occurrences_seen; [now rewrite app_nil_r | exact Hall].
    + apply set_eq. intros x. rewrite elem_of_union, elem_of_list_to_set.
      split; [eauto | intros [?|?]; eauto].
  - rewrite addToList_fold.
    + cbn [first_occurrences]. destruct (decide (r ∈ V)); [contradiction|].
      rewrite <- app_assoc. f_equal. f_equal.
      rewrite list_to_set_cons. set_solver.
    + intros p Hp. apply Hacyc in Hp. lia.
    + intros p Hp. apply IH. apply Hacyc in Hp. lia.
    + intros p Hp x Hx Hpx y Hxy.
      apply elem_of_union in Hx as [Hx|Hx].
      * apply elem_of_singleton in Hx. subst x.
        apply (reach_rank h rank Hacyc) in Hpx.
        apply Hacyc in Hp. lia.
      * apply elem_of_union. right.
        apply (HV x Hx); [|exact Hxy].
        eapply reach_step; eassumption.
Qed.

End InputOrder.

Section BuildLookupLists.

Lemma foldM_app {A S : Type} (f : S -> A -> outcome S) l1 l2 s :
  foldM f (l1 ++ l2) s = (s' ← foldM f l1 s; foldM f l2 s').
Proof.
  revert s. induction l1 as [|x l1 IH]; intros s; simpl; [reflexivity|].
  destruct (f s x); simpl; [apply IH | reflexivity | reflexivity].
Qed.

Lemma foldM_map {A B S : Type} (f : S -> B -> outcome S) (g : A -> B) l s :
  foldM (fun st a => f st (g a)) l s = foldM f (map g l) s.
Proof.
  revert s. induction l as [|x l IH]; intros s; simpl; [reflexivity|].
  destruct (f s (g x)); simpl; [apply IH | reflexivity | reflexivity].
Qed.

Lemma foldM_filter {A S : Type} (f : S -> A -> outcome S) (keep : A -> bool) l s :
  foldM (fun st a => if keep a then f st a else Ret st) l s
  = foldM f (List.filter keep l) s.
Proof.
  revert s. induction l as [|x l IH]; intros s; simpl; [reflexivity|].
  destruct (keep x); simpl; [|apply IH].
  destruct (f s x); simpl; [apply IH | reflexivity | reflexivity].
Qed.

Lemma buildLookupLists_fold fuel h c inputs outputs :
  _inputs c = None -> _outputs c = None ->
  _buildLookupLists fuel h c inputs outputs
  = (st ← foldM (addToList fuel h) (lookup_roots inputs outputs) ([], ∅);
     Ret (mkContainer (Some (fst st)) (Some (map repoData outputs)) (_all c))).
Proof.
  intros Hi Ho. unfold _buildLookupLists, lookup_roots. rewrite Hi, Ho.
  cbn [bool_decide orb].
  rewrite !bool_decide_eq_false_2 by (intros H; now apply H). cbn [orb].
  rewrite map_app, foldM_app.
  rewrite (foldM_filter (fun st a => addToList fuel h st (repoData a)) readable).
  rewrite (foldM_map (addToList fuel h) repoData).
  destruct (foldM _ _ _) as [st| |]; cbn [mbind outcome_mbind bind];
    [|reflexivity|reflexivity].
  now rewrite (foldM_map (addToList fuel h) repoData).
Qed.

(** C3.  On an acyclic lineage graph the derived input order is the
    depth-first traversal (a node before its parents) from the readable
    outputs, in declaration order, and then the inputs, in declaration order,
    with the repeated visits of a node dropped; it holds no node twice, and
    holds exactly the nodes that can be reached from those declarations,
    shared ancestors included. *)
Theorem buildLookupLists_input_order
    (h : Heap) (rank : nat -> nat) (c : RepoDataContainer)
    (inputs outputs : list ArgsAndData) (fuel : nat) :
  ranked rank h = true ->
  _inputs c = None ->
  _outputs c = None ->
  forallb (fun r => (rank r <? fuel)%nat) (lookup_roots inputs outputs) = true ->
  let order :=
    first_occurrences ∅ (flat_map (traversal fuel h) (lookup_roots inputs outputs)) in
  _buildLookupLists fuel h c inputs outputs
  = Ret (mkContainer (Some order) (Some (map repoData outputs)) (_all c)) /\
  NoDup order /\
  (forall n, n ∈ order <-> exists r, r ∈ lookup_roots inputs outputs /\ reach h r n).
Proof.
  intros Hranked Hi Ho Hfuel order.
  apply ranked_acyclic in Hranked as Hacyc.
  assert (Hrk : forall r, r ∈ lookup_roots inputs outputs -> rank r < fuel).
  { intros r Hr. rewrite forallb_forall in Hfuel.
    apply Nat.ltb_lt, Hfuel. now apply list_elem_of_In. }
  split; [|split].
  - rewrite buildLookupLists_fold by assumption.
    rewrite (addToList_fold h rank Hacyc).
    + reflexivity.
    + exact Hrk.
    + intros p Hp. apply (addToList_spec h rank Hacyc). now apply Hrk.
    + intros p _ x Hx. apply not_elem_of_empty in Hx. contradiction.
  - apply NoDup_first_occurrences.
  - intros n. unfold order. rewrite elem_of_first_occurrences. split.
    + intros [Hn _]. apply list_elem_of_In, in_flat_map in Hn as (r & Hr & Hn).
      exists r. split; [now apply list_elem_of_In|].
      eapply traversal_reach, list_elem_of_In, Hn.
    + intros (r & Hr & Hn). split; [|apply not_elem_of_empty].
      apply list_elem_of_In, in_flat_map. exists r.
      split; [now apply list_elem_of_In|].
      apply list_elem_of_In. apply (reach_traversal h rank Hacyc); [exact Hn|].
      now apply Hrk.
Qed.

Lemma buildLookupLists_input_order_witness :
  _buildLookupLists 5 diamond RepoDataContainer_init [diamond_input] []
  = Ret (mkContainer (Some [0; 1; 3; 2]) (Some []) ∅).
Proof.
  exact (proj1 (buildLookupLists_input_order diamond diamond_rank
                  RepoDataContainer_init [diamond_input] [] 5
                  eq_refl eq_refl eq_refl eq_refl)).
Defined.

End BuildLookupLists.

(** ** Tag propagation *)

Section Tags.

Lemma heap_le_refl h : heap_le h h.
Proof. split; [reflexivity|]. intros n rd H. exists rd. auto. Qed.

Lemma heap_le_trans h1 h2 h3 : heap_le h1 h2 -> heap_le h2 h3 -> heap_le h1 h3.
Proof.
  intros [L12 H12] [L23 H23]. split; [congruence|].
  intros n rd Hn. destruct (H12 n rd Hn) as (rd2 & Hn2 & Hp2 & Ht2).
  destruct (H23 n rd2 Hn2) as (rd3 & Hn3 & Hp3 & Ht3).
  exists rd3. repeat split; [assumption | congruence | set_solver].
Qed.

Lemma heap_le_parents h h' n : heap_le h h' -> parents_of h' n = parents_of h n.
Proof.
  intros [L H]. unfold parents_of. destruct (h !! n) as [rd|] eqn:Hn.
  - destruct (H n rd Hn) as (rd' & -> & Hp & _). exact Hp.
  - apply lookup_ge_None in Hn. rewrite lookup_ge_None_2; [reflexivity | lia].
Qed.

Lemma heap_le_acyclic rank h h' : heap_le h h' -> acyclic rank h -> acyclic rank h'.
Proof.
  intros Hle Ha r p Hp. rewrite (heap_le_parents h h' r Hle) in Hp. now apply Ha.
Qed.

Lemma heap_le_reach h h' r n : heap_le h h' -> reach h r n <-> reach h' r n.
Proof.
  intros Hle. split; induction 1 as [r|r p n Hp _ IH]; try constructor.
  - eapply reach_step; [|exact IH]. now rewrite (heap_le_parents h h' r Hle).
  - eapply reach_step; [|exact IH]. now rewrite <- (heap_le_parents h h' r Hle).
Qed.

Lemma update_addTags_le h r ts : heap_le h (update h r (fun rd => addTags rd ts)).
Proof.
  unfold update. destruct (h !! r) as [rd0|] eqn:Hr; [|apply heap_le_refl].
  split; [apply length_insert|].
  intros n rd Hn. destruct (decide (n = r)) as [->|Hne].
  - rewrite list_lookup_insert_eq by (eapply lookup_lt_Some; eassumption).
    rewrite Hr in Hn. injection Hn as <-.
    exists (addTags rd0 ts). repeat split. simpl. set_solver.
  - rewrite list_lookup_insert_ne by congruence. exists rd. auto.
Qed.

Lemma update_addTags_tagged h r ts rd' :
  update h r (fun rd => addTags rd ts) !! r = Some rd' -> ts ⊆ tags rd'.
Proof.
  unfold update. destruct (h !! r) as [rd0|] eqn:Hr.
  - rewrite list_lookup_insert_eq by (eapply lookup_lt_Some; eassumption).
    intros [= <-]. simpl. set_solver.
  - congruence.
Qed.

Lemma tagged_from_le ts h0 h1 h2 r :
  heap_le h1 h2 -> tagged_from ts h0 h1 r -> tagged_from ts h0 h2 r.
Proof.
  intros [L H] Ht n rd2 Hr Hn2.
  destruct (h1 !! n) as [rd1|] eqn:Hn1.
  - destruct (H n rd1 Hn1) as (rd2' & Hn2' & _ & Hsub).
    assert (rd2' = rd2) by congruence. subst rd2'.
    specialize (Ht n rd1 Hr Hn1). set_solver.
  - apply lookup_ge_None in Hn1. apply lookup_lt_Some in Hn2. lia.
Qed.

Lemma setTags_fold rank fuel ts ps :
  (forall p, p ∈ ps -> setTags_ok rank fuel ts p) ->
  forall h, acyclic rank h ->
    exists h', foldM (setTags fuel ts) ps h = Ret h' /\ heap_le h h' /\
               forall p, p ∈ ps -> tagged_from ts h h' p.
Proof.
  induction ps as [|p ps IH]; intros Hok h Ha; simpl.
  - exists h. split; [reflexivity|]. split; [apply heap_le_refl|].
    intros p Hp. apply elem_of_nil in Hp. contradiction.
  - destruct (Hok p (proj2 (elem_of_cons _ _ _) (or_introl eq_refl)) h Ha)
      as (h1 & -> & Hle1 & Ht1).
    cbn [mbind outcome_mbind bind].
    destruct (IH (fun q Hq => Hok q (proj2 (elem_of_cons _ _ _) (or_intror Hq)))
                 h1 (heap_le_acyclic rank h h1 Hle1 Ha))
      as (h2 & -> & Hle2 & Ht2).
    exists h2. split; [reflexivity|]. split; [eapply heap_le_trans; eassumption|].
    intros q Hq. apply elem_of_cons in Hq as [->|Hq].
    + eapply tagged_from_le; eassumption.
    + intros n rd' Hr Hn. apply (Ht2 q Hq n rd'); [|exact Hn].
      now apply (heap_le_reach h h1 q n Hle1).
Qed.

Lemma setTags_spec rank fuel ts r : rank r < fuel -> setTags_ok rank fuel ts r.
Proof.
  revert r. induction fuel as [|f IH]; intros r Hr; [lia|].
  intros h Ha. cbn [setTags].
  set (h1 := update h r (fun rd => addTags rd ts)).
  pose proof (update_addTags_le h r ts) as Hle1. fold h1 in Hle1.
  assert (Ha1 : acyclic rank h1) by (eapply heap_le_acyclic; eassumption).
  destruct (setTags_fold rank f ts (parents_of h1 r)) with (h := h1)
    as (h2 & Hrun & Hle2 & Ht2); [|exact Ha1|].
  { intros p Hp. apply IH. apply Ha1 in Hp. lia. }
  exists h2. split; [exact Hrun|]. split; [eapply heap_le_trans; eassumption|].
  intros n rd' Hreach Hn.
  inversion Hreach as [r'|r' p n' Hp Hpn]; subst.
  - destruct (h1 !! n) as [rd1|] eqn:Hn1.
    + destruct Hle2 as [_ H12]. destruct (H12 n rd1 Hn1) as (rd2 & Hn2 & _ & Hsub).
      assert (rd2 = rd') by congruence. subst rd2.
      pose proof (update_addTags_tagged h n ts rd1 Hn1). set_solver.
    + destruct Hle2 as [L _]. apply lookup_ge_None in Hn1.
      apply lookup_lt_Some in Hn. lia.
  - apply (Ht2 p) with (n := n); [now rewrite (heap_le_parents h h1 r Hle1) | | exact Hn].
    now apply (heap_le_reach h h1 p n Hle1).
Qed.

End Tags.

Section SetRepoDataTags.

Lemma setRepoDataTags_fold rank fuel (decls : list ArgsAndData) :
  (forall a, a ∈ decls -> rank (repoData a) < fuel) ->
  forall h, acyclic rank h ->
    exists h',
      foldM (fun h a => setTags fuel (args_tags (repoArgs a)) h (repoData a)) decls h
        = Ret h' /\
      heap_le h h' /\
      forall a, a ∈ decls -> tagged_from (args_tags (repoArgs a)) h h' (repoData a).
Proof.
  induction decls as [|a decls IH]; intros Hrk h Ha; simpl.
  - exists h. split; [reflexivity|]. split; [apply heap_le_refl|].
    intros a Hin. apply elem_of_nil in Hin. contradiction.
  - assert (Hin : a ∈ a :: decls) by (apply elem_of_cons; now left).
    destruct (setTags_spec rank fuel (args_tags (repoArgs a)) (repoData a)
                (Hrk a Hin) h Ha) as (h1 & -> & Hle1 & Ht1).
    cbn [mbind outcome_mbind bind].
    destruct (IH (fun b Hb => Hrk b (proj2 (elem_of_cons _ _ _) (or_intror Hb)))
                 h1 (heap_le_acyclic rank h h1 Hle1 Ha))
      as (h2 & -> & Hle2 & Ht2).
    exists h2. split; [reflexivity|]. split; [eapply heap_le_trans; eassumption|].
    intros b Hb. apply elem_of_cons in Hb as [->|Hb].
    + eapply tagged_from_le; eassumption.
    + intros n rd' Hr Hn. apply (Ht2 b Hb n rd'); [|exact Hn].
      now apply (heap_le_reach h h1 (repoData b) n Hle1).
Qed.

(** C8.  On an acyclic lineage graph tag propagation ends, keeps every
    object and its parent links, removes no tag, and leaves on every node the
    tags of every declaration whose node has it as a parent, grandparent and
    so on (or is that node itself). *)
Theorem setRepoDataTags_monotonic
    (h : Heap) (rank : nat -> nat) (inputs outputs : list ArgsAndData) (fuel : nat) :
  ranked rank h = true ->
  forallb (fun a => (rank (repoData a) <? fuel)%nat) (outputs ++ inputs) = true ->
  exists h',
    _setRepoDataTags fuel h inputs outputs = Ret h' /\
    (forall n rd, h !! n = Some rd ->
       exists rd', h' !! n = Some rd' /\
                   parentRepoDatas rd' = parentRepoDatas rd /\
                   tags rd ⊆ tags rd') /\
    (forall a n rd', a ∈ outputs ++ inputs ->
       reach h' (repoData a) n -> h' !! n = Some rd' ->
       args_tags (repoArgs a) ⊆ tags rd').
Proof.
  intros Hranked Hfuel. apply ranked_acyclic in Hranked as Hacyc.
  destruct (setRepoDataTags_fold rank fuel (outputs ++ inputs)) with (h := h)
    as (h' & Hrun & Hle & Htag); [|exact Hacyc|].
  { intros a Ha. rewrite forallb_forall in Hfuel.
    apply Nat.ltb_lt, Hfuel. now apply list_elem_of_In. }
  exists h'. split; [exact Hrun|]. split; [exact (proj2 Hle)|].
  intros a n rd' Ha Hr Hn. apply (Htag a Ha n rd'); [|exact Hn].
  now apply (heap_le_reach h h' (repoData a) n Hle).
Qed.

Lemma setRepoDataTags_monotonic_witness :
  exists h',
    _setRepoDataTags 5 diamond [diamond_input] [] = Ret h' /\
    (forall n rd, diamond !! n = Some rd ->
       exists rd', h' !! n = Some rd' /\
                   parentRepoDatas rd' = parentRepoDatas rd /\
                   tags rd ⊆ tags rd') /\
    (forall a n rd', a ∈ [] ++ [diamond_input] ->
       reach h' (repoData a) n -> h' !! n = Some rd' ->
       args_tags (repoArgs a) ⊆ tags rd').
Proof.
  exact (setRepoDataTags_monotonic diamond diamond_rank [diamond_input] [] 5
           eq_refl eq_refl).
Defined.

End SetRepoDataTags.

(** ** Configuration resolution *)

Section GetCfgs.

Variable getRepositoryCfg : string -> option RepositoryCfg.
Variable isPosix : string -> bool.
Variable v1RepoExists : string -> bool.
Variable getMapperClass : string -> option string.
Variable getParentSymlinkPath : string -> option string.

Lemma opt_eqb_eq a b : opt_eqb a b = true <-> a = b.
Proof.
  destruct a as [x|], b as [y|]; simpl; try (split; congruence).
  rewrite String.eqb_eq. split; congruence.
Qed.

Lemma disagree_flag args c : disagree args c -> cfgMatchesArgs args c = false.
Proof.
  unfold cfgMatchesArgs. intros [(m & Hm & Hne)|(a & Ha & Hne)].
  - rewrite Hm. simpl. destruct (opt_eqb (cfg_mapper c) (Some m)) eqn:E; [|reflexivity].
    apply opt_eqb_eq in E. contradiction.
  - rewrite Ha. simpl. destruct (opt_eqb (cfg_mapperArgs c) (Some a)) eqn:E.
    + apply opt_eqb_eq in E. contradiction.
    + simpl. now rewrite orb_true_r.
Qed.

Lemma agree_flag args c :
  ~ disagree args c -> args_policy args = None -> cfgMatchesArgs args c = true.
Proof.
  unfold cfgMatchesArgs, disagree. intros Hn ->. simpl. rewrite orb_false_r.
  destruct (args_mapper args) as [m|] eqn:Hm; simpl.
  - destruct (opt_eqb (cfg_mapper c) (Some m)) eqn:E; simpl.
    + destruct (args_mapperArgs args) as [a|] eqn:Ha; simpl; [|reflexivity].
      destruct (opt_eqb (cfg_mapperArgs c) (Some a)) eqn:E'; simpl; [reflexivity|].
      exfalso. apply Hn. right. exists a. split; [reflexivity|].
      intros H. apply opt_eqb_eq in H. congruence.
    + exfalso. apply Hn. left. exists m. split; [reflexivity|].
      intros H. apply opt_eqb_eq in H. congruence.
  - destruct (args_mapperArgs args) as [a|] eqn:Ha; simpl; [|reflexivity].
    destruct (opt_eqb (cfg_mapperArgs c) (Some a)) eqn:E'; simpl; [reflexivity|].
    exfalso. apply Hn. right. exists a. split; [reflexivity|].
    intros H. apply opt_eqb_eq in H. congruence.
Qed.

Lemma update_lookup h r f rd : h !! r = Some rd -> update h r f !! r = Some (f rd).
Proof.
  intros H. unfold update. rewrite H.
  apply list_lookup_insert_eq. eapply lookup_lt_Some, H.
Qed.

Abbreviation lookup := (lookup_cfg getRepositoryCfg isPosix v1RepoExists
                      getMapperClass getParentSymlinkPath).
Abbreviation body := (getCfg_body getRepositoryCfg isPosix v1RepoExists
                    getMapperClass getParentSymlinkPath).

(** The loop body of [_getCfgsForInputsAndOutputs], branch by branch.  For
    a declaration, with [found] the configuration at its root (persisted, or
    of an old-style repository): none and read-only fails; none and writable
    gives the node a configuration made from the declaration, origin [new];
    one found, writable, and a disagreement on mapper or mapper arguments
    fails; one found, read-only, and such a disagreement gives the node origin
    [nested] with the configuration that was found and no configuration root;
    one found and no disagreement (no policy being declared) gives origin
    [existing]. *)
Lemma getCfg_body_spec (h : Heap) (argsAndData : ArgsAndData) :
  let r := repoData argsAndData in
  let args := fst (lookup (repoArgs argsAndData)) in
  let root := args_cfgRoot args in
  let wr := contains "w" (args_mode args) in
  match snd (lookup (repoArgs argsAndData)) with
  | None =>
      (wr = false -> raises (body h argsAndData)) /\
      (wr = true ->
         body h argsAndData
         = Ret (update h r (fun rd => setCfg rd (makeFromArgs args) new (Some root))))
  | Some c =>
      (wr = true -> disagree args c -> raises (body h argsAndData)) /\
      (wr = false -> disagree args c ->
         body h argsAndData = Ret (update h r (fun rd => setCfg rd c nested None))) /\
      (~ disagree args c -> args_policy args = None ->
         body h argsAndData
         = Ret (update h r (fun rd => setCfg rd c existing (Some root))))
  end.
Proof.
  cbv zeta. unfold getCfg_body.
  destruct (lookup (repoArgs argsAndData)) as [args [c|]]; cbn [fst snd].
  - split; [|split].
    + intros Hw Hd. rewrite Hw, (disagree_flag _ _ Hd). cbn [negb]. eexists; reflexivity.
    + intros Hw Hd. rewrite Hw, (disagree_flag _ _ Hd). reflexivity.
    + intros Hn Hp. rewrite (agree_flag _ _ Hn Hp). cbn [negb].
      destruct (contains "w" (args_mode args)); reflexivity.
  - split.
    + intros ->. cbn [negb]. eexists; reflexivity.
    + intros ->. reflexivity.
Qed.

End GetCfgs.

Lemma getCfg_body_spec_witness :
  getCfg_body disk no_path no_path no_name no_name [RepoData_init] override_decl
  = Ret (update [RepoData_init] 0 (fun rd => setCfg rd repo_on_disk nested None)).
Proof.
  apply (proj1 (proj2 (getCfg_body_spec disk no_path no_path no_name no_name
                         [RepoData_init] override_decl))).
  - reflexivity.
  - left. exists "MapperB". split; [reflexivity | discriminate].
Defined.

(** C4, where the code departs from it.  The repository at ["repo"] was
    made with ["MapperA"], and a read-only declaration of it asks for
    ["MapperB"].  The node gets origin [nested] and no configuration root, as
    for a configuration that overrides the persisted one; but the
    configuration put into the node is the persisted one, with ["MapperA"],
    not the one of the declaration, whose mapper is dropped.  The comment in
    the source on this branch says that the declaration can overwrite the
    configuration of the repository. *)
Lemma getCfg_nested_keeps_persisted_cfg :
  getCfg_body disk no_path no_path no_name no_name [RepoData_init] override_decl
  = Ret [mkRepoData (Some repo_on_disk) (Some nested) None [] ∅] /\
  repo_on_disk <> makeFromArgs (repoArgs override_decl) /\
  cfg_mapper repo_on_disk <> args_mapper (repoArgs override_decl).
Proof. repeat split; discriminate. Qed.

(** ** Equality of configurations *)

Section CfgEquality.

Lemma cfg_eqb_unfold r m ma ps r' m' ma' ps' :
  cfg_eqb (mkCfg r m ma ps) (mkCfg r' m' ma' ps')
  = String.eqb r r' && opt_eqb m m' && opt_eqb ma ma' &&
    match ps, ps' with
    | None, None => true
    | Some l, Some l' => pvs_eqb l l'
    | _, _ => false
    end.
Proof.
  reflexivity.
Qed.

Fixpoint cfg_eqb_eq (a b : RepositoryCfg) {struct a} : cfg_eqb a b = true <-> a = b
with pv_eqb_eq (a b : ParentVal) {struct a} : pv_eqb a b = true <-> a = b.
Proof.
  - destruct a as [r m ma ps], b as [r' m' ma' ps'].
    rewrite cfg_eqb_unfold, !andb_true_iff, String.eqb_eq.
    assert (Hopt : forall x y : option string, opt_eqb x y = true <-> x = y).
    { intros [x|] [y|]; simpl; try (split; congruence).
      rewrite String.eqb_eq. split; congruence. }
    rewrite !Hopt.
    assert (Hps : match ps, ps' with
                  | None, None => true
                  | Some l, Some l' => pvs_eqb l l'
                  | _, _ => false
                  end = true <-> ps = ps').
    { destruct ps as [l|], ps' as [l'|]; try (split; congruence).
      revert l'. induction l as [|x xs IH]; intros [|y ys]; cbn [pvs_eqb];
        try (split; congruence).
      rewrite andb_true_iff, (pv_eqb_eq x y). specialize (IH ys).
      split.
      - intros [-> H]. apply IH in H. congruence.
      - intros [= -> ->]. split; [reflexivity|]. apply IH. reflexivity. }
    rewrite Hps. split.
    + intros [[[-> ->] ->] ->]. reflexivity.
    + intros [= -> -> -> ->]. auto.
  - destruct a as [s|c], b as [s'|c']; cbn [pv_eqb]; try (split; congruence).
    + rewrite String.eqb_eq. split; congruence.
    + rewrite (cfg_eqb_eq c c'). split; congruence.
Qed.

Lemma pvs_eqb_eq l l' : pvs_eqb l l' = true <-> l = l'.
Proof.
  revert l'. induction l as [|x xs IH]; intros [|y ys]; cbn [pvs_eqb];
    try (split; congruence).
  rewrite andb_true_iff, pv_eqb_eq, IH. split; [intros [-> ->] | intros [= -> ->]]; auto.
Qed.

Lemma parents_differ_iff persisted parents :
  parents_differ persisted parents = true <-> persisted <> Some parents.
Proof.
  unfold parents_differ. destruct persisted as [l|]; [|split; congruence].
  rewrite negb_true_iff. split.
  - intros H [= ->]. rewrite (proj2 (pvs_eqb_eq parents parents) eq_refl) in H. discriminate.
  - intros H. destruct (pvs_eqb l parents) eqn:E; [|reflexivity].
    apply pvs_eqb_eq in E. congruence.
Qed.

End CfgEquality.

(** ** Parent lists *)

Section ParentLists.

Lemma getParentVal_parent_val rd c :
  cfg rd = Some c -> exists v, _getParentVal rd = Ret v /\ parent_val rd = Some v.
Proof.
  intros Hc. unfold _getParentVal, parent_val, cfg_of. rewrite Hc.
  cbn [mbind outcome_mbind bind]. destruct (decide _); eauto.
Qed.

Lemma configured_all h decls : configured h decls -> all_configured h decls.
Proof.
  unfold configured. intros H a Ha. rewrite forallb_forall in H.
  specialize (H a (proj1 (list_elem_of_In _ _) Ha)). unfold has_cfg in H.
  destruct (h !! repoData a) as [rd|]; [|discriminate].
  destruct (cfg rd) as [c|] eqn:Hc; [|discriminate]. eauto.
Qed.

Lemma deref_some h r rd : h !! r = Some rd -> deref h r = Ret rd.
Proof. intros H. unfold deref. now rewrite H. Qed.

Lemma getParents_fold h self decls acc :
  all_configured h decls ->
  foldM (fun parents argsAndData =>
           if decide (repoData argsAndData = self) then Ret parents
           else if negb (readable argsAndData) then Ret parents
           else
             rd ← deref h (repoData argsAndData);
             v ← _getParentVal rd;
             Ret (parents ++ [v])) decls acc
  = Ret (acc ++ omap (fun a => h !! repoData a ≫= parent_val)
                  (List.filter (fun a => negb (Nat.eqb (repoData a) self) && readable a)
                               decls)).
Proof.
  revert acc. induction decls as [|a decls IH]; intros acc Hcfg; cbn [foldM].
  - cbn. now rewrite app_nil_r.
  - assert (Hrest : all_configured h decls).
    { intros b Hb. apply Hcfg. apply elem_of_cons. now right. }
    destruct (Hcfg a) as (rd & c & Hrd & Hc); [apply elem_of_cons; now left|].
    cbn [List.filter].
    destruct (decide (repoData a = self)) as [E|E].
    + rewrite (proj2 (Nat.eqb_eq _ _) E). cbn [negb andb mbind outcome_mbind bind].
      now apply IH.
    + rewrite (proj2 (Nat.eqb_neq _ _) E). cbn [negb andb].
      destruct (readable a); cbn [negb mbind outcome_mbind bind].
      * rewrite (deref_some _ _ _ Hrd). cbn [mbind outcome_mbind bind].
        destruct (getParentVal_parent_val rd c Hc) as (v & -> & Hv).
        cbn [mbind outcome_mbind bind omap list_omap]. rewrite Hrd.
        cbn [mbind option_bind].
        rewrite Hv. rewrite IH by exact Hrest. now rewrite <- app_assoc.
      * now apply IH.
Qed.

(** [_getParents] computes the effective parent set. *)
Lemma getParents_effective h self inputs outputs :
  all_configured h (outputs ++ inputs) ->
  _getParents h self inputs outputs = Ret (effective_parents h self inputs outputs).
Proof.
  intros Hcfg. unfold _getParents. now rewrite getParents_fold.
Qed.

Lemma same_lineage_refl rd : same_lineage rd rd.
Proof. repeat split; eauto. Qed.

Lemma same_lineage_parent_val rd rd' c :
  cfg rd = Some c -> same_lineage rd rd' -> parent_val rd' = parent_val rd.
Proof.
  intros Hc (Ho & Hsame & Hroot). destruct (decide (cfgOrigin rd = Some new)) as [Hn|Hn].
  - destruct (Hroot c Hc) as (c' & Hc' & Hr). unfold parent_val.
    rewrite Hc, Hc', Ho, Hn.
    destruct (decide (Some new = Some nested)); [discriminate|]. now rewrite Hr.
  - now rewrite (Hsame Hn).
Qed.

Lemma heap_same_lineage_refl h : heap_same_lineage h h.
Proof. split; [reflexivity|]. intros n rd H. exists rd. split; [exact H | apply same_lineage_refl]. Qed.

Lemma heap_same_lineage_configured h h' decls :
  heap_same_lineage h h' -> all_configured h decls -> all_configured h' decls.
Proof.
  intros [_ H] Hcfg a Ha. destruct (Hcfg a Ha) as (rd & c & Hrd & Hc).
  destruct (H _ _ Hrd) as (rd' & Hrd' & _ & _ & Hroot).
  destruct (Hroot c Hc) as (c' & Hc' & _). eauto.
Qed.

Lemma heap_same_lineage_effective h h' self inputs outputs :
  heap_same_lineage h h' -> all_configured h (outputs ++ inputs) ->
  effective_parents h' self inputs outputs = effective_parents h self inputs outputs.
Proof.
  intros [_ H] Hcfg. unfold effective_parents.
  assert (Hsub : forall a, a ∈ List.filter
                        (fun a => negb (Nat.eqb (repoData a) self) && readable a)
                        (outputs ++ inputs) -> a ∈ outputs ++ inputs).
  { intros a Ha. apply list_elem_of_In in Ha. apply filter_In in Ha as [Ha _].
    now apply list_elem_of_In. }
  induction (List.filter _ (outputs ++ inputs)) as [|a l IH]; [reflexivity|].
  cbn [omap list_omap].
  destruct (Hcfg a) as (rd & c & Hrd & Hc); [apply Hsub, elem_of_cons; now left|].
  destruct (H _ _ Hrd) as (rd' & Hrd' & Hsame).
  rewrite Hrd, Hrd'. cbn [mbind option_bind].
  rewrite (same_lineage_parent_val rd rd' c Hc Hsame).
  rewrite IH; [reflexivity|].
  intros b Hb. apply Hsub, elem_of_cons. now right.
Qed.

Lemma stored_at_insert h inputs outputs h_cur r rd' c' n :
  h_cur !! r = Some rd' -> cfgOrigin rd' = Some new ->
  cfg_parents c' = Some (effective_parents h r inputs outputs) ->
  stored_at h inputs outputs h_cur n ->
  stored_at h inputs outputs (<[r := set_cfg rd' c']> h_cur) n.
Proof.
  intros Hr Ho Hps (rd & c & Hn & Hon & Hc & Hp).
  destruct (decide (n = r)) as [->|Hne].
  - exists (set_cfg rd' c'), c'.
    rewrite list_lookup_insert_eq by (eapply lookup_lt_Some; eassumption). auto.
  - exists rd, c. rewrite list_lookup_insert_ne by congruence. auto.
Qed.

(** One output of the loop: it fails exactly on a mismatch of a reopened
    output; otherwise the lineage of every node is kept and a [new] node
    holds the effective parent set. *)
Lemma verify_body_step h h_cur inputs outputs a :
  all_configured h (outputs ++ inputs) -> heap_same_lineage h h_cur -> a ∈ outputs ->
  (lineage_mismatch h inputs outputs a /\
   raises (verify_body inputs outputs h_cur a)) \/
  (~ lineage_mismatch h inputs outputs a /\
   exists h2, verify_body inputs outputs h_cur a = Ret h2 /\
     heap_same_lineage h h2 /\
     (forall n, stored_at h inputs outputs h_cur n -> stored_at h inputs outputs h2 n) /\
     (forall rd, h !! repoData a = Some rd -> cfgOrigin rd = Some new ->
        stored_at h inputs outputs h2 (repoData a))).
Proof.
  intros Hcfg Hsame Ha.
  destruct (Hcfg a) as (rd & c & Hrd & Hc); [apply elem_of_app; now left|].
  pose proof Hsame as [Hlen Hnodes].
  destruct (Hnodes _ _ Hrd) as (rd' & Hrd' & Ho & Hkeep & Hroot).
  unfold verify_body.
  rewrite getParents_effective
    by (eapply heap_same_lineage_configured; eassumption).
  rewrite (heap_same_lineage_effective h h_cur) by assumption.
  cbn [mbind outcome_mbind bind]. rewrite (deref_some _ _ _ Hrd').
  cbn [mbind outcome_mbind bind]. rewrite Ho.
  set (eff := effective_parents h (repoData a) inputs outputs).
  assert (Hreopened : cfgOrigin rd = Some existing \/ cfgOrigin rd = Some nested ->
            (lineage_mismatch h inputs outputs a /\
             raises (c0 ← cfg_of rd';
                     if parents_differ (cfg_parents c0) eff
                     then Raise (RuntimeError
                            "Inputs of this Butler do not match existing cfg parents")
                     else Ret h_cur)) \/
            (~ lineage_mismatch h inputs outputs a /\
             exists h2,
               (c0 ← cfg_of rd';
                if parents_differ (cfg_parents c0) eff
                then Raise (RuntimeError
                       "Inputs of this Butler do not match existing cfg parents")
                else Ret h_cur) = Ret h2 /\
               heap_same_lineage h h2 /\
               (forall n, stored_at h inputs outputs h_cur n ->
                          stored_at h inputs outputs h2 n) /\
               (forall rd0, h !! repoData a = Some rd0 -> cfgOrigin rd0 = Some new ->
                  stored_at h inputs outputs h2 (repoData a)))).
  { intros Hre.
    assert (Hnn : cfgOrigin rd <> Some new) by (destruct Hre; congruence).
    rewrite (Hkeep Hnn). unfold cfg_of. rewrite Hc. cbn [mbind outcome_mbind bind].
    destruct (parents_differ (cfg_parents c) eff) eqn:Hd.
    - left. split; [|eexists; reflexivity].
      exists rd, c. repeat split; try assumption. now apply parents_differ_iff.
    - right. split.
      + intros (rd0 & c0 & Hrd0 & _ & Hc0 & Hne).
        assert (rd0 = rd) by congruence. subst rd0.
        assert (c0 = c) by congruence. subst c0.
        apply parents_differ_iff in Hne. fold eff in Hne. congruence.
      + exists h_cur. repeat split; try assumption; try (now destruct Hsame).
        intros rd0 Hrd0 Hnew. congruence. }
  destruct (cfgOrigin rd) as [[| |]|] eqn:Horig.
  - (* new *)
    right. split.
    { intros (rd0 & c0 & Hrd0 & Hre & _). assert (rd0 = rd) by congruence. subst rd0.
      destruct Hre; congruence. }
    destruct (Hroot c Hc) as (c' & Hc' & Hr').
    unfold cfg_of. rewrite Hc'. cbn [mbind outcome_mbind bind].
    eexists. split; [reflexivity|]. split; [|split].
    + split; [rewrite length_insert; exact Hlen|].
      intros n rdn Hn. destruct (decide (n = repoData a)) as [->|Hne].
      * rewrite list_lookup_insert_eq by (eapply lookup_lt_Some; eassumption).
        assert (rdn = rd) by congruence. subst rdn.
        eexists. split; [reflexivity|]. split; [|split].
        -- cbn. congruence.
        -- intros Hnn. congruence.
        -- intros c0 Hc0. eexists. split; [reflexivity|].
           assert (c0 = c) by congruence. subst c0. destruct c'. exact Hr'.
      * rewrite list_lookup_insert_ne by congruence. now apply Hnodes.
    + intros n Hn. eapply stored_at_insert; try eassumption. now destruct c'.
    + intros rd0 _ _. eexists _, _.
      rewrite list_lookup_insert_eq by (eapply lookup_lt_Some; eassumption).
      split; [reflexivity|]. split; [cbn; exact Ho|]. split; [reflexivity|].
      now destruct c'.
  - apply Hreopened. now left.
  - apply Hreopened. now right.
  - right. split.
    { intros (rd0 & c0 & Hrd0 & Hre & _). assert (rd0 = rd) by congruence. subst rd0.
      destruct Hre; congruence. }
    exists h_cur. repeat split; try assumption; try (now destruct Hsame).
    intros rd0 Hrd0 Hnew. congruence.
Qed.

Lemma verify_fold h inputs outputs outs :
  all_configured h (outputs ++ inputs) -> (forall a, a ∈ outs -> a ∈ outputs) ->
  forall h_cur, heap_same_lineage h h_cur ->
  ((exists a, a ∈ outs /\ lineage_mismatch h inputs outputs a) /\
   raises (foldM (verify_body inputs outputs) outs h_cur)) \/
  (~ (exists a, a ∈ outs /\ lineage_mismatch h inputs outputs a) /\
   exists h', foldM (verify_body inputs outputs) outs h_cur = Ret h' /\
     heap_same_lineage h h' /\
     (forall n, stored_at h inputs outputs h_cur n -> stored_at h inputs outputs h' n) /\
     (forall a rd, a ∈ outs -> h !! repoData a = Some rd -> cfgOrigin rd = Some new ->
        stored_at h inputs outputs h' (repoData a))).
Proof.
  intros Hcfg. induction outs as [|a outs IH]; intros Hsub h_cur Hsame.
  - right. split; [intros (a & Ha & _); apply elem_of_nil in Ha; contradiction|].
    exists h_cur. split; [reflexivity|]. split; [exact Hsame|]. split; [auto|].
    intros a rd Ha. apply elem_of_nil in Ha. contradiction.
  - assert (Ha : a ∈ outputs) by (apply Hsub, elem_of_cons; now left).
    assert (Hsub' : forall b, b ∈ outs -> b ∈ outputs)
      by (intros b Hb; apply Hsub, elem_of_cons; now right).
    cbn [foldM].
    destruct (verify_body_step h h_cur inputs outputs a Hcfg Hsame Ha)
      as [[Hmis [e He]]|[Hok (h2 & Hrun & Hsame2 & Hkeep2 & Hnew2)]].
    + left. split; [exists a; split; [apply elem_of_cons; now left | exact Hmis]|].
      rewrite He. eexists; reflexivity.
    + rewrite Hrun. cbn [mbind outcome_mbind bind].
      destruct (IH Hsub' h2 Hsame2)
        as [[(b & Hb & Hmis) Hr]|[Hnone (h' & Hrun' & Hsame' & Hkeep' & Hnew')]].
      * left. split; [|exact Hr]. exists b. split; [apply elem_of_cons; now right | exact Hmis].
      * right. split.
        { intros (b & Hb & Hmis). apply elem_of_cons in Hb as [->|Hb]; [contradiction|].
          apply Hnone. eauto. }
        exists h'. split; [exact Hrun'|]. split; [exact Hsame'|]. split; [auto|].
        intros b rd Hb Hrd Hnew. apply elem_of_cons in Hb as [->|Hb]; [|eauto].
        apply Hkeep'. eauto.
Qed.

(** C2.  With every declaration configured, establishing the parent lists
    fails exactly when some output whose node has origin [existing] or
    [nested] has a persisted parent list different from its effective parent
    set (the other declared readable repositories, outputs before inputs);
    when it does not fail, the configuration of every output node of origin
    [new] holds its effective parent set as parent list. *)
Theorem setAndVerifyParentsLists_spec (h : Heap) (inputs outputs : list ArgsAndData) :
  configured h (outputs ++ inputs) ->
  (raises (_setAndVerifyParentsLists h inputs outputs) <->
     exists a, a ∈ outputs /\ lineage_mismatch h inputs outputs a) /\
  ((exists h', _setAndVerifyParentsLists h inputs outputs = Ret h') <->
     ~ exists a, a ∈ outputs /\ lineage_mismatch h inputs outputs a) /\
  (forall h' a rd,
     _setAndVerifyParentsLists h inputs outputs = Ret h' ->
     a ∈ outputs -> h !! repoData a = Some rd -> cfgOrigin rd = Some new ->
     stored_at h inputs outputs h' (repoData a)).
Proof.
  intros Hcfg. apply configured_all in Hcfg. unfold _setAndVerifyParentsLists.
  destruct (verify_fold h inputs outputs outputs Hcfg (fun a Ha => Ha) h
              (heap_same_lineage_refl h))
    as [[Hmis [e He]]|[Hnone (h' & Hrun & _ & _ & Hnew)]].
  - rewrite He. split; [|split].
    + split; [intros _; exact Hmis | intros _; eexists; reflexivity].
    + split; [intros [h' Hh']; discriminate | intros Hn; contradiction].
    + intros h' a rd Hh'. discriminate.
  - rewrite Hrun. split; [|split].
    + split; [intros [e He]; discriminate | intros Hm; contradiction].
    + split; [intros _; exact Hnone | intros _; eexists; reflexivity].
    + intros h2 a rd [= <-] Ha Hrd Ho. eauto.
Qed.

End ParentLists.

Lemma setAndVerifyParentsLists_spec_witness :
  (raises (_setAndVerifyParentsLists reopen_heap [reopen_input] [reopen_output]) <->
     exists a, a ∈ [reopen_output] /\
               lineage_mismatch reopen_heap [reopen_input] [reopen_output] a) /\
  ((exists h', _setAndVerifyParentsLists reopen_heap [reopen_input] [reopen_output]
               = Ret h') <->
     ~ exists a, a ∈ [reopen_output] /\
                 lineage_mismatch reopen_heap [reopen_input] [reopen_output] a) /\
  (forall h' a rd,
     _setAndVerifyParentsLists reopen_heap [reopen_input] [reopen_output] = Ret h' ->
     a ∈ [reopen_output] -> reopen_heap !! repoData a = Some rd ->
     cfgOrigin rd = Some new ->
     stored_at reopen_heap [reopen_input] [reopen_output] h' (repoData a)).
Proof.
  exact (setAndVerifyParentsLists_spec reopen_heap [reopen_input] [reopen_output] eq_refl).
Defined.

Example reopen_with_same_input :
  _setAndVerifyParentsLists reopen_heap [reopen_input] [reopen_output] = Ret reopen_heap.
Proof. reflexivity. Qed.

Example reopen_without_input :
  _setAndVerifyParentsLists reopen_heap [] [reopen_output]
  = Raise (RuntimeError "Inputs of this Butler do not match existing cfg parents").
Proof. reflexivity. Qed.

(** ** Backfilling missing parents *)

Section Backfill.

Variable getRepositoryCfg : string -> option RepositoryCfg.
Variable isPosix : string -> bool.
Variable v1RepoExists : string -> bool.
Variable getMapperClass : string -> option string.
Variable getParentSymlinkPath : string -> option string.

Abbreviation getCfgs := (_getCfgsForInputsAndOutputs getRepositoryCfg isPosix
                           v1RepoExists getMapperClass getParentSymlinkPath).
Abbreviation backfill_loop := (backfill getRepositoryCfg isPosix
                                 v1RepoExists getMapperClass getParentSymlinkPath).
Abbreviation addMissing := (_addMissingParentsOfOutputs getRepositoryCfg isPosix
                              v1RepoExists getMapperClass getParentSymlinkPath).

Lemma insert_snoc {A : Type} (l : list A) (x y : A) :
  <[length l := y]> (l ++ [x]) = l ++ [y].
Proof. rewrite insert_app_r_alt by reflexivity. now rewrite Nat.sub_diag. Qed.

(** Resolving the configuration of a declaration synthesized for a root
    that storage knows. *)
Lemma getCfgs_synthesized h s cs :
  getRepositoryCfg s = Some cs ->
  getCfgs (h ++ [RepoData_init])
          [mkArgsAndData (mkArgs s "r" None None None ∅) (length h)] []
  = Ret (h ++ [mkRepoData (Some cs) (Some existing) (Some s) [] ∅]).
Proof.
  intros Hs. unfold _getCfgsForInputsAndOutputs. cbn [app foldM].
  unfold getCfg_body, lookup_cfg. cbn [repoArgs args_cfgRoot repoData]. rewrite Hs.
  cbn [args_mode contains]. cbn.
  unfold update. rewrite lookup_app_r by reflexivity.
  rewrite Nat.sub_diag. cbn [lookup list_lookup].
  now rewrite insert_snoc.
Qed.

Lemma getParents_fold_kept h self decls acc :
  (forall a, a ∈ decls -> repoData a <> self -> readable a = true -> has_cfg h a = true) ->
  foldM (fun parents argsAndData =>
           if decide (repoData argsAndData = self) then Ret parents
           else if negb (readable argsAndData) then Ret parents
           else
             rd ← deref h (repoData argsAndData);
             v ← _getParentVal rd;
             Ret (parents ++ [v])) decls acc
  = Ret (acc ++ map (pval h)
                  (List.filter (fun a => negb (Nat.eqb (repoData a) self) && readable a)
                               decls)).
Proof.
  revert acc. induction decls as [|a decls IH]; intros acc Hcfg; cbn [foldM].
  - cbn. now rewrite app_nil_r.
  - assert (Hrest : forall b, b ∈ decls -> repoData b <> self -> readable b = true ->
                      has_cfg h b = true).
    { intros b Hb. apply Hcfg. apply elem_of_cons. now right. }
    cbn [List.filter].
    destruct (decide (repoData a = self)) as [E|E].
    + rewrite (proj2 (Nat.eqb_eq _ _) E). cbn [negb andb mbind outcome_mbind bind].
      now apply IH.
    + rewrite (proj2 (Nat.eqb_neq _ _) E). cbn [negb andb].
      destruct (readable a) eqn:Hr; cbn [negb mbind outcome_mbind bind].
      * assert (Hc : has_cfg h a = true)
          by (apply Hcfg; [apply elem_of_cons; now left | exact E | exact Hr]).
        unfold has_cfg in Hc.
        destruct (h !! repoData a) as [rd|] eqn:Hrd; [|discriminate].
        destruct (cfg rd) as [c|] eqn:Hcf; [|discriminate].
        rewrite (deref_some _ _ _ Hrd). cbn [mbind outcome_mbind bind].
        destruct (getParentVal_parent_val rd c Hcf) as (v & -> & Hv).
        cbn [mbind outcome_mbind bind map].
        unfold pval at 1. rewrite Hrd. cbn [mbind option_bind]. rewrite Hv. cbn [default].
        rewrite IH by exact Hrest. now rewrite <- app_assoc.
      * now apply IH.
Qed.

(** *** One reopened output, the only readable one *)

Variable h0 : Heap.
Variable inputs0 : list ArgsAndData.
Variable out : ArgsAndData.
Variables pre post : list ArgsAndData.
Variable rd_out : RepoData.
Variable c_out : RepositoryCfg.
Variable P : list ParentVal.

Hypothesis Hothers : forallb (fun a => negb (readable a)) (pre ++ post) = true.
Hypothesis Hreadable : readable out = true.
Hypothesis Hrd : h0 !! repoData out = Some rd_out.
Hypothesis Hnotnew : isNewRepository rd_out = false.
Hypothesis Hcfg : cfg rd_out = Some c_out.
Hypothesis Hparents : cfg_parents c_out = Some P.
Hypothesis Hstorage : forallb (on_storage getRepositoryCfg) P = true.
Hypothesis Hinputs : forallb (input_ok h0 out) inputs0 = true.

Let outputs := pre ++ out :: post.

Lemma filter_others (l : list ArgsAndData) :
  forallb (fun a => negb (readable a)) l = true ->
  List.filter (fun a => negb (Nat.eqb (repoData a) (repoData out)) && readable a) l = [].
Proof.
  induction l as [|a l IH]; cbn [forallb List.filter]; [reflexivity|].
  intros H. apply andb_true_iff in H as [Ha Hl]. apply negb_true_iff in Ha.
  rewrite Ha, andb_false_r. now apply IH.
Qed.

Lemma filter_inputs h (l : list ArgsAndData) :
  Forall (fun a => input_ok h out a = true) l ->
  List.filter (fun a => negb (Nat.eqb (repoData a) (repoData out)) && readable a) l = l.
Proof.
  induction 1 as [|a l Ha _ IH]; cbn [List.filter]; [reflexivity|].
  unfold input_ok in Ha. apply andb_true_iff in Ha as [Ha _].
  apply andb_true_iff in Ha as [Hr Hn]. rewrite Hr, Hn. cbn [andb]. now rewrite IH.
Qed.

Lemma filter_decls h inputs :
  Forall (fun a => input_ok h out a = true) inputs ->
  List.filter (fun a => negb (Nat.eqb (repoData a) (repoData out)) && readable a)
              (outputs ++ inputs) = inputs.
Proof.
  intros Hok. unfold outputs. rewrite forallb_app in Hothers.
  apply andb_true_iff in Hothers as [Hpre Hpost].
  rewrite <- app_assoc, !List.filter_app. cbn [List.filter app].
  rewrite Nat.eqb_refl. cbn [negb andb].
  rewrite (filter_others pre Hpre), (filter_others post Hpost).
  cbn [app]. now apply (filter_inputs h).
Qed.

Lemma getParents_inputs h inputs :
  Forall (fun a => input_ok h out a = true) inputs ->
  _getParents h (repoData out) inputs outputs = Ret (map (pval h) inputs).
Proof.
  intros Hok. unfold _getParents. rewrite getParents_fold_kept.
  - now rewrite (filter_decls h).
  - intros a Ha Hne Hr. apply elem_of_app in Ha as [Ha|Ha].
    + exfalso. unfold outputs in Ha. rewrite forallb_app in Hothers.
      apply andb_true_iff in Hothers as [Hpre Hpost].
      rewrite forallb_forall in Hpre, Hpost.
      apply elem_of_app in Ha as [Ha|Ha].
      * apply list_elem_of_In, Hpre in Ha. rewrite Hr in Ha. discriminate.
      * apply elem_of_cons in Ha as [->|Ha]; [congruence|].
        apply list_elem_of_In, Hpost in Ha. rewrite Hr in Ha. discriminate.
    + rewrite Forall_forall in Hok. specialize (Hok a Ha).
      unfold input_ok in Hok. now apply andb_true_iff in Hok as [_ Hok].
Qed.

Lemma makePaired_inputs h inputs :
  h0 `prefix_of` h ->
  Forall (fun a => input_ok h out a = true) inputs ->
  makePairedParents h (repoData out) inputs outputs = Ret (paired_of P h inputs).
Proof.
  intros [k ->] Hok. unfold makePairedParents.
  rewrite (deref_some _ _ rd_out) by (now apply lookup_app_l_Some).
  cbn [mbind outcome_mbind bind]. unfold cfg_of. rewrite Hcfg.
  cbn [mbind outcome_mbind bind]. rewrite Hparents.
  cbn [mbind outcome_mbind bind]. rewrite getParents_inputs by exact Hok.
  cbn [mbind outcome_mbind bind]. reflexivity.
Qed.

Lemma length_padded vals : length vals < length P -> length (padded P vals) = S (length vals).
Proof.
  intros H. unfold padded. rewrite length_app, length_map.
  rewrite (proj2 (Nat.ltb_lt _ _) H). cbn. lia.
Qed.

Lemma length_padded_ge vals : length vals <= length (padded P vals).
Proof. unfold padded. rewrite length_app, length_map. lia. Qed.

Lemma padded_lookup_lt vals i v : vals !! i = Some v -> padded P vals !! i = Some (PV v).
Proof.
  intros H. unfold padded. rewrite lookup_app_l by (rewrite length_map; eapply lookup_lt_Some, H).
  change (map PV vals) with (PV <$> vals). rewrite list_lookup_fmap, H. reflexivity.
Qed.

Lemma padded_lookup_end vals :
  length vals < length P ->
  padded P vals !! length vals = Some (Pad (length P - length vals)).
Proof.
  intros H. unfold padded. rewrite lookup_app_r by (rewrite length_map; lia).
  rewrite length_map, Nat.sub_diag, (proj2 (Nat.ltb_lt _ _) H). reflexivity.
Qed.

Lemma paired_lookup h inputs i p x :
  P !! i = Some p -> padded P (map (pval h) inputs) !! i = Some x ->
  paired_of P h inputs !! i = Some (p, x).
Proof.
  intros Hp Hx. unfold paired_of. rewrite lookup_zip_with, Hp.
  cbn [mbind option_bind]. rewrite Hx. reflexivity.
Qed.

Lemma backfill_exit f h inputs i paired :
  length paired <= i ->
  backfill_loop (S f) h out inputs outputs i paired = Ret (h, inputs).
Proof.
  intros H. cbn [backfill]. now rewrite (proj2 (Nat.leb_le _ _) H).
Qed.

Lemma backfill_match f h inputs i paired p :
  paired !! i = Some (p, PV p) ->
  backfill_loop (S f) h out inputs outputs i paired
  = backfill_loop f h out inputs outputs (S i) paired.
Proof.
  intros H. cbn [backfill].
  rewrite (proj2 (Nat.leb_gt _ _)) by (eapply lookup_lt_Some, H).
  rewrite H. cbn [paired_differ].
  now rewrite (proj2 (pv_eqb_eq p p) eq_refl).
Qed.

Lemma backfill_insert f h inputs i paired s x cs :
  paired !! i = Some (PRoot s, x) -> paired_differ (PRoot s) x = true ->
  getRepositoryCfg s = Some cs ->
  backfill_loop (S f) h out inputs outputs i paired
  = (let h' := h ++ [mkRepoData (Some cs) (Some existing) (Some s) [] ∅] in
     let inputs' := list_insert_at i
                      (mkArgsAndData (mkArgs s "r" None None None ∅) (length h)) inputs in
     pairedParents ← makePairedParents h' (repoData out) inputs' outputs;
     backfill_loop f h' out inputs' outputs i pairedParents).
Proof.
  intros H Hd Hs. cbn [backfill].
  rewrite (proj2 (Nat.leb_gt _ _)) by (eapply lookup_lt_Some, H).
  rewrite H, Hd.
  cbn [_makeRepoDataForInputsAndOutputs makeRepoDatas].
  rewrite (getCfgs_synthesized h s cs Hs). reflexivity.
Qed.

Lemma has_cfg_extend h k a : has_cfg h a = true -> has_cfg (h ++ k) a = true.
Proof.
  unfold has_cfg. destruct (h !! repoData a) as [rd|] eqn:E; [|discriminate].
  now rewrite (lookup_app_l_Some _ _ _ _ E).
Qed.

Lemma input_ok_extend h k a : input_ok h out a = true -> input_ok (h ++ k) out a = true.
Proof.
  unfold input_ok. rewrite !andb_true_iff. intros [H1 H2].
  split; [exact H1 | now apply has_cfg_extend].
Qed.

Lemma pval_extend h k a : has_cfg h a = true -> pval (h ++ k) a = pval h a.
Proof.
  unfold has_cfg, pval. destruct (h !! repoData a) as [rd|] eqn:E; [|discriminate].
  now rewrite (lookup_app_l_Some _ _ _ _ E).
Qed.

Lemma synthesized_extend h k a :
  synthesized getRepositoryCfg h P a -> synthesized getRepositoryCfg (h ++ k) P a.
Proof.
  intros (s & cs & H1 & H2 & H3 & H4). exists s, cs.
  repeat split; try assumption. now apply lookup_app_l_Some.
Qed.

Lemma map_insert_at {A B : Type} (f : A -> B) i x l :
  map f (list_insert_at i x l) = list_insert_at i (f x) (map f l).
Proof.
  unfold list_insert_at. rewrite map_app. cbn [map].
  change (map f) with (fmap (M := list) f). now rewrite fmap_take, fmap_drop.
Qed.

Lemma insert_at_split {A : Type} i (x : A) l1 l2 :
  length l1 = i -> list_insert_at i x (l1 ++ l2) = l1 ++ x :: l2.
Proof.
  intros <-. unfold list_insert_at.
  now rewrite take_app_length, drop_app_length.
Qed.

Lemma sublist_insert_at {A : Type} i (x : A) l : l `sublist_of` list_insert_at i x l.
Proof.
  unfold list_insert_at. rewrite <- (take_drop i l) at 1.
  apply sublist_app; [reflexivity|]. now apply sublist_cons.
Qed.

Lemma Forall_insert_at {A : Type} (Q : A -> Prop) i x l :
  Q x -> Forall Q l -> Forall Q (list_insert_at i x l).
Proof.
  intros Hx Hl. unfold list_insert_at. apply Forall_app. split.
  - now apply Forall_take.
  - constructor; [exact Hx | now apply Forall_drop].
Qed.

Lemma on_storage_root p :
  on_storage getRepositoryCfg p = true ->
  exists s cs, p = PRoot s /\ getRepositoryCfg s = Some cs /\ cfg_root cs = s.
Proof.
  destruct p as [s|c]; cbn; [|discriminate].
  destruct (getRepositoryCfg s) as [cs|] eqn:E; [|discriminate].
  intros H. apply String.eqb_eq in H. exists s, cs. auto.
Qed.

Abbreviation Inv := (backfill_inv getRepositoryCfg h0 inputs0 out P).

(** A persisted parent that the inputs do not have at index [i] is
    inserted there, and then matches. *)
Lemma backfill_advance_insert h inputs i rest p x :
  Inv h inputs i rest -> P !! i = Some p ->
  paired_of P h inputs !! i = Some (p, x) -> paired_differ p x = true ->
  (map (pval h0) inputs0 `sublist_of` P -> rest `sublist_of` drop (S i) P) ->
  exists h' inputs', Inv h' inputs' (S i) rest /\
    forall f, backfill_loop (S (S f)) h out inputs outputs i (paired_of P h inputs)
              = backfill_loop f h' out inputs' outputs (S i) (paired_of P h' inputs').
Proof.
  intros (Hpre & Hsub & Hok & Horig & Hvals & Hsuf & _ & Hle) Hp Hpair Hdiff Hrest.
  assert (Hsto : on_storage getRepositoryCfg p = true).
  { rewrite forallb_forall in Hstorage. apply Hstorage.
    apply list_elem_of_In. eapply list_elem_of_lookup_2, Hp. }
  destruct (on_storage_root p Hsto) as (s & cs & -> & Hs & Hroot).
  set (node := mkRepoData (Some cs) (Some existing) (Some s) [] ∅).
  set (decl := mkArgsAndData (mkArgs s "r" None None None ∅) (length h)).
  assert (Hout : h !! repoData out = Some rd_out).
  { destruct Hpre as [k ->]. now apply lookup_app_l_Some. }
  assert (Hnode : (h ++ [node]) !! length h = Some node).
  { rewrite lookup_app_r by reflexivity. now rewrite Nat.sub_diag. }
  assert (Hpv : pval (h ++ [node]) decl = PRoot s).
  { unfold pval. cbn [repoData decl]. rewrite Hnode. cbn. now rewrite Hroot. }
  assert (Hok' : Forall (fun a => input_ok (h ++ [node]) out a = true)
                   (list_insert_at i decl inputs)).
  { apply Forall_insert_at.
    - unfold input_ok, has_cfg. cbn [repoData decl]. rewrite Hnode. cbn [cfg node].
      rewrite andb_true_r. apply andb_true_iff. split; [reflexivity|].
      apply negb_true_iff, Nat.eqb_neq. apply lookup_lt_Some in Hout. lia.
    - eapply Forall_impl; [exact Hok|]. intros a. apply input_ok_extend. }
  assert (Hvals' : map (pval (h ++ [node])) (list_insert_at i decl inputs)
                   = take (S i) P ++ rest).
  { rewrite map_insert_at, Hpv.
    assert (Hsame : map (pval (h ++ [node])) inputs = map (pval h) inputs).
    { apply map_ext_in. intros a Ha. apply pval_extend.
      rewrite Forall_forall in Hok. apply list_elem_of_In in Ha.
      specialize (Hok a Ha). unfold input_ok in Hok.
      now apply andb_true_iff in Hok as [_ Hok]. }
    rewrite Hsame, Hvals.
    rewrite insert_at_split by (rewrite length_take; lia).
    rewrite (take_S_r _ _ _ Hp), <- app_assoc. reflexivity. }
  exists (h ++ [node]), (list_insert_at i decl inputs). split.
  - split; [|split; [|split; [|split; [|split; [|split; [|split]]]]]].
    + etransitivity; [exact Hpre | now apply prefix_app_r].
    + etransitivity; [exact Hsub | apply sublist_insert_at].
    + exact Hok'.
    + apply Forall_insert_at.
      * right. exists s, cs. repeat split; try assumption.
        eapply list_elem_of_lookup_2, Hp.
      * eapply Forall_impl; [exact Horig|]. intros a [Ha|Ha]; [now left|].
        right. now apply synthesized_extend.
    + exact Hvals'.
    + exact Hsuf.
    + exact Hrest.
    + apply lookup_lt_Some in Hp. lia.
  - intros f.
    rewrite (backfill_insert (S f) h inputs i _ s _ cs Hpair Hdiff Hs).
    cbv zeta. fold node decl.
    rewrite makePaired_inputs;
      [| etransitivity; [exact Hpre | now apply prefix_app_r] | exact Hok'].
    cbn [mbind outcome_mbind bind].
    apply (backfill_match f _ _ i _ (PRoot s)).
    apply paired_lookup; [exact Hp|].
    apply padded_lookup_lt. rewrite Hvals', (take_S_r _ _ _ Hp), <- app_assoc.
    rewrite lookup_app_r by (rewrite length_take; lia).
    rewrite length_take, Nat.min_l by lia. now rewrite Nat.sub_diag.
Qed.

Lemma backfill_advance h inputs i rest :
  Inv h inputs i rest -> i < length P ->
  exists h' inputs' rest', Inv h' inputs' (S i) rest' /\
    forall f, exists f', f <= f' /\
      backfill_loop (S (S f)) h out inputs outputs i (paired_of P h inputs)
      = backfill_loop f' h' out inputs' outputs (S i) (paired_of P h' inputs').
Proof.
  intros HInv Hi. pose proof HInv as (Hpre & Hsub & Hok & Horig & Hvals & Hsuf & Hsl & Hle).
  destruct (lookup_lt_is_Some_2 P i Hi) as [p Hp].
  assert (Hlen : length (take i P) = i) by (rewrite length_take; lia).
  destruct rest as [|r rest'].
  - (* nothing left: the pad *)
    rewrite app_nil_r in Hvals.
    assert (Hl : length (map (pval h) inputs) = i) by (now rewrite Hvals).
    destruct (backfill_advance_insert h inputs i [] p (Pad (length P - i)))
      as (h' & inputs' & HInv' & Hrun).
    + exact HInv.
    + exact Hp.
    + apply paired_lookup; [exact Hp|].
      pose proof (padded_lookup_end (map (pval h) inputs)) as Hend.
      rewrite Hl in Hend. apply Hend. exact Hi.
    + reflexivity.
    + intros _. apply sublist_nil_l.
    + exists h', inputs', []. split; [exact HInv'|].
      intros f. exists f. split; [lia | apply Hrun].
  - assert (Hr : map (pval h) inputs !! i = Some r).
    { rewrite Hvals, lookup_app_r by lia. now rewrite Hlen, Nat.sub_diag. }
    assert (Hpair : paired_of P h inputs !! i = Some (p, PV r)).
    { apply paired_lookup; [exact Hp | now apply padded_lookup_lt]. }
    destruct (pv_eqb p r) eqn:Heq.
    + (* the input at [i] is the persisted parent *)
      apply pv_eqb_eq in Heq. subst r.
      exists h, inputs, rest'. split.
      * split; [|split; [|split; [|split; [|split; [|split; [|split]]]]]];
          try assumption.
        -- now rewrite Hvals, (take_S_r _ _ _ Hp), <- app_assoc.
        -- eapply suffix_cons_l, Hsuf.
        -- intros HB. specialize (Hsl HB). rewrite (drop_S _ _ _ Hp) in Hsl.
           apply sublist_cons_r in Hsl as [Hsl|(l' & [= <-] & Hsl)]; [|exact Hsl].
           etransitivity; [apply sublist_cons; reflexivity | exact Hsl].
      * intros f. exists (S f). split; [lia|].
        now apply (backfill_match (S f) _ _ i _ p).
    + destruct (backfill_advance_insert h inputs i (r :: rest') p (PV r))
        as (h' & inputs' & HInv' & Hrun); try assumption.
      * cbn [paired_differ]. now rewrite Heq.
      * intros HB. specialize (Hsl HB). rewrite (drop_S _ _ _ Hp) in Hsl.
        apply sublist_cons_r in Hsl as [Hsl|(l' & [= <- <-] & Hsl)]; [exact Hsl|].
        rewrite (proj2 (pv_eqb_eq _ _) eq_refl) in Heq. discriminate.
      * exists h', inputs', (r :: rest'). split; [exact HInv'|].
        intros f. exists f. split; [lia | apply Hrun].
Qed.

Lemma length_paired_of h inputs : length (paired_of P h inputs) <= length P.
Proof. unfold paired_of. rewrite length_zip_with. lia. Qed.

Lemma backfill_run n :
  forall h inputs i rest, Inv h inputs i rest -> length P - i = n ->
  forall fuel, 2 * n < fuel ->
  exists h' inputs' rest',
    backfill_loop fuel h out inputs outputs i (paired_of P h inputs) = Ret (h', inputs') /\
    Inv h' inputs' (length P) rest'.
Proof.
  induction n as [|n IH]; intros h inputs i rest HInv Hn fuel Hfuel.
  - destruct fuel as [|f]; [lia|].
    assert (Hi : i = length P).
    { destruct HInv as (_ & _ & _ & _ & _ & _ & _ & Hle). lia. }
    exists h, inputs, rest. split; [|now rewrite <- Hi].
    apply backfill_exit. pose proof (length_paired_of h inputs). lia.
  - destruct fuel as [|[|f]]; [lia | lia |].
    destruct (backfill_advance h inputs i rest HInv) as (h1 & inputs1 & rest1 & HInv1 & Hrun);
      [lia|].
    destruct (Hrun f) as (f' & Hf' & ->).
    apply (IH h1 inputs1 (S i) rest1 HInv1); lia.
Qed.

Lemma skip_unreadable fuel l st :
  forallb (fun a => negb (readable a)) l = true ->
  foldM (fun '(h, inputs) output =>
           if negb (readable output) then Ret (h, inputs)
           else
             rd ← deref h (repoData output);
             if isNewRepository rd then Ret (h, inputs)
             else
               c ← cfg_of rd;
               match cfg_parents c with
               | None => Ret (h, inputs)
               | Some _ =>
                   pairedParents ←
                     makePairedParents h (repoData output) inputs outputs;
                   backfill_loop fuel h output inputs outputs 0 pairedParents
               end) l st = Ret st.
Proof.
  revert st. induction l as [|a l IH]; intros [h inputs] H; cbn [foldM]; [reflexivity|].
  cbn [forallb] in H. apply andb_true_iff in H as [Ha Hl]. rewrite Ha.
  cbn [mbind outcome_mbind bind]. now apply IH.
Qed.

Lemma effective_inputs h inputs :
  Forall (fun a => input_ok h out a = true) inputs ->
  effective_parents h (repoData out) inputs outputs = map (pval h) inputs.
Proof.
  intros Hok. unfold effective_parents. rewrite (filter_decls h) by exact Hok.
  induction Hok as [|a l Ha _ IH]; [reflexivity|].
  cbn [omap list_omap map]. unfold input_ok in Ha. apply andb_true_iff in Ha as [_ Ha].
  unfold has_cfg in Ha. unfold pval at 1.
  destruct (h !! repoData a) as [rd|]; [|discriminate].
  cbn [mbind option_bind]. unfold parent_val in *.
  destruct (cfg rd); [|discriminate]. cbn [default]. now rewrite <- IH.
Qed.

(** C9, as the code has it.  For an existing output that is declared
    readable, is the only readable output, and whose persisted parents are
    roots that storage holds a configuration for: the backfill ends; it keeps
    the heap and the declared inputs, in order; every declaration it adds is a
    read-only declaration of a persisted parent, resolved to the stored
    configuration; afterwards the persisted parent list is the beginning of
    the effective parent set of the output, and it is all of it (so the output
    passes the parent-list check) when the inputs the caller declared come in
    the order of the persisted list. *)
Theorem addMissingParents_backfills (fuel : nat) :
  2 * length P < fuel ->
  exists h' inputs',
    addMissing fuel h0 inputs0 outputs = Ret (h', inputs') /\
    h0 `prefix_of` h' /\
    inputs0 `sublist_of` inputs' /\
    (forall a, a ∈ inputs' -> a ∈ inputs0 \/ synthesized getRepositoryCfg h' P a) /\
    P `prefix_of` effective_parents h' (repoData out) inputs' outputs /\
    (effective_parents h0 (repoData out) inputs0 outputs `sublist_of` P ->
       effective_parents h' (repoData out) inputs' outputs = P /\
       ~ lineage_mismatch h' inputs' outputs out).
Proof.
  intros Hfuel.
  assert (Hok0 : Forall (fun a => input_ok h0 out a = true) inputs0).
  { apply Forall_forall. intros a Ha. rewrite forallb_forall in Hinputs.
    apply Hinputs. now apply list_elem_of_In. }
  assert (HInv0 : Inv h0 inputs0 0 (map (pval h0) inputs0)).
  { split; [|split; [|split; [|split; [|split; [|split; [|split]]]]]];
      try reflexivity; try assumption.
    - apply Forall_forall. intros a Ha. now left.
    - intros HB. now rewrite drop_0.
    - lia. }
  destruct (backfill_run (length P) h0 inputs0 0 _ HInv0 (Nat.sub_0_r _) fuel Hfuel)
    as (h' & inputs' & rest' & Hrun & Hpre & Hsub & Hok & Horig & Hvals & Hsuf & Hsl & _).
  exists h', inputs'. split; [|split; [exact Hpre | split; [exact Hsub | split; [|split]]]].
  - unfold _addMissingParentsOfOutputs. fold outputs.
    pose proof Hothers as Hoth.
    rewrite forallb_app in Hoth. apply andb_true_iff in Hoth as [Hp1 Hp2].
    match goal with
    | |- context [foldM ?f outputs ?st] =>
        change (foldM f outputs st) with (foldM f (pre ++ out :: post) st)
    end.
    rewrite foldM_app.
    rewrite (skip_unreadable fuel pre (h0, inputs0) Hp1).
    cbn [mbind outcome_mbind bind foldM]. rewrite Hreadable. cbn [negb].
    rewrite (deref_some _ _ _ Hrd). cbn [mbind outcome_mbind bind]. rewrite Hnotnew.
    unfold cfg_of. rewrite Hcfg. cbn [mbind outcome_mbind bind]. rewrite Hparents.
    rewrite (makePaired_inputs h0 inputs0) by (reflexivity || exact Hok0).
    cbn [mbind outcome_mbind bind]. rewrite Hrun. cbn [mbind outcome_mbind bind].
    apply (skip_unreadable fuel post (h', inputs') Hp2).
  - intros a Ha. rewrite Forall_forall in Horig. now apply Horig.
  - rewrite (effective_inputs h' inputs' Hok), Hvals, firstn_all. now apply prefix_app_r.
  - intros HB. rewrite (effective_inputs h0 inputs0 Hok0) in HB. specialize (Hsl HB).
    rewrite drop_all in Hsl. apply sublist_nil_r in Hsl. subst rest'.
    rewrite app_nil_r, firstn_all in Hvals.
    assert (Heff : effective_parents h' (repoData out) inputs' outputs = P)
      by (now rewrite (effective_inputs h' inputs' Hok)).
    split; [exact Heff|].
    intros (rd & c & Hrd' & _ & Hc' & Hne).
    destruct Hpre as [k ->]. rewrite (lookup_app_l_Some _ _ _ _ Hrd) in Hrd'.
    injection Hrd' as <-. rewrite Hcfg in Hc'. injection Hc' as <-.
    apply Hne. now rewrite Heff.
Qed.

End Backfill.

Lemma addMissingParents_backfills_witness :
  exists h' inputs',
    _addMissingParentsOfOutputs parents_disk no_path no_path no_name no_name
      5 lone_output_heap [] ([] ++ lone_output_rw :: []) = Ret (h', inputs') /\
    lone_output_heap `prefix_of` h' /\
    [] `sublist_of` inputs' /\
    (forall a, a ∈ inputs' ->
       a ∈ [] \/ synthesized parents_disk h' [PRoot "in1"; PRoot "in2"] a) /\
    [PRoot "in1"; PRoot "in2"]
      `prefix_of` effective_parents h' (repoData lone_output_rw) inputs'
                    ([] ++ lone_output_rw :: []) /\
    (effective_parents lone_output_heap (repoData lone_output_rw) []
       ([] ++ lone_output_rw :: []) `sublist_of` [PRoot "in1"; PRoot "in2"] ->
     effective_parents h' (repoData lone_output_rw) inputs' ([] ++ lone_output_rw :: [])
     = [PRoot "in1"; PRoot "in2"] /\
     ~ lineage_mismatch h' inputs' ([] ++ lone_output_rw :: []) lone_output_rw).
Proof.
  exact (addMissingParents_backfills parents_disk no_path no_path no_name no_name
           lone_output_heap [] lone_output_rw [] []
           (mkRepoData (Some (mkCfg "out" (Some "MapperA") None
                                (Some [PRoot "in1"; PRoot "in2"])))
                       (Some existing) (Some "out") [] ∅)
           (mkCfg "out" (Some "MapperA") None (Some [PRoot "in1"; PRoot "in2"]))
           [PRoot "in1"; PRoot "in2"]
           eq_refl eq_refl eq_refl eq_refl eq_refl eq_refl eq_refl eq_refl
           5 (Nat.lt_succ_diag_r 4)).
Defined.

Example backfill_lone_output :
  _addMissingParentsOfOutputs parents_disk no_path no_path no_name no_name
    5 lone_output_heap [] [lone_output_rw]
  = Ret (lone_output_heap ++
           [ mkRepoData (Some (mkCfg "in1" (Some "MapperA") None (Some [])))
                        (Some existing) (Some "in1") [] ∅;
             mkRepoData (Some (mkCfg "in2" (Some "MapperA") None (Some [])))
                        (Some existing) (Some "in2") [] ∅ ],
         [ mkArgsAndData (mkArgs "in1" "r" None None None ∅) 1;
           mkArgsAndData (mkArgs "in2" "r" None None None ∅) 2 ]).
Proof. reflexivity. Qed.

(** C9 as stated fails for an existing output that is opened for writing
    only: no declaration is synthesized for its persisted parents, and the
    parent-list check that follows fails. *)
Lemma addMissingParents_skips_write_only :
  _addMissingParentsOfOutputs parents_disk no_path no_path no_name no_name
    5 lone_output_heap [] [lone_output_w]
  = Ret (lone_output_heap, []) /\
  _setAndVerifyParentsLists lone_output_heap [] [lone_output_w]
  = Raise (RuntimeError "Inputs of this Butler do not match existing cfg parents").
Proof. split; reflexivity. Qed.

(** ** The read path of the location resolver *)

Section LocateRead.

Context {Obj : Type}.
Variable repo_map : nat -> string -> DataId -> bool -> outcome (option (@Location Obj)).
Variable mapper_hasattr : nat -> string -> bool.
Variable bypass_call : @Location Obj -> DataId -> outcome Obj.
Variable repo_exists : @Location Obj -> bool.

Abbreviation loop := (locate_loop repo_map mapper_hasattr bypass_call repo_exists).
Abbreviation locate := (_locate repo_map mapper_hasattr bypass_call repo_exists).
Abbreviation accept := (accept_location mapper_hasattr bypass_call repo_exists).
Abbreviation bypassed := (has_bypass mapper_hasattr).

Lemma split_on_undotted dt : contains "." dt = false -> split_on "." dt = [dt].
Proof.
  induction dt as [|a dt IH]; cbn [contains split_on]; [reflexivity|].
  destruct (Ascii.eqb a "."); [discriminate|]. intros H. now rewrite IH.
Qed.

Lemma first_component_undotted dt :
  contains "." (hd EmptyString (split_on "." dt)) = false.
Proof.
  induction dt as [|a dt IH]; cbn [split_on]; [reflexivity|].
  destruct (Ascii.eqb a ".") eqn:E; [reflexivity|].
  destruct (split_on "." dt) as [|x xs]; cbn [hd contains] in *; now rewrite E.
Qed.

Lemma tag_excludes_true h dataId r :
  tag dataId <> ∅ -> tag dataId ∩ tags_of h r = ∅ -> tag_excludes h dataId r = true.
Proof.
  intros H1 H2. unfold tag_excludes.
  now rewrite (bool_decide_eq_true_2 _ H1), (bool_decide_eq_true_2 _ H2).
Qed.

(** Whatever the read path accepts without a bypass, and that is no
    composite, exists. *)
Lemma accept_exists continue dataId locations location l :
  (forall locs, continue locs = Ret (LOne l) ->
     is_composite l = false -> bypassed l = false -> repo_exists l = true) ->
  accept continue dataId false locations location = Ret (LOne l) ->
  is_composite l = false -> bypassed l = false -> repo_exists l = true.
Proof.
  intros Hk Hrun Hc Hb. unfold accept_location in Hrun.
  destruct location as [|l0|[|x ls]]; cbn [negb] in Hrun; eauto; [|discriminate].
  destruct (has_bypass mapper_hasattr l0) eqn:Hb0.
  - destruct (bypass_call l0 dataId) as [o| |]; eauto.
    injection Hrun as <-. unfold has_bypass in *. cbn in Hb. congruence.
  - destruct (is_composite l0 || repo_exists l0) eqn:Hor; eauto.
    injection Hrun as <-. rewrite Hc in Hor. exact Hor.
Qed.

Lemma loop_exists rec h dataId repos :
  forall dt locs l,
    loop rec h dataId false repos dt locs = Ret (LOne l) ->
    is_composite l = false -> bypassed l = false -> repo_exists l = true.
Proof.
  induction repos as [|r rest IH]; intros dt locs l Hrun Hc Hb.
  - cbn in Hrun. discriminate.
  - cbn [locate_loop negb andb] in Hrun.
    destruct (tag_excludes h dataId r); [eauto|].
    cbv zeta in Hrun.
    destruct (repo_map r (hd EmptyString (split_on "." dt)) dataId false)
      as [[l0|]|[]|]; eauto; try discriminate.
    destruct (tl (split_on "." dt)) as [|c0 cs].
    + eapply accept_exists; [|exact Hrun|exact Hc|exact Hb]. intros locs'. apply IH.
    + destruct (kind _) as [|componentInfo]; [discriminate|].
      destruct (assoc c0 componentInfo) as [ci|]; [|discriminate].
      destruct (rec _) as [[|l1|ls]| |]; cbn [mbind outcome_mbind bind] in Hrun;
        try discriminate.
      * eapply accept_exists; [|exact Hrun|exact Hc|exact Hb]. intros locs'. apply IH.
      * eapply accept_exists; [|exact Hrun|exact Hc|exact Hb]. intros locs'. apply IH.
Qed.

Lemma loop_skip rec h dataId r rest dt locs :
  tag_excludes h dataId r = true ->
  loop rec h dataId false (r :: rest) dt locs = loop rec h dataId false rest dt locs.
Proof. intros H. cbn [locate_loop negb andb]. now rewrite H. Qed.

Lemma loop_continue rec h dataId r rest dt locs :
  contains "." dt = false ->
  yields_nothing repo_map mapper_hasattr repo_exists h dataId dt r ->
  loop rec h dataId false (r :: rest) dt locs = loop rec h dataId false rest dt locs.
Proof.
  intros Hdot Hy. cbn [locate_loop negb andb].
  destruct (tag_excludes h dataId r) eqn:Ht; [reflexivity|].
  cbv zeta. rewrite (split_on_undotted dt Hdot). cbn [hd tl].
  destruct Hy as [Hy|[Hy|[[msg Hy]|(l & Hy & Hc & Hb & He)]]].
  - congruence.
  - now rewrite Hy.
  - now rewrite Hy.
  - rewrite Hy. unfold accept_location. cbn [negb].
    unfold has_bypass in *. rewrite Hb.
    assert (Hc' : is_composite (set_datasetType l dt) = false) by exact Hc.
    now rewrite Hc', He.
Qed.

Lemma tag_excludes_false h dataId r :
  tag dataId = ∅ \/ tag dataId ∩ tags_of h r <> ∅ -> tag_excludes h dataId r = false.
Proof.
  intros [H|H]; unfold tag_excludes.
  - rewrite (bool_decide_eq_false_2 (tag dataId <> ∅)) by (intros Hn; now apply Hn).
    reflexivity.
  - rewrite (bool_decide_eq_false_2 _ H). apply andb_false_r.
Qed.

(** A repository that is not skipped and maps the (undotted) dataset type
    to a location without a bypass, which is a composite or exists, ends the
    search: its location is the result. *)
Lemma loop_accept rec h dataId r rest dt locs l :
  contains "." dt = false -> tag_excludes h dataId r = false ->
  repo_map r dt dataId false = Ret (Some l) ->
  bypassed (set_datasetType l dt) = false ->
  is_composite l = true \/ repo_exists (set_datasetType l dt) = true ->
  loop rec h dataId false (r :: rest) dt locs = Ret (LOne (set_datasetType l dt)).
Proof.
  intros Hdot Ht Hm Hb Hacc. cbn [locate_loop negb andb]. rewrite Ht.
  cbv zeta. rewrite (split_on_undotted dt Hdot). cbn [hd tl]. rewrite Hm.
  unfold accept_location. cbn [negb]. unfold has_bypass in *. rewrite Hb.
  assert (Hor : is_composite (set_datasetType l dt)
                || repo_exists (set_datasetType l dt) = true).
  { destruct Hacc as [Hc|He].
    - assert (Hc' : is_composite (set_datasetType l dt) = true) by exact Hc.
      now rewrite Hc'.
    - rewrite He. apply orb_true_r. }
  now rewrite Hor.
Qed.

(** C5.  On the read path a node is skipped when the identifier carries
    tags and none of them is a tag of the node; a location that is no
    composite and has no bypass is returned only if the storage backend says
    it exists; when the mapped location (of an undotted dataset type) does not
    exist, the search goes on with the next repository; the result is
    [None] when no repository yields an accepted location (for a dotted
    dataset type, when no repository has a mapping for its first segment); and
    when the repositories before one in the input order yield nothing, and
    that one is not skipped and maps the dataset type to a location without a
    bypass that is a composite or exists, this location is the result. *)
Theorem locate_read_path :
  (forall rec h dataId r rest dt locs,
     tag dataId <> ∅ -> tag dataId ∩ tags_of h r = ∅ ->
     loop rec h dataId false (r :: rest) dt locs
     = loop rec h dataId false rest dt locs) /\
  (forall fuel h c dt dataId l,
     locate fuel h c dt dataId false = Ret (LOne l) ->
     is_composite l = false -> bypassed l = false -> repo_exists l = true) /\
  (forall rec h dataId r rest dt locs l,
     contains "." dt = false -> tag_excludes h dataId r = false ->
     repo_map r dt dataId false = Ret (Some l) ->
     is_composite l = false ->
     bypassed (set_datasetType l dt) = false ->
     repo_exists (set_datasetType l dt) = false ->
     loop rec h dataId false (r :: rest) dt locs
     = loop rec h dataId false rest dt locs) /\
  (forall fuel h c dt dataId repos,
     _inputs c = Some repos -> contains "." dt = false ->
     Forall (yields_nothing repo_map mapper_hasattr repo_exists h dataId dt) repos ->
     locate (S fuel) h c dt dataId false = Ret LNone) /\
  (forall fuel h c dt dataId repos,
     _inputs c = Some repos ->
     Forall (finds_nothing repo_map h dataId (hd EmptyString (split_on "." dt))) repos ->
     locate (S fuel) h c dt dataId false = Ret LNone) /\
  (forall fuel h c dt dataId pre r rest l,
     _inputs c = Some (pre ++ r :: rest) -> contains "." dt = false ->
     Forall (yields_nothing repo_map mapper_hasattr repo_exists h dataId dt) pre ->
     tag dataId = ∅ \/ tag dataId ∩ tags_of h r <> ∅ ->
     repo_map r dt dataId false = Ret (Some l) ->
     bypassed (set_datasetType l dt) = false ->
     is_composite l = true \/ repo_exists (set_datasetType l dt) = true ->
     locate (S fuel) h c dt dataId false = Ret (LOne (set_datasetType l dt))).
Proof.
  split; [|split; [|split; [|split; [|split]]]]; cycle 5.
  - intros fuel h c dt dataId pre r rest l Hin Hdot Hpre Htag Hm Hb Hacc.
    cbn [_locate]. unfold inputs_of. rewrite Hin. cbn [mbind outcome_mbind bind].
    clear Hin. induction Hpre as [|r0 pre Hr0 _ IH]; cbn [app].
    + apply loop_accept; auto. now apply tag_excludes_false.
    + rewrite loop_continue; [exact IH | exact Hdot | exact Hr0].
  - intros rec h dataId r rest dt locs H1 H2.
    apply loop_skip. now apply tag_excludes_true.
  - intros fuel h c dt dataId l Hrun. destruct fuel as [|f]; [discriminate|].
    cbn [_locate] in Hrun. destruct (inputs_of c) as [repos| |]; try discriminate.
    cbn [mbind outcome_mbind bind] in Hrun. eapply loop_exists, Hrun.
  - intros rec h dataId r rest dt locs l Hdot Ht Hm Hc Hb He.
    apply loop_continue; [exact Hdot|]. right. right. right. exists l. auto.
  - intros fuel h c dt dataId repos Hin Hdot Hall. cbn [_locate].
    unfold inputs_of. rewrite Hin. cbn [mbind outcome_mbind bind]. clear Hin.
    induction Hall as [|r rest Hr _ IH]; [reflexivity|].
    rewrite loop_continue; [exact IH | exact Hdot | exact Hr].
  - intros fuel h c dt dataId repos Hin Hall. cbn [_locate].
    unfold inputs_of. rewrite Hin. cbn [mbind outcome_mbind bind]. clear Hin.
    induction Hall as [|r rest Hr Hrest IH]; [reflexivity|].
    cbn [locate_loop negb andb].
    destruct (tag_excludes h dataId r) eqn:Ht; [exact IH|].
    assert (Hnext : loop (fun dt0 => locate fuel h c dt0 dataId false) h dataId false
                      rest (hd EmptyString (split_on "." dt)) [] = Ret LNone).
    { clear -Hrest. induction Hrest as [|r rest Hr _ IH]; [reflexivity|].
      rewrite loop_continue; [exact IH | apply first_component_undotted|].
      destruct Hr as [Hr|[Hr|Hr]]; [now left | right; now left | right; right; now left]. }
    cbv zeta. destruct Hr as [Hr|[Hr|[msg Hr]]]; [congruence | |]; now rewrite Hr.
Qed.

End LocateRead.

Lemma locate_read_path_witness :
  _locate plain_map no_attr no_bypass exists_in_second
          1 two_heap two_inputs "raw" no_id false
  = Ret (LOne (set_datasetType (plain_location 1) "raw")) /\
  _locate calexp_map no_attr no_bypass nothing_exists
          1 calexp_heap calexp_repos "raw_image" no_id false
  = Ret LNone.
Proof.
  split.
  - apply (proj2 (proj2 (proj2 (proj2 (proj2
             (locate_read_path plain_map no_attr no_bypass exists_in_second)))))
             0 two_heap two_inputs "raw" no_id [0] 1 [] (plain_location 1)).
    + reflexivity.
    + reflexivity.
    + constructor; [|constructor]. right. right. right.
      exists (plain_location 0). repeat split.
    + left. reflexivity.
    + reflexivity.
    + reflexivity.
    + right. reflexivity.
  - apply (proj1 (proj2 (proj2 (proj2
             (locate_read_path calexp_map no_attr no_bypass nothing_exists))))
             0 calexp_heap calexp_repos "raw_image" no_id [0]).
    + reflexivity.
    + reflexivity.
    + constructor; [|constructor]. right. left. reflexivity.
Defined.

(** ** Reading a dataset *)

Section Get.

Context {Obj : Type}.
Variable repo_map : nat -> string -> DataId -> bool -> outcome (option (@Location Obj)).
Variable mapper_hasattr : nat -> string -> bool.
Variable bypass_call : @Location Obj -> DataId -> outcome Obj.
Variable repo_exists : @Location Obj -> bool.
Variable repo_getKeys : nat -> string -> string -> option (list (string * string)).
Variable _read : @Location Obj -> outcome Obj.
Variable canStandardize : nat -> string -> bool.
Variable standardize : nat -> string -> Obj -> DataId -> outcome Obj.
Variable assembler : @Location Obj -> list (string * @CompVal Obj) -> outcome Obj.

Abbreviation locate_r := (_locate repo_map mapper_hasattr bypass_call repo_exists).
Abbreviation get_ := (get repo_map mapper_hasattr bypass_call repo_exists repo_getKeys
                        _read canStandardize standardize assembler).
Abbreviation callback_of := (read_callback _read canStandardize standardize).


End Get.



(** ** Metadata queries *)

Section QueryMetadata.

Variable repo_queryMetadata : nat -> string -> list string -> DataId -> list Row.

Abbreviation query := (queryMetadata repo_queryMetadata).

(** C10, as the code has it.  With [format] left out no repository is
    queried and nothing is returned: the call raises the error of alias
    resolution when the dataset type does not resolve, and otherwise the
    error of the name [key], which is not defined. *)
Theorem queryMetadata_format_omitted
    (d : AliasDict) (h : Heap) (c : RepoDataContainer) (datasetType : string)
    (dataId : DataId) :
  fst (query d h c datasetType None dataId) = [] /\
  (forall datasetType',
     _resolveDatasetTypeAlias d datasetType = Ret datasetType' ->
     snd (query d h c datasetType None dataId) = Raise (NameError "key")) /\
  (forall e,
     _resolveDatasetTypeAlias d datasetType = Raise e ->
     snd (query d h c datasetType None dataId) = Raise e) /\
  raises (snd (query d h c datasetType None dataId)).
Proof.
  unfold queryMetadata, raises.
  assert (Hne : _resolveDatasetTypeAlias d datasetType <> OutOfFuel).
  { rewrite resolve_cases. destruct (contains _ _); discriminate. }
  destruct (_resolveDatasetTypeAlias d datasetType) as [dt'|e|]; [| |contradiction];
    cbn [fst snd]; repeat split; try discriminate; eauto.
  - intros e' [= ->]. reflexivity.
Qed.

End QueryMetadata.

Lemma queryMetadata_format_omitted_witness :
  snd (queryMetadata no_rows [] calexp_heap calexp_repos "raw_image" None no_id)
  = Raise (NameError "key").
Proof.
  apply (proj1 (proj2 (queryMetadata_format_omitted no_rows [] calexp_heap calexp_repos
                         "raw_image" no_id)) "raw_image").
  reflexivity.
Defined.

(** C10 as stated fails when the dataset type holds an alias that is not
    registered: the error is the one of alias resolution, raised before the
    name [key] is reached. *)
Lemma queryMetadata_unresolved_alias_first :
  queryMetadata no_rows [] calexp_heap calexp_repos "@raw" None no_id
  = ([], Raise (RuntimeError "Unresolvable alias specifier in datasetType")) /\
  snd (queryMetadata no_rows [] calexp_heap calexp_repos "@raw" None no_id)
  <> Raise (NameError "key").
Proof. split; [reflexivity | discriminate]. Qed.

(** * Further properties of the code *)

(** ** Aliases: registration and resolution together *)

Section AliasTable.

Lemma append_empty_r s : (s ++ "")%string = s.
Proof.
  induction s as [|a s IH]; [reflexivity|].
  change (String a s ++ "")%string with (String a (s ++ "")%string). now rewrite IH.
Qed.

Lemma defineAlias_ret d alias datasetType d' :
  defineAlias d alias datasetType = Ret d' ->
  d' = d ++ [(alias_token alias, datasetType)] /\
  existsb (overlaps (alias_token alias)) (dict_keys d) = false.
Proof.
  rewrite defineAlias_cases.
  destruct (rfind at_sign alias >? 0)%Z; [discriminate|].
  destruct (contains at_sign datasetType); [discriminate|].
  destruct (existsb _ _); [discriminate|]. intros [= <-]. auto.
Qed.

Lemma render_dst_no_at d ps :
  wf_table d -> Forall (wf_piece d) ps -> contains at_sign (render piece_dst ps) = false.
Proof.
  intros [Hents _] Hps. induction Hps as [|p ps Hp _ IH]; [reflexivity|].
  rewrite render_cons, contains_app, IH, orb_false_r.
  destruct p as [s|k v]; simpl in *; [exact Hp|].
  rewrite Forall_forall in Hents. apply (Hents _ Hp).
Qed.

Lemma resolve_render d ps :
  wf_table d -> Forall (wf_piece d) ps ->
  _resolveDatasetTypeAlias d (render piece_src ps) = Ret (render piece_dst ps).
Proof.
  intros Hwf Hps. rewrite resolve_cases, resolve_loop_render by assumption.
  now rewrite (render_dst_no_at d ps Hwf Hps).
Qed.

(** Registering an alias in a table built by [defineAlias] keeps the table
    of that kind; from then on a dataset type that holds the new token,
    between text without ['@'], resolves to the same text around the target;
    and every string made of text and the tokens registered before resolves
    as it did. *)
Theorem alias_roundtrip (d d' : AliasDict) (alias datasetType : string) :
  wf_table d ->
  defineAlias d alias datasetType = Ret d' ->
  wf_table d' /\
  (forall pre post,
     contains at_sign pre = false -> contains at_sign post = false ->
     _resolveDatasetTypeAlias d' (pre ++ alias_token alias ++ post)%string
     = Ret (pre ++ datasetType ++ post)%string) /\
  (forall ps, Forall (wf_piece d) ps ->
     _resolveDatasetTypeAlias d' (render piece_src ps)
     = _resolveDatasetTypeAlias d (render piece_src ps)).
Proof.
  intros Hwf Hdef.
  assert (Hwf' : wf_table d') by (eapply defineAlias_wf; eassumption).
  destruct (defineAlias_ret _ _ _ _ Hdef) as [-> _].
  split; [exact Hwf'|]. split.
  - intros pre post Hpre Hpost.
    pose proof (resolve_render _ [Lit pre; Tok (alias_token alias) datasetType; Lit post]
                  Hwf') as H.
    cbn [render fold_right piece_src piece_dst] in H. rewrite !append_empty_r in H.
    apply H. constructor; [exact Hpre|].
    constructor; [|constructor; [exact Hpost | constructor]].
    cbn [wf_piece]. apply elem_of_app. right. apply list_elem_of_here.
  - intros ps Hps. rewrite (resolve_render d ps Hwf Hps).
    apply resolve_render; [exact Hwf'|].
    eapply Forall_impl; [exact Hps|]. intros [s|k v]; cbn [wf_piece]; [trivial|].
    intros Hin. apply elem_of_app. now left.
Qed.

Lemma alias_roundtrip_witness :
  _resolveDatasetTypeAlias [("@raw", "exposure.raw")] ("" ++ alias_token "raw" ++ ".wcs")%string
  = Ret ("" ++ "exposure.raw" ++ ".wcs")%string.
Proof.
  apply (proj1 (proj2 (alias_roundtrip [] [("@raw", "exposure.raw")] "raw" "exposure.raw"
                         wf_table_nil eq_refl)) "" ".wcs"); reflexivity.
Defined.

(** A registered alias cannot be registered again, with or without the
    leading ['@'], whatever the new target. *)
Theorem alias_not_redefinable (d d' : AliasDict) (alias datasetType : string) :
  defineAlias d alias datasetType = Ret d' ->
  forall datasetType',
    raises (defineAlias d' alias datasetType') /\
    raises (defineAlias d' (alias_token alias) datasetType').
Proof.
  intros Hdef datasetType'.
  destruct (defineAlias_ret _ _ _ _ Hdef) as [-> _].
  assert (Hov : forall a, alias_token a = alias_token alias ->
            existsb (overlaps (alias_token a))
              (dict_keys (d ++ [(alias_token alias, datasetType)])) = true).
  { intros a Ha. apply existsb_exists. exists (alias_token alias). split.
    - unfold dict_keys. rewrite map_app. apply in_or_app. right. left. reflexivity.
    - rewrite Ha. unfold overlaps, startswith. now rewrite str_prefix_refl. }
  assert (Htok : alias_token (alias_token alias) = alias_token alias).
  { unfold alias_token. destruct (contains at_sign alias) eqn:Hc; [now rewrite Hc|].
    reflexivity. }
  unfold raises. split; rewrite defineAlias_cases.
  - destruct (rfind at_sign alias >? 0)%Z; [eauto|].
    destruct (contains at_sign datasetType'); [eauto|].
    rewrite (Hov alias eq_refl). eauto.
  - destruct (rfind at_sign (alias_token alias) >? 0)%Z; [eauto|].
    destruct (contains at_sign datasetType'); [eauto|].
    rewrite (Hov (alias_token alias) Htok). eauto.
Qed.

Lemma alias_not_redefinable_witness :
  raises (defineAlias [("@raw", "exposure.raw")] "raw" "other") /\
  raises (defineAlias [("@raw", "exposure.raw")] (alias_token "raw") "other").
Proof.
  exact (alias_not_redefinable [] [("@raw", "exposure.raw")] "raw" "exposure.raw"
           eq_refl "other").
Defined.

End AliasTable.

(** ** The ancestors of a node *)

Section Ancestors.

Variable h : Heap.
Variable rank : nat -> nat.
Hypothesis Hacyc : acyclic rank h.

Lemma getParentRepoDatas_fold f ps :
  (forall p, p ∈ ps ->
     getParentRepoDatas f h p = Ret (flat_map (traversal (pred f) h) (parents_of h p)) /\
     0 < f) ->
  forall acc,
    foldM (fun parents parent =>
             l ← getParentRepoDatas f h parent;
             Ret ((parents ++ [parent]) ++ l)) ps acc
    = Ret (acc ++ flat_map (traversal f h) ps).
Proof.
  induction ps as [|p ps IH]; intros Hps acc; simpl.
  - now rewrite app_nil_r.
  - destruct (Hps p) as [Hp Hf]; [apply elem_of_cons; now left|].
    rewrite Hp. cbn [mbind outcome_mbind bind].
    rewrite IH by (intros q Hq; apply Hps, elem_of_cons; now right).
    f_equal. destruct f as [|f']; [lia|]. cbn [traversal pred].
    rewrite <- !app_assoc. reflexivity.
Qed.

Lemma getParentRepoDatas_traversal fuel r :
  rank r < fuel ->
  getParentRepoDatas fuel h r = Ret (flat_map (traversal (pred fuel) h) (parents_of h r)).
Proof.
  revert r. induction fuel as [|f IH]; intros r Hr; [lia|].
  cbn [getParentRepoDatas pred].
  apply (getParentRepoDatas_fold f (parents_of h r)).
  intros p Hp. apply Hacyc in Hp. split; [apply IH|]; lia.
Qed.

End Ancestors.

(** [getParentRepoDatas] on an acyclic lineage returns the depth-first
    traversal from the node without the node itself: exactly what can be
    reached from one of its parents, and never the node. *)
Theorem getParentRepoDatas_ancestors (h : Heap) (rank : nat -> nat) (fuel r : nat) :
  ranked rank h = true ->
  rank r < fuel ->
  exists l,
    getParentRepoDatas fuel h r = Ret l /\
    traversal fuel h r = r :: l /\
    (forall n, n ∈ l <-> exists p, p ∈ parents_of h r /\ reach h p n) /\
    r ∉ l.
Proof.
  intros Hranked Hr. pose proof (ranked_acyclic h rank Hranked) as Hacyc.
  exists (flat_map (traversal (pred fuel) h) (parents_of h r)).
  split; [now apply (getParentRepoDatas_traversal h rank Hacyc)|].
  destruct fuel as [|f]; [lia|]. cbn [pred traversal].
  split; [reflexivity|].
  assert (Hmem : forall n, n ∈ flat_map (traversal f h) (parents_of h r) <->
                           exists p, p ∈ parents_of h r /\ reach h p n).
  { intros n. rewrite list_elem_of_In, in_flat_map. split.
    - intros (p & Hp & Hn). exists p. split; [now apply list_elem_of_In|].
      eapply traversal_reach, list_elem_of_In, Hn.
    - intros (p & Hp & Hn). exists p. split; [now apply list_elem_of_In|].
      apply list_elem_of_In. apply (reach_traversal h rank Hacyc); [exact Hn|].
      apply Hacyc in Hp. lia. }
  split; [exact Hmem|].
  intros Hin. apply Hmem in Hin as (p & Hp & Hreach).
  apply (reach_rank h rank Hacyc) in Hreach. apply Hacyc in Hp. lia.
Qed.

Lemma getParentRepoDatas_ancestors_witness :
  exists l,
    getParentRepoDatas 5 diamond 0 = Ret l /\
    traversal 5 diamond 0 = 0 :: l /\
    (forall n, n ∈ l <-> exists p, p ∈ parents_of diamond 0 /\ reach diamond p n) /\
    0 ∉ l.
Proof.
  apply (getParentRepoDatas_ancestors diamond diamond_rank 5 0); [reflexivity|].
  unfold diamond_rank. lia.
Defined.

(** ** The lookup lists are built once *)

(** When [_buildLookupLists] returns, the container it was given had no
    lists (asking it for its inputs or outputs raises); the container it
    returns answers both, the outputs being the declared ones in order, has
    the same members, and refuses to be built again. *)
Theorem buildLookupLists_once (fuel : nat) (h : Heap) (c c' : RepoDataContainer)
    (inputs outputs : list ArgsAndData) :
  _buildLookupLists fuel h c inputs outputs = Ret c' ->
  raises (inputs_of c) /\ raises (outputs_of c) /\
  (exists order, inputs_of c' = Ret order) /\
  outputs_of c' = Ret (map repoData outputs) /\
  _all c' = _all c /\
  (forall fuel' h' inputs' outputs',
     _buildLookupLists fuel' h' c' inputs' outputs'
     = Raise (RuntimeError "Lookup lists are already built.")) /\
  (forall r, inputs_of (add c' r) = inputs_of c' /\ outputs_of (add c' r) = outputs_of c').
Proof.
  unfold _buildLookupLists, inputs_of, outputs_of, raises.
  destruct (_inputs c) as [li|] eqn:Hi.
  { rewrite bool_decide_eq_true_2 by discriminate. discriminate. }
  destruct (_outputs c) as [lo|] eqn:Ho.
  { rewrite (bool_decide_eq_true_2 (Some lo <> None)) by discriminate.
    rewrite orb_true_r. discriminate. }
  rewrite !bool_decide_eq_false_2 by (intros H; now apply H). cbn [orb].
  destruct (foldM _ outputs _) as [st| |]; cbn [mbind outcome_mbind bind]; try discriminate.
  destruct (foldM _ inputs _) as [st'| |]; cbn [mbind outcome_mbind bind]; try discriminate.
  intros [= <-]. cbn.
  repeat split; eauto.
Qed.

Lemma buildLookupLists_once_witness :
  raises (inputs_of RepoDataContainer_init) /\
  outputs_of (mkContainer (Some [0; 1; 3; 2]) (Some []) ∅) = Ret [].
Proof.
  pose proof (buildLookupLists_once 5 diamond RepoDataContainer_init
                (mkContainer (Some [0; 1; 3; 2]) (Some []) ∅) [diamond_input] []
                eq_refl) as H.
  split; [apply H | apply (proj1 (proj2 (proj2 (proj2 H))))].
Defined.

(** ** Fresh nodes for the declarations *)

Lemma makeRepoDatas_spec l : forall h,
  makeRepoDatas h l
  = (h ++ replicate (length l) RepoData_init,
     zip_with mkArgsAndData l (seq (length h) (length l))).
Proof.
  induction l as [|a l IH]; intros h; simpl.
  - now rewrite app_nil_r.
  - rewrite IH. rewrite length_app. simpl. rewrite <- app_assoc. simpl.
    now rewrite Nat.add_1_r.
Qed.

Lemma zip_with_args l : forall s,
  length s = length l ->
  map repoArgs (zip_with mkArgsAndData l s) = l /\
  map repoData (zip_with mkArgsAndData l s) = s.
Proof.
  induction l as [|a l IH]; intros [|n s] Hlen; simpl in *; try discriminate; [auto|].
  destruct (IH s) as [-> ->]; [lia|]. auto.
Qed.

(** [_makeRepoDataForInputsAndOutputs] keeps the declarations in order and
    gives every one a node of its own: the arena grows by one empty node for
    each, the nodes that were there stay, and the new references are the next
    free ones, inputs first, so no two declarations share a node. *)
Theorem makeRepoData_fresh (h : Heap) (inputs outputs : list RepositoryArgs) :
  let '(h', (ins, outs)) := _makeRepoDataForInputsAndOutputs h inputs outputs in
  h' = h ++ replicate (length inputs + length outputs) RepoData_init /\
  map repoArgs ins = inputs /\
  map repoArgs outs = outputs /\
  map repoData (ins ++ outs) = seq (length h) (length inputs + length outputs) /\
  NoDup (map repoData (ins ++ outs)).
Proof.
  unfold _makeRepoDataForInputsAndOutputs. rewrite !makeRepoDatas_spec.
  rewrite length_app, length_replicate.
  destruct (zip_with_args inputs (seq (length h) (length inputs))) as [Hi1 Hi2];
    [apply length_seq|].
  destruct (zip_with_args outputs (seq (length h + length inputs) (length outputs)))
    as [Ho1 Ho2]; [apply length_seq|].
  assert (Hseq : map repoData
            (zip_with mkArgsAndData inputs (seq (length h) (length inputs)) ++
             zip_with mkArgsAndData outputs
               (seq (length h + length inputs) (length outputs)))
          = seq (length h) (length inputs + length outputs)).
  { rewrite map_app, Hi2, Ho2. symmetry. apply seq_app. }
  repeat split; try assumption.
  - rewrite <- app_assoc. f_equal. symmetry. apply replicate_add.
  - rewrite Hseq. apply NoDup_ListNoDup, List.seq_NoDup.
Qed.

(** ** Where a tag comes from *)

Section TagOrigin.

Lemma tags_within_refl S h : tags_within S h h.
Proof. split; [reflexivity|]. intros n rd H. exists rd. auto. Qed.

Lemma tags_within_trans S1 S2 S h1 h2 h3 :
  tags_within S1 h1 h2 -> tags_within S2 h2 h3 ->
  (forall t n, S1 t n -> S t n) -> (forall t n, S2 t n -> S t n) ->
  tags_within S h1 h3.
Proof.
  intros [L12 H12] [L23 H23] HS1 HS2. split; [congruence|].
  intros n rd3 Hn3. destruct (H23 n rd3 Hn3) as (rd2 & Hn2 & Hp2 & Ht2).
  destruct (H12 n rd2 Hn2) as (rd1 & Hn1 & Hp1 & Ht1).
  exists rd1. split; [exact Hn1|]. split; [congruence|].
  intros t Ht. destruct (Ht2 t Ht) as [Ht'|HS]; [|right; auto].
  destruct (Ht1 t Ht') as [?|HS]; [left; assumption | right; auto].
Qed.

Lemma tags_within_parents S h h' n : tags_within S h h' -> parents_of h' n = parents_of h n.
Proof.
  intros [L H]. unfold parents_of. destruct (h' !! n) as [rd'|] eqn:Hn.
  - destruct (H n rd' Hn) as (rd & -> & Hp & _). exact Hp.
  - apply lookup_ge_None in Hn. rewrite lookup_ge_None_2; [reflexivity | lia].
Qed.

Lemma tags_within_reach S h h' r n : tags_within S h h' -> reach h' r n -> reach h r n.
Proof.
  intros Hw. induction 1 as [r|r p n Hp _ IH]; [constructor|].
  eapply reach_step; [|exact IH]. now rewrite <- (tags_within_parents S h h' r Hw).
Qed.

Lemma update_addTags_within h r ts :
  tags_within (fun t n => t ∈ ts /\ n = r) h (update h r (fun rd => addTags rd ts)).
Proof.
  unfold update. destruct (h !! r) as [rd0|] eqn:Hr; [|apply tags_within_refl].
  split; [apply length_insert|].
  intros n rd' Hn. destruct (decide (n = r)) as [->|Hne].
  - rewrite list_lookup_insert_eq in Hn by (eapply lookup_lt_Some; eassumption).
    injection Hn as <-. exists rd0. repeat split; [assumption|].
    simpl. intros t Ht. apply elem_of_union in Ht as [?|?]; auto.
  - rewrite list_lookup_insert_ne in Hn by congruence. exists rd'. auto.
Qed.

Lemma setTags_fold_within fuel ts ps :
  (forall p h h', p ∈ ps -> setTags fuel ts h p = Ret h' ->
     tags_within (fun t n => t ∈ ts /\ reach h p n) h h') ->
  forall h h', foldM (setTags fuel ts) ps h = Ret h' ->
    tags_within (fun t n => t ∈ ts /\ exists p, p ∈ ps /\ reach h p n) h h'.
Proof.
  induction ps as [|p ps IH]; intros Hok h h'; simpl.
  - intros [= <-]. apply tags_within_refl.
  - destruct (setTags fuel ts h p) as [h1| |] eqn:E1;
      cbn [mbind outcome_mbind bind]; try discriminate.
    intros Hrest.
    pose proof (Hok p h h1 (proj2 (elem_of_cons _ _ _) (or_introl eq_refl)) E1) as H1.
    pose proof (IH (fun q a b Hq => Hok q a b (proj2 (elem_of_cons _ _ _) (or_intror Hq)))
                  h1 h' Hrest) as H2.
    eapply tags_within_trans; [exact H1 | exact H2 | |].
    + intros t n [Ht Hr]. split; [exact Ht|]. exists p. split; [|exact Hr].
      apply elem_of_cons. now left.
    + intros t n [Ht (q & Hq & Hr)]. split; [exact Ht|]. exists q.
      split; [apply elem_of_cons; now right|].
      eapply tags_within_reach; eassumption.
Qed.

Lemma setTags_within fuel ts : forall r h h',
  setTags fuel ts h r = Ret h' ->
  tags_within (fun t n => t ∈ ts /\ reach h r n) h h'.
Proof.
  induction fuel as [|f IH]; intros r h h'; [discriminate|].
  cbn [setTags]. set (h1 := update h r (fun rd => addTags rd ts)). intros Hrun.
  pose proof (update_addTags_within h r ts) as H1. fold h1 in H1.
  pose proof (setTags_fold_within f ts (parents_of h1 r)
                (fun p a b _ => IH p a b) h1 h' Hrun) as H2.
  eapply tags_within_trans; [exact H1 | exact H2 | |].
  - intros t n [Ht ->]. split; [exact Ht | constructor].
  - intros t n [Ht (p & Hp & Hr)]. split; [exact Ht|].
    rewrite (tags_within_parents _ h h1 r H1) in Hp.
    eapply reach_step; [exact Hp|]. eapply tags_within_reach; eassumption.
Qed.

Lemma setRepoDataTags_fold_within fuel (decls : list ArgsAndData) : forall h h',
  foldM (fun h a => setTags fuel (args_tags (repoArgs a)) h (repoData a)) decls h = Ret h' ->
  tags_within (fun t n => exists a, a ∈ decls /\ t ∈ args_tags (repoArgs a) /\
                                    reach h (repoData a) n) h h'.
Proof.
  induction decls as [|a decls IH]; intros h h'; simpl.
  - intros [= <-]. apply tags_within_refl.
  - destruct (setTags fuel _ h (repoData a)) as [h1| |] eqn:E1;
      cbn [mbind outcome_mbind bind]; try discriminate.
    intros Hrest. pose proof (setTags_within _ _ _ _ _ E1) as H1.
    eapply tags_within_trans; [exact H1 | exact (IH h1 h' Hrest) | |].
    + intros t n [Ht Hr]. exists a. split; [apply elem_of_cons; now left | auto].
    + intros t n (b & Hb & Ht & Hr). exists b.
      split; [apply elem_of_cons; now right|]. split; [exact Ht|].
      eapply tags_within_reach; eassumption.
Qed.

End TagOrigin.

(** [_setRepoDataTags] gives a node no tag out of nowhere: a tag a node has
    afterwards it had before, or it is a tag of a declaration from whose node
    the node can be reached.  Nodes are neither added nor removed and keep
    their parents. *)
Theorem setRepoDataTags_exact (fuel : nat) (h h' : Heap) (inputs outputs : list ArgsAndData) :
  _setRepoDataTags fuel h inputs outputs = Ret h' ->
  length h' = length h /\
  forall n rd' t, h' !! n = Some rd' -> t ∈ tags rd' ->
    exists rd, h !! n = Some rd /\ parentRepoDatas rd' = parentRepoDatas rd /\
      (t ∈ tags rd \/
       exists a, a ∈ outputs ++ inputs /\ t ∈ args_tags (repoArgs a) /\
                 reach h (repoData a) n).
Proof.
  intros Hrun. apply setRepoDataTags_fold_within in Hrun as [L H].
  split; [exact L|]. intros n rd' t Hn Ht.
  destruct (H n rd' Hn) as (rd & Hrd & Hp & Htags).
  exists rd. split; [exact Hrd|]. split; [exact Hp|]. now apply Htags.
Qed.

Lemma setRepoDataTags_exact_witness :
  length diamond_tagged = length diamond /\
  forall n rd' t, diamond_tagged !! n = Some rd' -> t ∈ tags rd' ->
    exists rd, diamond !! n = Some rd /\ parentRepoDatas rd' = parentRepoDatas rd /\
      (t ∈ tags rd \/
       exists a, a ∈ [] ++ [diamond_input] /\ t ∈ args_tags (repoArgs a) /\
                 reach diamond (repoData a) n).
Proof.
  apply (setRepoDataTags_exact 5 diamond diamond_tagged [diamond_input] []).
  vm_compute. reflexivity.
Defined.

(** ** Configurations for all the declarations *)

Section GetCfgsLoop.

Variable getRepositoryCfg : string -> option RepositoryCfg.
Variable isPosix : string -> bool.
Variable v1RepoExists : string -> bool.
Variable getMapperClass : string -> option string.
Variable getParentSymlinkPath : string -> option string.

Abbreviation lookup := (lookup_cfg getRepositoryCfg isPosix v1RepoExists
                      getMapperClass getParentSymlinkPath).
Abbreviation body := (getCfg_body getRepositoryCfg isPosix v1RepoExists
                    getMapperClass getParentSymlinkPath).
Abbreviation getCfgs := (_getCfgsForInputsAndOutputs getRepositoryCfg isPosix v1RepoExists
                       getMapperClass getParentSymlinkPath).

Lemma lookup_cfg_args args :
  args_mode (fst (lookup args)) = args_mode args /\
  args_cfgRoot (fst (lookup args)) = args_cfgRoot args /\
  (snd (lookup args) = None -> getRepositoryCfg (args_cfgRoot args) = None).
Proof.
  unfold lookup_cfg. destruct (getRepositoryCfg (args_cfgRoot args)); [now auto|].
  unfold _getOldButlerRepositoryCfg.
  destruct (negb (isPosix _)); [now auto|].
  destruct (negb (v1RepoExists _)); [now auto|].
  cbn [fst snd]. destruct (negb (truthy (args_mapper args))); now auto.
Qed.

Lemma getCfg_body_step h a h1 rd :
  body h a = Ret h1 -> h !! repoData a = Some rd ->
  exists c o root,
    h1 = <[repoData a := setCfg rd c o root]> h /\
    (o = new -> writable a = true /\ getRepositoryCfg (args_cfgRoot (repoArgs a)) = None) /\
    (o <> new -> snd (lookup (repoArgs a)) = Some c) /\
    (o = nested -> writable a = false) /\
    root = (if decide (o = nested) then None else Some (args_cfgRoot (repoArgs a))).
Proof.
  intros Hrun Hrd. unfold getCfg_body in Hrun.
  destruct (lookup_cfg_args (repoArgs a)) as (Hmode & Hroot & Hnone).
  destruct (lookup (repoArgs a)) as [args found]. cbn [fst snd] in *.
  unfold writable. rewrite <- Hmode, <- Hroot. unfold update in Hrun. rewrite Hrd in Hrun.
  destruct found as [c|].
  - destruct (contains "w" (args_mode args)) eqn:Hw.
    + destruct (negb (cfgMatchesArgs args c)); [discriminate|].
      injection Hrun as <-. exists c, existing, (Some (args_cfgRoot args)).
      repeat split; try discriminate; auto.
    + destruct (cfgMatchesArgs args c); injection Hrun as <-.
      * exists c, existing, (Some (args_cfgRoot args)).
        repeat split; try discriminate; auto.
      * exists c, nested, None. repeat split; try discriminate; auto.
  - destruct (contains "w" (args_mode args)) eqn:Hw; [|discriminate].
    injection Hrun as <-.
    exists (makeFromArgs args), new, (Some (args_cfgRoot args)).
    repeat split; auto; try discriminate.
    + rewrite Hroot. now apply Hnone.
    + intros Hne. now contradiction Hne.
Qed.

Lemma getCfgs_fold decls : forall h h',
  NoDup (map repoData decls) ->
  Forall (fun a => repoData a < length h) decls ->
  foldM body decls h = Ret h' ->
  length h' = length h /\
  (forall n, n ∉ map repoData decls -> h' !! n = h !! n) /\
  forall a, a ∈ decls ->
    exists rd c o,
      h !! repoData a = Some rd /\
      h' !! repoData a
      = Some (setCfg rd c o (if decide (o = nested) then None
                             else Some (args_cfgRoot (repoArgs a)))) /\
      (o = new -> writable a = true /\ getRepositoryCfg (args_cfgRoot (repoArgs a)) = None) /\
      (o <> new -> snd (lookup (repoArgs a)) = Some c) /\
      (o = nested -> writable a = false).
Proof.
  induction decls as [|a decls IH]; intros h h' Hnd Hlt; simpl.
  - intros [= <-]. split; [reflexivity|]. split; [reflexivity|].
    intros a Ha. apply elem_of_nil in Ha. contradiction.
  - apply NoDup_cons in Hnd as [Hfresh Hnd]. apply Forall_cons in Hlt as [Ha Hlt].
    destruct (lookup_lt_is_Some_2 h (repoData a) Ha) as [rd Hrd].
    destruct (body h a) as [h1| |] eqn:E1; cbn [mbind outcome_mbind bind]; try discriminate.
    intros Hrest.
    destruct (getCfg_body_step h a h1 rd E1 Hrd) as (c & o & root & -> & Hnew & Hold & Hnest & ->).
    assert (Hlt1 : Forall (fun b => repoData b
                             < length (<[repoData a := setCfg rd c o
                                 (if decide (o = nested) then None
                                  else Some (args_cfgRoot (repoArgs a)))]> h)) decls).
    { eapply Forall_impl; [exact Hlt|]. intros b Hb. simpl in Hb.
      now rewrite length_insert. }
    destruct (IH _ h' Hnd Hlt1 Hrest) as (L & Hother & Hdecls).
    rewrite length_insert in L. split; [exact L|]. split.
    + intros n Hn. apply not_elem_of_cons in Hn as [Hne Hn].
      rewrite (Hother n Hn). now rewrite list_lookup_insert_ne by congruence.
    + intros b Hb. apply elem_of_cons in Hb as [->|Hb].
      * exists rd, c, o. split; [exact Hrd|]. split; [|auto].
        rewrite (Hother _ Hfresh). now apply list_lookup_insert_eq.
      * destruct (Hdecls b Hb) as (rdb & cb & ob & Hb0 & Hb1 & Hrest').
        assert (Hne : repoData a <> repoData b).
        { intros E. apply Hfresh. rewrite E. apply list_elem_of_fmap.
          exists b. auto. }
        rewrite list_lookup_insert_ne in Hb0 by exact Hne.
        exists rdb, cb, ob. auto.
Qed.

(** When [_getCfgsForInputsAndOutputs] returns, for declarations with a node
    each: every declaration's node has a configuration and an origin; the
    origin is [new] only for a writable declaration at whose root nothing was
    persisted, and [nested] only for a read-only one; the configuration of a
    node that is not [new] is the one found at the root; the node remembers
    the declared root unless it is [nested]; parents and tags are as they
    were, and no other node is touched. *)
Theorem getCfgs_configures (h h' : Heap) (inputs outputs : list ArgsAndData) :
  NoDup (map repoData (inputs ++ outputs)) ->
  Forall (fun a => repoData a < length h) (inputs ++ outputs) ->
  getCfgs h inputs outputs = Ret h' ->
  length h' = length h /\
  (forall n, n ∉ map repoData (inputs ++ outputs) -> h' !! n = h !! n) /\
  forall a, a ∈ inputs ++ outputs ->
    exists rd rd' c o,
      h !! repoData a = Some rd /\ h' !! repoData a = Some rd' /\
      cfg rd' = Some c /\ cfgOrigin rd' = Some o /\
      parentRepoDatas rd' = parentRepoDatas rd /\ tags rd' = tags rd /\
      (o = new -> writable a = true /\ getRepositoryCfg (args_cfgRoot (repoArgs a)) = None) /\
      (o <> new -> snd (lookup (repoArgs a)) = Some c) /\
      (o = nested -> writable a = false) /\
      cfgRoot rd' = (if decide (o = nested) then None
                     else Some (args_cfgRoot (repoArgs a))).
Proof.
  intros Hnd Hlt Hrun. unfold _getCfgsForInputsAndOutputs in Hrun.
  destruct (getCfgs_fold _ h h' Hnd Hlt Hrun) as (L & Hother & Hdecls).
  split; [exact L|]. split; [exact Hother|].
  intros a Ha. destruct (Hdecls a Ha) as (rd & c & o & H0 & H1 & Hnew & Hold & Hnest).
  eexists rd, _, c, o. split; [exact H0|]. split; [exact H1|].
  cbn [setCfg cfg cfgOrigin parentRepoDatas tags cfgRoot]. auto 10.
Qed.

End GetCfgsLoop.

Lemma getCfgs_configures_witness :
  exists rd rd' c o,
    [RepoData_init] !! repoData override_decl = Some rd /\
    [mkRepoData (Some repo_on_disk) (Some nested) None [] ∅] !! repoData override_decl
    = Some rd' /\
    cfg rd' = Some c /\ cfgOrigin rd' = Some o /\
    parentRepoDatas rd' = parentRepoDatas rd /\ tags rd' = tags rd /\
    (o = new -> writable override_decl = true /\
                disk (args_cfgRoot (repoArgs override_decl)) = None) /\
    (o <> new ->
       snd (lookup_cfg disk no_path no_path no_name no_name (repoArgs override_decl))
       = Some c) /\
    (o = nested -> writable override_decl = false) /\
    cfgRoot rd' = (if decide (o = nested) then None
                   else Some (args_cfgRoot (repoArgs override_decl))).
Proof.
  apply (proj2 (proj2 (getCfgs_configures disk no_path no_path no_name no_name
                         [RepoData_init]
                         [mkRepoData (Some repo_on_disk) (Some nested) None [] ∅]
                         [override_decl] []
                         ltac:(repeat constructor; set_solver)
                         ltac:(repeat constructor)
                         eq_refl))).
  apply list_elem_of_here.
Defined.

(** ** The default mapper *)

Section DefaultMapper.

Lemma forallb_same (m : string) (l : list (option string)) :
  forallb (fun x => opt_eqb (Some m) x) l = true <-> l = replicate (length l) (Some m).
Proof.
  induction l as [|x l IH]; cbn [forallb length replicate]; [tauto|].
  rewrite andb_true_iff, IH, opt_eqb_eq. split.
  - intros [<- <-]. reflexivity.
  - intros [= <- <-]. auto.
Qed.

Lemma default_from h inputs m :
  all_configured h inputs ->
  default_of_inputs h inputs (Some m)
  = Ret (if forallb (fun x => opt_eqb (Some m) x) (mappers_of h (map repoData inputs))
         then Some m else None).
Proof.
  induction inputs as [|a inputs IH]; intros Hall; [reflexivity|].
  destruct (Hall a) as (rd & c & Hrd & Hc); [apply list_elem_of_here|].
  cbn [default_of_inputs map]. unfold mappers_of at 1. cbn [map forallb].
  fold (mappers_of h (map repoData inputs)).
  rewrite (deref_some _ _ _ Hrd). cbn [mbind outcome_mbind bind].
  unfold cfg_of. rewrite Hrd, Hc. cbn [mbind outcome_mbind bind].
  destruct (opt_eqb (Some m) (cfg_mapper c)); cbn [negb andb]; [|reflexivity].
  apply IH. intros b Hb. apply Hall. now apply list_elem_of_further.
Qed.

Lemma replicate_none_some k j (m : string) x l :
  x :: l = replicate k None ++ replicate (S j) (Some m) ->
  (x = None /\ exists k', k = S k' /\ l = replicate k' None ++ replicate (S j) (Some m)) \/
  (x = Some m /\ k = 0 /\ l = replicate j (Some m)).
Proof.
  destruct k as [|k']; simpl; intros [= -> ->]; [right | left]; eauto.
Qed.

(** The first loop of [_setDefaultMapper] passes over the inputs that name
    no mapper until one names a mapper, and from then on wants every input to
    name that very mapper: there is a default [m] exactly when the mappers of
    the inputs, in order, are some [None]s followed by one or more [m]s. *)
Theorem setDefaultMapper_default (h : Heap) (inputs : list ArgsAndData) :
  configured h inputs ->
  exists d,
    default_of_inputs h inputs None = Ret d /\
    forall m, d = Some m <->
      exists k j, mappers_of h (map repoData inputs)
                  = replicate k None ++ replicate (S j) (Some m).
Proof.
  intros Hconf. apply configured_all in Hconf.
  induction inputs as [|a inputs IH].
  - exists None. split; [reflexivity|]. intros m. split; [discriminate|].
    intros (k & j & H). apply (f_equal length) in H.
    rewrite length_app, !length_replicate in H. simpl in H. lia.
  - destruct (Hconf a) as (rd & c & Hrd & Hc); [apply list_elem_of_here|].
    assert (Hrest : all_configured h inputs).
    { intros b Hb. apply Hconf. now apply list_elem_of_further. }
    cbn [default_of_inputs map]. unfold mappers_of. cbn [map].
    fold (mappers_of h (map repoData inputs)).
    rewrite (deref_some _ _ _ Hrd). cbn [mbind outcome_mbind bind].
    unfold cfg_of. rewrite Hrd, Hc. cbn [mbind outcome_mbind bind].
    destruct (cfg_mapper c) as [m0|].
    + rewrite (default_from h inputs m0 Hrest).
      eexists. split; [reflexivity|]. intros m.
      destruct (forallb _ _) eqn:Hall.
      * apply forallb_same in Hall. split.
        -- intros [= <-]. exists 0, (length (mappers_of h (map repoData inputs))).
           cbn [replicate app]. now rewrite <- Hall.
        -- intros (k & j & H).
           apply replicate_none_some in H as [[? _]|(? & _)]; congruence.
      * split; [discriminate|]. intros (k & j & H).
        apply replicate_none_some in H as [[? _]|(Hm & _ & Hl)]; [discriminate|].
        injection Hm as ->.
        assert (Ht : forallb (fun x => opt_eqb (Some m) x)
                       (mappers_of h (map repoData inputs)) = true).
        { apply forallb_same. rewrite Hl at 1. f_equal.
          apply (f_equal length) in Hl. rewrite length_replicate in Hl. auto. }
        congruence.
    + destruct (IH Hrest) as (d & Hd & Hiff). exists d. split; [exact Hd|].
      intros m. rewrite Hiff. split.
      * intros (k & j & H). exists (S k), j. simpl. now rewrite H.
      * intros (k & j & H).
        apply replicate_none_some in H as [(_ & k' & _ & Hl)|(? & _)]; [|discriminate].
        eauto.
Qed.

Lemma setDefaultMapper_default_witness :
  exists d,
    default_of_inputs mapper_heap mapper_inputs None = Ret d /\
    forall m, d = Some m <->
      exists k j, mappers_of mapper_heap (map repoData mapper_inputs)
                  = replicate k None ++ replicate (S j) (Some m).
Proof.
  exact (setDefaultMapper_default mapper_heap mapper_inputs eq_refl).
Defined.

Lemma lacks_with_mapper m rd :
  lacks_mapper rd = true -> lacks_mapper (with_mapper m rd) = false.
Proof.
  unfold lacks_mapper, with_mapper. destruct (cfg rd) as [c|]; simpl.
  - intros _. apply andb_false_r.
  - now rewrite andb_false_r.
Qed.

Lemma assign_step d h a rd c :
  h !! repoData a = Some rd -> cfg rd = Some c ->
  assign_body d h a
  = if lacks_mapper rd
    then match d with
         | Some m => Ret (<[repoData a := with_mapper m rd]> h)
         | None =>
             Raise (RuntimeError
                      "No default mapper could be established from inputs and no mapper specified for output")
         end
    else Ret h.
Proof.
  intros Hrd Hc. unfold assign_body, lacks_mapper, with_mapper.
  rewrite (deref_some _ _ _ Hrd). cbn [mbind outcome_mbind bind].
  destruct (bool_decide (cfgOrigin rd = Some new)); cbn [andb]; [|reflexivity].
  unfold cfg_of. rewrite Hc. cbn [mbind outcome_mbind bind].
  destruct (cfg_mapper c); cbn [is_some negb]; [reflexivity|].
  destruct d; reflexivity.
Qed.

Lemma assign_fold m outs : forall h,
  all_configured h outs ->
  exists h',
    foldM (assign_body (Some m)) outs h = Ret h' /\
    length h' = length h /\
    forall n rd, h !! n = Some rd ->
      h' !! n = Some (if bool_decide (n ∈ map repoData outs) && lacks_mapper rd
                      then with_mapper m rd else rd).
Proof.
  induction outs as [|a outs IH]; intros h Hall; cbn [foldM map].
  - exists h. split; [reflexivity|]. split; [reflexivity|].
    intros n rd Hn. rewrite bool_decide_eq_false_2 by apply not_elem_of_nil. exact Hn.
  - destruct (Hall a) as (rd & c & Hrd & Hc); [apply list_elem_of_here|].
    rewrite (assign_step _ h a rd c Hrd Hc).
    assert (Hrest : all_configured h outs).
    { intros b Hb. apply Hall. now apply list_elem_of_further. }
    destruct (lacks_mapper rd) eqn:Hl; cbn [mbind outcome_mbind bind].
    + destruct (IH (<[repoData a := with_mapper m rd]> h)) as (h' & Hrun & L & Hpt).
      { intros b Hb. destruct (Hrest b Hb) as (rdb & cb & Hb1 & Hb2).
        destruct (decide (repoData b = repoData a)) as [E|E].
        - rewrite E. rewrite list_lookup_insert_eq by (eapply lookup_lt_Some; eassumption).
          unfold with_mapper. rewrite Hc. eauto.
        - rewrite list_lookup_insert_ne by congruence. eauto. }
      exists h'. split; [exact Hrun|]. rewrite length_insert in L. split; [exact L|].
      intros n rdn Hn. destruct (decide (n = repoData a)) as [->|Hne].
      * assert (rdn = rd) by congruence. subst rdn.
        rewrite (Hpt (repoData a) (with_mapper m rd)).
        2:{ apply list_lookup_insert_eq. eapply lookup_lt_Some; eassumption. }
        rewrite (lacks_with_mapper m rd Hl), andb_false_r, Hl.
        rewrite bool_decide_eq_true_2 by apply list_elem_of_here. reflexivity.
      * rewrite (Hpt n rdn) by (now rewrite list_lookup_insert_ne by congruence).
        now rewrite (bool_decide_ext (n ∈ repoData a :: map repoData outs)
                       (n ∈ map repoData outs)) by (rewrite elem_of_cons; tauto).
    + destruct (IH h Hrest) as (h' & Hrun & L & Hpt).
      exists h'. split; [exact Hrun|]. split; [exact L|].
      intros n rdn Hn. rewrite (Hpt n rdn Hn).
      destruct (decide (n = repoData a)) as [->|Hne].
      * assert (rdn = rd) by congruence. subst rdn. now rewrite Hl, !andb_false_r.
      * now rewrite (bool_decide_ext (n ∈ repoData a :: map repoData outs)
                       (n ∈ map repoData outs)) by (rewrite elem_of_cons; tauto).
Qed.

Lemma assign_fold_none outs h :
  all_configured h outs ->
  foldM (assign_body None) outs h
  = if existsb (fun a => match h !! repoData a with
                         | Some rd => lacks_mapper rd
                         | None => false
                         end) outs
    then Raise (RuntimeError
                  "No default mapper could be established from inputs and no mapper specified for output")
    else Ret h.
Proof.
  induction outs as [|a outs IH]; intros Hall; simpl; [reflexivity|].
  destruct (Hall a) as (rd & c & Hrd & Hc); [apply list_elem_of_here|].
  rewrite (assign_step _ h a rd c Hrd Hc), Hrd.
  destruct (lacks_mapper rd); cbn [mbind outcome_mbind bind orb]; [reflexivity|].
  apply IH. intros b Hb. apply Hall. now apply list_elem_of_further.
Qed.

(** [_setDefaultMapper] on configured declarations.  With a default [m] it
    returns, and has given [m] to the configuration of every output node that
    is [new] and names no mapper, and changed nothing else.  Without a
    default it raises when some output is [new] and names no mapper, and
    otherwise returns with nothing changed.  So when it returns, every [new]
    output names a mapper. *)
Theorem setDefaultMapper_assigns (h : Heap) (inputs outputs : list ArgsAndData) :
  configured h inputs ->
  configured h outputs ->
  exists d,
    default_of_inputs h inputs None = Ret d /\
    (forall m, d = Some m ->
       exists h',
         _setDefaultMapper h inputs outputs = Ret h' /\
         length h' = length h /\
         forall n rd, h !! n = Some rd ->
           h' !! n = Some (if bool_decide (n ∈ map repoData outputs) && lacks_mapper rd
                           then with_mapper m rd else rd)) /\
    (d = None ->
       _setDefaultMapper h inputs outputs
       = if existsb (fun a => match h !! repoData a with
                              | Some rd => lacks_mapper rd
                              | None => false
                              end) outputs
         then Raise (RuntimeError
                       "No default mapper could be established from inputs and no mapper specified for output")
         else Ret h) /\
    (forall h' a rd',
       _setDefaultMapper h inputs outputs = Ret h' ->
       a ∈ outputs -> h' !! repoData a = Some rd' -> lacks_mapper rd' = false).
Proof.
  intros Hin Hout. apply configured_all in Hin, Hout.
  assert (Hd : exists d, default_of_inputs h inputs None = Ret d).
  { clear Hout. induction inputs as [|a inputs IH]; simpl; [eauto|].
    destruct (Hin a) as (rd & c & Hrd & Hc); [apply list_elem_of_here|].
    assert (Hrest : all_configured h inputs).
    { intros b Hb. apply Hin. now apply list_elem_of_further. }
    rewrite (deref_some _ _ _ Hrd). cbn [mbind outcome_mbind bind].
    unfold cfg_of. rewrite Hc. cbn [mbind outcome_mbind bind].
    destruct (cfg_mapper c) as [m0|]; [|auto].
    rewrite (default_from h inputs m0 Hrest). eauto. }
  destruct Hd as (d & Hd). exists d. split; [exact Hd|].
  unfold _setDefaultMapper. rewrite Hd. cbn [mbind outcome_mbind bind].
  split; [|split].
  - intros m ->. apply assign_fold, Hout.
  - intros ->. apply assign_fold_none, Hout.
  - intros h' a rd' Hrun Ha Hrd'.
    destruct (Hout a Ha) as (rd & c & Hrd & Hc).
    destruct d as [m|].
    + destruct (assign_fold m outputs h Hout) as (h'' & Hrun' & _ & Hpt).
      assert (h'' = h') by congruence. subst h''.
      rewrite (Hpt _ rd Hrd) in Hrd'. injection Hrd' as <-.
      rewrite bool_decide_eq_true_2 by (apply list_elem_of_fmap; eauto).
      cbn [andb]. destruct (lacks_mapper rd) eqn:Hl; [|exact Hl].
      now apply lacks_with_mapper.
    + rewrite (assign_fold_none outputs h Hout) in Hrun.
      destruct (existsb _ outputs) eqn:Hex; [discriminate|].
      injection Hrun as <-. assert (rd' = rd) by congruence. subst rd'.
      destruct (lacks_mapper rd) eqn:Hl; [|reflexivity].
      assert (Ht : existsb (fun a => match h !! repoData a with
                                     | Some rd => lacks_mapper rd
                                     | None => false
                                     end) outputs = true).
      { apply existsb_exists. exists a. split; [now apply list_elem_of_In|].
        now rewrite Hrd. }
      congruence.
Qed.

Lemma setDefaultMapper_assigns_witness :
  exists h',
    _setDefaultMapper mapper_heap mapper_inputs mapper_outputs = Ret h' /\
    length h' = length mapper_heap /\
    forall n rd, mapper_heap !! n = Some rd ->
      h' !! n = Some (if bool_decide (n ∈ map repoData mapper_outputs) && lacks_mapper rd
                      then with_mapper "MapperA" rd else rd).
Proof.
  destruct (setDefaultMapper_assigns mapper_heap mapper_inputs mapper_outputs
              eq_refl eq_refl) as (d & Hd & Hsome & _).
  apply Hsome. vm_compute in Hd. now injection Hd as <-.
Defined.

End DefaultMapper.

Section GetDefaultMapper.

Variable mapperClass : string -> string.

Lemma cfg_at_some h r :
  is_some (cfg_at h r) = true -> exists rd c, h !! r = Some rd /\ cfg rd = Some c.
Proof.
  unfold cfg_at. destruct (h !! r) as [rd|]; [|discriminate].
  destruct (cfg rd) as [c|] eqn:Hc; [eauto | discriminate].
Qed.

Lemma mappers_of_cons h r repos rd c :
  h !! r = Some rd -> cfg rd = Some c ->
  mappers_of h (r :: repos) = cfg_mapper c :: mappers_of h repos.
Proof. intros Hrd Hc. unfold mappers_of. cbn [map]. now rewrite Hrd, Hc. Qed.

Lemma getDefaultMapper_from h repos m :
  forallb (fun r => is_some (cfg_at h r)) repos = true ->
  getDefaultMapper_loop mapperClass h repos (Some m)
  = Ret (if forallb (fun x => String.eqb (mapperClass x) m) (omap id (mappers_of h repos))
         then Some m else None).
Proof.
  induction repos as [|r repos IH]; [reflexivity|].
  cbn [forallb]. intros Hall. apply andb_true_iff in Hall as [Hr Hall].
  destruct (cfg_at_some h r Hr) as (rd & c & Hrd & Hc).
  rewrite (mappers_of_cons h r repos rd c Hrd Hc).
  cbn [getDefaultMapper_loop omap list_omap].
  rewrite (deref_some _ _ _ Hrd). cbn [mbind outcome_mbind bind].
  unfold cfg_of. rewrite Hc. cbn [mbind outcome_mbind bind].
  destruct (cfg_mapper c) as [x|]; cbn [id opt_eqb forallb].
  - destruct (String.eqb (mapperClass x) m); cbn [andb]; [now apply IH | reflexivity].
  - now apply IH.
Qed.

(** [_getDefaultMapper] over configured inputs passes over every input
    that names no mapper, wherever it stands: there is a default [m] exactly
    when some input names a mapper and the mappers that are named all stand
    for the class [m]. *)
Theorem getDefaultMapper_spec (h : Heap) (c : RepoDataContainer) (repos : list nat) :
  _inputs c = Some repos ->
  forallb (fun r => is_some (cfg_at h r)) repos = true ->
  let named := omap id (mappers_of h repos) in
  exists d,
    _getDefaultMapper mapperClass h c = Ret d /\
    forall m, d = Some m <-> named <> [] /\ Forall (fun x => mapperClass x = m) named.
Proof.
  intros Hin Hall named. unfold _getDefaultMapper, inputs_of. rewrite Hin.
  cbn [mbind outcome_mbind bind]. clear Hin. subst named.
  induction repos as [|r repos IH].
  - exists None. split; [reflexivity|]. intros m. split; [discriminate|].
    intros [H _]. now contradiction H.
  - cbn [forallb] in Hall. apply andb_true_iff in Hall as [Hr Hall].
    destruct (cfg_at_some h r Hr) as (rd & c0 & Hrd & Hc).
    rewrite (mappers_of_cons h r repos rd c0 Hrd Hc).
    cbn [getDefaultMapper_loop omap list_omap].
    rewrite (deref_some _ _ _ Hrd). cbn [mbind outcome_mbind bind].
    unfold cfg_of. rewrite Hc. cbn [mbind outcome_mbind bind].
    destruct (cfg_mapper c0) as [x|]; cbn [id].
    + rewrite (getDefaultMapper_from h repos (mapperClass x) Hall).
      destruct (forallb (fun y => String.eqb (mapperClass y) (mapperClass x))
                  (omap id (mappers_of h repos))) eqn:Hf;
        (eexists; split; [reflexivity|]; intros m).
      * rewrite forallb_forall in Hf. split.
        -- intros [= <-]. split; [discriminate|]. constructor; [reflexivity|].
           apply Forall_forall. intros y Hy. apply String.eqb_eq, Hf.
           now apply list_elem_of_In.
        -- intros [_ HF]. apply Forall_cons in HF as [-> _]. reflexivity.
      * split; [discriminate|]. intros [_ HF]. apply Forall_cons in HF as [Hx HF].
        assert (Ht : forallb (fun y => String.eqb (mapperClass y) (mapperClass x))
                       (omap id (mappers_of h repos)) = true).
        { apply forallb_forall. intros y Hy. apply String.eqb_eq.
          rewrite Forall_forall in HF. rewrite Hx. apply HF. now apply list_elem_of_In. }
        congruence.
    + exact (IH Hall).
Qed.

End GetDefaultMapper.

Lemma getDefaultMapper_spec_witness :
  exists d,
    _getDefaultMapper id mapper_heap (mkContainer (Some [0; 1; 2]) (Some [3]) ∅) = Ret d /\
    forall m, d = Some m <->
      omap id (mappers_of mapper_heap [0; 1; 2]) <> [] /\
      Forall (fun x => id x = m) (omap id (mappers_of mapper_heap [0; 1; 2])).
Proof.
  exact (getDefaultMapper_spec id mapper_heap (mkContainer (Some [0; 1; 2]) (Some [3]) ∅)
           [0; 1; 2] eq_refl eq_refl).
Defined.

(** ** Finding the node of a parent reference *)

Section GetParentRepoData.

Lemma getParentVal_answers rd c v :
  cfg rd = Some c -> _getParentVal rd = Ret v -> answers v c.
Proof.
  intros Hc. unfold _getParentVal, cfg_of. rewrite Hc. cbn [mbind outcome_mbind bind].
  destruct (decide _); intros [= <-]; reflexivity.
Qed.

Lemma getParentRepoData_first h v l :
  forallb (fun r => is_some (cfg_at h r)) l = true ->
  (exists pre r' post c',
     l = pre ++ r' :: post /\
     _getParentRepoData h v l = Ret (Some r') /\
     cfg_at h r' = Some c' /\ answers v c' /\
     Forall (fun x => forall cx, cfg_at h x = Some cx -> ~ answers v cx) pre) \/
  (_getParentRepoData h v l = Ret None /\
   Forall (fun x => forall cx, cfg_at h x = Some cx -> ~ answers v cx) l).
Proof.
  induction l as [|r l IH]; [right; split; [reflexivity | constructor]|].
  cbn [forallb]. intros Hall. apply andb_true_iff in Hall as [Hr Hall].
  destruct (cfg_at_some h r Hr) as (rd & c & Hrd & Hc).
  assert (Hat : cfg_at h r = Some c) by (unfold cfg_at; now rewrite Hrd).
  cbn [_getParentRepoData]. rewrite (deref_some _ _ _ Hrd).
  cbn [mbind outcome_mbind bind].
  assert (Hcase :
    (answers v c /\
     match v with
     | PCfg p =>
         if match cfg rd with Some c => cfg_eqb c p | None => false end
         then Ret (Some r) else _getParentRepoData h v l
     | PRoot uri =>
         c ← cfg_of rd;
         if String.eqb (cfg_root c) uri then Ret (Some r) else _getParentRepoData h v l
     end = Ret (Some r)) \/
    (~ answers v c /\
     match v with
     | PCfg p =>
         if match cfg rd with Some c => cfg_eqb c p | None => false end
         then Ret (Some r) else _getParentRepoData h v l
     | PRoot uri =>
         c ← cfg_of rd;
         if String.eqb (cfg_root c) uri then Ret (Some r) else _getParentRepoData h v l
     end = _getParentRepoData h v l)).
  { destruct v as [uri|p]; unfold cfg_of; rewrite Hc; cbn [mbind outcome_mbind bind answers].
    - destruct (String.eqb (cfg_root c) uri) eqn:E.
      + left. split; [now apply String.eqb_eq | reflexivity].
      + right. split; [|reflexivity]. intros H. apply String.eqb_eq in H. congruence.
    - destruct (cfg_eqb c p) eqn:E.
      + left. split; [now apply cfg_eqb_eq | reflexivity].
      + right. split; [|reflexivity]. intros H. apply cfg_eqb_eq in H. congruence. }
  destruct Hcase as [[Hans ->]|[Hno ->]].
  - left. exists [], r, l, c. repeat split; auto.
  - assert (Hr' : forall cx, cfg_at h r = Some cx -> ~ answers v cx).
    { intros cx Hcx. congruence. }
    destruct (IH Hall) as [(pre & r' & post & c' & -> & Hrun & Hc' & Hans & Hpre)|[Hrun Hnone]].
    + left. exists (r :: pre), r', post, c'. repeat split; auto.
    + right. split; [exact Hrun|]. constructor; assumption.
Qed.

(** [_getParentRepoData] finds the way back from the parent reference that
    [_getParentVal] makes of a node: among configured nodes that include the
    node, it returns the first one whose configuration is what the reference
    asks for (the same root, or for an embedded configuration an equal one),
    and never [None]. *)
Theorem getParentRepoData_finds (h : Heap) (l : list nat) (r : nat) (rd : RepoData)
    (v : ParentVal) :
  forallb (fun r => is_some (cfg_at h r)) l = true ->
  r ∈ l ->
  h !! r = Some rd ->
  _getParentVal rd = Ret v ->
  exists pre r' post c',
    l = pre ++ r' :: post /\
    _getParentRepoData h v l = Ret (Some r') /\
    cfg_at h r' = Some c' /\ answers v c' /\
    Forall (fun x => forall cx, cfg_at h x = Some cx -> ~ answers v cx) pre.
Proof.
  intros Hall Hin Hrd Hv.
  destruct (getParentRepoData_first h v l Hall) as [Hfound|[_ Hnone]]; [exact Hfound|].
  exfalso. rewrite Forall_forall in Hnone.
  rewrite forallb_forall in Hall.
  destruct (cfg_at_some h r (Hall r (proj1 (list_elem_of_In _ _) Hin)))
    as (rd' & c & Hrd' & Hc).
  assert (rd' = rd) by congruence. subst rd'.
  apply (Hnone r Hin c); [unfold cfg_at; now rewrite Hrd|].
  eapply getParentVal_answers; eassumption.
Qed.

Lemma getParentRepoData_finds_witness :
  exists pre r' post c',
    [0; 1; 2] = pre ++ r' :: post /\
    _getParentRepoData mapper_heap (PRoot "in1") [0; 1; 2] = Ret (Some r') /\
    cfg_at mapper_heap r' = Some c' /\ answers (PRoot "in1") c' /\
    Forall (fun x => forall cx, cfg_at mapper_heap x = Some cx -> ~ answers (PRoot "in1") cx)
           pre.
Proof.
  apply (getParentRepoData_finds mapper_heap [0; 1; 2] 1
           (mkRepoData (Some (mkCfg "in1" (Some "MapperA") None (Some []))) (Some existing)
                       (Some "in1") [] ∅) (PRoot "in1")).
  - reflexivity.
  - set_solver.
  - reflexivity.
  - reflexivity.
Defined.

End GetParentRepoData.

(** ** Reopening an output without naming its inputs *)

Section Reopen.

Variable getRepositoryCfg : string -> option RepositoryCfg.
Variable isPosix : string -> bool.
Variable v1RepoExists : string -> bool.
Variable getMapperClass : string -> option string.
Variable getParentSymlinkPath : string -> option string.

Abbreviation addMissing := (_addMissingParentsOfOutputs getRepositoryCfg isPosix
                          v1RepoExists getMapperClass getParentSymlinkPath).

(** The backfill and the parent-list check together, for a butler whose
    one output is an existing repository declared readable, with persisted
    parents that storage holds: when the inputs that the caller declared (none
    is allowed) come in the order of the persisted parents, the backfill adds
    the missing ones and [_setAndVerifyParentsLists] then accepts the output,
    changing nothing. *)
Theorem reopen_output_verified (h0 : Heap) (inputs0 : list ArgsAndData)
    (out : ArgsAndData) (rd_out : RepoData) (c_out : RepositoryCfg)
    (P : list ParentVal) (fuel : nat) :
  readable out = true ->
  h0 !! repoData out = Some rd_out ->
  cfgOrigin rd_out = Some existing \/ cfgOrigin rd_out = Some nested ->
  cfg rd_out = Some c_out ->
  cfg_parents c_out = Some P ->
  forallb (on_storage getRepositoryCfg) P = true ->
  forallb (input_ok h0 out) inputs0 = true ->
  effective_parents h0 (repoData out) inputs0 [out] `sublist_of` P ->
  2 * length P < fuel ->
  exists h' inputs',
    addMissing fuel h0 inputs0 [out] = Ret (h', inputs') /\
    _setAndVerifyParentsLists h' inputs' [out] = Ret h' /\
    h0 `prefix_of` h' /\
    inputs0 `sublist_of` inputs' /\
    effective_parents h' (repoData out) inputs' [out] = P.
Proof.
  intros Hreadable Hrd Horigin Hcfg Hparents Hstorage Hinputs Horder Hfuel.
  assert (Hothers : forallb (fun a => negb (readable a)) ([] ++ []) = true) by reflexivity.
  assert (Hnotnew : isNewRepository rd_out = false).
  { unfold isNewRepository. apply bool_decide_eq_false_2.
    destruct Horigin as [-> | ->]; discriminate. }
  assert (Hok0 : Forall (fun a => input_ok h0 out a = true) inputs0).
  { apply Forall_forall. intros a Ha. rewrite forallb_forall in Hinputs.
    apply Hinputs. now apply list_elem_of_In. }
  assert (HInv0 : backfill_inv getRepositoryCfg h0 inputs0 out P h0 inputs0 0
                    (map (pval h0) inputs0)).
  { split; [|split; [|split; [|split; [|split; [|split; [|split]]]]]];
      try reflexivity; try assumption.
    - apply Forall_forall. intros a Ha. now left.
    - intros HB. now rewrite drop_0.
    - lia. }
  destruct (backfill_run getRepositoryCfg isPosix v1RepoExists getMapperClass
              getParentSymlinkPath h0 inputs0 out [] [] rd_out c_out P
              Hothers Hrd Hcfg Hparents Hstorage
              (length P) h0 inputs0 0 _ HInv0 (Nat.sub_0_r _) fuel Hfuel)
    as (h' & inputs' & rest' & Hrun & Hpre & Hsub & Hok & Horig & Hvals & Hsuf & Hsl & _).
  cbn [app] in Hrun.
  pose proof (effective_inputs out [] [] Hothers h0 inputs0 Hok0) as Heff0.
  cbn [app] in Heff0. rewrite Heff0 in Horder. specialize (Hsl Horder).
  rewrite drop_all in Hsl. apply sublist_nil_r in Hsl. subst rest'.
  rewrite app_nil_r, firstn_all in Hvals.
  pose proof (effective_inputs out [] [] Hothers h' inputs' Hok) as Heff.
  cbn [app] in Heff. rewrite Hvals in Heff.
  assert (Hrd' : h' !! repoData out = Some rd_out).
  { destruct Hpre as [k ->]. now apply lookup_app_l_Some. }
  exists h', inputs'. split; [|split; [|split; [exact Hpre | split; [exact Hsub | exact Heff]]]].
  - unfold _addMissingParentsOfOutputs. cbn [foldM]. rewrite Hreadable. cbn [negb].
    rewrite (deref_some _ _ _ Hrd). cbn [mbind outcome_mbind bind]. rewrite Hnotnew.
    unfold cfg_of. rewrite Hcfg. cbn [mbind outcome_mbind bind]. rewrite Hparents.
    pose proof (makePaired_inputs h0 out [] [] rd_out c_out P Hothers Hrd Hcfg Hparents
                  h0 inputs0 (reflexivity _) Hok0) as Hmk.
    cbn [app] in Hmk. rewrite Hmk. cbn [mbind outcome_mbind bind]. rewrite Hrun.
    reflexivity.
  - unfold _setAndVerifyParentsLists. cbn [foldM]. unfold verify_body.
    pose proof (getParents_inputs out [] [] Hothers h' inputs' Hok) as Hgp.
    cbn [app] in Hgp. rewrite Hgp, Hvals. cbn [mbind outcome_mbind bind].
    rewrite (deref_some _ _ _ Hrd'). cbn [mbind outcome_mbind bind].
    assert (Hsame : parents_differ (cfg_parents c_out) P = false).
    { destruct (parents_differ (cfg_parents c_out) P) eqn:E; [|reflexivity].
      apply parents_differ_iff in E. congruence. }
    destruct Horigin as [-> | ->]; unfold cfg_of; rewrite Hcfg;
      cbn [mbind outcome_mbind bind]; now rewrite Hsame.
Qed.

End Reopen.

Lemma reopen_output_verified_witness :
  exists h' inputs',
    _addMissingParentsOfOutputs parents_disk no_path no_path no_name no_name
      5 lone_output_heap [] [lone_output_rw] = Ret (h', inputs') /\
    _setAndVerifyParentsLists h' inputs' [lone_output_rw] = Ret h' /\
    lone_output_heap `prefix_of` h' /\
    [] `sublist_of` inputs' /\
    effective_parents h' (repoData lone_output_rw) inputs' [lone_output_rw]
    = [PRoot "in1"; PRoot "in2"].
Proof.
  apply (reopen_output_verified parents_disk no_path no_path no_name no_name
           lone_output_heap [] lone_output_rw
           (mkRepoData (Some (mkCfg "out" (Some "MapperA") None
                                (Some [PRoot "in1"; PRoot "in2"])))
                       (Some existing) (Some "out") [] ∅)
           (mkCfg "out" (Some "MapperA") None (Some [PRoot "in1"; PRoot "in2"]))
           [PRoot "in1"; PRoot "in2"] 5).
  - reflexivity.
  - reflexivity.
  - left. reflexivity.
  - reflexivity.
  - reflexivity.
  - reflexivity.
  - reflexivity.
  - apply sublist_nil_l.
  - simpl. lia.
Defined.

(** ** The write path *)

Section WritePath.

Context {Obj : Type}.
Variable repo_map : nat -> string -> DataId -> bool -> outcome (option (@Location Obj)).
Variable mapper_hasattr : nat -> string -> bool.
Variable bypass_call : @Location Obj -> DataId -> outcome Obj.
Variable repo_exists : @Location Obj -> bool.
Variable disassembler : @Location Obj -> Obj -> outcome (string -> outcome Obj).
Variable repo_backup : nat -> string -> DataId -> outcome unit.
Variable repo_write : @Location Obj -> Obj -> outcome unit.

Abbreviation loop := (locate_loop repo_map mapper_hasattr bypass_call repo_exists).
Abbreviation locate := (_locate repo_map mapper_hasattr bypass_call repo_exists).
Abbreviation accept := (accept_location mapper_hasattr bypass_call repo_exists).
Abbreviation targets := (write_targets repo_map).
Abbreviation put_ := (put repo_map mapper_hasattr bypass_call repo_exists
                        disassembler repo_backup repo_write).
Abbreviation write_one := (write_location repo_backup repo_write).

Lemma accept_write continue dataId locations location :
  accept continue dataId true locations location
  = continue (locations ++ match location with
                           | LNone => []
                           | LOne l => [l]
                           | LMany ls => ls
                           end).
Proof.
  destruct location as [|l|[|x ls]]; cbn [accept_location]; now rewrite ?app_nil_r.
Qed.

Lemma loop_write_list rec h dataId repos : forall dt locs loc,
  loop rec h dataId true repos dt locs = Ret loc -> exists ls, loc = LMany ls.
Proof.
  induction repos as [|r rest IH]; intros dt locs loc.
  - cbn. intros [= <-]. eauto.
  - cbn [locate_loop negb andb]. cbv zeta.
    destruct (repo_map r (hd EmptyString (split_on "." dt)) dataId true)
      as [[l0|]|[]|]; try discriminate; eauto.
    destruct (tl (split_on "." dt)) as [|c0 cs].
    + rewrite accept_write. apply IH.
    + destruct (kind _) as [|componentInfo]; [discriminate|].
      destruct (assoc c0 componentInfo) as [ci|]; [|discriminate].
      destruct (rec _) as [[|l1|ls]| |]; cbn [mbind outcome_mbind bind];
        try discriminate; rewrite ?accept_write; eauto.
      cbn. intros [= <-]. eauto.
Qed.

Lemma loop_write_heap rec rec' h h' dataId repos :
  (forall dt, rec dt = rec' dt) ->
  forall dt locs,
    loop rec h dataId true repos dt locs = loop rec' h' dataId true repos dt locs.
Proof.
  intros Hrec. induction repos as [|r rest IH]; intros dt locs; [reflexivity|].
  cbn [locate_loop negb andb]. cbv zeta.
  destruct (repo_map r (hd EmptyString (split_on "." dt)) dataId true)
    as [[l0|]|[]|]; try reflexivity; eauto.
  destruct (tl (split_on "." dt)) as [|c0 cs].
  - rewrite !accept_write. apply IH.
  - destruct (kind _) as [|componentInfo]; [reflexivity|].
    destruct (assoc c0 componentInfo) as [ci|]; [|reflexivity].
    rewrite <- Hrec.
    destruct (rec _) as [[|l1|ls]| |]; cbn [mbind outcome_mbind bind];
      try reflexivity; rewrite !accept_write; apply IH.
Qed.

(** Asked for a write, [_locate] returns a list and never [None] or one
    location, so [put] can iterate over what it gets; and it does not look at
    the tags of the repositories: with other tags on the nodes the result is
    the same. *)
Theorem locate_write_list :
  (forall fuel h c dt dataId loc,
     _locate repo_map mapper_hasattr bypass_call repo_exists fuel h c dt dataId true
     = Ret loc ->
     exists ls, loc = LMany ls) /\
  (forall fuel h h' c dt dataId,
     _locate repo_map mapper_hasattr bypass_call repo_exists fuel h c dt dataId true
     = _locate repo_map mapper_hasattr bypass_call repo_exists fuel h' c dt dataId true).
Proof.
  split.
  - intros fuel h c dt dataId loc. destruct fuel as [|f]; [discriminate|].
    cbn [_locate]. destruct (outputs_of c) as [repos| |]; try discriminate.
    cbn [mbind outcome_mbind bind]. apply loop_write_list.
  - intros fuel h h' c. induction fuel as [|f IH]; intros dt dataId; [reflexivity|].
    cbn [_locate]. destruct (outputs_of c) as [repos| |]; try reflexivity.
    cbn [mbind outcome_mbind bind]. apply loop_write_heap. intros dt0. apply IH.
Qed.

Lemma loop_write_targets rec h dataId dt repos :
  contains "." dt = false ->
  Forall (maps_or_misses repo_map dt dataId) repos ->
  forall locs,
    loop rec h dataId true repos dt locs = Ret (LMany (locs ++ targets repos dt dataId)).
Proof.
  intros Hdot Hall. induction Hall as [|r rest Hr _ IH]; intros locs.
  - cbn. now rewrite app_nil_r.
  - cbn [locate_loop negb andb]. cbv zeta.
    rewrite (split_on_undotted dt Hdot). cbn [hd tl].
    unfold write_targets. cbn [flat_map]. fold (targets rest dt dataId).
    destruct Hr as [[[l|] Hr]|[msg Hr]]; rewrite Hr.
    + rewrite accept_write, IH. now rewrite <- app_assoc.
    + apply IH.
    + apply IH.
Qed.

(** For an undotted dataset type the write path gathers, in the order of
    the outputs, the location of every output repository that has a mapping;
    a repository without one is passed over. *)
Theorem locate_write_targets (fuel : nat) (h : Heap) (c : RepoDataContainer)
    (dt : string) (dataId : DataId) (repos : list nat) :
  _outputs c = Some repos ->
  contains "." dt = false ->
  Forall (maps_or_misses repo_map dt dataId) repos ->
  locate (S fuel) h c dt dataId true = Ret (LMany (targets repos dt dataId)).
Proof.
  intros Hout Hdot Hall. cbn [_locate]. unfold outputs_of. rewrite Hout.
  cbn [mbind outcome_mbind bind]. now rewrite (loop_write_targets _ h dataId dt repos).
Qed.

Lemma foldT_write_ok obj dataId doBackup ls :
  (forall l, l ∈ ls -> repo_write l obj = Ret tt) ->
  (forall l, l ∈ ls ->
     repo_backup (loc_repository l) (loc_datasetType l) dataId = Ret tt) ->
  forall tr,
    foldT (write_one obj dataId doBackup) ls tr
    = (tr ++ write_events obj dataId doBackup ls, Ret tt).
Proof.
  induction ls as [|l ls IH]; intros Hw Hb tr.
  - cbn. now rewrite app_nil_r.
  - cbn [foldT write_events flat_map]. unfold write_location.
    rewrite (Hw l), (Hb l) by apply list_elem_of_here.
    destruct doBackup; cbn [app];
      (rewrite IH by (intros; (apply Hw || apply Hb); now apply list_elem_of_further));
      rewrite <- ?app_assoc; reflexivity.
Qed.

Lemma foldT_write_fails obj dataId doBackup ls1 l ls2 e :
  (forall x, x ∈ ls1 -> repo_write x obj = Ret tt) ->
  (forall x, x ∈ ls1 ++ [l] ->
     repo_backup (loc_repository x) (loc_datasetType x) dataId = Ret tt) ->
  repo_write l obj = Raise e ->
  forall tr,
    foldT (write_one obj dataId doBackup) (ls1 ++ l :: ls2) tr
    = (tr ++ write_events obj dataId doBackup (ls1 ++ [l]), Raise e).
Proof.
  induction ls1 as [|x ls1 IH]; intros Hw Hb He tr.
  - cbn [app foldT write_events flat_map]. unfold write_location.
    rewrite He, (Hb l) by apply list_elem_of_here.
    destruct doBackup; cbn [app]; rewrite <- ?app_assoc; reflexivity.
  - cbn [app foldT write_events flat_map]. unfold write_location.
    rewrite (Hw x), (Hb x) by apply list_elem_of_here.
    destruct doBackup; cbn [app];
      (rewrite IH;
       [ | intros; apply Hw; now apply list_elem_of_further
         | intros; apply Hb; now apply list_elem_of_further
         | exact He ]);
      rewrite <- ?app_assoc; reflexivity.
Qed.

Lemma foldT_plain (f g : @Location Obj -> list (@Event Obj) -> list (@Event Obj) * outcome unit)
    ls :
  (forall l tr, l ∈ ls -> f l tr = g l tr) -> forall tr, foldT f ls tr = foldT g ls tr.
Proof.
  induction ls as [|l ls IH]; intros Heq tr; [reflexivity|].
  cbn [foldT]. rewrite (Heq l tr) by apply list_elem_of_here.
  destruct (g l tr) as [tr' [[]| |]]; try reflexivity.
  apply IH. intros; apply Heq. now apply list_elem_of_further.
Qed.

(** [put] of an undotted dataset type whose locations are no composites:
    every output repository that has a mapping is written to, in the order of
    the outputs, after a backup when one is asked for, whatever the tags; with
    no such repository nothing is written and nothing raised.  When a write
    raises, the outputs before it have been written and those after it are
    not. *)
Theorem put_writes_outputs (f : nat) (d : AliasDict) (h : Heap) (c : RepoDataContainer)
    (obj : Obj) (datasetType dt : string) (dataId : DataId) (doBackup : bool)
    (repos : list nat) (tr : list Event) :
  _resolveDatasetTypeAlias d datasetType = Ret dt ->
  contains "." dt = false ->
  _outputs c = Some repos ->
  Forall (maps_or_misses repo_map dt dataId) repos ->
  Forall (fun l => kind l = ButlerLocation) (targets repos dt dataId) ->
  (forall l, l ∈ targets repos dt dataId ->
     repo_backup (loc_repository l) (loc_datasetType l) dataId = Ret tt) ->
  ((forall l, l ∈ targets repos dt dataId -> repo_write l obj = Ret tt) ->
   put_ (S f) d h c obj datasetType dataId doBackup tr
   = (tr ++ write_events obj dataId doBackup (targets repos dt dataId), Ret tt)) /\
  (forall ls1 l ls2 e,
     targets repos dt dataId = ls1 ++ l :: ls2 ->
     (forall x, x ∈ ls1 -> repo_write x obj = Ret tt) ->
     repo_write l obj = Raise e ->
     put_ (S f) d h c obj datasetType dataId doBackup tr
     = (tr ++ write_events obj dataId doBackup (ls1 ++ [l]), Raise e)).
Proof.
  intros Hres Hdot Hout Hall Hplain Hb.
  assert (Hput : put_ (S f) d h c obj datasetType dataId doBackup tr
                 = foldT (write_one obj dataId doBackup) (targets repos dt dataId) tr).
  { cbn [put]. rewrite Hres, (locate_write_targets f h c dt dataId repos Hout Hdot Hall).
    apply foldT_plain. intros l tr' Hl. rewrite Forall_forall in Hplain.
    now rewrite (Hplain l Hl). }
  split.
  - intros Hw. rewrite Hput. now apply foldT_write_ok.
  - intros ls1 l ls2 e Hsplit Hw He. rewrite Hput, Hsplit.
    apply foldT_write_fails; [exact Hw | | exact He].
    intros x Hx. apply Hb. rewrite Hsplit. apply elem_of_app in Hx as [Hx|Hx].
    + apply elem_of_app. now left.
    + apply elem_of_app. right. apply list_elem_of_singleton in Hx as ->.
      apply list_elem_of_here.
Qed.

End WritePath.

Lemma locate_write_targets_witness :
  _locate plain_map no_attr no_bypass nothing_exists 1 two_heap two_outputs "calexp" no_id true
  = Ret (LMany (write_targets plain_map [0; 1] "calexp" no_id)).
Proof.
  apply (locate_write_targets plain_map no_attr no_bypass nothing_exists
           0 two_heap two_outputs "calexp" no_id [0; 1]).
  - reflexivity.
  - reflexivity.
  - constructor; [left; eexists; reflexivity|].
    constructor; [left; eexists; reflexivity | constructor].
Defined.

Lemma put_writes_outputs_witness :
  put plain_map no_attr no_bypass nothing_exists no_parts backup_ok write_ok
      1 [] two_heap two_outputs "image" "calexp" no_id true []
  = ([] ++ write_events "image" no_id true (write_targets plain_map [0; 1] "calexp" no_id),
     Ret tt).
Proof.
  apply (proj1 (put_writes_outputs plain_map no_attr no_bypass nothing_exists no_parts
                  backup_ok write_ok 0 [] two_heap two_outputs "image" "calexp" "calexp"
                  no_id true [0; 1] []
                  eq_refl eq_refl eq_refl
                  ltac:(constructor; [left; eexists; reflexivity|];
                        constructor; [left; eexists; reflexivity | constructor])
                  ltac:(repeat constructor)
                  ltac:(reflexivity))).
  reflexivity.
Defined.

Lemma locate_write_list_witness :
  exists ls,
    LMany (write_targets plain_map [0; 1] "calexp" no_id) = @LMany string ls.
Proof.
  apply (proj1 (locate_write_list plain_map no_attr no_bypass nothing_exists)
           1 two_heap two_outputs "calexp" no_id).
  reflexivity.
Defined.

(** ** Asking whether a dataset exists *)

Section Existence.

Context {Obj : Type}.
Variable repo_map : nat -> string -> DataId -> bool -> outcome (option (@Location Obj)).
Variable mapper_hasattr : nat -> string -> bool.
Variable bypass_call : @Location Obj -> DataId -> outcome Obj.
Variable repo_exists : @Location Obj -> bool.
Variable repo_map_default : nat -> string -> DataId -> outcome (option (@Location Obj)).

Abbreviation loop := (locate_loop repo_map mapper_hasattr bypass_call repo_exists).
Abbreviation locate := (_locate repo_map mapper_hasattr bypass_call repo_exists).
Abbreviation exists_ := (datasetExists repo_exists repo_map_default).
Abbreviation exists_in := (exists_loop repo_exists repo_map_default).

Lemma admitted_not_excluded h (dataId : DataId) r :
  bool_decide (tag dataId = ∅) || negb (bool_decide (tag dataId ∩ tags_of h r = ∅))
  = negb (tag_excludes h dataId r).
Proof.
  unfold tag_excludes. rewrite bool_decide_not.
  destruct (bool_decide (tag dataId = ∅)), (bool_decide (tag dataId ∩ tags_of h r = ∅));
    reflexivity.
Qed.

Lemma exists_loop_located rec h dataId dt repos :
  (forall r dt dataId, repo_map_default r dt dataId = repo_map r dt dataId false) ->
  (forall m name, mapper_hasattr m name = false) ->
  (forall l dt, repo_exists (set_datasetType l dt) = repo_exists l) ->
  contains "." dt = false ->
  exists_in h repos dt dataId = Ret true ->
  forall locs, exists l,
    loop rec h dataId false repos dt locs = Ret (LOne l) /\
    (is_composite l = true \/ repo_exists l = true).
Proof.
  intros Hdef Hnb Hex Hdot. induction repos as [|r rest IH]; [discriminate|].
  cbn [exists_loop locate_loop negb andb]. rewrite admitted_not_excluded.
  destruct (tag_excludes h dataId r); cbn [negb]; [exact IH|].
  cbv zeta. rewrite (split_on_undotted dt Hdot). cbn [hd tl]. rewrite Hdef.
  destruct (repo_map r dt dataId false) as [[l|]|e|]; cbn [mbind outcome_mbind bind];
    try discriminate; [|exact IH].
  intros Hrun locs. unfold accept_location. cbn [negb].
  unfold has_bypass. rewrite Hnb, Hex.
  destruct (repo_exists l) eqn:He.
  - rewrite orb_true_r. eexists. split; [reflexivity|]. right. now rewrite Hex.
  - rewrite orb_false_r.
    destruct (is_composite (set_datasetType l dt)) eqn:Hc.
    + eexists. split; [reflexivity|]. now left.
    + now apply IH.
Qed.

(** A [true] of [datasetExists] is kept by the read path, for an undotted
    dataset type, when no mapper has a bypass, [map] without [write] maps for
    a read, and whether a location exists does not depend on the dataset type
    written into it: then [_locate] finds a location, a composite or one that
    exists. *)
Theorem datasetExists_true_located (fuel : nat) (d : AliasDict) (h : Heap)
    (c : RepoDataContainer) (datasetType dt : string) (dataId : DataId) :
  (forall r dt dataId, repo_map_default r dt dataId = repo_map r dt dataId false) ->
  (forall m name, mapper_hasattr m name = false) ->
  (forall l dt, repo_exists (set_datasetType l dt) = repo_exists l) ->
  _resolveDatasetTypeAlias d datasetType = Ret dt ->
  contains "." dt = false ->
  exists_ d h c datasetType dataId = Ret true ->
  exists l,
    locate (S fuel) h c dt dataId false = Ret (LOne l) /\
    (is_composite l = true \/ repo_exists l = true).
Proof.
  intros Hdef Hnb Hex Hres Hdot. unfold datasetExists. rewrite Hres.
  cbn [mbind outcome_mbind bind _locate].
  destruct (inputs_of c) as [repos| |]; cbn [mbind outcome_mbind bind]; try discriminate.
  intros Hrun. now apply (exists_loop_located _ h dataId dt repos).
Qed.

(** [datasetExists] does not catch what [map] raises: when the repositories
    before one are passed over and that one's mapper raises, [NoResults] for
    a dataset type it does not know included, [datasetExists] raises it and
    asks no further repository.  The read path goes on to the next repository
    after a [NoResults]. *)
Theorem datasetExists_propagates (d : AliasDict) (h : Heap) (c : RepoDataContainer)
    (datasetType dt : string) (dataId : DataId) (pre post : list nat) (r : nat) (e : exn) :
  _resolveDatasetTypeAlias d datasetType = Ret dt ->
  _inputs c = Some (pre ++ r :: post) ->
  Forall (passed_over repo_exists repo_map_default h dataId dt) pre ->
  tag_excludes h dataId r = false ->
  repo_map_default r dt dataId = Raise e ->
  exists_ d h c datasetType dataId = Raise e /\
  (forall rec msg locs,
     contains "." dt = false ->
     repo_map r dt dataId false = Raise (NoResults msg) ->
     loop rec h dataId false (r :: post) dt locs = loop rec h dataId false post dt locs).
Proof.
  intros Hres Hin Hpre Hadm Hraise. split.
  - unfold datasetExists, inputs_of. rewrite Hres, Hin. cbn [mbind outcome_mbind bind].
    clear Hin. induction Hpre as [|q pre Hq _ IH].
    + cbn [app exists_loop]. rewrite admitted_not_excluded, Hadm, Hraise. reflexivity.
    + cbn [app exists_loop]. rewrite admitted_not_excluded.
      destruct Hq as [Hq|[Hq|(l & Hq & Hl)]].
      * rewrite Hq. exact IH.
      * destruct (tag_excludes h dataId q); cbn [negb]; [exact IH|].
        rewrite Hq. exact IH.
      * destruct (tag_excludes h dataId q); cbn [negb]; [exact IH|].
        rewrite Hq. cbn [mbind outcome_mbind bind]. rewrite Hl. exact IH.
  - intros rec msg locs Hdot Hmap.
    apply (loop_continue repo_map mapper_hasattr bypass_call repo_exists);
      [exact Hdot|]. right. right. left. eauto.
Qed.

End Existence.

Lemma datasetExists_true_located_witness :
  exists l,
    _locate plain_map no_attr no_bypass all_exists 1 two_heap two_inputs "calexp" no_id false
    = Ret (LOne l) /\
    (is_composite l = true \/ all_exists l = true).
Proof.
  apply (datasetExists_true_located plain_map no_attr no_bypass all_exists
           (fun r dt dataId => plain_map r dt dataId false)
           0 [] two_heap two_inputs "calexp" "calexp" no_id); reflexivity.
Defined.

Lemma datasetExists_propagates_witness :
  datasetExists all_exists second_map [] two_heap two_inputs "calexp" no_id
  = Raise (NoResults "no mapping").
Proof.
  apply (proj1 (datasetExists_propagates
                  (fun r dt dataId (w : bool) => second_map r dt dataId)
                  no_attr no_bypass all_exists second_map
                  [] two_heap two_inputs "calexp" "calexp" no_id [] [1] 0
                  (NoResults "no mapping")
                  eq_refl eq_refl ltac:(constructor) eq_refl eq_refl)).
Defined.

(** ** Keys and metadata *)

Section Keys.

Context {Obj : Type}.
Variable repo_getKeys : nat -> string -> string -> option (list (string * string)).

Abbreviation keys_in := (getKeys_loop repo_getKeys).
Abbreviation getKeys_ := (getKeys repo_getKeys).

Lemma admitted_tags h (tg : gset string) r :
  bool_decide (tg = ∅) || negb (bool_decide (tg ∩ tags_of h r = ∅)) = true
  <-> tg = ∅ \/ tg ∩ tags_of h r <> ∅.
Proof.
  rewrite orb_true_iff, negb_true_iff, bool_decide_eq_true, bool_decide_eq_false.
  reflexivity.
Qed.

Lemma getKeys_loop_first h dt level tg repos keys :
  keys_in h repos dt level tg = Some keys <->
  exists pre r post,
    repos = pre ++ r :: post /\
    (tg = ∅ \/ tg ∩ tags_of h r <> ∅) /\
    repo_getKeys r dt level = Some keys /\
    Forall (fun q => tg = ∅ \/ tg ∩ tags_of h q <> ∅ -> repo_getKeys q dt level = None) pre.
Proof.
  induction repos as [|r rest IH]; cbn [getKeys_loop].
  - split; [discriminate|]. intros (pre & r & post & H & _). now destruct pre.
  - destruct (bool_decide (tg = ∅) || negb (bool_decide (tg ∩ tags_of h r = ∅))) eqn:Hadm.
    + apply admitted_tags in Hadm. destruct (repo_getKeys r dt level) as [k|] eqn:Hk.
      * split.
        -- intros [= <-]. exists [], r, rest. repeat split; auto.
        -- intros (pre & r' & post & Heq & Ha & Hk' & Hpre).
           destruct pre as [|q pre]; cbn [app] in Heq; injection Heq as -> ->.
           ++ congruence.
           ++ apply Forall_cons in Hpre as [Hq _]. specialize (Hq Hadm). congruence.
      * rewrite IH. split.
        -- intros (pre & r' & post & -> & Ha & Hk' & Hpre).
           exists (r :: pre), r', post. repeat split; auto.
        -- intros (pre & r' & post & Heq & Ha & Hk' & Hpre).
           destruct pre as [|q pre]; cbn [app] in Heq; injection Heq as -> ->.
           ++ congruence.
           ++ apply Forall_cons in Hpre as [_ Hpre]. eauto 10.
    + assert (Hno : ~ (tg = ∅ \/ tg ∩ tags_of h r <> ∅)).
      { intros H. apply admitted_tags in H. congruence. }
      rewrite IH. split.
      * intros (pre & r' & post & -> & Ha & Hk' & Hpre).
        exists (r :: pre), r', post. repeat split; auto.
        constructor; [|exact Hpre]. intros H. contradiction.
      * intros (pre & r' & post & Heq & Ha & Hk' & Hpre).
        destruct pre as [|q pre]; cbn [app] in Heq; injection Heq as -> ->.
        -- contradiction.
        -- apply Forall_cons in Hpre as [_ Hpre]. eauto 10.
Qed.

(** [getKeys] answers with the keys of the first input repository, in the
    input order, that the tags admit (no tag given, or a tag shared with the
    repository) and that has keys for the dataset type; keys that are an empty
    dictionary count.  A repository the tags do not admit is not asked. *)
Theorem getKeys_first (d : AliasDict) (h : Heap) (c : RepoDataContainer)
    (datasetType dt level : string) (tg : gset string) (repos : list nat)
    (keys : list (string * string)) :
  _resolveDatasetTypeAlias d datasetType = Ret dt ->
  _inputs c = Some repos ->
  (getKeys_ d h c datasetType level tg = Ret (Some keys) <->
   exists pre r post,
     repos = pre ++ r :: post /\
     (tg = ∅ \/ tg ∩ tags_of h r <> ∅) /\
     repo_getKeys r dt level = Some keys /\
     Forall (fun q => tg = ∅ \/ tg ∩ tags_of h q <> ∅ -> repo_getKeys q dt level = None)
            pre).
Proof.
  intros Hres Hin. unfold getKeys, inputs_of. rewrite Hres, Hin.
  cbn [mbind outcome_mbind bind]. rewrite <- getKeys_loop_first.
  split; [intros [= ->] | intros ->]; reflexivity.
Qed.

End Keys.

Lemma getKeys_first_witness :
  getKeys (fun (r : nat) (dt level : string) =>
             if Nat.eqb r 1 then Some [("visit", "int")] else None)
          [] two_heap two_inputs "calexp" "" ∅
  = Ret (Some [("visit", "int")]).
Proof.
  apply (proj2 (getKeys_first (fun (r : nat) (dt level : string) =>
                                 if Nat.eqb r 1 then Some [("visit", "int")] else None)
                  [] two_heap two_inputs "calexp" "calexp" "" ∅ [0; 1]
                  [("visit", "int")] eq_refl eq_refl)).
  exists [0], 1, []. repeat split; [now left|].
  constructor; [reflexivity | constructor].
Defined.

Section QueriedRepositories.

Variable repo_queryMetadata : nat -> string -> list string -> DataId -> list Row.

Abbreviation rows_in := (query_loop repo_queryMetadata).
Abbreviation query := (queryMetadata repo_queryMetadata).

Lemma query_loop_spec h dt f dataId repos :
  let adm := List.filter (fun q => negb (tag_excludes h dataId q)) repos in
  let r := rows_in h repos dt f dataId in
  fst r `prefix_of` adm /\
  ((snd r = [] /\ fst r = adm /\
    Forall (fun x => repo_queryMetadata x dt f dataId = []) adm) \/
   (snd r <> [] /\
    exists pre x, fst r = pre ++ [x] /\
      Forall (fun y => repo_queryMetadata y dt f dataId = []) pre /\
      repo_queryMetadata x dt f dataId = snd r)).
Proof.
  cbv zeta. induction repos as [|r rest IH]; cbn [query_loop List.filter].
  - split; [reflexivity|]. left. repeat split. constructor.
  - rewrite (admitted_not_excluded h dataId r).
    destruct (tag_excludes h dataId r); cbn [negb]; [exact IH|].
    destruct (repo_queryMetadata r dt f dataId) as [|row rows] eqn:Hq.
    + destruct (rows_in h rest dt f dataId) as [q t]. cbn [fst snd] in *.
      destruct IH as [Hpre IH]. split; [now apply prefix_cons|].
      destruct IH as [(Ht & Hqa & Hall)|(Ht & pre & x & -> & Hpre' & Hx)].
      * left. split; [exact Ht|]. split; [now rewrite Hqa|]. now constructor.
      * right. split; [exact Ht|]. exists (r :: pre), x. repeat split; auto.
    + cbn [fst snd]. split.
      * apply prefix_cons, prefix_nil.
      * right. split; [discriminate|]. exists [], r. repeat split; auto.
Qed.

(** [queryMetadata] with a format asks the input repositories that the
    tags of the identifier admit, in the input order, and stops at the first
    that returns rows: the repositories asked are a beginning of the admitted
    ones; either all admitted ones were asked, none had rows, and the answer
    is the empty list, or all but the last one asked had no rows and the rows
    of the last are the answer (as they are, when the format has more than one
    key). *)
Theorem queryMetadata_queried (d : AliasDict) (h : Heap) (c : RepoDataContainer)
    (datasetType dt : string) (format : Format) (dataId : DataId) (repos : list nat) :
  _resolveDatasetTypeAlias d datasetType = Ret dt ->
  _inputs c = Some repos ->
  let adm := List.filter (fun q => negb (tag_excludes h dataId q)) repos in
  let f := sequencify format in
  let r := query d h c datasetType (Some format) dataId in
  fst r `prefix_of` adm /\
  ((fst r = adm /\ Forall (fun x => repo_queryMetadata x dt f dataId = []) adm /\
    snd r = Ret []) \/
   (exists pre x,
      fst r = pre ++ [x] /\
      Forall (fun y => repo_queryMetadata y dt f dataId = []) pre /\
      repo_queryMetadata x dt f dataId <> [] /\
      (length f <> 1 -> snd r = Ret (repo_queryMetadata x dt f dataId)))).
Proof.
  intros Hres Hin. cbv zeta. unfold queryMetadata, inputs_of. rewrite Hres, Hin.
  pose proof (query_loop_spec h dt (sequencify format) dataId repos) as Hspec.
  cbv zeta in Hspec.
  destruct (rows_in h repos dt (sequencify format) dataId) as [q t]. cbn [fst snd] in Hspec.
  destruct Hspec as [Hpre Hspec].
  destruct t as [|row rows].
  - cbn [fst snd]. split; [exact Hpre|].
    destruct Hspec as [(_ & Hq & Hall)|(Ht & _)]; [|now contradiction Ht].
    left. auto.
  - destruct Hspec as [(Ht & _)|(_ & pre & x & -> & Hpre' & Hx)]; [discriminate|].
    assert (Hfst : forall o, fst (if Nat.eqb (length (sequencify format)) 1
                                  then (pre ++ [x], o)
                                  else (pre ++ [x], Ret (row :: rows))) = pre ++ [x]).
    { intros o. now destruct (Nat.eqb _ _). }
    rewrite Hfst. split; [exact Hpre|]. right. exists pre, x.
    split; [reflexivity|]. split; [exact Hpre'|]. split; [congruence|].
    intros Hlen. apply Nat.eqb_neq in Hlen. rewrite Hlen. cbn [snd]. now rewrite Hx.
Qed.

End QueriedRepositories.

Lemma queryMetadata_queried_witness :
  let r := queryMetadata no_rows [] two_heap two_inputs "calexp" (Some (FKey "visit")) no_id in
  fst r `prefix_of` List.filter (fun q => negb (tag_excludes two_heap no_id q)) [0; 1].
Proof.
  exact (proj1 (queryMetadata_queried no_rows [] two_heap two_inputs "calexp" "calexp"
                  (FKey "visit") no_id [0; 1] eq_refl eq_refl)).
Defined.

(** ** Dotted dataset types *)

Section Dotted.

Context {Obj : Type}.
Variable repo_map : nat -> string -> DataId -> bool -> outcome (option (@Location Obj)).
Variable mapper_hasattr : nat -> string -> bool.
Variable bypass_call : @Location Obj -> DataId -> outcome Obj.
Variable repo_exists : @Location Obj -> bool.

Abbreviation loop := (locate_loop repo_map mapper_hasattr bypass_call repo_exists).

(** The loop of [_locate] at a repository that is not skipped, for a
    dataset type [first.c0.cs]: a location of [first] that is no composite is
    a [RuntimeError]; a composite without the component [c0] is a [KeyError];
    when the component is located nowhere, the search ends there and the
    repositories that follow are not asked; and when the repository has no
    mapping for [first], the repositories that follow are asked for [first]
    alone, the components being forgotten. *)
Theorem locate_dotted (rec : string -> outcome (@Located Obj)) (h : Heap)
    (dataId : DataId) (write : bool) (r : nat) (rest : list nat)
    (dt first c0 : string) (cs : list string) (locs : list (@Location Obj)) :
  negb write && tag_excludes h dataId r = false ->
  split_on "." dt = first :: c0 :: cs ->
  (forall l,
     repo_map r first dataId write = Ret (Some l) ->
     kind l = ButlerLocation ->
     loop rec h dataId write (r :: rest) dt locs
     = Raise (RuntimeError "The location for a dotted datasetType must be a composite.")) /\
  (forall l componentInfo,
     repo_map r first dataId write = Ret (Some l) ->
     kind l = ButlerComposite componentInfo ->
     assoc c0 componentInfo = None ->
     loop rec h dataId write (r :: rest) dt locs = Raise (KeyError c0)) /\
  (forall l componentInfo ci,
     repo_map r first dataId write = Ret (Some l) ->
     kind l = ButlerComposite componentInfo ->
     assoc c0 componentInfo = Some ci ->
     rec (join_with "." (ci_datasetType ci :: cs)) = Ret LNone ->
     loop rec h dataId write (r :: rest) dt locs = Ret (locate_end write locs)) /\
  ((repo_map r first dataId write = Ret None \/
    exists msg, repo_map r first dataId write = Raise (NoResults msg)) ->
   loop rec h dataId write (r :: rest) dt locs
   = loop rec h dataId write rest first locs).
Proof.
  intros Hadm Hsplit. cbn [locate_loop]. rewrite Hadm. cbv zeta.
  rewrite Hsplit. cbn [hd tl].
  split; [|split; [|split]].
  - intros l Hmap Hk. rewrite Hmap. cbn [kind set_datasetType]. now rewrite Hk.
  - intros l componentInfo Hmap Hk Hno. rewrite Hmap. cbn [kind set_datasetType].
    now rewrite Hk, Hno.
  - intros l componentInfo ci Hmap Hk Hci Hrec. rewrite Hmap. cbn [kind set_datasetType].
    now rewrite Hk, Hci, Hrec.
  - intros [Hmap|[msg Hmap]]; now rewrite Hmap.
Qed.

End Dotted.

Lemma locate_dotted_witness :
  locate_loop calexp_map no_attr no_bypass nothing_exists
              (fun _ => Ret LNone) calexp_heap no_id false [0; 0] "raw_image.wcs" []
  = locate_loop calexp_map no_attr no_bypass nothing_exists
                (fun _ => Ret LNone) calexp_heap no_id false [0] "raw_image" [].
Proof.
  apply (proj2 (proj2 (proj2
           (locate_dotted calexp_map no_attr no_bypass nothing_exists
              (fun _ => Ret LNone) calexp_heap no_id false 0 [0]
              "raw_image.wcs" "raw_image" "wcs" [] [] eq_refl eq_refl)))).
  left. reflexivity.
Defined.

(** ** The modes of the declarations *)

Section Modes.

Variable listify : DeclArg -> list Decl.
Variable RepositoryArgs_cfgRoot : string -> RawArgs.
Variable RepositoryArgs_rw : string -> option string -> option string -> RawArgs.
Variable mapper_root : option string -> option string.

Abbreviation process := (_processInputArguments listify RepositoryArgs_cfgRoot
                           RepositoryArgs_rw mapper_root).
Abbreviation coerce := (as_args RepositoryArgs_cfgRoot).

Lemma input_mode_ret a a' :
  input_mode a = Ret a' -> args_mode a' = "r" /\ args_cfgRoot a' = raw_cfgRoot a.
Proof.
  unfold input_mode. destruct (raw_mode a) as [m|]; [|intros [= <-]; auto].
  destruct (String.eqb "rw" m); [intros [= <-]; auto|].
  destruct (String.eqb "r" m) eqn:E; cbn [negb]; [|discriminate].
  apply String.eqb_eq in E. subst m. intros [= <-]. auto.
Qed.

Lemma output_mode_ret a a' :
  output_mode a = Ret a' ->
  contains "w" (args_mode a') = true /\ args_cfgRoot a' = raw_cfgRoot a.
Proof.
  unfold output_mode. destruct (raw_mode a) as [m|]; [|intros [= <-]; auto].
  destruct (contains "w" m) eqn:E; cbn [negb]; [|discriminate].
  intros [= <-]. auto.
Qed.

Lemma modes_fold (step : RawArgs -> outcome RepositoryArgs) (Q : RepositoryArgs -> Prop) l :
  (forall a a', step a = Ret a' -> Q a' /\ args_cfgRoot a' = raw_cfgRoot a) ->
  forall acc res,
    foldM (fun done args => a ← step args; Ret (done ++ [a])) l acc = Ret res ->
    exists l', res = acc ++ l' /\ Forall Q l' /\ map args_cfgRoot l' = map raw_cfgRoot l.
Proof.
  intros Hstep. induction l as [|a l IH]; intros acc res; cbn [foldM].
  - intros [= <-]. exists []. rewrite app_nil_r. repeat split. constructor.
  - destruct (step a) as [a'| |] eqn:E; cbn [mbind outcome_mbind bind]; try discriminate.
    intros Hrun. destruct (IH _ _ Hrun) as (l' & -> & HQ & Hroots).
    destruct (Hstep a a' E) as [Ha Hroot].
    exists (a' :: l'). rewrite <- app_assoc. split; [reflexivity|].
    split; [now constructor|]. cbn [map]. now rewrite Hroot, Hroots.
Qed.

(** When [_processInputArguments] returns, every input has the mode ['r']
    exactly (a declared ['rw'] has become ['r'], and any other mode than
    ['r'] and ['rw'] was refused) and the mode of every output contains
    ['w'].  When inputs or outputs were given, none of [root], [mapper] and
    the mapper arguments was, and the declarations are those given, in
    order. *)
Theorem processInputArguments_modes (root mapper mapperArgs : option string)
    (inputs outputs : DeclArg) (ins outs : list RepositoryArgs) :
  process root mapper mapperArgs inputs outputs = Ret (ins, outs) ->
  Forall (fun a => args_mode a = "r") ins /\
  Forall (fun a => contains "w" (args_mode a) = true) outs /\
  (is_none inputs && is_none outputs = false ->
   truthy root || truthy mapper || truthy mapperArgs = false /\
   map args_cfgRoot ins = map (fun d => raw_cfgRoot (coerce d)) (listify inputs) /\
   map args_cfgRoot outs = map (fun d => raw_cfgRoot (coerce d)) (listify outputs)).
Proof.
  unfold _processInputArguments. cbv zeta.
  destruct (is_none inputs && is_none outputs) eqn:Hv1.
  - cbn [mbind outcome_mbind bind].
    destruct (foldM _ (map coerce (listify (fst _))) []) as [ri| |] eqn:Ei;
      cbn [mbind outcome_mbind bind]; try discriminate.
    destruct (foldM _ (map coerce (listify (snd _))) []) as [ro| |] eqn:Eo;
      cbn [mbind outcome_mbind bind]; try discriminate.
    intros [= <- <-].
    destruct (modes_fold input_mode _ _ input_mode_ret _ _ Ei) as (li & -> & Hi & _).
    destruct (modes_fold output_mode _ _ output_mode_ret _ _ Eo) as (lo & -> & Ho & _).
    split; [exact Hi|]. split; [exact Ho|]. discriminate.
  - destruct (truthy root || truthy mapper || truthy mapperArgs) eqn:Hmix;
      cbn [mbind outcome_mbind bind fst snd]; [discriminate|].
    destruct (foldM _ (map coerce (listify inputs)) []) as [ri| |] eqn:Ei;
      cbn [mbind outcome_mbind bind]; try discriminate.
    destruct (foldM _ (map coerce (listify outputs)) []) as [ro| |] eqn:Eo;
      cbn [mbind outcome_mbind bind]; try discriminate.
    intros [= <- <-].
    destruct (modes_fold input_mode _ _ input_mode_ret _ _ Ei) as (li & -> & Hi & Hri).
    destruct (modes_fold output_mode _ _ output_mode_ret _ _ Eo) as (lo & -> & Ho & Hro).
    cbn [app]. rewrite map_map in Hri, Hro.
    split; [exact Hi|]. split; [exact Ho|]. auto.
Qed.

End Modes.

Lemma processInputArguments_modes_witness :
  Forall (fun a => args_mode a = "r") [with_mode (args_at "in") "r"] /\
  Forall (fun a => contains "w" (args_mode a) = true) [with_mode (args_rw "out" None None) "rw"] /\
  (is_none (AOne (DUri "in")) && is_none (AOne (DArgs (args_rw "out" None None))) = false ->
   truthy None || truthy None || truthy None = false /\
   map args_cfgRoot [with_mode (args_at "in") "r"]
   = map (fun d => raw_cfgRoot (as_args args_at d)) (to_list (AOne (DUri "in"))) /\
   map args_cfgRoot [with_mode (args_rw "out" None None) "rw"]
   = map (fun d => raw_cfgRoot (as_args args_at d))
         (to_list (AOne (DArgs (args_rw "out" None None))))).
Proof.
  exact (processInputArguments_modes to_list args_at args_rw no_root None None None
           (AOne (DUri "in")) (AOne (DArgs (args_rw "out" None None)))
           [with_mode (args_at "in") "r"] [with_mode (args_rw "out" None None) "rw"]
           eq_refl).
Defined.

(** ** Bypass functions and subset components *)

Section GetMore.

Context {Obj : Type}.
Variable repo_map : nat -> string -> DataId -> bool -> outcome (option (@Location Obj)).
Variable mapper_hasattr : nat -> string -> bool.
Variable bypass_call : @Location Obj -> DataId -> outcome Obj.
Variable repo_exists : @Location Obj -> bool.
Variable repo_getKeys : nat -> string -> string -> option (list (string * string)).
Variable _read : @Location Obj -> outcome Obj.
Variable canStandardize : nat -> string -> bool.
Variable standardize : nat -> string -> Obj -> DataId -> outcome Obj.
Variable assembler : @Location Obj -> list (string * @CompVal Obj) -> outcome Obj.

Abbreviation loop := (locate_loop repo_map mapper_hasattr bypass_call repo_exists).
Abbreviation locate := (_locate repo_map mapper_hasattr bypass_call repo_exists).
Abbreviation get_ := (get repo_map mapper_hasattr bypass_call repo_exists repo_getKeys
                        _read canStandardize standardize assembler).
Abbreviation subset_ := (@subset repo_getKeys).

(** When the mapper of the first repository that is not skipped has a
    bypass function for the dataset type (undotted, the location no
    composite): if the bypass function returns, [get] returns its value,
    standardized when the mapper standardizes the type, without asking whether
    the location exists and without reading it; if the bypass function raises,
    whatever it raises, the search goes on with the repositories that
    follow. *)
Theorem get_bypass (f : nat) (d : AliasDict) (h : Heap) (c : RepoDataContainer)
    (datasetType dt : string) (dataId : DataId) (r : nat) (rest : list nat)
    (l : @Location Obj) :
  _resolveDatasetTypeAlias d datasetType = Ret dt ->
  contains "." dt = false ->
  _inputs c = Some (r :: rest) ->
  tag_excludes h dataId r = false ->
  repo_map r dt dataId false = Ret (Some l) ->
  kind l = ButlerLocation ->
  mapper_hasattr (loc_mapper l) ("bypass_" ++ dt) = true ->
  (forall o,
     bypass_call (set_datasetType l dt) dataId = Ret o ->
     get_ (S f) d h c datasetType dataId true
     = if canStandardize (loc_mapper l) dt
       then (o' ← standardize (loc_mapper l) dt o dataId; Ret (Now o'))
       else Ret (Now o)) /\
  (forall e rec locs,
     bypass_call (set_datasetType l dt) dataId = Raise e ->
     loop rec h dataId false (r :: rest) dt locs = loop rec h dataId false rest dt locs).
Proof.
  intros Hres Hdot Hin Hadm Hmap Hk Hby.
  assert (Hstep : forall rec locs,
            loop rec h dataId false (r :: rest) dt locs
            = match bypass_call (set_datasetType l dt) dataId with
              | Ret o => Ret (LOne (set_bypass (set_datasetType l dt) o))
              | _ => loop rec h dataId false rest dt locs
              end).
  { intros rec locs. cbn [locate_loop negb andb]. rewrite Hadm. cbv zeta.
    rewrite (split_on_undotted dt Hdot). cbn [hd tl]. rewrite Hmap.
    unfold accept_location. cbn [negb]. unfold has_bypass.
    cbn [loc_mapper loc_datasetType set_datasetType]. now rewrite Hby. }
  split.
  - intros o Ho. cbn [get]. rewrite Hres. cbn [mbind outcome_mbind bind _locate].
    unfold inputs_of. rewrite Hin. cbn [mbind outcome_mbind bind].
    rewrite Hstep, Ho. cbn [mbind outcome_mbind bind kind set_bypass set_datasetType].
    rewrite Hk. unfold read_callback.
    cbn [loc_bypass loc_mapper loc_datasetType set_bypass set_datasetType].
    destruct (canStandardize (loc_mapper l) dt); reflexivity.
  - intros e rec locs He. now rewrite Hstep, He.
Qed.

Lemma foldM_never {A S : Type} (body : S -> A -> outcome S) (l : list A) :
  (exists x, x ∈ l /\ forall s s', body s x <> Ret s') ->
  forall s s', foldM body l s <> Ret s'.
Proof.
  induction l as [|y l IH]; intros (x & Hx & Hnever) s s'.
  - apply elem_of_nil in Hx. contradiction.
  - cbn [foldM]. destruct (body s y) as [s1| |] eqn:E; cbn [mbind outcome_mbind bind];
      try discriminate.
    apply elem_of_cons in Hx as [->|Hx]; [now apply Hnever in E|].
    apply IH. eauto.
Qed.

Lemma subset_never_returns d h c dt dataId x : subset_ d h c dt dataId <> Ret x.
Proof.
  unfold subset. destruct (_resolveDatasetTypeAlias d dt) as [dt'| |];
    cbn [mbind outcome_mbind bind]; try discriminate.
  destruct (getKeys repo_getKeys d h c dt' "" ∅) as [[keys|]| |];
    cbn [mbind outcome_mbind bind]; discriminate.
Qed.

(** A composite with a component that is a subset cannot be read: building
    the [ButlerSubset] of the component raises (its call of [queryMetadata]
    has an argument too many), so [get] never returns an object for it. *)
Theorem get_subset_component_never_returns (f : nat) (d : AliasDict) (h : Heap)
    (c : RepoDataContainer) (datasetType dt : string) (dataId : DataId)
    (immediate : bool) (l : @Location Obj)
    (componentInfo : list (string * ComponentInfo)) :
  _resolveDatasetTypeAlias d datasetType = Ret dt ->
  locate (S f) h c dt dataId false = Ret (LOne l) ->
  kind l = ButlerComposite componentInfo ->
  existsb (fun ni => ci_subset (snd ni)) componentInfo = true ->
  forall o, get_ (S f) d h c datasetType dataId immediate <> Ret o.
Proof.
  intros Hres Hloc Hk Hsub o. cbn [get]. rewrite Hres. cbn [mbind outcome_mbind bind].
  rewrite Hloc. cbn [mbind outcome_mbind bind]. rewrite Hk.
  match goal with
  | |- context [foldM ?body componentInfo []] =>
      assert (Hnever : forall s s', foldM body componentInfo s <> Ret s')
  end.
  { apply foldM_never. apply existsb_exists in Hsub as ([name ci] & Hin & Hci).
    exists (name, ci). split; [now apply list_elem_of_In|].
    intros s s'. cbn [snd] in Hci. rewrite Hci.
    destruct (subset repo_getKeys d h c (ci_datasetType ci) (loc_dataId l)) as [x| |] eqn:E;
      cbn [mbind outcome_mbind bind]; try discriminate.
    now apply subset_never_returns in E. }
  match goal with
  | |- context [foldM ?body componentInfo []] =>
      destruct (foldM body componentInfo []) as [objs| |] eqn:E;
        cbn [mbind outcome_mbind bind]; try discriminate
  end.
  now apply Hnever in E.
Qed.

End GetMore.

Lemma get_bypass_witness :
  get plain_map bypass_attr bypass_value nothing_exists no_keys read_path never_standardize
      standardize_id assemble_name 1 [] two_heap two_inputs "calexp" no_id true
  = Ret (Now "bypassed").
Proof.
  apply (proj1 (get_bypass plain_map bypass_attr bypass_value nothing_exists no_keys
                  read_path never_standardize standardize_id assemble_name
                  0 [] two_heap two_inputs "calexp" "calexp" no_id 0 [1]
                  (plain_location 0)
                  eq_refl eq_refl eq_refl eq_refl eq_refl eq_refl eq_refl)).
  reflexivity.
Defined.

Lemma get_subset_component_never_returns_witness :
  get subset_map no_attr no_bypass nothing_exists no_keys read_path never_standardize
      standardize_id assemble_name 2 [] calexp_heap calexp_repos "stack" no_id true
  <> Ret (Now "stack").
Proof.
  apply (get_subset_component_never_returns subset_map no_attr no_bypass nothing_exists
           no_keys read_path never_standardize standardize_id assemble_name
           1 [] calexp_heap calexp_repos "stack" "stack" no_id true
           (set_datasetType subset_location "stack") subset_components);
    reflexivity.
Defined.

(** ** Linking the nodes to their parents *)

Section HeapUpdates.

Lemma lookup_update h n (f : RepoData -> RepoData) m :
  update h n f !! m = if decide (m = n) then f <$> h !! n else h !! m.
Proof.
  unfold update. destruct (h !! n) as [rd|] eqn:Hn.
  - destruct (decide (m = n)) as [->|Hne].
    + rewrite list_lookup_insert_eq by (eapply lookup_lt_Some; eassumption). reflexivity.
    + now rewrite list_lookup_insert_ne by congruence.
  - destruct (decide (m = n)) as [->|Hne]; [now rewrite Hn | reflexivity].
Qed.

Lemma length_update h n (f : RepoData -> RepoData) : length (update h n f) = length h.
Proof. unfold update. destruct (h !! n); [apply length_insert | reflexivity]. Qed.

Lemma update_insert h n (f : RepoData -> RepoData) rd :
  h !! n = Some rd -> update h n f = <[n := f rd]> h.
Proof. intros H. unfold update. now rewrite H. Qed.

Lemma cfg_at_update h n p m :
  cfg_at (update h n (fun rd => addParentRepoData rd p)) m = cfg_at h m.
Proof.
  unfold cfg_at. rewrite lookup_update. destruct (decide (m = n)) as [->|]; [|reflexivity].
  now destruct (h !! n).
Qed.

Lemma parents_of_update h n p m :
  parents_of (update h n (fun rd => addParentRepoData rd p)) m
  = if decide (m = n)
    then match h !! n with Some rd => parentRepoDatas rd ++ [p] | None => [] end
    else parents_of h m.
Proof.
  unfold parents_of. rewrite lookup_update. destruct (decide (m = n)) as [->|]; [|reflexivity].
  now destruct (h !! n).
Qed.

Lemma add_parents_app rd ms ms' :
  add_parents (add_parents rd ms) ms' = add_parents rd (ms ++ ms').
Proof. unfold add_parents. cbn. now rewrite app_assoc. Qed.

Lemma add_parents_nil rd : add_parents rd [] = rd.
Proof. destruct rd. unfold add_parents. cbn. now rewrite app_nil_r. Qed.

Lemma addParentRepoData_add rd p : addParentRepoData rd p = add_parents rd [p].
Proof. reflexivity. Qed.

End HeapUpdates.

Section LinkOutputs.

Lemma has_root_update h n p q d :
  has_root (update h n (fun rd => addParentRepoData rd p)) q d = has_root h q d.
Proof. unfold has_root. now rewrite cfg_at_update. Qed.

Lemma has_root_insert h n rd ms q d :
  h !! n = Some rd -> has_root (<[n := add_parents rd ms]> h) q d = has_root h q d.
Proof.
  intros Hn. unfold has_root, cfg_at.
  destruct (decide (repoData d = n)) as [->|Hne].
  - rewrite list_lookup_insert_eq by (eapply lookup_lt_Some; eassumption). now rewrite Hn.
  - now rewrite list_lookup_insert_ne by congruence.
Qed.

Lemma declared_at_insert h n rd ms decls q :
  h !! n = Some rd ->
  declared_at (<[n := add_parents rd ms]> h) decls q = declared_at h decls q.
Proof.
  intros Hn. unfold declared_at. induction decls as [|d decls IH]; [reflexivity|].
  cbn [List.find]. rewrite (has_root_insert h n rd ms q d Hn).
  destruct (has_root h q d); [reflexivity | exact IH].
Qed.

Lemma find_declared_root h q decls :
  forallb (fun d => is_some (cfg_at h (repoData d))) decls = true ->
  find_declared h (PRoot q) decls = Ret (declared_at h decls q).
Proof.
  unfold declared_at. induction decls as [|d decls IH]; [reflexivity|].
  cbn [forallb]. intros Hall. apply andb_true_iff in Hall as [Hd Hall].
  destruct (cfg_at_some h _ Hd) as (rd & c & Hrd & Hc).
  cbn [find_declared List.find]. unfold has_root, cfg_at. rewrite Hrd, Hc.
  rewrite (deref_some _ _ _ Hrd). cbn [mbind outcome_mbind bind].
  unfold cfg_of. rewrite Hc. cbn [mbind outcome_mbind bind].
  destruct (String.eqb (cfg_root c) q); [reflexivity|].
  specialize (IH Hall). unfold has_root, cfg_at in IH. exact IH.
Qed.

Lemma configured_insert h n rd ms decls :
  h !! n = Some rd ->
  forallb (fun d => is_some (cfg_at h (repoData d))) decls = true ->
  forallb (fun d => is_some (cfg_at (<[n := add_parents rd ms]> h) (repoData d))) decls = true.
Proof.
  intros Hn Hall. rewrite forallb_forall in *. intros d Hd. specialize (Hall d Hd).
  cbv beta in Hall. unfold cfg_at in *. destruct (decide (repoData d = n)) as [E|Hne].
  - rewrite E in *. rewrite list_lookup_insert_eq by (eapply lookup_lt_Some; eassumption).
    now rewrite Hn in Hall.
  - now rewrite list_lookup_insert_ne by congruence.
Qed.

(** The inner loop of the second loop, from a state in which the output
    has already been given the parents [done]. *)
Lemma link_fold h decls n rd l :
  h !! n = Some rd ->
  forallb (fun d => is_some (cfg_at h (repoData d))) decls = true ->
  forall done,
    let step := fun h parent =>
      parentToAdd ← find_declared h parent decls;
      match parentToAdd with
      | None => Raise (RuntimeError "TODO write a good message: could not find parent")
      | Some p => Ret (update h n (fun rd => addParentRepoData rd p))
      end in
    (forall ms, Forall2 (fun p m => exists q, p = PRoot q /\ declared_at h decls q = Some m)
                        l ms ->
       foldM step l (<[n := add_parents rd done]> h)
       = Ret (<[n := add_parents rd (done ++ ms)]> h)) /\
    (forall l1 q l2, l = l1 ++ PRoot q :: l2 ->
       Forall (declared_root h decls) l1 -> declared_at h decls q = None ->
       foldM step l (<[n := add_parents rd done]> h)
       = Raise (RuntimeError "TODO write a good message: could not find parent")) /\
    (forall l1 p l2, l = l1 ++ PCfg p :: l2 ->
       Forall (declared_root h decls) l1 -> decls <> [] ->
       foldM step l (<[n := add_parents rd done]> h)
       = Raise (AttributeError "'RepoData' object has no attribute 'repoData'")).
Proof.
  intros Hn Hall. cbv zeta.
  assert (Hlt : n < length h) by (eapply lookup_lt_Some; eassumption).
  assert (Hstep : forall done q m,
            declared_at h decls q = Some m ->
            (parentToAdd ← find_declared (<[n := add_parents rd done]> h) (PRoot q) decls;
             match parentToAdd with
             | None => Raise (RuntimeError "TODO write a good message: could not find parent")
             | Some p => Ret (update (<[n := add_parents rd done]> h) n
                                     (fun rd => addParentRepoData rd p))
             end)
            = Ret (<[n := add_parents rd (done ++ [m])]> h)).
  { intros done q m Hq.
    rewrite find_declared_root by (now apply configured_insert).
    rewrite (declared_at_insert h n rd done decls q Hn), Hq.
    cbn [mbind outcome_mbind bind].
    rewrite (update_insert _ n _ (add_parents rd done))
      by (now apply list_lookup_insert_eq).
    rewrite list_insert_insert_eq, addParentRepoData_add, add_parents_app. reflexivity. }
  induction l as [|p l IH]; intros done.
  - split; [|split].
    + intros ms Hms. apply Forall2_nil_inv_l in Hms as ->. now rewrite app_nil_r.
    + intros [|? ?] ? ? H; discriminate.
    + intros [|? ?] ? ? H; discriminate.
  - split; [|split].
    + intros ms Hms. apply Forall2_cons_inv_l in Hms as (m & ms' & (q & -> & Hq) & Hms' & ->).
      cbn [foldM]. rewrite (Hstep done q m Hq). cbn [mbind outcome_mbind bind].
      rewrite (proj1 (IH (done ++ [m])) ms' Hms'). now rewrite <- app_assoc.
    + intros l1 q l2 Hl Hl1 Hq. destruct l1 as [|p1 l1]; cbn [app] in Hl; injection Hl as -> ->.
      * cbn [foldM]. rewrite find_declared_root by (now apply configured_insert).
        rewrite (declared_at_insert h n rd done decls q Hn), Hq. reflexivity.
      * apply Forall_cons in Hl1 as [(q1 & m1 & -> & Hq1) Hl1].
        cbn [foldM]. rewrite (Hstep done q1 m1 Hq1). cbn [mbind outcome_mbind bind].
        now apply (proj1 (proj2 (IH (done ++ [m1]))) l1 q l2).
    + intros l1 p0 l2 Hl Hl1 Hne. destruct l1 as [|p1 l1]; cbn [app] in Hl; injection Hl as -> ->.
      * cbn [foldM]. destruct decls as [|d decls]; [now contradiction Hne | reflexivity].
      * apply Forall_cons in Hl1 as [(q1 & m1 & -> & Hq1) Hl1].
        cbn [foldM]. rewrite (Hstep done q1 m1 Hq1). cbn [mbind outcome_mbind bind].
        now apply (proj2 (proj2 (IH (done ++ [m1]))) l1 p0 l2).
Qed.

(** The second loop of [_makeAndConnectParentRepoDatas], for one output
    among configured declarations.  When every parent reference of its
    configuration is the root of a declaration, the output gets as parents, in
    order, for each root the node of the first declaration with that root.  A
    root that no declaration has is a [RuntimeError].  A parent reference that
    is an embedded configuration (what a nested input leaves in the parent list
    of a new output) is an [AttributeError]. *)
Theorem link_output_spec (h : Heap) (inputs outputs : list ArgsAndData)
    (a : ArgsAndData) (rd : RepoData) (c : RepositoryCfg) (l : list ParentVal) :
  forallb (fun d => is_some (cfg_at h (repoData d))) (inputs ++ outputs) = true ->
  a ∈ outputs ->
  h !! repoData a = Some rd ->
  cfg rd = Some c ->
  cfg_parents c = Some l ->
  (forall ms,
     Forall2 (fun p m => exists q, p = PRoot q /\
                                   declared_at h (inputs ++ outputs) q = Some m) l ms ->
     link_output inputs outputs h a = Ret (<[repoData a := add_parents rd ms]> h)) /\
  (forall l1 q l2,
     l = l1 ++ PRoot q :: l2 ->
     Forall (declared_root h (inputs ++ outputs)) l1 ->
     declared_at h (inputs ++ outputs) q = None ->
     link_output inputs outputs h a
     = Raise (RuntimeError "TODO write a good message: could not find parent")) /\
  (forall l1 p l2,
     l = l1 ++ PCfg p :: l2 ->
     Forall (declared_root h (inputs ++ outputs)) l1 ->
     link_output inputs outputs h a
     = Raise (AttributeError "'RepoData' object has no attribute 'repoData'")).
Proof.
  intros Hall Ha Hrd Hc Hl.
  pose proof (link_fold h (inputs ++ outputs) (repoData a) rd l Hrd Hall []) as Hfold.
  cbv zeta in Hfold. rewrite add_parents_nil, list_insert_id in Hfold by exact Hrd.
  cbn [app] in Hfold. destruct Hfold as (H1 & H2 & H3).
  assert (Hunfold : forall r,
            foldM (fun h parent =>
                     parentToAdd ← find_declared h parent (inputs ++ outputs);
                     match parentToAdd with
                     | None =>
                         Raise (RuntimeError "TODO write a good message: could not find parent")
                     | Some p =>
                         Ret (update h (repoData a) (fun rd => addParentRepoData rd p))
                     end) l h = r ->
            link_output inputs outputs h a = r).
  { intros r Hr. unfold link_output. rewrite (deref_some _ _ _ Hrd).
    cbn [mbind outcome_mbind bind]. unfold cfg_of. rewrite Hc.
    cbn [mbind outcome_mbind bind]. unfold iter_parents. rewrite Hl.
    cbn [mbind outcome_mbind bind]. exact Hr. }
  split; [|split].
  - intros ms Hms. apply Hunfold. now apply H1.
  - intros l1 q l2 Hsplit Hl1 Hq. apply Hunfold. now apply (H2 l1 q l2).
  - intros l1 p l2 Hsplit Hl1. apply Hunfold. apply (H3 l1 p l2 Hsplit Hl1).
    intros Hnil. apply app_eq_nil in Hnil as [_ ->]. apply elem_of_nil in Ha. contradiction.
Qed.

End LinkOutputs.

Section ConnectInputs.

Variable getRepositoryCfg : string -> option RepositoryCfg.
Variable isPosix : string -> bool.
Variable v1RepoExists : string -> bool.
Variable getMapperClass : string -> option string.
Variable getParentSymlinkPath : string -> option string.
Variable rk : string -> nat.
Variable universe : list string.
Variable h0 : Heap.

Abbreviation stored := (stored_cfg getRepositoryCfg isPosix v1RepoExists getMapperClass
                          getParentSymlinkPath).
Abbreviation found := (parent_cfg getRepositoryCfg isPosix v1RepoExists getMapperClass
                         getParentSymlinkPath).
Abbreviation connect := (connectParents getRepositoryCfg isPosix v1RepoExists getMapperClass
                           getParentSymlinkPath).
Abbreviation Inv := (connect_inv stored universe h0).
Abbreviation Post := (connect_post stored universe h0).
Abbreviation fresh_node c := (mkRepoData (Some c) None None [] ∅).

Hypothesis Hclosed : closed_lineage stored rk universe = true.

Lemma stored_found q c : stored q = Some c -> found (PRoot q) = Ret c.
Proof. unfold stored_cfg. destruct (found (PRoot q)); congruence. Qed.

Lemma roots_below_spec bound l :
  roots_below rk universe bound l = true ->
  Forall (fun p => exists q, p = PRoot q /\ rk q < bound /\ q ∈ universe) l.
Proof.
  unfold roots_below. rewrite forallb_forall. intros H. apply Forall_forall.
  intros p Hp. specialize (H p (proj1 (list_elem_of_In _ _) Hp)).
  destruct p as [q|c]; [|discriminate]. apply andb_true_iff in H as [Hlt Hin].
  exists q. split; [reflexivity|]. split; [now apply Nat.ltb_lt|].
  now apply bool_decide_eq_true in Hin.
Qed.

Lemma closed_at q :
  q ∈ universe ->
  exists c l, stored q = Some c /\ cfg_parents c = Some l /\
              roots_below rk universe (rk q) l = true.
Proof.
  intros Hq. pose proof Hclosed as H. unfold closed_lineage in H.
  rewrite forallb_forall in H. specialize (H q (proj1 (list_elem_of_In _ _) Hq)).
  cbv beta in H. destruct (stored q) as [c|]; [|discriminate].
  destruct (cfg_parents c) as [l|] eqn:Hl; [|discriminate]. eauto.
Qed.

Lemma lineage_rank_le h n c l bound :
  cfg_at h n = Some c -> cfg_parents c = Some l ->
  roots_below rk universe bound l = true ->
  lineage_rank rk h n <= bound.
Proof.
  intros Hc Hl Hb. unfold lineage_rank. rewrite Hc, Hl.
  apply list_max_le. apply roots_below_spec in Hb.
  apply Forall_forall. intros k Hk. apply list_elem_of_In, in_map_iff in Hk as (p & <- & Hp).
  rewrite Forall_forall in Hb. destruct (Hb p (proj2 (list_elem_of_In _ _) Hp))
    as (q & -> & Hlt & _). lia.
Qed.

Lemma lineage_rank_gt h n c l q :
  cfg_at h n = Some c -> cfg_parents c = Some l -> PRoot q ∈ l ->
  rk q < lineage_rank rk h n.
Proof.
  intros Hc Hl Hq. unfold lineage_rank. rewrite Hc, Hl.
  pose proof (proj1 (list_max_le _ _) (Nat.le_refl
                (list_max (map (fun p => match p with
                                         | PRoot q => S (rk q)
                                         | PCfg _ => 0
                                         end) l)))) as H.
  rewrite Forall_forall in H.
  specialize (H (S (rk q))). apply H. apply list_elem_of_In, in_map_iff.
  exists (PRoot q). split; [reflexivity | now apply list_elem_of_In].
Qed.

Lemma parents_get_None D k : parents_get D k = None <-> k ∉ map fst D.
Proof.
  induction D as [|[k' v'] D IH]; cbn [parents_get map fst].
  - split; [intros _; apply not_elem_of_nil | reflexivity].
  - destruct (pv_eqb k' k) eqn:E.
    + apply pv_eqb_eq in E as ->. split; [discriminate|].
      intros H. exfalso. apply H. apply list_elem_of_here.
    + rewrite IH, not_elem_of_cons. split; [|tauto].
      intros H. split; [|exact H]. intros ->.
      assert (pv_eqb k' k' = true) by now apply pv_eqb_eq. congruence.
Qed.

Lemma parents_get_Some D k v : parents_get D k = Some v -> (k, v) ∈ D.
Proof.
  induction D as [|[k' v'] D IH]; cbn [parents_get]; [discriminate|].
  destruct (pv_eqb k' k) eqn:E.
  - apply pv_eqb_eq in E as ->. intros [= ->]. apply list_elem_of_here.
  - intros H. apply list_elem_of_further. now apply IH.
Qed.

Lemma linked_frame h D h' D' v :
  linked h D v -> D `prefix_of` D' -> h' !! v = h !! v -> linked h' D' v.
Proof.
  intros (c & l & Hc & Hl & Hall) [k ->] Hv. exists c, l.
  unfold cfg_at, parents_of in *. rewrite Hv. split; [exact Hc|]. split; [exact Hl|].
  eapply Forall2_impl; [exact Hall|]. intros p m Hpm. apply elem_of_app. now left.
Qed.

Lemma inv_value_lt h D k v : Inv h D -> (k, v) ∈ D -> length h0 <= v < length h.
Proof.
  intros (Hlen & _ & Hvals & _) Hin.
  assert (Hv : v ∈ map snd D).
  { apply list_elem_of_fmap. exists (k, v). auto. }
  rewrite Hvals in Hv. apply list_elem_of_In, in_seq in Hv. lia.
Qed.

Lemma inv_hit h D n c l q m :
  Inv h D -> cfg_at h n = Some c -> cfg_parents c = Some l ->
  PRoot q ∈ l -> (PRoot q, m) ∈ D ->
  Inv (update h n (fun rd => addParentRepoData rd m)) D.
Proof.
  intros (Hlen & Hold & Hvals & Hnd & Hdict & Hedge) Hc Hl Hq Hm.
  split; [|split; [|split; [|split; [|split]]]].
  - now rewrite length_update.
  - intros x rd0 Hx. destruct (Hold x rd0 Hx) as (rd & Hrd & Hsame).
    rewrite lookup_update. destruct (decide (x = n)) as [->|]; [|eauto].
    rewrite Hrd. eexists. split; [reflexivity|]. exact Hsame.
  - now rewrite length_update.
  - exact Hnd.
  - intros k v Hkv. destruct (Hdict k v Hkv) as (q' & c' & rd & -> & Hu & Hs & Hrd & Hrest).
    exists q', c'. rewrite lookup_update. destruct (decide (v = n)) as [->|].
    + rewrite Hrd. eexists. repeat split; try reflexivity; try assumption; apply Hrest.
    + exists rd. auto.
  - intros x m'. rewrite parents_of_update, cfg_at_update.
    destruct (decide (x = n)) as [->|]; [|apply Hedge].
    destruct (h !! n) as [rdn|] eqn:Hn; [|intros H; apply elem_of_nil in H; contradiction].
    intros H. apply elem_of_app in H as [H|H].
    + apply Hedge. unfold parents_of. now rewrite Hn.
    + apply list_elem_of_singleton in H as ->. exists c, l, q. auto.
Qed.

Lemma inv_miss h D n c l q cq :
  Inv h D -> n < length h -> cfg_at h n = Some c -> cfg_parents c = Some l ->
  PRoot q ∈ l -> q ∈ universe -> stored q = Some cq -> PRoot q ∉ map fst D ->
  Inv (update (h ++ [fresh_node cq]) n (fun rd => addParentRepoData rd (length h)))
      (D ++ [(PRoot q, length h)]).
Proof.
  intros HInv Hn Hc Hl Hq Hu Hs Hfresh.
  pose proof HInv as (Hlen & Hold & Hvals & Hnd & Hdict & Hedge).
  assert (Hne : length h <> n) by lia.
  split; [|split; [|split; [|split; [|split]]]].
  - rewrite length_update, length_app. cbn. lia.
  - intros x rd0 Hx. destruct (Hold x rd0 Hx) as (rd & Hrd & Hsame).
    rewrite lookup_update, (lookup_app_l_Some _ _ _ _ (Hrd)).
    destruct (decide (x = n)) as [->|]; [|eauto].
    rewrite (lookup_app_l_Some _ _ _ _ Hrd). eexists. split; [reflexivity|]. exact Hsame.
  - rewrite length_update, length_app, map_app, Hvals. cbn [map snd length].
    replace (length h + 1 - length h0) with (S (length h - length h0)) by lia.
    rewrite seq_S. do 2 f_equal. lia.
  - rewrite map_app. cbn [map fst]. apply NoDup_app. split; [exact Hnd|]. split.
    + intros x Hx Hx'. apply list_elem_of_singleton in Hx' as ->. contradiction.
    + apply NoDup_singleton.
  - intros k v Hkv. apply elem_of_app in Hkv as [Hkv|Hkv].
    + destruct (Hdict k v Hkv) as (q' & c' & rd & -> & Hu' & Hs' & Hrd & Hrest).
      exists q', c'. rewrite lookup_update.
      destruct (decide (v = n)) as [->|].
      * rewrite (lookup_app_l_Some _ _ _ _ Hrd). eexists.
        repeat split; try reflexivity; try assumption; apply Hrest.
      * rewrite (lookup_app_l_Some _ _ _ _ Hrd). exists rd. auto.
    + apply list_elem_of_singleton in Hkv. injection Hkv as -> ->.
      exists q, cq, (fresh_node cq). rewrite lookup_update.
      destruct (decide (length h = n)); [contradiction|].
      rewrite list_lookup_middle by reflexivity. auto 10.
  - intros x m'. rewrite parents_of_update, cfg_at_update.
    destruct (decide (x = n)) as [->|Hxn].
    + destruct (h !! n) as [rdn|] eqn:Hrdn; [|apply lookup_ge_None in Hrdn; lia].
      rewrite (lookup_app_l_Some _ _ _ _ Hrdn). intros H.
      assert (Hcn : cfg_at (h ++ [fresh_node cq]) n = Some c).
      { unfold cfg_at in *. now rewrite (lookup_app_l_Some _ _ _ _ Hrdn), <- Hc, Hrdn. }
      apply elem_of_app in H as [H|H].
      * destruct (Hedge n m') as (c' & l' & q' & Hc' & Hl' & Hq' & Hm');
          [unfold parents_of; now rewrite Hrdn|].
        assert (c' = c) by congruence. subst c'.
        exists c, l', q'. repeat split; auto. apply elem_of_app. now left.
      * apply list_elem_of_singleton in H as ->. exists c, l, q.
        repeat split; auto. apply elem_of_app. right. apply list_elem_of_here.
    + unfold parents_of, cfg_at. destruct (decide (x < length h)) as [Hlt|Hge].
      * rewrite lookup_app_l by exact Hlt. intros H.
        destruct (Hedge x m' H) as (c' & l' & q' & Hc' & Hl' & Hq' & Hm').
        exists c', l', q'. repeat split; auto. apply elem_of_app. now left.
      * destruct (decide (x = length h)) as [->|Hxl].
        -- rewrite list_lookup_middle by reflexivity. cbn.
           intros H. apply elem_of_nil in H. contradiction.
        -- rewrite lookup_ge_None_2 by (rewrite length_app; cbn; lia).
           intros H. apply elem_of_nil in H. contradiction.
Qed.

Abbreviation body f n :=
  (fun (st : Heap * list (ParentVal * nat)) =>
     let '(h, parents) := st in
     fun (parent : ParentVal) =>
     match parents_get parents parent with
     | Some parentRepoData =>
         Ret (update h n (fun rd => addParentRepoData rd parentRepoData), parents)
     | None =>
         cfg ← found parent;
         let parentRepoData := length h in
         let h := h ++ [mkRepoData (Some cfg) None None [] ∅] in
         let parents := parents ++ [(parent, parentRepoData)] in
         let h := update h n (fun rd => addParentRepoData rd parentRepoData) in
         connect f (h, parents) parentRepoData
     end).

Abbreviation connect_ok f :=
  (forall n h D,
     Inv h D -> n < length h -> parents_of h n = [] ->
     (exists c l, cfg_at h n = Some c /\ cfg_parents c = Some l /\
                  Forall (fun p => exists q, p = PRoot q /\ q ∈ universe) l) ->
     lineage_rank rk h n < f ->
     exists h' D', connect f (h, D) n = Ret (h', D') /\ Post n h D h' D').

Lemma cfg_at_app_l h k n : n < length h -> cfg_at (h ++ k) n = cfg_at h n.
Proof. intros H. unfold cfg_at. now rewrite lookup_app_l. Qed.

Lemma parents_of_lookup h h' n : h' !! n = h !! n -> parents_of h' n = parents_of h n.
Proof. intros H. unfold parents_of. now rewrite H. Qed.

Lemma cfg_at_lookup h h' n : h' !! n = h !! n -> cfg_at h' n = cfg_at h n.
Proof. intros H. unfold cfg_at. now rewrite H. Qed.

Lemma connect_fold f n c l :
  connect_ok f ->
  cfg_parents c = Some l ->
  forall l2 l1 h D,
    l = l1 ++ l2 -> Inv h D -> n < length h -> cfg_at h n = Some c ->
    Forall2 (fun p m => (p, m) ∈ D) l1 (parents_of h n) ->
    Forall (fun p => exists q, p = PRoot q /\ q ∈ universe /\ rk q < f) l2 ->
    exists h' D',
      foldM (body f n) l2 (h, D) = Ret (h', D') /\
      Inv h' D' /\ D `prefix_of` D' /\ length h <= length h' /\
      (forall m, m < length h -> m <> n -> h' !! m = h !! m) /\
      cfg_at h' n = Some c /\
      Forall2 (fun p m => (p, m) ∈ D') l (parents_of h' n) /\
      (forall v, length h <= v < length h' -> linked h' D' v).
Proof.
  intros IHf Hl. induction l2 as [|p l2 IH]; intros l1 h D Hsplit HInv Hn Hc Hdone Htodo.
  - exists h, D. rewrite app_nil_r in Hsplit. subst l1.
    split; [reflexivity|]. split; [exact HInv|]. split; [reflexivity|].
    split; [lia|]. split; [auto|]. split; [exact Hc|]. split; [exact Hdone|].
    intros v Hv. lia.
  - apply Forall_cons in Htodo as [(q & -> & Hu & Hrk) Htodo].
    assert (Hq : PRoot q ∈ l).
    { rewrite Hsplit. apply elem_of_app. right. apply list_elem_of_here. }
    destruct (lookup_lt_is_Some_2 h n Hn) as [rdn Hrdn].
    assert (Hpn : parents_of h n = parentRepoDatas rdn).
    { unfold parents_of. now rewrite Hrdn. }
    assert (Hsplit' : l = (l1 ++ [PRoot q]) ++ l2) by (now rewrite <- app_assoc).
    cbn [foldM]. destruct (parents_get D (PRoot q)) as [m|] eqn:Hget.
    + apply parents_get_Some in Hget.
      cbn [mbind outcome_mbind bind].
      destruct (IH (l1 ++ [PRoot q])
                   (update h n (fun rd => addParentRepoData rd m)) D)
        as (h' & D' & Hrun & HInv' & Hpre & Hlen & Hframe & Hc' & Hall & Hnew); auto.
      * eapply inv_hit; eassumption.
      * now rewrite length_update.
      * now rewrite cfg_at_update.
      * rewrite parents_of_update. destruct (decide (n = n)) as [_|]; [|contradiction].
        rewrite Hrdn. apply Forall2_app; [now rewrite <- Hpn|].
        constructor; [exact Hget | constructor].
      * exists h', D'. rewrite length_update in Hlen, Hframe, Hnew.
        split; [exact Hrun|]. split; [exact HInv'|]. split; [exact Hpre|].
        split; [exact Hlen|]. split; [|auto].
        intros x Hx Hxn. rewrite (Hframe x Hx Hxn), lookup_update.
        destruct (decide (x = n)); [contradiction | reflexivity].
    + apply parents_get_None in Hget.
      destruct (closed_at q Hu) as (cq & lq & Hs & Hlq & Hbelow).
      rewrite (stored_found q cq Hs). cbn [mbind outcome_mbind bind]. cbv zeta.
      set (h1 := h ++ [fresh_node cq]).
      set (h2 := update h1 n (fun rd => addParentRepoData rd (length h))).
      set (D1 := D ++ [(PRoot q, length h)]).
      assert (HInv2 : Inv h2 D1) by (eapply inv_miss; eassumption).
      assert (Hlen2 : length h2 = S (length h)).
      { unfold h2, h1. rewrite length_update, length_app. cbn. lia. }
      assert (Hn1 : h1 !! n = Some rdn) by (now apply lookup_app_l_Some).
      assert (Hm2 : h2 !! length h = Some (fresh_node cq)).
      { unfold h2. rewrite lookup_update.
        destruct (decide (length h = n)); [lia|].
        unfold h1. now rewrite list_lookup_middle. }
      assert (Hn2 : h2 !! n = Some (addParentRepoData rdn (length h))).
      { unfold h2. rewrite lookup_update. destruct (decide (n = n)); [|contradiction].
        now rewrite Hn1. }
      destruct (IHf (length h) h2 D1) as (h3 & D3 & Hrun3 & HPost3); auto.
      * lia.
      * unfold parents_of. now rewrite Hm2.
      * exists cq, lq. split; [unfold cfg_at; now rewrite Hm2|]. split; [exact Hlq|].
        apply roots_below_spec in Hbelow. eapply Forall_impl; [exact Hbelow|].
        intros p (q' & -> & _ & Hu'). eauto.
      * assert (lineage_rank rk h2 (length h) <= rk q); [|lia].
        eapply lineage_rank_le; [unfold cfg_at; now rewrite Hm2 | exact Hlq | exact Hbelow].
      * destruct HPost3 as (HInv3 & Hpre3 & Hlen3 & Hframe3 & Hlinked3 & Hnew3).
        rewrite Hrun3.
        assert (Hn3 : h3 !! n = Some (addParentRepoData rdn (length h))).
        { rewrite Hframe3 by lia. exact Hn2. }
        assert (HD13 : D `prefix_of` D3).
        { transitivity D1; [now apply prefix_app_r | exact Hpre3]. }
        destruct (IH (l1 ++ [PRoot q]) h3 D3)
          as (h' & D' & Hrun & HInv' & Hpre & Hlen & Hframe & Hc' & Hall & Hnew); auto.
        -- lia.
        -- unfold cfg_at in *. rewrite Hn3. rewrite Hrdn in Hc. exact Hc.
        -- unfold parents_of. rewrite Hn3. cbn [addParentRepoData parentRepoDatas].
           apply Forall2_app.
           ++ rewrite <- Hpn. eapply Forall2_impl; [exact Hdone|].
              intros p m Hpm. destruct HD13 as [k ->]. apply elem_of_app. now left.
           ++ constructor; [|constructor]. destruct Hpre3 as [k ->].
              apply elem_of_app. left. apply elem_of_app. right. apply list_elem_of_here.
        -- exists h', D'. split; [exact Hrun|]. split; [exact HInv'|].
           split; [now transitivity D3|]. split; [lia|]. split; [|split; [exact Hc'|split]].
           ++ intros x Hx Hxn. rewrite (Hframe x) by lia. rewrite (Hframe3 x) by lia.
              unfold h2. rewrite lookup_update. destruct (decide (x = n)); [contradiction|].
              unfold h1. now rewrite lookup_app_l.
           ++ exact Hall.
           ++ intros v Hv. destruct (decide (v < length h3)) as [Hlt|Hge]; [|apply Hnew; lia].
              assert (Hv' : linked h3 D3 v).
              { destruct (decide (v = length h)) as [->|]; [exact Hlinked3|].
                apply Hnew3. lia. }
              eapply linked_frame; [exact Hv' | exact Hpre|]. apply Hframe; lia.
Qed.

Lemma connect_spec fuel : connect_ok fuel.
Proof.
  induction fuel as [|f IHf]; intros n h D HInv Hn Hnone (c & l & Hc & Hl & Hroots) Hrank;
    [lia|].
  destruct (lookup_lt_is_Some_2 h n Hn) as [rdn Hrdn].
  assert (Hcr : cfg rdn = Some c) by (unfold cfg_at in Hc; now rewrite Hrdn in Hc).
  destruct (connect_fold f n c l IHf Hl l [] h D)
    as (h' & D' & Hrun & HInv' & Hpre & Hlen & Hframe & Hc' & Hall & Hnew); auto.
  - rewrite Hnone. constructor.
  - apply Forall_forall. intros p Hp. rewrite Forall_forall in Hroots.
    destruct (Hroots p Hp) as (q & -> & Hu). exists q. split; [reflexivity|].
    split; [exact Hu|]. pose proof (lineage_rank_gt h n c l q Hc Hl Hp). lia.
  - exists h', D'. split.
    + cbn [connectParents fst]. rewrite (deref_some _ _ _ Hrdn).
      cbn [mbind outcome_mbind bind]. unfold cfg_of. rewrite Hcr.
      cbn [mbind outcome_mbind bind]. unfold iter_parents. rewrite Hl.
      cbn [mbind outcome_mbind bind]. exact Hrun.
    + split; [exact HInv'|]. split; [exact Hpre|]. split; [exact Hlen|].
      split; [exact Hframe|]. split; [|exact Hnew]. exists c, l. auto.
Qed.

Abbreviation link := (link_output).
Abbreviation connectAll := (_makeAndConnectParentRepoDatas getRepositoryCfg isPosix
                              v1RepoExists getMapperClass getParentSymlinkPath).

Lemma input_lineage_spec fuel a :
  input_lineage rk universe fuel h0 a = true ->
  exists rd c l,
    h0 !! repoData a = Some rd /\ cfg rd = Some c /\ cfg_parents c = Some l /\
    roots_below rk universe (rk (cfg_root c)) l = true /\
    rk (cfg_root c) < fuel /\ parentRepoDatas rd = [].
Proof.
  unfold input_lineage. destruct (h0 !! repoData a) as [rd|] eqn:Hrd; [|discriminate].
  destruct (cfg rd) as [c|] eqn:Hc; [|discriminate].
  destruct (cfg_parents c) as [l|] eqn:Hl; [|discriminate].
  intros H. apply andb_true_iff in H as [H Hp]. apply andb_true_iff in H as [Hb Hf].
  apply Nat.ltb_lt in Hf. apply bool_decide_eq_true in Hp.
  exists rd, c, l. auto 10.
Qed.

Lemma connect_inputs fuel inputs : forall h D,
  Inv h D -> NoDup (map repoData inputs) ->
  Forall (fun a => input_lineage rk universe fuel h0 a = true /\
                   h !! repoData a = h0 !! repoData a) inputs ->
  exists h' D',
    foldM (fun st a => connect fuel st (repoData a)) inputs (h, D) = Ret (h', D') /\
    Inv h' D' /\ D `prefix_of` D' /\ length h <= length h' /\
    (forall m, m < length h -> m ∉ map repoData inputs -> h' !! m = h !! m) /\
    (forall a, a ∈ inputs -> linked h' D' (repoData a)) /\
    (forall v, length h <= v < length h' -> linked h' D' v).
Proof.
  induction inputs as [|a inputs IH]; intros h D HInv Hnd Hall.
  - exists h, D. split; [reflexivity|]. split; [exact HInv|]. split; [reflexivity|].
    split; [lia|]. split; [auto|]. split.
    + intros a Ha. apply elem_of_nil in Ha. contradiction.
    + intros v Hv. lia.
  - cbn [map] in Hnd. apply NoDup_cons in Hnd as [Hfresh Hnd].
    apply Forall_cons in Hall as [[Ha Hsame] Hall].
    destruct (input_lineage_spec fuel a Ha) as (rd & c & l & Hrd0 & Hc & Hl & Hb & Hf & Hp).
    assert (Hrd : h !! repoData a = Some rd) by congruence.
    assert (Hn : repoData a < length h) by (eapply lookup_lt_Some; eassumption).
    assert (Hca : cfg_at h (repoData a) = Some c) by (unfold cfg_at; now rewrite Hrd).
    destruct (connect_spec fuel (repoData a) h D) as (h1 & D1 & Hrun1 & HPost1); auto.
    { unfold parents_of. now rewrite Hrd. }
    { exists c, l. split; [exact Hca|]. split; [exact Hl|].
      apply roots_below_spec in Hb. eapply Forall_impl; [exact Hb|].
      intros p (q & -> & _ & Hu). eauto. }
    { pose proof (lineage_rank_le h (repoData a) c l _ Hca Hl Hb). lia. }
    destruct HPost1 as (HInv1 & Hpre1 & Hlen1 & Hframe1 & Hlinked1 & Hnew1).
    assert (Hlt0 : forall b, b ∈ inputs -> repoData b < length h0).
    { intros b Hb'. rewrite Forall_forall in Hall. destruct (Hall b Hb') as [Hb0 _].
      destruct (input_lineage_spec fuel b Hb0) as (rdb & _ & _ & Hrdb & _).
      eapply lookup_lt_Some; eassumption. }
    assert (Hlen0 : length h0 <= length h) by apply HInv.
    destruct (IH h1 D1 HInv1 Hnd) as (h' & D' & Hrun & HInv' & Hpre & Hlen & Hframe & Hin & Hnew).
    { apply Forall_forall. intros b Hb'. rewrite Forall_forall in Hall.
      destruct (Hall b Hb') as [Hb0 Hbs]. split; [exact Hb0|].
      rewrite <- Hbs. apply Hframe1.
      - specialize (Hlt0 b Hb'). lia.
      - intros E. apply Hfresh. rewrite <- E. apply list_elem_of_fmap. eauto. }
    exists h', D'. cbn [foldM]. rewrite Hrun1. cbn [mbind outcome_mbind bind].
    split; [exact Hrun|]. split; [exact HInv'|]. split; [now transitivity D1|].
    split; [lia|]. split; [|split].
    + intros m Hm Hnot. cbn [map] in Hnot. apply not_elem_of_cons in Hnot as [Hne Hnot].
      rewrite (Hframe m) by (lia || exact Hnot). now apply Hframe1.
    + intros b Hb'. apply elem_of_cons in Hb' as [->|Hb']; [|now apply Hin].
      eapply linked_frame; [exact Hlinked1 | exact Hpre|].
      apply Hframe; [lia | exact Hfresh].
    + intros v Hv. destruct (decide (v < length h1)) as [Hlt|Hge]; [|apply Hnew; lia].
      eapply linked_frame; [apply Hnew1; lia | exact Hpre|].
      apply Hframe; [exact Hlt|]. intros Hv'.
      apply list_elem_of_fmap in Hv' as (b & -> & Hb'). specialize (Hlt0 b Hb'). lia.
Qed.

Lemma declared_at_ext h h' decls q :
  (forall d, d ∈ decls -> cfg_at h' (repoData d) = cfg_at h (repoData d)) ->
  declared_at h' decls q = declared_at h decls q.
Proof.
  unfold declared_at. induction decls as [|d decls IH]; intros Hext; [reflexivity|].
  cbn [List.find]. unfold has_root at 1 3. rewrite (Hext d) by apply list_elem_of_here.
  destruct (match cfg_at h (repoData d) with
            | Some c => String.eqb (cfg_root c) q
            | None => false
            end); [reflexivity|].
  apply IH. intros d' Hd'. apply Hext. now apply list_elem_of_further.
Qed.

Lemma declared_at_elem h decls q m :
  declared_at h decls q = Some m ->
  exists d c, d ∈ decls /\ m = repoData d /\ cfg_at h m = Some c /\ cfg_root c = q.
Proof.
  unfold declared_at. destruct (List.find (has_root h q) decls) as [d|] eqn:E; [|discriminate].
  intros [= <-]. apply List.find_some in E as [Hin Hroot]. unfold has_root in Hroot.
  destruct (cfg_at h (repoData d)) as [c|] eqn:Hc; [|discriminate].
  exists d, c. split; [now apply list_elem_of_In|]. split; [reflexivity|].
  split; [reflexivity|]. now apply String.eqb_eq.
Qed.

Lemma declared_at_exists h decls q :
  existsb (has_root h q) decls = true -> exists m, declared_at h decls q = Some m.
Proof.
  unfold declared_at. intros H. apply existsb_exists in H as (d & Hin & Hd).
  destruct (List.find (has_root h q) decls) as [d'|] eqn:E; [eauto|].
  pose proof (List.find_none _ _ E d Hin). congruence.
Qed.

Lemma output_lineage_spec decls h a :
  output_lineage rk decls h a = true ->
  exists rd c l ms,
    h !! repoData a = Some rd /\ cfg rd = Some c /\ cfg_parents c = Some l /\
    parentRepoDatas rd = [] /\
    Forall (fun p => exists q, p = PRoot q /\ rk q < rk (cfg_root c)) l /\
    Forall2 (fun p m => exists q, p = PRoot q /\ declared_at h decls q = Some m) l ms.
Proof.
  unfold output_lineage. destruct (h !! repoData a) as [rd|] eqn:Hrd; [|discriminate].
  destruct (cfg rd) as [c|] eqn:Hc; [|discriminate].
  destruct (cfg_parents c) as [l|] eqn:Hl; [|discriminate].
  intros H. apply andb_true_iff in H as [H Hp]. apply bool_decide_eq_true in Hp.
  assert (Hms : Forall (fun p => exists q, p = PRoot q /\ rk q < rk (cfg_root c)) l /\
                exists ms, Forall2 (fun p m => exists q, p = PRoot q /\
                                                 declared_at h decls q = Some m) l ms).
  { clear Hl. induction l as [|p l IH]; [split; [constructor | exists []; constructor]|].
    cbn [forallb] in H. apply andb_true_iff in H as [Hp' H].
    destruct (IH H) as [Hlow (ms & Hms)]. destruct p as [q|]; [|discriminate].
    apply andb_true_iff in Hp' as [Hlt Hex]. apply Nat.ltb_lt in Hlt.
    destruct (declared_at_exists h decls q Hex) as [m Hm].
    split; [constructor; eauto|]. exists (m :: ms). constructor; eauto. }
  destruct Hms as [Hlow (ms & Hms)]. exists rd, c, l, ms. auto 10.
Qed.

Lemma link_output_ret h inputs outputs a rd c l ms :
  forallb (fun d => is_some (cfg_at h (repoData d))) (inputs ++ outputs) = true ->
  h !! repoData a = Some rd -> cfg rd = Some c -> cfg_parents c = Some l ->
  Forall2 (fun p m => exists q, p = PRoot q /\
                                declared_at h (inputs ++ outputs) q = Some m) l ms ->
  link inputs outputs h a = Ret (<[repoData a := add_parents rd ms]> h).
Proof.
  intros Hall Hrd Hc Hl Hms.
  pose proof (proj1 (link_fold h (inputs ++ outputs) (repoData a) rd l Hrd Hall []) ms Hms)
    as Hfold.
  rewrite add_parents_nil, list_insert_id in Hfold by exact Hrd. cbn [app] in Hfold.
  unfold link_output. rewrite (deref_some _ _ _ Hrd).
  cbn [mbind outcome_mbind bind]. unfold cfg_of. rewrite Hc.
  cbn [mbind outcome_mbind bind]. unfold iter_parents. rewrite Hl.
  cbn [mbind outcome_mbind bind]. exact Hfold.
Qed.

Lemma link_outputs_fold inputs outputs outs : forall h,
  forallb (fun d => is_some (cfg_at h (repoData d))) (inputs ++ outputs) = true ->
  NoDup (map repoData outs) ->
  Forall (fun o => exists rd c l ms,
            h !! repoData o = Some rd /\ cfg rd = Some c /\ cfg_parents c = Some l /\
            Forall2 (fun p m => exists q, p = PRoot q /\
                                          declared_at h (inputs ++ outputs) q = Some m)
                    l ms) outs ->
  exists h',
    foldM (link inputs outputs) outs h = Ret h' /\
    length h' = length h /\
    (forall m, m ∉ map repoData outs -> h' !! m = h !! m) /\
    (forall o, o ∈ outs ->
       exists rd c l ms,
         h !! repoData o = Some rd /\ cfg rd = Some c /\ cfg_parents c = Some l /\
         Forall2 (fun p m => exists q, p = PRoot q /\
                                       declared_at h (inputs ++ outputs) q = Some m) l ms /\
         h' !! repoData o = Some (add_parents rd ms)).
Proof.
  induction outs as [|o outs IH]; intros h Hcfg Hnd Hall.
  - exists h. split; [reflexivity|]. split; [reflexivity|]. split; [auto|].
    intros o Ho. apply elem_of_nil in Ho. contradiction.
  - cbn [map] in Hnd. apply NoDup_cons in Hnd as [Hfresh Hnd].
    apply Forall_cons in Hall as [(rd & c & l & ms & Hrd & Hc & Hl & Hms) Hall].
    set (h1 := <[repoData o := add_parents rd ms]> h).
    assert (Hext : forall q, declared_at h1 (inputs ++ outputs) q
                             = declared_at h (inputs ++ outputs) q).
    { intros q. now apply declared_at_insert. }
    destruct (IH h1) as (h' & Hrun & Hlen & Hframe & Houts).
    { now apply configured_insert. }
    { exact Hnd. }
    { apply Forall_forall. intros o' Ho'. rewrite Forall_forall in Hall.
      destruct (Hall o' Ho') as (rd' & c' & l' & ms' & Hrd' & Hc' & Hl' & Hms').
      exists rd', c', l', ms'. split.
      - unfold h1. rewrite list_lookup_insert_ne; [exact Hrd'|].
        intros E. apply Hfresh. rewrite E. apply list_elem_of_fmap. eauto.
      - split; [exact Hc'|]. split; [exact Hl'|].
        eapply Forall2_impl; [exact Hms'|]. intros p m (q & -> & Hq).
        exists q. now rewrite Hext. }
    exists h'. cbn [foldM].
    rewrite (link_output_ret h inputs outputs o rd c l ms Hcfg Hrd Hc Hl Hms).
    cbn [mbind outcome_mbind bind]. split; [exact Hrun|].
    split; [rewrite Hlen; apply length_insert|]. split.
    + intros m Hm. cbn [map] in Hm. apply not_elem_of_cons in Hm as [Hne Hm].
      rewrite (Hframe m Hm). unfold h1. now rewrite list_lookup_insert_ne by congruence.
    + intros o' Ho'. apply elem_of_cons in Ho' as [->|Ho'].
      * exists rd, c, l, ms. repeat split; auto.
        rewrite (Hframe _ Hfresh). unfold h1. apply list_lookup_insert_eq.
        eapply lookup_lt_Some; eassumption.
      * destruct (Houts o' Ho') as (rd' & c' & l' & ms' & Hrd' & Hc' & Hl' & Hms' & Hfin).
        assert (Hne : repoData o <> repoData o').
        { intros E. apply Hfresh. rewrite E. apply list_elem_of_fmap. eauto. }
        unfold h1 in Hrd'. rewrite list_lookup_insert_ne in Hrd' by exact Hne.
        exists rd', c', l', ms'. repeat split; auto.
        eapply Forall2_impl; [exact Hms'|]. intros p m (q & -> & Hq).
        exists q. now rewrite <- Hext.
Qed.

Lemma lineage_rank_bound h n c l bound :
  cfg_at h n = Some c -> cfg_parents c = Some l ->
  Forall (fun p => exists q, p = PRoot q /\ rk q < bound) l ->
  lineage_rank rk h n <= bound.
Proof.
  intros Hc Hl Hb. unfold lineage_rank. rewrite Hc, Hl.
  apply list_max_le. apply Forall_forall. intros k Hk.
  apply list_elem_of_In, in_map_iff in Hk as (p & <- & Hp).
  rewrite Forall_forall in Hb. destruct (Hb p (proj2 (list_elem_of_In _ _) Hp))
    as (q & -> & Hlt). lia.
Qed.

Lemma inv_cfg_at h D n : Inv h D -> n < length h0 -> cfg_at h n = cfg_at h0 n.
Proof.
  intros (_ & Hold & _) Hn. destruct (lookup_lt_is_Some_2 h0 n Hn) as [rd0 Hrd0].
  destruct (Hold n rd0 Hrd0) as (rd & Hrd & Hc & _).
  unfold cfg_at. now rewrite Hrd, Hrd0.
Qed.

Lemma no_parents n :
  forallb (fun rd => bool_decide (parentRepoDatas rd = [])) h0 = true ->
  parents_of h0 n = [].
Proof.
  intros H. unfold parents_of. destruct (h0 !! n) as [rd|] eqn:Hn; [|reflexivity].
  rewrite forallb_forall in H.
  specialize (H rd (proj1 (list_elem_of_In _ _) (list_elem_of_lookup_2 _ _ _ Hn))).
  now apply bool_decide_eq_true in H.
Qed.

Abbreviation Result := (connect_result stored universe h0).

Section Run.

Variable fuel : nat.
Variables inputs outputs : list ArgsAndData.
Hypothesis Hnd : NoDup (map repoData (inputs ++ outputs)).
Hypothesis Hin : forallb (input_lineage rk universe fuel h0) inputs = true.
Hypothesis Hout : forallb (output_lineage rk (inputs ++ outputs) h0) outputs = true.
Hypothesis Hnone : forallb (fun rd => bool_decide (parentRepoDatas rd = [])) h0 = true.

Lemma outputs_spec o :
  o ∈ outputs ->
  exists rd c l ms,
    h0 !! repoData o = Some rd /\ cfg rd = Some c /\ cfg_parents c = Some l /\
    parentRepoDatas rd = [] /\
    Forall (fun p => exists q, p = PRoot q /\ rk q < rk (cfg_root c)) l /\
    Forall2 (fun p m => exists q, p = PRoot q /\
                                  declared_at h0 (inputs ++ outputs) q = Some m) l ms.
Proof.
  intros Ho. apply output_lineage_spec. pose proof Hout as H. rewrite forallb_forall in H.
  apply H. now apply list_elem_of_In.
Qed.

Lemma inputs_spec a :
  a ∈ inputs ->
  exists rd c l,
    h0 !! repoData a = Some rd /\ cfg rd = Some c /\ cfg_parents c = Some l /\
    roots_below rk universe (rk (cfg_root c)) l = true /\
    rk (cfg_root c) < fuel /\ parentRepoDatas rd = [].
Proof.
  intros Ha. apply input_lineage_spec. pose proof Hin as H. rewrite forallb_forall in H.
  apply H. now apply list_elem_of_In.
Qed.

Lemma declared_lt d : d ∈ inputs ++ outputs -> repoData d < length h0.
Proof.
  intros Hd. apply elem_of_app in Hd as [Hd|Hd].
  - destruct (inputs_spec d Hd) as (rd & _ & _ & Hrd & _). eapply lookup_lt_Some; eassumption.
  - destruct (outputs_spec d Hd) as (rd & _ & _ & _ & Hrd & _).
    eapply lookup_lt_Some; eassumption.
Qed.

Lemma declared_rank d c :
  d ∈ inputs ++ outputs -> cfg_at h0 (repoData d) = Some c ->
  lineage_rank rk h0 (repoData d) <= rk (cfg_root c).
Proof.
  intros Hd Hc. apply elem_of_app in Hd as [Hd|Hd].
  - destruct (inputs_spec d Hd) as (rdd & cd & ld & Hrdd & Hcd & Hld & Hb & _).
    assert (cd = c) by (unfold cfg_at in Hc; rewrite Hrdd, Hcd in Hc; congruence).
    subst cd. eapply lineage_rank_le; eassumption.
  - destruct (outputs_spec d Hd) as (rdd & cd & ld & _ & Hrdd & Hcd & Hld & _ & Hlow & _).
    assert (cd = c) by (unfold cfg_at in Hc; rewrite Hrdd, Hcd in Hc; congruence).
    subst cd. eapply lineage_rank_bound; eassumption.
Qed.

Lemma connect_run :
  exists h1 D1 h2,
    foldM (fun st a => connect fuel st (repoData a)) inputs (h0, []) = Ret (h1, D1) /\
    foldM (link inputs outputs) outputs h1 = Ret h2 /\
    Result inputs outputs h1 D1 h2.
Proof.
  pose proof Hnd as Hnd'. rewrite map_app in Hnd'.
  apply NoDup_app in Hnd' as (Hndi & Hdisj & Hndo).
  assert (HInv0 : Inv h0 []).
  { split; [lia|]. split; [|split; [|split; [|split]]].
    - intros n rd0 Hn. exists rd0. split; [exact Hn|]. repeat split.
    - now rewrite Nat.sub_diag.
    - constructor.
    - intros k v H. apply elem_of_nil in H. contradiction.
    - intros n m H. rewrite (no_parents n Hnone) in H. apply elem_of_nil in H. contradiction. }
  destruct (connect_inputs fuel inputs h0 [] HInv0 Hndi)
    as (h1 & D1 & Hrun1 & HInv1 & _ & Hlen1 & Hframe1 & Hlinked1 & Hnew1).
  { apply Forall_forall. intros a Ha. pose proof Hin as H. rewrite forallb_forall in H.
    split; [|reflexivity]. apply H. now apply list_elem_of_In. }
  assert (Hcfg1 : forall n, n < length h0 -> cfg_at h1 n = cfg_at h0 n).
  { intros n Hn. now apply (inv_cfg_at h1 D1). }
  assert (Hext1 : forall q, declared_at h1 (inputs ++ outputs) q
                            = declared_at h0 (inputs ++ outputs) q).
  { intros q. apply declared_at_ext. intros d Hd. apply Hcfg1, declared_lt, Hd. }
  assert (Hout1 : forall o, o ∈ outputs -> h1 !! repoData o = h0 !! repoData o).
  { intros o Ho. apply Hframe1.
    - apply declared_lt. apply elem_of_app. now right.
    - intros Hx. apply (Hdisj (repoData o)); [exact Hx|]. apply list_elem_of_fmap. eauto. }
  destruct (link_outputs_fold inputs outputs outputs h1) as (h2 & Hrun2 & Hlen2 & Hframe2 & Houts).
  { apply forallb_forall. intros d Hd. apply list_elem_of_In in Hd.
    rewrite (Hcfg1 _ (declared_lt d Hd)). apply elem_of_app in Hd as [Hd|Hd].
    - destruct (inputs_spec d Hd) as (rd & c & _ & Hrd & Hc & _).
      unfold cfg_at. now rewrite Hrd, Hc.
    - destruct (outputs_spec d Hd) as (rd & c & _ & _ & Hrd & Hc & _).
      unfold cfg_at. now rewrite Hrd, Hc. }
  { exact Hndo. }
  { apply Forall_forall. intros o Ho.
    destruct (outputs_spec o Ho) as (rd & c & l & ms & Hrd & Hc & Hl & _ & _ & Hms).
    exists rd, c, l, ms. rewrite (Hout1 o Ho). repeat split; auto.
    eapply Forall2_impl; [exact Hms|]. intros p m (q & -> & Hq). exists q. now rewrite Hext1. }
  exists h1, D1, h2. split; [exact Hrun1|]. split; [exact Hrun2|].
  split; [exact HInv1|]. split; [exact Hframe1|]. split; [exact Hlinked1|].
  split; [exact Hnew1|]. split; [exact Hlen2|]. split; [exact Hframe2|].
  intros o Ho. destruct (Houts o Ho) as (rd & c & l & ms & Hrd & Hc & Hl & Hms & Hfin).
  destruct (outputs_spec o Ho) as (rd0 & _ & _ & _ & Hrd0 & _ & _ & Hnil & _).
  assert (rd0 = rd) by (rewrite (Hout1 o Ho) in Hrd; congruence). subst rd0.
  exists rd, c, l, ms. repeat split; auto.
  eapply Forall2_impl; [exact Hms|]. intros p m (q & -> & Hq). exists q. now rewrite <- Hext1.
Qed.

Lemma result_cfg_at h1 D1 h2 n :
  Result inputs outputs h1 D1 h2 -> cfg_at h2 n = cfg_at h1 n.
Proof.
  intros (_ & _ & _ & _ & _ & Hframe2 & Houts).
  destruct (decide (n ∈ map repoData outputs)) as [Hx|Hx].
  - apply list_elem_of_fmap in Hx as (o & -> & Ho).
    destruct (Houts o Ho) as (rd & c & l & ms & _ & Hrd & _ & _ & _ & _ & Hfin).
    unfold cfg_at. now rewrite Hfin, Hrd.
  - unfold cfg_at. now rewrite (Hframe2 n Hx).
Qed.

(** Where the links of the result go: from an output to a declared node,
    from any other node to a node made for a root of its parent list; in both
    cases to a node of smaller rank. *)
Lemma result_edge h1 D1 h2 r p :
  Result inputs outputs h1 D1 h2 ->
  p ∈ parents_of h2 r ->
  lineage_rank rk h2 p < lineage_rank rk h2 r /\
  (p ∈ map repoData (inputs ++ outputs) \/ length h0 <= p < length h2).
Proof.
  intros HR Hp.
  assert (Hrank2 : forall n, lineage_rank rk h2 n = lineage_rank rk h1 n).
  { intros n. unfold lineage_rank. now rewrite (result_cfg_at h1 D1 h2 n HR). }
  pose proof HR as (HInv1 & Hframe1 & _ & _ & Hlen2 & Hframe2 & Houts).
  pose proof HInv1 as (Hlen01 & Hold1 & Hvals1 & Hkeys1 & Hdict1 & Hedge1).
  rewrite !Hrank2.
  destruct (decide (r ∈ map repoData outputs)) as [Hx|Hx].
  - apply list_elem_of_fmap in Hx as (o & -> & Ho).
    destruct (Houts o Ho) as (rd & c & l & ms & Hrd0 & Hrd & Hc & Hl & Hnil & Hms & Hfin).
    unfold parents_of in Hp. rewrite Hfin in Hp.
    cbn [add_parents parentRepoDatas] in Hp. rewrite Hnil in Hp. cbn [app] in Hp.
    apply list_elem_of_lookup in Hp as [i Hi].
    destruct (Forall2_lookup_r _ _ _ _ _ Hms Hi) as (x & Hxi & (q & -> & Hq)).
    apply list_elem_of_lookup_2 in Hxi.
    assert (Hco : cfg_at h1 (repoData o) = Some c) by (unfold cfg_at; now rewrite Hrd).
    pose proof (lineage_rank_gt h1 (repoData o) c l q Hco Hl Hxi) as Hgt.
    apply declared_at_elem in Hq as (d & cd & Hd & -> & Hcd & Hroot).
    split.
    + assert (lineage_rank rk h1 (repoData d) <= rk q); [|lia].
      assert (Hr1 : lineage_rank rk h1 (repoData d) = lineage_rank rk h0 (repoData d)).
      { unfold lineage_rank. now rewrite (inv_cfg_at h1 D1 _ HInv1 (declared_lt d Hd)). }
      rewrite Hr1, <- Hroot. now apply declared_rank.
    + left. apply list_elem_of_fmap. eauto.
  - unfold parents_of in Hp. rewrite (Hframe2 r Hx) in Hp.
    destruct (Hedge1 r p Hp) as (c & l & q & Hc & Hl & Hq & Hqp).
    pose proof (lineage_rank_gt h1 r c l q Hc Hl Hq) as Hgt.
    destruct (Hdict1 _ _ Hqp) as (q' & c' & rd & [= <-] & Hu & Hs & Hrd & Hcr & _).
    destruct (closed_at q Hu) as (cq & lq & Hs' & Hlq & Hb).
    assert (cq = c') by congruence. subst cq.
    split.
    + assert (lineage_rank rk h1 p <= rk q); [|lia].
      eapply lineage_rank_le; [|exact Hlq | exact Hb].
      unfold cfg_at. now rewrite Hrd.
    + right. rewrite Hlen2. apply (inv_value_lt h1 D1 _ _ HInv1 Hqp).
Qed.

(** [_makeAndConnectParentRepoDatas] over a closed, well-founded persisted
    lineage.  When the repositories of [universe] are on storage with parent
    lists of roots of [universe], a rank [rk] of the roots decreasing from
    each to its parents; the inputs have parent lists of such roots and the
    outputs parent lists of roots of declarations, ranked below their own; the
    declarations have nodes of their own and no node has parents yet: then the
    call returns.  The nodes that were there are kept, changed at most in
    their parents, and not at all unless they are declared.  The nodes it makes
    are the new indices, one for every root met (a root met again gets the
    same node), each with the configuration stored at its root and nothing
    else.  Every input and every new node has as parents, in the order of its
    parent list, the nodes of those roots; every output has the nodes of the
    first declarations with those roots.  And the graph is acyclic. *)
Theorem connect_lineage :
  exists h' news D,
    connectAll fuel h0 inputs outputs = Ret (h', news) /\
    length h0 <= length h' /\
    (forall n rd, h0 !! n = Some rd ->
       exists rd', h' !! n = Some rd' /\ same_but_parents rd rd' /\
                   (n ∉ map repoData (inputs ++ outputs) -> rd' = rd)) /\
    news = list_to_set (map snd D) /\
    map snd D = seq (length h0) (length h' - length h0) /\
    NoDup (map fst D) /\
    (forall k v, (k, v) ∈ D ->
       exists q c rd,
         k = PRoot q /\ q ∈ universe /\ stored q = Some c /\
         h' !! v = Some rd /\ cfg rd = Some c /\ cfgOrigin rd = None /\
         cfgRoot rd = None /\ tags rd = ∅) /\
    (forall n, n ∈ map repoData inputs \/ length h0 <= n < length h' -> linked h' D n) /\
    (forall o, o ∈ outputs ->
       exists c l,
         cfg_at h' (repoData o) = Some c /\ cfg_parents c = Some l /\
         Forall2 (fun p m => exists q, p = PRoot q /\
                                       declared_at h0 (inputs ++ outputs) q = Some m)
                 l (parents_of h' (repoData o))) /\
    acyclic (lineage_rank rk h') h'.
Proof.
  destruct connect_run as (h1 & D1 & h2 & Hrun1 & Hrun2 & HR).
  pose proof HR as (HInv1 & Hframe1 & Hlinked1 & Hnew1 & Hlen2 & Hframe2 & Houts).
  pose proof HInv1 as (Hlen01 & Hold1 & Hvals1 & Hkeys1 & Hdict1 & Hedge1).
  pose proof Hnd as Hnd'. rewrite map_app in Hnd'.
  apply NoDup_app in Hnd' as (Hndi & Hdisj & Hndo).
  assert (Hnot_out : forall n, length h0 <= n -> n ∉ map repoData outputs).
  { intros n Hn Hx. apply list_elem_of_fmap in Hx as (o & -> & Ho).
    assert (repoData o < length h0); [|lia]. apply declared_lt. apply elem_of_app. now right. }
  exists h2, (list_to_set (map snd D1)), D1.
  split; [|split; [|split; [|split; [|split; [|split; [|split; [|split; [|split]]]]]]]].
  - unfold _makeAndConnectParentRepoDatas. rewrite Hrun1.
    cbn [mbind outcome_mbind bind fst snd]. rewrite Hrun2. reflexivity.
  - lia.
  - intros n rd Hn. destruct (Hold1 n rd Hn) as (rd1 & Hrd1 & Hsame1).
    assert (Hnlt : n < length h0) by (eapply lookup_lt_Some; eassumption).
    destruct (decide (n ∈ map repoData outputs)) as [Hx|Hx].
    + apply list_elem_of_fmap in Hx as (o & -> & Ho).
      destruct (Houts o Ho) as (rd' & c & l & ms & _ & Hrd' & _ & _ & _ & _ & Hfin).
      assert (rd' = rd1) by congruence. subst rd'.
      exists (add_parents rd1 ms). split; [exact Hfin|]. split; [exact Hsame1|].
      intros Hno. exfalso. apply Hno. rewrite map_app. apply elem_of_app. right.
      apply list_elem_of_fmap. eauto.
    + exists rd1. rewrite (Hframe2 n Hx). split; [exact Hrd1|]. split; [exact Hsame1|].
      intros Hno. rewrite map_app in Hno. apply not_elem_of_app in Hno as [Hni _].
      rewrite (Hframe1 n Hnlt Hni) in Hrd1. congruence.
  - reflexivity.
  - now rewrite Hlen2.
  - exact Hkeys1.
  - intros k v Hkv. destruct (Hdict1 k v Hkv) as (q & c & rd & Hk & Hu & Hs & Hrd & Hrest).
    exists q, c, rd. rewrite Hframe2; [auto|].
    apply Hnot_out. apply (inv_value_lt h1 D1 k v HInv1 Hkv).
  - intros n Hn.
    assert (Hl1 : linked h1 D1 n).
    { destruct Hn as [Hn|Hn]; [|apply Hnew1; lia].
      apply list_elem_of_fmap in Hn as (a & -> & Ha). now apply Hlinked1. }
    eapply linked_frame; [exact Hl1 | reflexivity|]. apply Hframe2.
    destruct Hn as [Hn|Hn]; [|apply Hnot_out; lia].
    intros Hx. now apply (Hdisj n).
  - intros o Ho.
    destruct (Houts o Ho) as (rd & c & l & ms & _ & Hrd & Hc & Hl & Hnil & Hms & Hfin).
    exists c, l. unfold cfg_at, parents_of. rewrite Hfin.
    cbn [add_parents cfg parentRepoDatas]. rewrite Hnil. cbn [app]. auto.
  - intros r p Hp. apply (result_edge h1 D1 h2 r p HR Hp).
Qed.

Lemma foldl_add (l : list ArgsAndData) : forall c,
  let c' := foldl (fun c a => add c (repoData a)) c l in
  _inputs c' = _inputs c /\ _outputs c' = _outputs c /\
  _all c' = list_to_set (map repoData l) ∪ _all c.
Proof.
  cbv zeta. induction l as [|a l IH]; intros c; cbn [foldl map list_to_set].
  - repeat split. set_solver.
  - destruct (IH (add c (repoData a))) as (Hi & Ho & Ha). rewrite Hi, Ho, Ha.
    cbn [add _inputs _outputs _all]. repeat split. set_solver.
Qed.

Lemma set_fold_add (X : gset nat) (c : RepoDataContainer) :
  let c' := set_fold (fun r c => add c r) c X in
  _inputs c' = _inputs c /\ _outputs c' = _outputs c /\ _all c' = X ∪ _all c.
Proof.
  cbv zeta.
  apply (set_fold_ind_L (fun c' X => _inputs c' = _inputs c /\ _outputs c' = _outputs c /\
                                     _all c' = X ∪ _all c)).
  - repeat split. set_solver.
  - intros x Y r _ (Hi & Ho & Ha). cbn [add _inputs _outputs _all].
    rewrite Ha. repeat split; auto. set_solver.
Qed.

(** The part of [__init__] from [_makeAndConnectParentRepoDatas] to
    [_setRepoDataTags], over a closed, well-founded persisted lineage with
    fuel above the ranks: it returns.  The container holds the declared nodes
    and the nodes made for parents, nothing else; its input list has no node
    twice, consists of the nodes that can be reached from a readable output or
    an input, and all of them are in the container; its output list is the
    declared outputs; and every node carries the tags of every declaration
    from which it can be reached. *)
Theorem init_graph_returns :
  forallb (fun a => (lineage_rank rk h0 (repoData a) <? fuel)%nat) outputs = true ->
  exists h' repos order,
    Butler_init_graph getRepositoryCfg isPosix v1RepoExists getMapperClass
      getParentSymlinkPath fuel h0 inputs outputs = Ret (h', repos) /\
    _inputs repos = Some order /\
    _outputs repos = Some (map repoData outputs) /\
    NoDup order /\
    (forall n, n ∈ order <-> exists r, r ∈ lookup_roots inputs outputs /\ reach h' r n) /\
    (forall n, n ∈ _all repos <->
               n ∈ map repoData (inputs ++ outputs) \/ length h0 <= n < length h') /\
    (forall n, n ∈ order -> n ∈ _all repos) /\
    (forall a n rd, a ∈ outputs ++ inputs -> reach h' (repoData a) n ->
                    h' !! n = Some rd -> args_tags (repoArgs a) ⊆ tags rd).
Proof.
  intros Hofuel.
  destruct connect_run as (h1 & D1 & h2 & Hrun1 & Hrun2 & HR).
  pose proof HR as (HInv1 & _ & _ & _ & Hlen2 & _ & _).
  pose proof HInv1 as (Hlen01 & _ & Hvals1 & _).
  set (rank := lineage_rank rk h2).
  assert (Hacyc : acyclic rank h2).
  { intros r p Hp. apply (result_edge h1 D1 h2 r p HR Hp). }
  assert (Hrank0 : forall d, d ∈ inputs ++ outputs -> rank (repoData d) < fuel).
  { intros d Hd. unfold rank, lineage_rank.
    rewrite (result_cfg_at h1 D1 h2 _ HR), (inv_cfg_at h1 D1 _ HInv1 (declared_lt d Hd)).
    fold (lineage_rank rk h0 (repoData d)).
    pose proof Hd as Hd'. apply elem_of_app in Hd' as [Hi|Ho].
    - destruct (inputs_spec d Hi) as (rd & c & l & Hrd & Hc & _ & _ & Hf & _).
      assert (Hcd : cfg_at h0 (repoData d) = Some c) by (unfold cfg_at; now rewrite Hrd, Hc).
      pose proof (declared_rank d c Hd Hcd). lia.
    - rewrite forallb_forall in Hofuel. apply Nat.ltb_lt, Hofuel. now apply list_elem_of_In. }
  assert (Hroots : forall r, r ∈ lookup_roots inputs outputs ->
                             exists d, d ∈ inputs ++ outputs /\ r = repoData d).
  { intros r Hr. unfold lookup_roots in Hr. apply list_elem_of_fmap in Hr as (d & -> & Hd).
    exists d. split; [|reflexivity]. apply elem_of_app in Hd as [Hd|Hd].
    - apply elem_of_app. right. apply list_elem_of_In, filter_In in Hd as [Hd _].
      now apply list_elem_of_In.
    - apply elem_of_app. now left. }
  assert (Hrk : forall r, r ∈ lookup_roots inputs outputs -> rank r < fuel).
  { intros r Hr. destruct (Hroots r Hr) as (d & Hd & ->). now apply Hrank0. }
  set (news := list_to_set (map snd D1) : gset nat).
  set (repos0 := set_fold (fun r c => add c r)
                   (foldl (fun c a => add c (repoData a)) RepoDataContainer_init
                          (inputs ++ outputs)) news).
  destruct (set_fold_add news (foldl (fun c a => add c (repoData a)) RepoDataContainer_init
                                     (inputs ++ outputs))) as (Hi0 & Ho0 & Ha0).
  destruct (foldl_add (inputs ++ outputs) RepoDataContainer_init) as (Hi1 & Ho1 & Ha1).
  fold repos0 in Hi0, Ho0, Ha0. rewrite Hi1 in Hi0. rewrite Ho1 in Ho0. rewrite Ha1 in Ha0.
  cbn [RepoDataContainer_init _inputs _outputs _all] in Hi0, Ho0, Ha0.
  set (order := first_occurrences ∅
                  (flat_map (traversal fuel h2) (lookup_roots inputs outputs))).
  assert (Hbuild : _buildLookupLists fuel h2 repos0 inputs outputs
                   = Ret (mkContainer (Some order) (Some (map repoData outputs))
                                      (_all repos0))).
  { rewrite buildLookupLists_fold by assumption.
    rewrite (addToList_fold h2 rank Hacyc).
    - reflexivity.
    - exact Hrk.
    - intros p Hp. apply (addToList_spec h2 rank Hacyc). now apply Hrk.
    - intros p _ x Hx. apply not_elem_of_empty in Hx. contradiction. }
  destruct (setRepoDataTags_fold rank fuel (outputs ++ inputs)) with (h := h2)
    as (h3 & Hrun3 & Hle & Htag); [|exact Hacyc|].
  { intros a Ha. apply Hrank0. apply elem_of_app in Ha as [Ha|Ha]; apply elem_of_app; auto. }
  assert (Hreach : forall r n, reach h3 r n <-> reach h2 r n).
  { intros r n. symmetry. now apply heap_le_reach. }
  assert (Hlen3 : length h3 = length h2) by apply Hle.
  assert (Hall : forall n, n ∈ _all repos0 <->
                 n ∈ map repoData (inputs ++ outputs) \/ length h0 <= n < length h3).
  { intros n. rewrite Ha0. unfold news.
    rewrite !elem_of_union, !elem_of_list_to_set, Hvals1.
    rewrite Hlen3, Hlen2. rewrite list_elem_of_In, in_seq.
    split; [intros [H|[H|H]] | intros [H|H]]; auto.
    - right. lia.
    - apply not_elem_of_empty in H. contradiction.
    - left. lia. }
  assert (Hclosed_reach : forall r n, reach h2 r n ->
            r ∈ map repoData (inputs ++ outputs) \/ length h0 <= r < length h2 ->
            n ∈ map repoData (inputs ++ outputs) \/ length h0 <= n < length h2).
  { intros r n Hrn. induction Hrn as [r|r p n Hp _ IH]; [auto|].
    intros _. apply IH. apply (result_edge h1 D1 h2 r p HR Hp). }
  assert (Horder : forall n, n ∈ order <->
                   exists r, r ∈ lookup_roots inputs outputs /\ reach h2 r n).
  { intros n. unfold order. rewrite elem_of_first_occurrences. split.
    - intros [Hn _]. apply list_elem_of_In, in_flat_map in Hn as (r & Hr & Hn).
      exists r. split; [now apply list_elem_of_In|].
      eapply traversal_reach, list_elem_of_In, Hn.
    - intros (r & Hr & Hn). split; [|apply not_elem_of_empty].
      apply list_elem_of_In, in_flat_map. exists r.
      split; [now apply list_elem_of_In|].
      apply list_elem_of_In. apply (reach_traversal h2 rank Hacyc); [exact Hn|].
      now apply Hrk. }
  exists h3, (mkContainer (Some order) (Some (map repoData outputs)) (_all repos0)), order.
  split; [|split; [|split; [|split; [|split; [|split; [|split]]]]]].
  - unfold Butler_init_graph, _makeAndConnectParentRepoDatas. rewrite Hrun1.
    cbn [mbind outcome_mbind bind fst snd]. rewrite Hrun2.
    cbn [mbind outcome_mbind bind fst snd]. cbv zeta.
    fold news. fold repos0. rewrite Hbuild. cbn [mbind outcome_mbind bind].
    unfold _setRepoDataTags. rewrite Hrun3. reflexivity.
  - reflexivity.
  - reflexivity.
  - apply NoDup_first_occurrences.
  - intros n. rewrite Horder. split; intros (r & Hr & Hn); exists r; split; auto;
      now apply Hreach.
  - exact Hall.
  - intros n Hn. cbn [_all]. apply Hall. rewrite Hlen3.
    apply Horder in Hn as (r & Hr & Hn). apply (Hclosed_reach r n Hn).
    left. destruct (Hroots r Hr) as (d & Hd & ->). apply list_elem_of_fmap. eauto.
  - intros a n rd Ha Hr Hn. apply (Htag a Ha n rd); [|exact Hn]. now apply Hreach.
Qed.

End Run.

End ConnectInputs.

Lemma connect_lineage_witness :
  exists h' news (D : list (ParentVal * nat)),
    _makeAndConnectParentRepoDatas chain_disk no_path no_path no_name no_name
      3 chain_heap [chain_input] [chain_output] = Ret (h', news) /\
    length chain_heap <= length h' /\
    acyclic (lineage_rank chain_rank h') h' /\
    map snd D = seq (length chain_heap) (length h' - length chain_heap).
Proof.
  destruct (connect_lineage chain_disk no_path no_path no_name no_name chain_rank
              ["in"; "in1"; "in2"] chain_heap eq_refl 3 [chain_input] [chain_output]
              ltac:(repeat constructor; set_solver) eq_refl eq_refl eq_refl)
    as (h' & news & D & Hrun & Hlen & _ & _ & Hvals & _ & _ & _ & _ & Hacyc).
  exists h', news, D. auto.
Defined.

Lemma link_output_spec_witness :
  link_output [chain_input] [chain_output] chain_heap chain_output
  = Ret (<[1 := add_parents
                  (mkRepoData (Some (mkCfg "new" (Some "MapperA") None (Some [PRoot "in"])))
                              (Some new) (Some "new") [] ∅) [0]]> chain_heap).
Proof.
  apply (proj1 (link_output_spec chain_heap [chain_input] [chain_output] chain_output
                  (mkRepoData (Some (mkCfg "new" (Some "MapperA") None (Some [PRoot "in"])))
                              (Some new) (Some "new") [] ∅)
                  (mkCfg "new" (Some "MapperA") None (Some [PRoot "in"]))
                  [PRoot "in"]
                  eq_refl ltac:(apply list_elem_of_here) eq_refl eq_refl eq_refl)).
  constructor; [|constructor]. exists "in". split; reflexivity.
Defined.

Lemma init_graph_returns_witness :
  exists h' repos order,
    Butler_init_graph chain_disk no_path no_path no_name no_name
      3 chain_heap [chain_input] [chain_output] = Ret (h', repos) /\
    _inputs repos = Some order /\
    _outputs repos = Some (map repoData [chain_output]) /\
    NoDup order /\
    (forall n, n ∈ order -> n ∈ _all repos).
Proof.
  destruct (init_graph_returns chain_disk no_path no_path no_name no_name chain_rank
              ["in"; "in1"; "in2"] chain_heap eq_refl 3 [chain_input] [chain_output]
              ltac:(repeat constructor; set_solver) eq_refl eq_refl eq_refl eq_refl)
    as (h' & repos & order & Hrun & Hi & Ho & Hnd & _ & _ & Hsub & _).
  exists h', repos, order. auto.
Defined.
